(** * JSONK: a shallow embedding of jsonk.c / jsonk.h

    The development follows the C sources function by function.

    Modelling conventions
    - A [char] is a byte, kept as a [Z] in [0, 256) (the kernel is built
      with unsigned plain [char]).  A [const char *] together with its
      length is a [list char].
    - [s64] and [u32] arithmetic is done in [Z] with the wrap-around
      written out ([wrap64], [wrap32]); the kernel is built with
      [-fno-strict-overflow], so signed overflow wraps.
    - [size_t] positions and lengths are [nat]; the byte budget and the
      limits are [Z].
    - The intrusive member and element lists are Rocq lists in list
      order; the cached [size] field is the length of the list.
    - Reference counts are not represented: every value of the tree has
      exactly one owner in the code paths modelled here, so releasing a
      value is dropping it from the tree.
    - The host allocator ([kmalloc], [vmalloc], the slab caches) is
      assumed to succeed; the per-parse byte budget is modelled. *)

From Stdlib Require Import String Ascii ZArith List Bool Lia.
Import ListNotations.
Local Open Scope Z_scope.
#[local] Set Warnings "-register-all".

(** ** Bytes *)

Definition char := Z.

Definition ch (a : ascii) : char := Z.of_N (N_of_ascii a).

Definition CH_NUL : char := 0.
Definition CH_BS : char := 8.          (* '\b' *)
Definition CH_TAB : char := 9.         (* '\t' *)
Definition CH_LF : char := 10.         (* '\n' *)
Definition CH_FF : char := 12.         (* '\f' *)
Definition CH_CR : char := 13.         (* '\r' *)
Definition CH_SPACE : char := 32.
Definition CH_QUOTE : char := 34.      (* the double quote *)
Definition CH_PLUS : char := 43.
Definition CH_COMMA : char := 44.
Definition CH_MINUS : char := 45.
Definition CH_DOT : char := 46.
Definition CH_SLASH : char := 47.
Definition CH_0 : char := 48.
Definition CH_1 : char := 49.
Definition CH_9 : char := 57.
Definition CH_COLON : char := 58.
Definition CH_A : char := 65.
Definition CH_E : char := 69.
Definition CH_F : char := 70.
Definition CH_LBRACKET : char := 91.
Definition CH_BACKSLASH : char := 92.
Definition CH_RBRACKET : char := 93.
Definition CH_a : char := 97.
Definition CH_b : char := 98.
Definition CH_e : char := 101.
Definition CH_f : char := 102.
Definition CH_n : char := 110.
Definition CH_r : char := 114.
Definition CH_t : char := 116.
Definition CH_u : char := 117.
Definition CH_LBRACE : char := 123.
Definition CH_RBRACE : char := 125.

(** C string literals of the tests, as byte lists. *)
Fixpoint bytes (s : string) : list char :=
  match s with
  | EmptyString => []
  | String a r => ch a :: bytes r
  end.

(** JSON text written with apostrophes in place of double quotes. *)
Definition json (s : string) : list char :=
  map (fun c => if c =? 39 then CH_QUOTE else c) (bytes s).

Definition is_digit (c : char) : bool := (CH_0 <=? c) && (c <=? CH_9).

(** ** Limits and error numbers (jsonk.h, errno.h) *)

Definition JSONK_MAX_DEPTH : Z := 32.
Definition JSONK_MAX_STRING_LENGTH : Z := 1024 * 1024.
Definition JSONK_MAX_ARRAY_SIZE : Z := 10000.
Definition JSONK_MAX_OBJECT_MEMBERS : Z := 1000.
Definition JSONK_MAX_TOTAL_MEMORY : Z := 64 * 1024 * 1024.
Definition JSONK_MAX_KEY_LENGTH : Z := 256.

Definition ENOENT : Z := 2.
Definition ENOMEM : Z := 12.
Definition EINVAL : Z := 22.
Definition ENOSPC : Z := 28.
Definition ENODATA : Z := 61.
Definition EOVERFLOW : Z := 75.

(** [sizeof] of the three node types on an LP64 kernel. *)
Definition sizeof_jsonk_value : Z := 32.
Definition sizeof_jsonk_member : Z := 40.
Definition sizeof_jsonk_array_element : Z := 24.

Definition S64_MAX : Z := 9223372036854775807.
Definition S64_MIN : Z := - 9223372036854775808.
Definition UINT_MAX : Z := 4294967295.

Definition wrap64 (z : Z) : Z := (z + 2 ^ 63) mod 2 ^ 64 - 2 ^ 63.
Definition wrap_u64 (z : Z) : Z := z mod 2 ^ 64.
Definition wrap32 (z : Z) : Z := z mod 2 ^ 32.

(** ** Results

    An [int] function returns [OK] with its outputs or [ERR] with the
    negative errno. *)

Inductive status (A : Type) : Type :=
| OK (a : A)
| ERR (code : Z).
Arguments OK {A} a.
Arguments ERR {A} code.

(** ** Tokens and the parser context (jsonk.h) *)

Inductive jsonk_token_type : Type :=
| JSONK_TOKEN_NONE
| JSONK_TOKEN_OBJECT_START
| JSONK_TOKEN_OBJECT_END
| JSONK_TOKEN_ARRAY_START
| JSONK_TOKEN_ARRAY_END
| JSONK_TOKEN_COLON
| JSONK_TOKEN_COMMA
| JSONK_TOKEN_STRING
| JSONK_TOKEN_NUMBER
| JSONK_TOKEN_TRUE
| JSONK_TOKEN_FALSE
| JSONK_TOKEN_NULL
| JSONK_TOKEN_ERROR.

(** [tk_start] is the offset of [token.start] in the input buffer. *)
Record jsonk_token : Type := mk_token {
  tk_type : jsonk_token_type;
  tk_start : nat;
  tk_len : nat
}.

Record jsonk_parser : Type := mk_parser {
  buffer : list char;
  pos : nat;
  depth : Z;
  total_memory_used : Z;
  string_count : Z;
  array_count : Z;
  object_count : Z
}.

Definition buffer_len (p : jsonk_parser) : nat := length (buffer p).

Definition set_pos (p : jsonk_parser) (n : nat) : jsonk_parser :=
  mk_parser (buffer p) n (depth p) (total_memory_used p)
            (string_count p) (array_count p) (object_count p).

Definition set_depth (p : jsonk_parser) (d : Z) : jsonk_parser :=
  mk_parser (buffer p) (pos p) d (total_memory_used p)
            (string_count p) (array_count p) (object_count p).

Definition add_memory (p : jsonk_parser) (size : Z) : jsonk_parser :=
  mk_parser (buffer p) (pos p) (depth p) (total_memory_used p + size)
            (string_count p) (array_count p) (object_count p).

Definition incr_string_count (p : jsonk_parser) : jsonk_parser :=
  mk_parser (buffer p) (pos p) (depth p) (total_memory_used p)
            (string_count p + 1) (array_count p) (object_count p).

Definition jsonk_parser_init (buf : list char) : jsonk_parser :=
  mk_parser buf 0 0 0 0 0 0.

(** The unread input, [buffer + pos] up to [buffer_len]. *)
Definition rest (p : jsonk_parser) : list char := skipn (pos p) (buffer p).

(** ** Parser utilities (jsonk.h) *)

Definition jsonk_is_whitespace (c : char) : bool :=
  (c =? CH_SPACE) || (c =? CH_TAB) || (c =? CH_LF) || (c =? CH_CR).

Fixpoint skip_whitespace_from (l : list char) (n : nat) : nat :=
  match l with
  | [] => n
  | c :: l' => if jsonk_is_whitespace c then skip_whitespace_from l' (S n) else n
  end.

Definition jsonk_skip_whitespace (p : jsonk_parser) : jsonk_parser :=
  set_pos p (skip_whitespace_from (rest p) (pos p)).

Definition jsonk_peek_char (p : jsonk_parser) : char :=
  match rest p with
  | [] => CH_NUL
  | c :: _ => c
  end.

(** ** Token scanner (jsonk.c) *)

Definition is_hex_digit (c : char) : bool :=
  is_digit c || ((CH_a <=? c) && (c <=? CH_f)) || ((CH_A <=? c) && (c <=? CH_F)).

Definition is_simple_escape (c : char) : bool :=
  (c =? CH_QUOTE) || (c =? CH_BACKSLASH) || (c =? CH_SLASH) || (c =? CH_b) ||
  (c =? CH_f) || (c =? CH_n) || (c =? CH_r) || (c =? CH_t).

(** The scanning loop of [jsonk_parse_string]: [l] is the input from
    position [n] on; the result is the position of the closing quote. *)
Fixpoint scan_string (l : list char) (n : nat) : status nat :=
  match l with
  | [] => ERR (- EINVAL)
  | c :: l1 =>
    if c =? CH_QUOTE then OK n
    else if c =? CH_BACKSLASH then
      match l1 with
      | [] => ERR (- EINVAL)
      | e :: l2 =>
        if is_simple_escape e then scan_string l2 (n + 2)%nat
        else if e =? CH_u then
          match l2 with
          | h1 :: h2 :: h3 :: h4 :: l3 =>
            if is_hex_digit h1 && is_hex_digit h2 && is_hex_digit h3 && is_hex_digit h4
            then scan_string l3 (n + 6)%nat
            else ERR (- EINVAL)
          | _ => ERR (- EINVAL)
          end
        else ERR (- EINVAL)
      end
    else if c <? 32 then ERR (- EINVAL)
    else scan_string l1 (n + 1)%nat
  end.

Definition jsonk_parse_string (p : jsonk_parser) : status (jsonk_token * jsonk_parser) :=
  let p := set_pos p (pos p + 1)%nat in
  let start_pos := pos p in
  match scan_string (rest p) (pos p) with
  | OK q => OK (mk_token JSONK_TOKEN_STRING start_pos (q - start_pos)%nat,
                set_pos p (q + 1)%nat)
  | ERR e => ERR e
  end.

Fixpoint skip_digits_from (l : list char) (n : nat) : nat :=
  match l with
  | [] => n
  | c :: l' => if is_digit c then skip_digits_from l' (S n) else n
  end.

Definition skip_digits (p : jsonk_parser) : jsonk_parser :=
  set_pos p (skip_digits_from (rest p) (pos p)).

Definition advance (p : jsonk_parser) : jsonk_parser := set_pos p (S (pos p)).

(** [parser->pos < parser->buffer_len && parser->buffer[parser->pos] == c] *)
Definition at_char (p : jsonk_parser) (c : char) : bool :=
  match rest p with
  | [] => false
  | x :: _ => x =? c
  end.

(** [pos >= buffer_len || buffer[pos] < '0' || buffer[pos] > '9'] *)
Definition no_digit_here (p : jsonk_parser) : bool :=
  match rest p with
  | [] => true
  | x :: _ => negb (is_digit x)
  end.

Definition number_fraction (p : jsonk_parser) : status jsonk_parser :=
  if at_char p CH_DOT then
    let p := advance p in
    if no_digit_here p then ERR (- EINVAL) else OK (skip_digits p)
  else OK p.

Definition number_exponent (p : jsonk_parser) : status jsonk_parser :=
  if at_char p CH_e || at_char p CH_E then
    let p := advance p in
    let p := if at_char p CH_PLUS || at_char p CH_MINUS then advance p else p in
    if no_digit_here p then ERR (- EINVAL) else OK (skip_digits p)
  else OK p.

Definition number_integer (p : jsonk_parser) : status jsonk_parser :=
  let c := jsonk_peek_char p in
  if c =? CH_0 then
    let p := advance p in
    let c := jsonk_peek_char p in
    if is_digit c then ERR (- EINVAL) else OK p
  else if (CH_1 <=? c) && (c <=? CH_9) then
    OK (skip_digits (advance p))
  else ERR (- EINVAL).

Definition jsonk_parse_number (p : jsonk_parser) : status (jsonk_token * jsonk_parser) :=
  let start_pos := pos p in
  let p := if jsonk_peek_char p =? CH_MINUS then advance p else p in
  match number_integer p with
  | ERR e => ERR e
  | OK p =>
    match number_fraction p with
    | ERR e => ERR e
    | OK p =>
      match number_exponent p with
      | ERR e => ERR e
      | OK p => OK (mk_token JSONK_TOKEN_NUMBER start_pos (pos p - start_pos)%nat, p)
      end
    end
  end.

Fixpoint list_eqb (a b : list char) : bool :=
  match a, b with
  | [], [] => true
  | x :: a', y :: b' => (x =? y) && list_eqb a' b'
  | _, _ => false
  end.

(** [pos + n <= buffer_len && memcmp(&buffer[pos], lit, n) == 0] *)
Definition literal_here (p : jsonk_parser) (lit : list char) : bool :=
  (pos p + length lit <=? buffer_len p)%nat &&
  list_eqb (firstn (length lit) (rest p)) lit.

Definition literals : list (list char * jsonk_token_type) :=
  [ (bytes "true", JSONK_TOKEN_TRUE);
    (bytes "false", JSONK_TOKEN_FALSE);
    (bytes "null", JSONK_TOKEN_NULL) ].

Fixpoint parse_literal_from (ls : list (list char * jsonk_token_type))
         (p : jsonk_parser) : status (jsonk_token * jsonk_parser) :=
  match ls with
  | [] => ERR (- EINVAL)
  | (lit, ty) :: ls' =>
    if literal_here p lit
    then OK (mk_token ty (pos p) (length lit), set_pos p (pos p + length lit)%nat)
    else parse_literal_from ls' p
  end.

Definition jsonk_parse_literal (p : jsonk_parser) : status (jsonk_token * jsonk_parser) :=
  parse_literal_from literals p.

Definition single (ty : jsonk_token_type) (p : jsonk_parser)
  : status (jsonk_token * jsonk_parser) :=
  OK (mk_token ty (pos p) 1, advance p).

Definition jsonk_next_token (p : jsonk_parser) : status (jsonk_token * jsonk_parser) :=
  let p := jsonk_skip_whitespace p in
  match rest p with
  | [] => ERR (- ENODATA)
  | c :: _ =>
    if c =? CH_LBRACE then single JSONK_TOKEN_OBJECT_START p
    else if c =? CH_RBRACE then single JSONK_TOKEN_OBJECT_END p
    else if c =? CH_LBRACKET then single JSONK_TOKEN_ARRAY_START p
    else if c =? CH_RBRACKET then single JSONK_TOKEN_ARRAY_END p
    else if c =? CH_COLON then single JSONK_TOKEN_COLON p
    else if c =? CH_COMMA then single JSONK_TOKEN_COMMA p
    else if c =? CH_QUOTE then jsonk_parse_string p
    else if (c =? CH_MINUS) || is_digit c then jsonk_parse_number p
    else if (c =? CH_t) || (c =? CH_f) || (c =? CH_n) then jsonk_parse_literal p
    else ERR (- EINVAL)
  end.

(** ** The value tree (jsonk.h)

    [JNumber integer fraction is_negative is_integer]; a member is its
    key (of [key_len] bytes) and its value. *)

Inductive jsonk_value_type : Type :=
| JSONK_VALUE_NULL
| JSONK_VALUE_BOOLEAN
| JSONK_VALUE_NUMBER
| JSONK_VALUE_STRING
| JSONK_VALUE_ARRAY
| JSONK_VALUE_OBJECT.

Inductive jsonk_value : Type :=
| JNull
| JBoolean (boolean : bool)
| JNumber (integer : Z) (fraction : Z) (is_negative is_integer : bool)
| JString (data : list char)
| JArray (elements : list jsonk_value)
| JObject (members : list (list char * jsonk_value)).

Definition jsonk_member : Type := (list char * jsonk_value)%type.

Definition type_of (v : jsonk_value) : jsonk_value_type :=
  match v with
  | JNull => JSONK_VALUE_NULL
  | JBoolean _ => JSONK_VALUE_BOOLEAN
  | JNumber _ _ _ _ => JSONK_VALUE_NUMBER
  | JString _ => JSONK_VALUE_STRING
  | JArray _ => JSONK_VALUE_ARRAY
  | JObject _ => JSONK_VALUE_OBJECT
  end.

Definition is_object (v : jsonk_value) : bool :=
  match v with JObject _ => true | _ => false end.

Definition is_number (v : jsonk_value) : bool :=
  match v with JNumber _ _ _ _ => true | _ => false end.

(** ** Tracked allocation (jsonk.c)

    The parser context is optional ([NULL] outside a parse).  A result
    of [None] is a [NULL] return. *)

Definition jsonk_tracked_alloc (parser : option jsonk_parser) (size : Z)
  : option (option jsonk_parser) :=
  match parser with
  | Some p =>
    if total_memory_used p + size >? JSONK_MAX_TOTAL_MEMORY then None
    else Some (Some (add_memory p size))
  | None => Some None
  end.

Definition count_container (ty : jsonk_value_type) (p : jsonk_parser) : jsonk_parser :=
  match ty with
  | JSONK_VALUE_OBJECT =>
    mk_parser (buffer p) (pos p) (depth p) (total_memory_used p)
              (string_count p) (array_count p) (object_count p + 1)
  | JSONK_VALUE_ARRAY =>
    mk_parser (buffer p) (pos p) (depth p) (total_memory_used p)
              (string_count p) (array_count p + 1) (object_count p)
  | _ => p
  end.

Definition jsonk_value_create_tracked (ty : jsonk_value_type)
           (parser : option jsonk_parser) : option (option jsonk_parser) :=
  match parser with
  | Some p =>
    if total_memory_used p + sizeof_jsonk_value >? JSONK_MAX_TOTAL_MEMORY then None
    else Some (Some (count_container ty (add_memory p sizeof_jsonk_value)))
  | None => Some None
  end.

(** ** String values *)

(** The unescaping loop of [jsonk_value_create_string_tracked]. *)
Fixpoint unescape (s : list char) : option (list char) :=
  match s with
  | [] => Some []
  | c :: s1 =>
    match s1 with
    | [] => Some [c]
    | e :: s2 =>
      if c =? CH_BACKSLASH then
        if e =? CH_QUOTE then option_map (cons CH_QUOTE) (unescape s2)
        else if e =? CH_BACKSLASH then option_map (cons CH_BACKSLASH) (unescape s2)
        else if e =? CH_SLASH then option_map (cons CH_SLASH) (unescape s2)
        else if e =? CH_b then option_map (cons CH_BS) (unescape s2)
        else if e =? CH_f then option_map (cons CH_FF) (unescape s2)
        else if e =? CH_n then option_map (cons CH_LF) (unescape s2)
        else if e =? CH_r then option_map (cons CH_CR) (unescape s2)
        else if e =? CH_t then option_map (cons CH_TAB) (unescape s2)
        else if e =? CH_u then
          match s2 with
          | h1 :: h2 :: h3 :: h4 :: s3 =>
            option_map (fun r => CH_BACKSLASH :: CH_u :: h1 :: h2 :: h3 :: h4 :: r)
                       (unescape s3)
          | _ => None
          end
        else None
      else option_map (cons c) (unescape s1)
    end
  end.

Definition has_parser (parser : option jsonk_parser) (f : jsonk_parser -> bool) : bool :=
  match parser with
  | Some p => f p
  | None => false
  end.

Definition jsonk_value_create_string_tracked (str : list char)
           (parser : option jsonk_parser) : option (jsonk_value * option jsonk_parser) :=
  let len := Z.of_nat (length str) in
  if len >? JSONK_MAX_STRING_LENGTH then None
  else if has_parser parser (fun p => string_count p >=? JSONK_MAX_ARRAY_SIZE) then None
  else
    match jsonk_value_create_tracked JSONK_VALUE_STRING parser with
    | None => None
    | Some parser =>
      match jsonk_tracked_alloc parser (len + 1) with
      | None => None
      | Some parser =>
        match unescape str with
        | None => None
        | Some unescaped =>
          let unescaped_len := Z.of_nat (length unescaped) in
          let parser :=
            if unescaped_len <? len then
              match jsonk_tracked_alloc parser (unescaped_len + 1) with
              | Some parser' => parser'
              | None => parser
              end
            else parser in
          Some (JString unescaped, option_map incr_string_count parser)
        end
      end
    end.

Definition jsonk_value_create_string (str : list char) : option jsonk_value :=
  option_map fst (jsonk_value_create_string_tracked str None).

(** ** Number values *)

(** The flag loop: returns [(has_decimal, has_exponent)]. *)
Fixpoint scan_number_flags (l : list char) (has_decimal : bool) : bool * bool :=
  match l with
  | [] => (has_decimal, false)
  | c :: l' =>
    if c =? CH_DOT then scan_number_flags l' true
    else if (c =? CH_e) || (c =? CH_E) then (has_decimal, true)
    else scan_number_flags l' has_decimal
  end.

(** Digits before the decimal point; returns [int_part] and the input
    from index [i] on. *)
Fixpoint parse_int_part (l : list char) (int_part : Z) : Z * list char :=
  match l with
  | [] => (int_part, [])
  | c :: l' =>
    if is_digit c then
      if int_part >? S64_MAX / 10 then (S64_MAX, l)
      else parse_int_part l' (wrap64 (int_part * 10 + (c - CH_0)))
    else (int_part, l)
  end.

Fixpoint parse_frac_part (l : list char) (frac_part : Z) (frac_digits : Z) : Z :=
  match l with
  | [] => frac_part
  | c :: l' =>
    if is_digit c && (frac_digits <? 9) then
      if frac_part >? UINT_MAX / 10 then frac_part
      else parse_frac_part l' (wrap32 (frac_part * 10 + (c - CH_0))) (frac_digits + 1)
    else frac_part
  end.

(** The kernel's [simple_strtoull] in base 10 (lib/vsprintf.c): digits
    are accumulated modulo 2^64, overflow is not reported; the second
    component is the input from [endptr] on. *)
Fixpoint simple_strtoull (l : list char) (result : Z) : Z * list char :=
  match l with
  | [] => (result, [])
  | c :: l' =>
    if is_digit c then simple_strtoull l' (wrap_u64 (result * 10 + (c - CH_0)))
    else (result, l)
  end.

(** The kernel's [simple_strtoll]: a leading minus negates the unsigned
    result; the value is converted to [s64]. *)
Definition simple_strtoll (s : list char) : Z * list char :=
  match s with
  | c :: s' =>
    if c =? CH_MINUS then
      let (u, endptr) := simple_strtoull s' 0 in (wrap64 (- u), endptr)
    else
      let (u, endptr) := simple_strtoull s 0 in (wrap64 u, endptr)
  | [] => (0, [])
  end.

Definition is_nil {A} (l : list A) : bool :=
  match l with [] => true | _ => false end.

Definition jsonk_value_create_number (str : list char) : option jsonk_value :=
  let (has_decimal, has_exponent) := scan_number_flags str false in
  if has_decimal || has_exponent then
    let negative := match str with c :: _ => c =? CH_MINUS | [] => false end in
    let l := if negative then tl str else str in
    let (int_part, l) := parse_int_part l 0 in
    let integer := if negative then wrap64 (- int_part) else int_part in
    let fraction :=
      match l with
      | c :: l' => if c =? CH_DOT then parse_frac_part l' 0 0 else 0
      | [] => 0
      end in
    Some (JNumber integer fraction negative false)
  else
    let (integer, endptr) := simple_strtoll str in
    if is_nil endptr then Some (JNumber integer 0 (integer <? 0) true)
    else None.

Definition jsonk_value_create_boolean (val : bool) : option jsonk_value :=
  Some (JBoolean val).

Definition jsonk_value_create_null : option jsonk_value := Some JNull.

(** ** Objects and arrays *)

(** [key] is the caller's key buffer, of which [key_len] bytes are copied. *)
Definition jsonk_object_add_member_tracked (obj : list jsonk_member)
           (key : list char) (key_len : nat) (value : jsonk_value)
           (parser : option jsonk_parser)
  : status (list jsonk_member * option jsonk_parser) :=
  if Z.of_nat (length obj) >=? JSONK_MAX_OBJECT_MEMBERS then ERR (- ENOSPC)
  else if Z.of_nat key_len >? JSONK_MAX_KEY_LENGTH then ERR (- EINVAL)
  else if has_parser parser (fun p =>
            total_memory_used p + sizeof_jsonk_member + Z.of_nat key_len + 1
            >? JSONK_MAX_TOTAL_MEMORY)
  then ERR (- ENOMEM)
  else
    match jsonk_tracked_alloc parser (Z.of_nat key_len + 1) with
    | None => ERR (- ENOMEM)
    | Some parser => OK (obj ++ [(firstn key_len key, value)], parser)
    end.

Definition jsonk_object_add_member (obj : list jsonk_member)
           (key : list char) (key_len : nat) (value : jsonk_value)
  : status (list jsonk_member) :=
  match jsonk_object_add_member_tracked obj key key_len value None with
  | OK (obj', _) => OK obj'
  | ERR e => ERR e
  end.

(** [member->key_len == key_len && memcmp(member->key, key, key_len) == 0] *)
Definition key_matches (key : list char) (key_len : nat) (m : jsonk_member) : bool :=
  (length (fst m) =? key_len)%nat && list_eqb (fst m) (firstn key_len key).

Definition jsonk_object_find_member (obj : list jsonk_member)
           (key : list char) (key_len : nat) : option jsonk_member :=
  find (key_matches key key_len) obj.

(** Unlinks the first member with the key. *)
Fixpoint remove_first (key : list char) (key_len : nat) (obj : list jsonk_member)
  : list jsonk_member :=
  match obj with
  | [] => []
  | m :: obj' =>
    if key_matches key key_len m then obj' else m :: remove_first key key_len obj'
  end.

Definition jsonk_object_remove_member (obj : list jsonk_member)
           (key : list char) (key_len : nat) : status (list jsonk_member) :=
  match jsonk_object_find_member obj key key_len with
  | None => ERR (- ENOENT)
  | Some _ => OK (remove_first key key_len obj)
  end.

Definition jsonk_array_add_element_tracked (arr : list jsonk_value)
           (value : jsonk_value) (parser : option jsonk_parser)
  : status (list jsonk_value * option jsonk_parser) :=
  if Z.of_nat (length arr) >=? JSONK_MAX_ARRAY_SIZE then ERR (- ENOSPC)
  else if has_parser parser (fun p =>
            total_memory_used p + sizeof_jsonk_array_element >? JSONK_MAX_TOTAL_MEMORY)
  then ERR (- ENOMEM)
  else OK (arr ++ [value], option_map (fun p => add_memory p sizeof_jsonk_array_element) parser).

(** ** The recursive parser (jsonk.c)

    A pointer result is [Got]; [Null] is a [NULL] return.  The value
    parser recurses on a bound [d] for the nesting still allowed and the
    member and element loops on a bound [n] for their iterations;
    [NoFuel] marks an exhausted bound and is shown below never to be the
    result of [jsonk_parse]. *)

Inductive outcome (A : Type) : Type :=
| Got (a : A)
| Null
| NoFuel.
Arguments Got {A} a.
Arguments Null {A}.
Arguments NoFuel {A}.

(** The bytes [token.start .. token.start + token.len). *)
Definition token_bytes (p : jsonk_parser) (token : jsonk_token) : list char :=
  firstn (tk_len token) (skipn (tk_start token) (buffer p)).

Definition with_parser (p : jsonk_parser) (parser : option jsonk_parser) : jsonk_parser :=
  match parser with
  | Some q => q
  | None => p
  end.

Section Containers.

Variable parse_value : jsonk_parser -> outcome (jsonk_value * jsonk_parser).

(** The [while (true)] loop of [jsonk_parse_object]; [token] is the
    local variable of that name. *)
Fixpoint parse_object_loop (n : nat) (object_value : list jsonk_member)
         (token : jsonk_token) (p : jsonk_parser)
  : outcome (jsonk_value * jsonk_parser) :=
  match n with
  | O => NoFuel
  | S n' =>
    match tk_type token with
    | JSONK_TOKEN_STRING =>
      (* key = copy of the token, NUL terminated *)
      let key := token_bytes p token ++ [CH_NUL] in
      match jsonk_next_token p with
      | ERR _ => Null
      | OK (token, p) =>
        match tk_type token with
        | JSONK_TOKEN_COLON =>
          match parse_value p with
          | Got (member_value, p) =>
            match jsonk_object_add_member_tracked
                    object_value key (tk_len token) member_value (Some p) with
            | ERR _ => Null
            | OK (object_value, parser) =>
              let p := with_parser p parser in
              match jsonk_next_token p with
              | ERR _ => Null
              | OK (token, p) =>
                match tk_type token with
                | JSONK_TOKEN_OBJECT_END => Got (JObject object_value, p)
                | JSONK_TOKEN_COMMA =>
                  match jsonk_next_token p with
                  | ERR _ => Null
                  | OK (token, p) => parse_object_loop n' object_value token p
                  end
                | _ => Null
                end
              end
            end
          | Null => Null
          | NoFuel => NoFuel
          end
        | _ => Null
        end
      end
    | _ => Null
    end
  end.

Definition parse_object (p : jsonk_parser) : outcome (jsonk_value * jsonk_parser) :=
  match jsonk_next_token p with
  | ERR _ => Null
  | OK (token, p) =>
    match tk_type token with
    | JSONK_TOKEN_OBJECT_START =>
      match jsonk_next_token p with
      | ERR _ => Null
      | OK (token, p) =>
        match tk_type token with
        | JSONK_TOKEN_OBJECT_END => Got (JObject [], p)
        | _ => parse_object_loop (S (buffer_len p - pos p)) [] token p
        end
      end
    | _ => Null
    end
  end.

(** The [while (1)] loop of [jsonk_parse_array]. *)
Fixpoint parse_array_loop (n : nat) (array_value : list jsonk_value)
         (p : jsonk_parser) : outcome (jsonk_value * jsonk_parser) :=
  match n with
  | O => NoFuel
  | S n' =>
    let p := jsonk_skip_whitespace p in
    if at_char p CH_RBRACKET then Got (JArray array_value, advance p)
    else
      match parse_value p with
      | Got (element_value, p) =>
        match jsonk_array_add_element_tracked array_value element_value (Some p) with
        | ERR _ => Null
        | OK (array_value, parser) =>
          let p := with_parser p parser in
          match jsonk_next_token p with
          | ERR _ => Null
          | OK (token, p) =>
            match tk_type token with
            | JSONK_TOKEN_ARRAY_END => Got (JArray array_value, p)
            | JSONK_TOKEN_COMMA => parse_array_loop n' array_value p
            | _ => Null
            end
          end
        end
      | Null => Null
      | NoFuel => NoFuel
      end
  end.

Definition parse_array (p : jsonk_parser) : outcome (jsonk_value * jsonk_parser) :=
  match jsonk_next_token p with
  | ERR _ => Null
  | OK (token, p) =>
    match tk_type token with
    | JSONK_TOKEN_ARRAY_START => parse_array_loop (S (buffer_len p - pos p)) [] p
    | _ => Null
    end
  end.

End Containers.

(** [parser->depth--; return value;] *)
Definition leave (r : outcome (jsonk_value * jsonk_parser))
  : outcome (jsonk_value * jsonk_parser) :=
  match r with
  | Got (value, p) => Got (value, set_depth p (depth p - 1))
  | Null => Null
  | NoFuel => NoFuel
  end.

Definition of_option {A} (o : option A) : outcome A :=
  match o with
  | Some a => Got a
  | None => Null
  end.

Fixpoint jsonk_parse_value (d : nat) (p : jsonk_parser)
  : outcome (jsonk_value * jsonk_parser) :=
  if depth p >=? JSONK_MAX_DEPTH then Null
  else
    match d with
    | O => NoFuel
    | S d' =>
      let p := set_depth p (depth p + 1) in
      match jsonk_next_token p with
      | ERR _ => Null
      | OK (token, p) =>
        match tk_type token with
        | JSONK_TOKEN_OBJECT_START =>
          leave (parse_object (jsonk_parse_value d') (set_pos p (pos p - tk_len token)%nat))
        | JSONK_TOKEN_ARRAY_START =>
          leave (parse_array (jsonk_parse_value d') (set_pos p (pos p - tk_len token)%nat))
        | JSONK_TOKEN_STRING =>
          match jsonk_value_create_string_tracked (token_bytes p token) (Some p) with
          | Some (value, parser) => leave (Got (value, with_parser p parser))
          | None => Null
          end
        | JSONK_TOKEN_NUMBER =>
          leave (of_option (option_map (fun v => (v, p))
                                       (jsonk_value_create_number (token_bytes p token))))
        | JSONK_TOKEN_TRUE =>
          leave (of_option (option_map (fun v => (v, p)) (jsonk_value_create_boolean true)))
        | JSONK_TOKEN_FALSE =>
          leave (of_option (option_map (fun v => (v, p)) (jsonk_value_create_boolean false)))
        | JSONK_TOKEN_NULL =>
          leave (of_option (option_map (fun v => (v, p)) jsonk_value_create_null))
        | _ => Null
        end
      end
    end.

Definition jsonk_parse_object (d : nat) : jsonk_parser -> outcome (jsonk_value * jsonk_parser) :=
  parse_object (jsonk_parse_value d).

Definition jsonk_parse_array (d : nat) : jsonk_parser -> outcome (jsonk_value * jsonk_parser) :=
  parse_array (jsonk_parse_value d).

Definition jsonk_parse (json_str : list char) : outcome jsonk_value :=
  if (length json_str =? 0)%nat then Null
  else
    match jsonk_parse_value (Z.to_nat JSONK_MAX_DEPTH) (jsonk_parser_init json_str) with
    | Got (value, _) => Got value
    | Null => Null
    | NoFuel => NoFuel
    end.

(** ** Serializer (jsonk.c)

    The caller's memory is a [list char]; [jsonk_serialize value buffer
    base buffer_size] renders into the [buffer_size] bytes that start at
    offset [base] (the C argument [buffer] is [buffer + base] here) and
    returns the return code, [*written] and the memory afterwards.  The
    memory must hold at least [base + buffer_size] bytes. *)

(** [memcpy(buffer + i, s, length s)] and single stores. *)
Definition write (buffer : list char) (i : nat) (s : list char) : list char :=
  firstn i buffer ++ s ++ skipn (i + length s) buffer.

Fixpoint print_digits (fuel : nat) (n : Z) (acc : list char) : list char :=
  match fuel with
  | O => acc
  | S fuel' =>
    let acc := (CH_0 + n mod 10) :: acc in
    if n / 10 =? 0 then acc else print_digits fuel' (n / 10) acc
  end.

(** [%u] and [%llu]: at most twenty digits. *)
Definition print_unsigned (n : Z) : list char := print_digits 20 n [].

(** [%lld] *)
Definition print_lld (z : Z) : list char :=
  if z <? 0 then CH_MINUS :: print_unsigned (- z) else print_unsigned z.

(** [snprintf(buffer + i, size, ...)] with formatted text [s]: at most
    [size - 1] bytes and the terminating NUL are stored. *)
Definition snprintf (buffer : list char) (i : nat) (size : nat) (s : list char)
  : list char :=
  match size with
  | O => buffer
  | S m => write buffer i (firstn m s ++ [CH_NUL])
  end.

(** Progress of one call: still rendering at [pos], or returned early. *)
Inductive progress : Type :=
| At (pos : nat) (buffer : list char)
| Returned (ret : Z) (buffer : list char).

Section Emit.

Variables (base buffer_size : nat).

(** [if (pos + n >= buffer_size) return -EOVERFLOW;] followed by the
    [n] stores. *)
Definition emit (s : list char) (st : progress) : progress :=
  match st with
  | At pos buffer =>
    if (buffer_size <=? pos + length s)%nat then Returned (- EOVERFLOW) buffer
    else At (pos + length s) (write buffer (base + pos) s)
  | Returned ret buffer => Returned ret buffer
  end.

(** [len = snprintf(buffer + pos, buffer_size - pos, ...)] and its check. *)
Definition emit_formatted (s : list char) (st : progress) : progress :=
  match st with
  | At pos buffer =>
    let buffer := snprintf buffer (base + pos) (buffer_size - pos) s in
    if (buffer_size <=? pos + length s)%nat then Returned (- EOVERFLOW) buffer
    else At (pos + length s) buffer
  | Returned ret buffer => Returned ret buffer
  end.

(** A recursive call on [buffer + pos], [buffer_size - pos]. *)
Definition emit_value
           (serialize : list char -> nat -> nat -> Z * nat * list char)
           (st : progress) : progress :=
  match st with
  | At pos buffer =>
    let '(ret, value_written, buffer) :=
        serialize buffer (base + pos)%nat (buffer_size - pos)%nat in
    if ret <? 0 then Returned ret buffer else At (pos + value_written) buffer
  | Returned ret buffer => Returned ret buffer
  end.

End Emit.

Definition escape_char (c : char) : list char :=
  if (c =? CH_QUOTE) || (c =? CH_BACKSLASH) then [CH_BACKSLASH; c]
  else if c =? CH_BS then [CH_BACKSLASH; CH_b]
  else if c =? CH_FF then [CH_BACKSLASH; CH_f]
  else if c =? CH_LF then [CH_BACKSLASH; CH_n]
  else if c =? CH_CR then [CH_BACKSLASH; CH_r]
  else if c =? CH_TAB then [CH_BACKSLASH; CH_t]
  else [c].

Definition number_text (integer fraction : Z) (is_negative is_integer : bool)
  : list char :=
  let shown := if is_negative then wrap64 (- integer) else integer in
  if is_integer then print_lld shown
  else print_lld shown ++ [CH_DOT] ++ print_unsigned fraction.

(** [*written = pos; return 0;] or the early return, where [*written]
    is still the 0 stored on entry. *)
Definition finish (st : progress) : Z * nat * list char :=
  match st with
  | At pos buffer => (0, pos, buffer)
  | Returned ret buffer => (ret, O, buffer)
  end.

Section SerializeLoops.

Variable serialize : jsonk_value -> list char -> nat -> nat -> Z * nat * list char.
Variables (base buffer_size : nat).

(** [list_for_each_entry(member, &value->u.object.members, list)] *)
Fixpoint serialize_members (ms : list jsonk_member) (first : bool)
         (st : progress) : progress :=
  match ms with
  | [] => st
  | (key, v) :: ms' =>
    let st := if first then st else emit base buffer_size [CH_COMMA] st in
    let st := emit base buffer_size (CH_QUOTE :: key ++ [CH_QUOTE; CH_COLON]) st in
    serialize_members ms' false (emit_value base buffer_size (serialize v) st)
  end.

(** [list_for_each_entry(element, &value->u.array.elements, list)] *)
Fixpoint serialize_elements (es : list jsonk_value) (first : bool)
         (st : progress) : progress :=
  match es with
  | [] => st
  | v :: es' =>
    let st := if first then st else emit base buffer_size [CH_COMMA] st in
    serialize_elements es' false (emit_value base buffer_size (serialize v) st)
  end.

End SerializeLoops.

Fixpoint jsonk_serialize (value : jsonk_value) (buffer : list char)
         (base buffer_size : nat) {struct value} : Z * nat * list char :=
  let emit := emit base buffer_size in
  match value with
  | JNull => finish (emit (bytes "null") (At 0 buffer))
  | JBoolean true => finish (emit (bytes "true") (At 0 buffer))
  | JBoolean false => finish (emit (bytes "false") (At 0 buffer))
  | JNumber integer fraction is_negative is_integer =>
    finish (emit_formatted base buffer_size
              (number_text integer fraction is_negative is_integer) (At 0 buffer))
  | JString data =>
    finish (emit [CH_QUOTE]
              (fold_left (fun st c => emit (escape_char c) st) data
                 (emit [CH_QUOTE] (At 0 buffer))))
  | JObject members =>
    finish (emit [CH_RBRACE]
              (serialize_members jsonk_serialize base buffer_size members true
                 (emit [CH_LBRACE] (At 0 buffer))))
  | JArray elements =>
    finish (emit [CH_RBRACKET]
              (serialize_elements jsonk_serialize base buffer_size elements true
                 (emit [CH_LBRACKET] (At 0 buffer))))
  end.

(** A caller's buffer of [n] bytes whose content is [c] throughout. *)
Definition fresh_buffer (n : nat) (c : char) : list char := repeat c n.

(** ** Deep copy (jsonk.c)

    A child whose copy is [NULL], or that [jsonk_object_add_member_tracked]
    refuses, is left out of the copy. *)

Section CopyLoops.

Variable deep_copy : jsonk_value -> option jsonk_value.

Fixpoint copy_members (ms : list jsonk_member) (copy : list jsonk_member)
  : list jsonk_member :=
  match ms with
  | [] => copy
  | (key, v) :: ms' =>
    match deep_copy v with
    | Some value_copy =>
      match jsonk_object_add_member_tracked copy key (length key) value_copy None with
      | OK (copy', _) => copy_members ms' copy'
      | ERR _ => copy_members ms' copy
      end
    | None => copy_members ms' copy
    end
  end.

Fixpoint copy_elements (es : list jsonk_value) (copy : list jsonk_value)
  : list jsonk_value :=
  match es with
  | [] => copy
  | v :: es' =>
    match deep_copy v with
    | Some value_copy =>
      match jsonk_array_add_element_tracked copy value_copy None with
      | OK (copy', _) => copy_elements es' copy'
      | ERR _ => copy_elements es' copy
      end
    | None => copy_elements es' copy
    end
  end.

End CopyLoops.

Fixpoint jsonk_value_deep_copy (source : jsonk_value) (current_depth : Z)
         {struct source} : option jsonk_value :=
  if current_depth >? JSONK_MAX_DEPTH then None
  else
    match source with
    | JNull => jsonk_value_create_null
    | JBoolean boolean => jsonk_value_create_boolean boolean
    | JNumber integer fraction is_negative is_integer =>
      Some (JNumber integer fraction is_negative is_integer)
    | JString data =>
      option_map fst (jsonk_value_create_string_tracked data None)
    | JObject members =>
      Some (JObject
              (copy_members (fun v => jsonk_value_deep_copy v (current_depth + 1))
                            members []))
    | JArray elements =>
      Some (JArray
              (copy_elements (fun v => jsonk_value_deep_copy v (current_depth + 1))
                             elements []))
    end.

(** ** Merge patch (jsonk.c) *)

(** The [is_empty] test of [jsonk_merge_objects]. *)
Definition is_empty (value : jsonk_value) : bool :=
  match value with
  | JNull => true
  | JString data => (length data =? 0)%nat
  | JObject members => (length members =? 0)%nat
  | JArray elements => (length elements =? 0)%nat
  | _ => false
  end.

(** [target_member->value = new_value] for the first member with the key. *)
Fixpoint replace_first (key : list char) (key_len : nat) (new_value : jsonk_value)
         (obj : list jsonk_member) : list jsonk_member :=
  match obj with
  | [] => []
  | m :: obj' =>
    if key_matches key key_len m then (fst m, new_value) :: obj'
    else m :: replace_first key key_len new_value obj'
  end.

Section MergeLoop.

(** The recursive call, on a patch value that is an Object. *)
Variable merge_rec :
  jsonk_value -> list jsonk_member -> status (list jsonk_member * bool).

(** One iteration of [list_for_each_entry(member, &patch->members, list)];
    [changed] is [*changed] before it. *)
Definition merge_member (target : list jsonk_member) (member : jsonk_member)
           (changed : bool) : status (list jsonk_member * bool) :=
  let (key, value) := member in
  let key_len := length key in
  let target_member := jsonk_object_find_member target key key_len in
  if is_empty value then
    match target_member with
    | Some _ =>
      match jsonk_object_remove_member target key key_len with
      | ERR ret => ERR ret
      | OK target => OK (target, true)
      end
    | None => OK (target, changed)
    end
  else
    match target_member with
    | None =>
      match jsonk_value_deep_copy value 1 with
      | None => ERR (- ENOMEM)
      | Some value_copy =>
        match jsonk_object_add_member target key key_len value_copy with
        | ERR ret => ERR ret
        | OK target => OK (target, true)
        end
      end
    | Some (_, target_value) =>
      match value, target_value with
      | JObject _, JObject target_members =>
        match merge_rec value target_members with
        | ERR ret => ERR ret
        | OK (target_members, sub_changed) =>
          OK (replace_first key key_len (JObject target_members) target,
              if sub_changed then true else changed)
        end
      | _, _ =>
        match jsonk_value_deep_copy value 1 with
        | None => ERR (- ENOMEM)
        | Some new_value =>
          OK (replace_first key key_len new_value target, true)
        end
      end
    end.

Fixpoint merge_loop (patch : list jsonk_member) (target : list jsonk_member)
         (changed : bool) : status (list jsonk_member * bool) :=
  match patch with
  | [] => OK (target, changed)
  | member :: patch' =>
    match merge_member target member changed with
    | ERR ret => ERR ret
    | OK (target, changed) => merge_loop patch' target changed
    end
  end.

End MergeLoop.

(** [jsonk_merge_objects] by recursion on the patch value. *)
Fixpoint merge_value (patch : jsonk_value) (target : list jsonk_member)
         {struct patch} : status (list jsonk_member * bool) :=
  match patch with
  | JObject members => merge_loop merge_value members target false
  | _ => OK (target, false)
  end.

Definition jsonk_merge_objects (target patch : list jsonk_member)
  : status (list jsonk_member * bool) :=
  merge_loop merge_value patch target false.

(** ** Patch entry point (jsonk.c) *)

Inductive jsonk_patch_result : Type :=
| JSONK_PATCH_SUCCESS
| JSONK_PATCH_ERROR_PARSE
| JSONK_PATCH_ERROR_PATH
| JSONK_PATCH_ERROR_TYPE
| JSONK_PATCH_ERROR_MEMORY
| JSONK_PATCH_ERROR_OVERFLOW
| JSONK_PATCH_NO_CHANGE.

Definition members_of (v : jsonk_value) : list jsonk_member :=
  match v with
  | JObject members => members
  | _ => []
  end.

(** [result] is the caller's memory of at least [result_max_len] bytes and
    [result_len] the content of [*result_len] before the call; the
    outputs are the return code and both after the call. *)
Definition jsonk_apply_patch (target patch result : list char)
           (result_max_len result_len : nat)
  : outcome (jsonk_patch_result * list char * nat) :=
  match jsonk_parse target with
  | NoFuel => NoFuel
  | Null => Got (JSONK_PATCH_ERROR_PARSE, result, result_len)
  | Got target_json =>
    if negb (is_object target_json)
    then Got (JSONK_PATCH_ERROR_TYPE, result, result_len)
    else
      match jsonk_parse patch with
      | NoFuel => NoFuel
      | Null =>
        if (length target <=? result_max_len)%nat
        then Got (JSONK_PATCH_NO_CHANGE, write result 0 target, length target)
        else Got (JSONK_PATCH_ERROR_OVERFLOW, result, result_len)
      | Got patch_json =>
        if negb (is_object patch_json)
        then Got (JSONK_PATCH_ERROR_TYPE, result, result_len)
        else
          match jsonk_value_deep_copy target_json 0 with
          | None => Got (JSONK_PATCH_ERROR_MEMORY, result, result_len)
          | Some target_copy =>
            match jsonk_merge_objects (members_of target_copy)
                                      (members_of patch_json) with
            | ERR _ => Got (JSONK_PATCH_ERROR_MEMORY, result, result_len)
            | OK (merged, changed) =>
              let '(ret, written, result) :=
                  jsonk_serialize (JObject merged) result 0 result_max_len in
              if ret <? 0 then
                Got (if ret =? - EOVERFLOW then JSONK_PATCH_ERROR_OVERFLOW
                     else JSONK_PATCH_ERROR_PARSE, result, result_len)
              else
                Got (if changed then JSONK_PATCH_SUCCESS else JSONK_PATCH_NO_CHANGE,
                     result, written)
            end
          end
      end
  end.

(** ** Path access (jsonk.c)

    A path is the bytes [path .. path + path_len); inside the loops
    [current_path] is the part of it that is still to be walked, of
    [remaining_len] bytes.  The loops run on a bound [n] for their
    iterations, shown below never to be exhausted. *)

(** [memchr(s, c, n)]: the offset of the first [c]. *)
Fixpoint memchr (s : list char) (c : char) : option nat :=
  match s with
  | [] => None
  | x :: s' => if x =? c then Some O else option_map S (memchr s' c)
  end.

(** Returns [*component_len] and the path from the returned pointer on
    ([None] for [NULL]). *)
Definition jsonk_parse_path_component (path : list char) : nat * option (list char) :=
  match memchr path CH_DOT with
  | Some dot => (dot, Some (skipn (S dot) path))
  | None => (length path, None)
  end.

(** The [while (remaining_len > 0)] loop of [jsonk_get_value_by_path]. *)
Fixpoint get_value_loop (n : nat) (curr : jsonk_value) (current_path : list char)
  : outcome jsonk_value :=
  match n with
  | O => NoFuel
  | S n' =>
    if (length current_path =? 0)%nat then Got curr
    else
      let (component_len, next_path) := jsonk_parse_path_component current_path in
      match curr with
      | JObject members =>
        match jsonk_object_find_member members current_path component_len with
        | None => Null
        | Some member =>
          let curr := snd member in
          match next_path with
          | Some next_path => get_value_loop n' curr next_path
          | None => Got curr
          end
        end
      | _ => Null
      end
  end.

Definition jsonk_get_value_by_path (root : jsonk_value) (path : list char)
  : outcome jsonk_value :=
  if (length path =? 0)%nat then Null
  else if negb (is_object root) then Null
  else get_value_loop (S (length path)) root path.

(** [member->value = v] for the member that was appended last. *)
Definition replace_last (v : jsonk_value) (obj : list jsonk_member)
  : list jsonk_member :=
  match obj with
  | [] => []
  | _ => removelast obj ++ [(fst (last obj ([], JNull)), v)]
  end.

(** The members of the Object that [curr] points to after an existing
    member has been taken as intermediate: its own if it is an Object,
    none after it has been replaced by a new empty Object. *)
Definition intermediate_members (v : jsonk_value) : list jsonk_member :=
  match v with
  | JObject members => members
  | _ => []
  end.

(** The loop of [jsonk_set_value_by_path].  [curr] always points to an
    Object here (the root has been checked, every intermediate is or is
    made an Object), so the loop is given its members; it returns the
    return code and the members after the call, errors included: what has
    been stored before a failure stays.  [None] marks an exhausted bound. *)
Fixpoint set_value_loop (n : nat) (curr : list jsonk_member)
         (current_path : list char) (value : jsonk_value)
  : option (Z * list jsonk_member) :=
  match n with
  | O => None
  | S n' =>
    if (length current_path =? 0)%nat then Some (0, curr)
    else
      let (component_len, next_path) := jsonk_parse_path_component current_path in
      match next_path with
      | Some next_path =>
        match jsonk_object_find_member curr current_path component_len with
        | None =>
          match jsonk_object_add_member_tracked
                  curr current_path component_len (JObject []) None with
          | ERR ret => Some (ret, curr)
          | OK (curr, _) =>
            match set_value_loop n' [] next_path value with
            | Some (ret, intermediate) =>
              Some (ret, replace_last (JObject intermediate) curr)
            | None => None
            end
          end
        | Some member =>
          match set_value_loop n' (intermediate_members (snd member))
                               next_path value with
          | Some (ret, intermediate) =>
            Some (ret, replace_first current_path component_len
                                     (JObject intermediate) curr)
          | None => None
          end
        end
      | None =>
        let member := jsonk_object_find_member curr current_path component_len in
        match jsonk_value_deep_copy value 1 with
        | None => Some (- ENOMEM, curr)
        | Some value_copy =>
          match member with
          | Some _ =>
            Some (0, replace_first current_path component_len value_copy curr)
          | None =>
            match jsonk_object_add_member curr current_path component_len
                                          value_copy with
            | ERR ret => Some (ret, curr)
            | OK curr => Some (0, curr)
            end
          end
        end
      end
  end.

(** Returns the return code and the root after the call. *)
Definition jsonk_set_value_by_path (root : jsonk_value) (path : list char)
           (value : jsonk_value) : option (Z * jsonk_value) :=
  if (length path =? 0)%nat then Some (- EINVAL, root)
  else
    match root with
    | JObject members =>
      match set_value_loop (S (length path)) members path value with
      | Some (ret, members) => Some (ret, JObject members)
      | None => None
      end
    | _ => Some (- EINVAL, root)
    end.

(** ** Untracked array append (jsonk.c) *)

Definition jsonk_array_add_element (arr : list jsonk_value) (value : jsonk_value)
  : status (list jsonk_value) :=
  match jsonk_array_add_element_tracked arr value None with
  | OK (arr', _) => OK arr'
  | ERR e => ERR e
  end.


(** * Specification vocabulary *)

(** ** Compact rendering (the serializer's rules, as pure text) *)

Section RenderLoops.

Variable render : jsonk_value -> list char.

Fixpoint render_members (ms : list jsonk_member) (first : bool) : list char :=
  match ms with
  | [] => []
  | (key, v) :: ms' =>
    (if first then [] else [CH_COMMA]) ++
    (CH_QUOTE :: key ++ [CH_QUOTE; CH_COLON]) ++ render v ++ render_members ms' false
  end.

Fixpoint render_elements (es : list jsonk_value) (first : bool) : list char :=
  match es with
  | [] => []
  | v :: es' =>
    (if first then [] else [CH_COMMA]) ++ render v ++ render_elements es' false
  end.

End RenderLoops.

Fixpoint render (value : jsonk_value) : list char :=
  match value with
  | JNull => bytes "null"
  | JBoolean true => bytes "true"
  | JBoolean false => bytes "false"
  | JNumber integer fraction is_negative is_integer =>
    number_text integer fraction is_negative is_integer
  | JString data => [CH_QUOTE] ++ flat_map escape_char data ++ [CH_QUOTE]
  | JObject members => [CH_LBRACE] ++ render_members render members true ++ [CH_RBRACE]
  | JArray elements => [CH_LBRACKET] ++ render_elements render elements true ++ [CH_RBRACKET]
  end.

(** The bytes outside [base, base + size) and the length are the same. *)
Definition agrees_outside (base size : nat) (b0 b : list char) : Prop :=
  length b = length b0 /\
  firstn base b = firstn base b0 /\
  skipn (base + size) b = skipn (base + size) b0.

(** The state of a call that has been asked to emit the text [t] so far
    into the window [base, base + size) of the memory [b0]. *)
Definition rendering (base size : nat) (b0 t : list char) (st : progress) : Prop :=
  match st with
  | At pos b =>
    pos = length t /\ (pos = 0 \/ pos < size)%nat /\
    agrees_outside base size b0 b /\ firstn pos (skipn base b) = t
  | Returned ret b =>
    ret = - EOVERFLOW /\ (size <= length t)%nat /\ agrees_outside base size b0 b
  end.

(** What [jsonk_serialize] must do for one value. *)
Definition serialize_spec (v : jsonk_value) : Prop :=
  forall buffer base size,
    (base + size <= length buffer)%nat ->
    let '(ret, written, b) := jsonk_serialize v buffer base size in
    agrees_outside base size buffer b /\
    ((ret = 0 /\ written = length (render v) /\ (written < size)%nat /\
      firstn written (skipn base b) = render v) \/
     (ret = - EOVERFLOW /\ written = 0%nat /\ (size <= length (render v))%nat)).

(** What a caller reads back: the first [written] bytes of its buffer. *)
Definition serialized (value : jsonk_value) (buffer_size : nat) : option (list char) :=
  let '(ret, written, buffer) :=
      jsonk_serialize value (fresh_buffer buffer_size CH_NUL) 0 buffer_size in
  if ret <? 0 then None else Some (firstn written buffer).

(** ** Values that a deep copy reproduces

    [plainb v d]: from depth [d] on the value stays within the depth
    limit, its strings are unchanged by the unescaping that the copy
    applies again, and its containers and keys are within the limits
    that [jsonk_object_add_member_tracked] and
    [jsonk_array_add_element_tracked] enforce. *)

Definition unescape_fixed (data : list char) : bool :=
  match unescape data with
  | Some u => list_eqb u data
  | None => false
  end.

Fixpoint plainb (v : jsonk_value) (d : Z) {struct v} : bool :=
  (d <=? JSONK_MAX_DEPTH) &&
  match v with
  | JString data =>
    (Z.of_nat (length data) <=? JSONK_MAX_STRING_LENGTH) && unescape_fixed data
  | JArray es =>
    (Z.of_nat (length es) <=? JSONK_MAX_ARRAY_SIZE) &&
    forallb (fun e => plainb e (d + 1)) es
  | JObject ms =>
    (Z.of_nat (length ms) <=? JSONK_MAX_OBJECT_MEMBERS) &&
    forallb (fun m => (Z.of_nat (length (fst m)) <=? JSONK_MAX_KEY_LENGTH) &&
                      plainb (snd m) (d + 1)) ms
  | _ => true
  end.

(** No member of the list has the key. *)
Definition key_absent (key : list char) (l : list jsonk_member) : Prop :=
  Forall (fun m => key_matches key (length key) m = false) l.

(** ** Nesting and parser states *)

(** Number of nested values on the deepest path: 1 for a scalar. *)
Fixpoint nesting (v : jsonk_value) : Z :=
  match v with
  | JArray es => 1 + fold_right (fun e acc => Z.max (nesting e) acc) 0 es
  | JObject ms => 1 + fold_right (fun m acc => Z.max (nesting (snd m)) acc) 0 ms
  | _ => 1
  end.

(** [n] opening brackets followed by [n] closing brackets. *)
Definition nested_arrays (n : nat) : list char :=
  repeat CH_LBRACKET n ++ repeat CH_RBRACKET n.

(** The cursor is inside the buffer or at its end. *)
Definition in_buffer (p : jsonk_parser) : Prop := (pos p <= buffer_len p)%nat.

(** Only the cursor differs, and it did not go back. *)
Definition moved (p p' : jsonk_parser) : Prop :=
  p' = set_pos p (pos p') /\ (pos p <= pos p' <= buffer_len p)%nat.

(** The input and the depth are the same and the cursor did not go back. *)
Definition consumed (p p' : jsonk_parser) : Prop :=
  buffer p' = buffer p /\ depth p' = depth p /\
  (pos p <= pos p' <= buffer_len p)%nat.

(** The same parser on an input with [r] appended. *)
Definition extend (r : list char) (p : jsonk_parser) : jsonk_parser :=
  mk_parser (buffer p ++ r) (pos p) (depth p) (total_memory_used p)
            (string_count p) (array_count p) (object_count p).

(** ** Patches that merge the same way twice *)

Fixpoint key_in (key : list char) (l : list jsonk_member) : bool :=
  match l with
  | [] => false
  | m :: l' => list_eqb (fst m) key || key_in key l'
  end.

Fixpoint distinct_keys (l : list jsonk_member) : bool :=
  match l with
  | [] => true
  | m :: l' => negb (key_in (fst m) l') && distinct_keys l'
  end.

(** A patch value is stable when it is not empty, is reproduced by the
    deep copy, and, if it is an Object, has distinct keys and stable
    member values. *)
Fixpoint stable_value (v : jsonk_value) : bool :=
  negb (is_empty v) && plainb v 1 &&
  match v with
  | JObject pm => distinct_keys pm && forallb (fun m => stable_value (snd m)) pm
  | _ => true
  end.

Definition stable_patch (pm : list jsonk_member) : bool :=
  distinct_keys pm && forallb (fun m => stable_value (snd m)) pm.

Section Settled.

Variable settled_value : jsonk_value -> jsonk_value -> Prop.

(** Every member of the patch [pm] is found in [tm] with a settled value. *)
Fixpoint settled_members (pm tm : list jsonk_member) : Prop :=
  match pm with
  | [] => True
  | (key, v) :: pm' =>
    (exists c, jsonk_object_find_member tm key (length key) = Some (key, c) /\
               settled_value v c) /\
    settled_members pm' tm
  end.

End Settled.

(** [settled_value v c]: the target value [c] already is what merging
    the patch value [v] makes of it. *)
Fixpoint settled_value (v c : jsonk_value) {struct v} : Prop :=
  match v with
  | JObject pm => exists tm, c = JObject tm /\ settled_members settled_value pm tm
  | _ => c = v
  end.

(** The claim of idempotence for one target, one patch and one buffer
    size: whenever the first application succeeds, the second, applied
    to the bytes the first produced, yields the same bytes and NO_CHANGE. *)
Definition patch_idempotent (target patch : list char) (size : nat) : Prop :=
  forall c1 out1 n1,
    jsonk_apply_patch target patch (fresh_buffer size CH_NUL) size 0
      = Got (c1, out1, n1) ->
    c1 = JSONK_PATCH_SUCCESS \/ c1 = JSONK_PATCH_NO_CHANGE ->
    exists out2,
      jsonk_apply_patch (firstn n1 out1) patch (fresh_buffer size CH_NUL) size 0
        = Got (JSONK_PATCH_NO_CHANGE, out2, n1) /\
      firstn n1 out2 = firstn n1 out1.

(** ** Keys as the parser stores them *)

(** Every member key, at every level, is one byte long. *)
Fixpoint one_byte_keys (v : jsonk_value) : bool :=
  match v with
  | JObject members =>
    forallb (fun m : jsonk_member =>
               (length (fst m) =? 1)%nat && one_byte_keys (snd m)) members
  | JArray elements => forallb one_byte_keys elements
  | _ => true
  end.

(** ** Path components *)

(** The bytes hold no dot: they are one component of a path. *)
Definition dot_free (a : list char) : bool :=
  forallb (fun c => negb (c =? CH_DOT)) a.


(** ** Limits and counts on a value tree *)

(** Every String, Array and Object of the tree is within the limit of
    its kind. *)
Fixpoint within_limits (v : jsonk_value) : bool :=
  match v with
  | JString data => Z.of_nat (length data) <=? JSONK_MAX_STRING_LENGTH
  | JArray elements =>
    (Z.of_nat (length elements) <=? JSONK_MAX_ARRAY_SIZE) &&
    forallb within_limits elements
  | JObject members =>
    (Z.of_nat (length members) <=? JSONK_MAX_OBJECT_MEMBERS) &&
    forallb (fun m : jsonk_member => within_limits (snd m)) members
  | _ => true
  end.

(** The number of String values in the tree (keys are not values). *)
Fixpoint string_values (v : jsonk_value) : Z :=
  match v with
  | JString _ => 1
  | JArray elements => fold_right (fun e acc => string_values e + acc) 0 elements
  | JObject members =>
    fold_right (fun (m : jsonk_member) acc => string_values (snd m) + acc) 0 members
  | _ => 0
  end.

(** What a successful parse of the value [v] from [p] to [p'] has done
    to the counters of the parser. *)
Definition accounted (p p' : jsonk_parser) (v : jsonk_value) : Prop :=
  string_count p' = string_count p + string_values v /\
  total_memory_used p <= total_memory_used p' /\
  (total_memory_used p <= JSONK_MAX_TOTAL_MEMORY ->
   total_memory_used p' <= JSONK_MAX_TOTAL_MEMORY) /\
  (string_count p <= JSONK_MAX_ARRAY_SIZE ->
   string_count p' <= JSONK_MAX_ARRAY_SIZE).


(** ** Decimal digits *)

(** The number that the digits [ds] spell after the digits already read
    have given [r]. *)
Definition digits_value (ds : list char) (r : Z) : Z :=
  fold_left (fun r c => r * 10 + (c - CH_0)) ds r.

(** The next byte, if any, is not a digit. *)
Definition no_digit_next (tail : list char) : Prop :=
  match tail with
  | [] => True
  | c :: _ => is_digit c = false
  end.


(** ** Trees that are read back from their rendering *)

(** A byte that stands for itself between the quotes of a key. *)
Definition key_char (c : char) : bool :=
  (32 <=? c) && negb (c =? CH_QUOTE) && negb (c =? CH_BACKSLASH).

(** A byte of a String that the scanner accepts in the form the
    serializer gives it: no control character other than the five that
    the serializer escapes. *)
Definition text_char (c : char) : bool :=
  (32 <=? c) || (c =? CH_BS) || (c =? CH_FF) || (c =? CH_LF) || (c =? CH_CR) ||
  (c =? CH_TAB).

(** A key as the parser stores keys: one byte, written as it is. *)
Definition canonical_key (key : list char) : bool :=
  match key with
  | [c] => key_char c
  | _ => false
  end.

(** [canonical v]: Numbers are not negative, within [s64] and carry the
    flags that [jsonk_value_create_number] gives them (a fraction below
    10^9 when the is-integer flag is off); Strings hold bytes that the
    scanner accepts once escaped, within the length limit; keys are one
    plain byte; Arrays and Objects are within their limits. *)
Fixpoint canonical (v : jsonk_value) : bool :=
  match v with
  | JNull => true
  | JBoolean _ => true
  | JNumber integer fraction is_negative is_integer =>
    negb is_negative && (0 <=? integer) && (integer <=? S64_MAX) &&
    (if is_integer then fraction =? 0
     else (0 <=? fraction) && (fraction <? 1000000000))
  | JString data =>
    forallb text_char data &&
    (Z.of_nat (length (flat_map escape_char data)) <=? JSONK_MAX_STRING_LENGTH)
  | JArray elements =>
    (Z.of_nat (length elements) <=? JSONK_MAX_ARRAY_SIZE) &&
    forallb canonical elements
  | JObject members =>
    (Z.of_nat (length members) <=? JSONK_MAX_OBJECT_MEMBERS) &&
    forallb (fun m : jsonk_member => canonical_key (fst m) && canonical (snd m))
            members
  end.

(** An upper bound of the bytes that the parse of the rendering of [v]
    checks against the budget: for a String the value and twice its
    escaped text, for a member the node, the key and its terminator, for
    an element the node. *)
Fixpoint tracked_bytes (v : jsonk_value) : Z :=
  match v with
  | JString data =>
    sizeof_jsonk_value + 2 * (Z.of_nat (length (flat_map escape_char data)) + 1)
  | JArray elements =>
    fold_right (fun e acc => tracked_bytes e + sizeof_jsonk_array_element + acc)
               0 elements
  | JObject members =>
    fold_right (fun (m : jsonk_member) acc =>
                  tracked_bytes (snd m) + (sizeof_jsonk_member + 2) + acc)
               0 members
  | _ => 0
  end.

(** What follows a value inside a document: nothing, a comma or a
    closing bracket. *)
Definition closes (tail : list char) : Prop :=
  match tail with
  | [] => True
  | c :: _ => c = CH_COMMA \/ c = CH_RBRACKET \/ c = CH_RBRACE
  end.

(** The parser [p'] is [p] after the rendering of [v] has been read. *)
Definition advanced (p p' : jsonk_parser) (v : jsonk_value) : Prop :=
  buffer p' = buffer p /\
  pos p' = (pos p + length (render v))%nat /\
  depth p' = depth p /\
  total_memory_used p <= total_memory_used p' <= total_memory_used p + tracked_bytes v /\
  string_count p' = string_count p + string_values v.

(** The value parser [pv] reads [v] back from its rendering, wherever it
    stands in a document and whatever follows, when depth, byte budget
    and string count allow. *)
Definition parses (pv : jsonk_parser -> outcome (jsonk_value * jsonk_parser))
           (v : jsonk_value) : Prop :=
  forall p tail,
    rest p = render v ++ tail -> closes tail ->
    depth p + nesting v <= JSONK_MAX_DEPTH ->
    total_memory_used p + tracked_bytes v <= JSONK_MAX_TOTAL_MEMORY ->
    string_count p + string_values v <= JSONK_MAX_ARRAY_SIZE ->
    exists p', pv p = Got (v, p') /\ advanced p p' v.


(** ** Invariants used in the proofs *)

(** What a successful token read guarantees. *)
Definition token_ok (p : jsonk_parser) (token : jsonk_token) (p' : jsonk_parser) : Prop :=
  moved p p' /\ (pos p < pos p')%nat /\
  (pos p <= tk_start token)%nat /\ (tk_start token + tk_len token <= pos p')%nat /\
  (tk_type token = JSONK_TOKEN_OBJECT_START \/ tk_type token = JSONK_TOKEN_ARRAY_START ->
   tk_len token = 1%nat).

(** Accounting leaves the input, the cursor and the depth alone. *)
Definition same_cursor (p q : jsonk_parser) : Prop :=
  buffer q = buffer p /\ pos q = pos p /\ depth q = depth p.

(** What the loop of a stable patch leaves behind is settled. *)
Definition settles (v : jsonk_value) : Prop :=
  stable_value v = true ->
  forall pm, v = JObject pm ->
  forall X Y c c',
    merge_loop merge_value pm X c = OK (Y, c') ->
    settled_members settled_value pm Y.

(** Merging a stable patch into a target where it is settled changes
    nothing, and still reports a change for every member. *)
Definition stays (v : jsonk_value) : Prop :=
  stable_value v = true ->
  forall pm, v = JObject pm ->
  forall X c,
    settled_members settled_value pm X ->
    merge_loop merge_value pm X c = OK (X, c || negb (is_nil pm)).

(** * Properties *)

(** ** Concrete runs *)

(** C4 (the negative literal run on the code).  The literal -5 parses to
    the integer -5 with the is-negative flag set, and the serializer
    negates the stored integer because of that flag: the text written
    is 5.  The same holds for every negative integer above the minimum. *)
Theorem negative_integer_serialized_without_sign :
  jsonk_parse (bytes "-5") = Got (JNumber (-5) 0 true true) /\
  serialized (JNumber (-5) 0 true true) 16 = Some (bytes "5") /\
  (forall z, S64_MIN < z < 0 ->
     number_text z 0 (z <? 0) true = print_unsigned (- z)).
Proof.
  split; [vm_compute; reflexivity|]. split; [vm_compute; reflexivity|].
  intros z Hz. unfold number_text, print_lld, wrap64, S64_MIN in *.
  replace (z <? 0) with true by (symmetry; apply Z.ltb_lt; lia).
  replace ((- z + 2 ^ 63) mod 2 ^ 64 - 2 ^ 63) with (- z).
  - replace (- z <? 0) with false by (symmetry; apply Z.ltb_ge; lia). reflexivity.
  - rewrite Z.mod_small; lia.
Qed.

Lemma negative_integer_serialized_without_sign_at_7 :
  number_text (-7) 0 (-7 <? 0) true = print_unsigned (- (-7)).
Proof.
  apply (proj2 (proj2 negative_integer_serialized_without_sign)).
  unfold S64_MIN. lia.
Defined.

Lemma scan_number_flags_spec (l : list char) (has_decimal : bool) :
  (let (d, e) := scan_number_flags l has_decimal in d || e) =
  has_decimal ||
  existsb (fun c => (c =? CH_DOT) || (c =? CH_e) || (c =? CH_E)) l.
Proof.
  revert has_decimal. induction l as [ | c l IH ]; intros hd; simpl.
  - now rewrite !orb_false_r.
  - destruct (c =? CH_DOT); simpl.
    + rewrite IH. simpl. now rewrite orb_true_r.
    + destruct ((c =? CH_e) || (c =? CH_E)); simpl.
      * now rewrite !orb_true_r.
      * apply IH.
Qed.

Lemma parse_frac_part_bound (l : list char) :
  forall (frac_part frac_digits : Z),
    0 <= frac_digits <= 9 -> 0 <= frac_part < 10 ^ frac_digits ->
    0 <= parse_frac_part l frac_part frac_digits < 10 ^ 9.
Proof.
  induction l as [ | c l IH ]; intros f k Hk Hf.
  - simpl. assert (10 ^ k <= 10 ^ 9) by (apply Z.pow_le_mono_r; lia). lia.
  - assert (10 ^ k <= 10 ^ 9) by (apply Z.pow_le_mono_r; lia).
    cbn [parse_frac_part].
    destruct (is_digit c) eqn:Ed; [ | simpl; lia ].
    destruct (k <? 9) eqn:Ek; [ | simpl; lia ].
    cbn [andb]. apply Z.ltb_lt in Ek.
    destruct (f >? UINT_MAX / 10); [lia|].
    unfold is_digit in Ed. apply andb_true_iff in Ed as [E0 E9].
    apply Z.leb_le in E0, E9. unfold CH_0, CH_9 in *.
    assert (10 ^ (k + 1) = 10 * 10 ^ k) as Hp
        by (rewrite Z.pow_add_r by lia; change (10 ^ 1) with 10; lia).
    assert (10 ^ (k + 1) <= 10 ^ 9) by (apply Z.pow_le_mono_r; lia).
    assert (10 ^ 9 = 1000000000) by reflexivity.
    apply IH; [lia|].
    unfold wrap32. change (2 ^ 32) with 4294967296.
    rewrite Z.mod_small; lia.
Qed.

(** C8 (number construction run on the code).  The two extreme 64-bit
    literals parse exactly; an integer literal one above the maximum
    wraps to the minimum instead of saturating, and so does the integer
    part of a literal with a fraction when the overflow happens on the
    last digit; an integer part that saturates stops the scan, so the
    fraction after it is not read.  For every literal the is-integer flag
    is set exactly when the literal has no point and no exponent mark, and
    the fraction field holds at most nine digits. *)
Theorem number_construction_runs :
  jsonk_value_create_number (bytes "9223372036854775807")
    = Some (JNumber S64_MAX 0 false true) /\
  jsonk_value_create_number (bytes "-9223372036854775808")
    = Some (JNumber S64_MIN 0 true true) /\
  jsonk_value_create_number (bytes "9223372036854775808")
    = Some (JNumber S64_MIN 0 true true) /\
  jsonk_value_create_number (bytes "9223372036854775808.5")
    = Some (JNumber S64_MIN 5 false false) /\
  jsonk_value_create_number (bytes "99999999999999999999.5")
    = Some (JNumber S64_MAX 0 false false) /\
  jsonk_value_create_number (bytes "12.1234567891234")
    = Some (JNumber 12 123456789 false false) /\
  jsonk_value_create_number (bytes "12e5")
    = Some (JNumber 12 0 false false) /\
  (forall str integer fraction is_negative is_integer,
      jsonk_value_create_number str
        = Some (JNumber integer fraction is_negative is_integer) ->
      is_integer =
        negb (existsb (fun c => (c =? CH_DOT) || (c =? CH_e) || (c =? CH_E)) str) /\
      0 <= fraction < 10 ^ 9).
Proof.
  do 7 (split; [vm_compute; reflexivity|]).
  intros str i f n g H. unfold jsonk_value_create_number in H.
  pose proof (scan_number_flags_spec str false) as F.
  destruct (scan_number_flags str false) as [d e]. cbn [orb] in F. rewrite <- F.
  destruct (d || e).
  - destruct (parse_int_part _ 0) as [int_part l].
    injection H as <- <- <- <-. split; [reflexivity|].
    destruct l as [ | c l ]; [lia|].
    destruct (c =? CH_DOT); [ | lia ].
    apply parse_frac_part_bound; simpl; lia.
  - destruct (simple_strtoll str) as [integer endptr].
    destruct (is_nil endptr); [ | discriminate ].
    injection H as <- <- <- <-. split; [reflexivity | lia].
Qed.

(** C2 (the buffer-overflow test of tests/atomic_test.c run on the code).
    With a 50-byte result buffer the call returns ERROR_OVERFLOW after the
    serializer has stored 49 bytes of the merged document in the buffer,
    and the length output keeps the value it had before the call. *)
Theorem overflow_leaves_partial_output :
  let target := json "{'name':'Mehran'}" in
  let patch := json "{'description':'This is a very long description that should cause buffer overflow when serialized'}" in
  let result := fresh_buffer 50 (ch "#") in
  jsonk_apply_patch target patch result 50 7 =
    Got (JSONK_PATCH_ERROR_OVERFLOW,
         json "{'n':'Mehran','d':'This is a very long descriptio#",
         7%nat) /\
  (forall c result' n, jsonk_apply_patch target patch result 50 7 = Got (c, result', n) ->
     c = JSONK_PATCH_ERROR_OVERFLOW /\ result' <> result /\ n <> 0%nat).
Proof.
  cbv zeta. split; [vm_compute; reflexivity|].
  intros c r n H. vm_compute in H. injection H as <- <- <-.
  repeat split; try discriminate; vm_compute; discriminate.
Qed.

(** ** The patch-parse fallback *)

Lemma write_prefix (buffer s : list char) :
  (length s <= length buffer)%nat ->
  firstn (length s) (write buffer 0 s) = s /\
  skipn (length s) (write buffer 0 s) = skipn (length s) buffer /\
  length (write buffer 0 s) = length buffer.
Proof.
  intros H. unfold write. simpl.
  repeat split.
  - rewrite firstn_app, firstn_all, Nat.sub_diag. simpl. apply app_nil_r.
  - rewrite skipn_app, skipn_all, Nat.sub_diag. reflexivity.
  - rewrite length_app, length_skipn. lia.
Qed.

(** C5.  When the target parses to an Object and the patch does not
    parse: if the target is no longer than the result buffer, its bytes
    are copied to the start of the buffer, the length output is the
    target length and the call returns NO_CHANGE; otherwise the call
    returns ERROR_OVERFLOW and stores nothing. *)
Theorem patch_parse_fallback
        (target patch result : list char) (result_max_len result_len : nat)
        (target_members : list jsonk_member) :
  jsonk_parse target = Got (JObject target_members) ->
  jsonk_parse patch = Null ->
  (result_max_len <= length result)%nat ->
  ((length target <= result_max_len)%nat ->
     exists result',
       jsonk_apply_patch target patch result result_max_len result_len
         = Got (JSONK_PATCH_NO_CHANGE, result', length target) /\
       firstn (length target) result' = target /\
       skipn (length target) result' = skipn (length target) result /\
       length result' = length result) /\
  ((result_max_len < length target)%nat ->
     jsonk_apply_patch target patch result result_max_len result_len
       = Got (JSONK_PATCH_ERROR_OVERFLOW, result, result_len)).
Proof.
  intros Ht Hp Hlen. unfold jsonk_apply_patch. rewrite Ht, Hp. simpl.
  split; intros H.
  - apply Nat.leb_le in H as Hb. rewrite Hb.
    exists (write result 0 target). split; [reflexivity|].
    apply write_prefix. lia.
  - apply Nat.leb_gt in H. rewrite H. reflexivity.
Qed.

Lemma patch_parse_fallback_scenario :
  let target := json "{'name':'M','age':30}" in
  let patch := json "{'name':'J','invalid':}" in
  exists result',
    jsonk_apply_patch target patch (fresh_buffer 64 CH_NUL) 64 0
      = Got (JSONK_PATCH_NO_CHANGE, result', length target) /\
    firstn (length target) result' = target /\
    skipn (length target) result' = skipn (length target) (fresh_buffer 64 CH_NUL) /\
    length result' = length (fresh_buffer 64 CH_NUL).
Proof.
  cbv zeta.
  refine (proj1 (patch_parse_fallback
            (json "{'name':'M','age':30}") (json "{'name':'J','invalid':}")
            (fresh_buffer 64 CH_NUL) 64 0
            [(bytes "n", JString (bytes "M")); (bytes "a", JNumber 30 0 false true)]
            _ _ _) _).
  - vm_compute; reflexivity.
  - vm_compute; reflexivity.
  - apply Nat.leb_le; vm_compute; reflexivity.
  - apply Nat.leb_le; vm_compute; reflexivity.
Defined.

(** ** Induction on the value tree *)

Lemma jsonk_value_rect' (P : jsonk_value -> Prop) :
  P JNull ->
  (forall b, P (JBoolean b)) ->
  (forall i f n g, P (JNumber i f n g)) ->
  (forall data, P (JString data)) ->
  (forall es, Forall P es -> P (JArray es)) ->
  (forall ms, Forall (fun m => P (snd m)) ms -> P (JObject ms)) ->
  forall v, P v.
Proof.
  intros Hnull Hbool Hnum Hstr Harr Hobj.
  fix IH 1. intros [ | b | i f n g | data | es | ms ].
  - exact Hnull.
  - apply Hbool.
  - apply Hnum.
  - apply Hstr.
  - apply Harr. induction es as [ | e es IHes ]; constructor; [apply IH | exact IHes].
  - apply Hobj. induction ms as [ | [k v] ms IHms ]; constructor; [apply IH | exact IHms].
Qed.

(** ** The serializer writes the compact rendering *)

Lemma write_length (b s : list char) (i : nat) :
  (i + length s <= length b)%nat -> length (write b i s) = length b.
Proof.
  intros H. unfold write. rewrite !length_app, length_firstn, length_skipn. lia.
Qed.

Lemma write_firstn (b s : list char) (i k : nat) :
  (k <= i)%nat -> (i <= length b)%nat -> firstn k (write b i s) = firstn k b.
Proof.
  intros Hk Hi. unfold write.
  rewrite firstn_app, length_firstn, firstn_firstn.
  replace (k - Nat.min i (length b))%nat with 0%nat by lia.
  replace (Nat.min k i) with k by lia. simpl. apply app_nil_r.
Qed.

Lemma write_skipn (b s : list char) (i k : nat) :
  (i + length s <= k)%nat -> (i <= length b)%nat -> skipn k (write b i s) = skipn k b.
Proof.
  intros Hk Hi. unfold write.
  rewrite skipn_app, length_firstn.
  rewrite (skipn_all2 (firstn i b)) by (rewrite length_firstn; lia).
  rewrite skipn_app, (skipn_all2 s) by lia.
  rewrite skipn_skipn. simpl. f_equal. lia.
Qed.

Lemma write_window (b s : list char) (base i : nat) :
  (base <= i)%nat -> (i <= length b)%nat ->
  firstn (i - base + length s) (skipn base (write b i s))
  = firstn (i - base) (skipn base b) ++ s.
Proof.
  intros Hb Hi. unfold write.
  rewrite skipn_app, length_firstn.
  replace (base - Nat.min i (length b))%nat with 0%nat by lia. simpl.
  rewrite firstn_app, length_skipn, length_firstn.
  replace (i - base + length s - (Nat.min i (length b) - base))%nat
    with (length s) by lia.
  rewrite firstn_app, firstn_all, Nat.sub_diag. simpl. rewrite app_nil_r.
  rewrite (firstn_all2 (skipn base (firstn i b)))
    by (rewrite length_skipn, length_firstn; lia).
  f_equal. rewrite firstn_skipn_comm. f_equal. f_equal. lia.
Qed.

Lemma agrees_outside_refl (base size : nat) (b : list char) :
  agrees_outside base size b b.
Proof. repeat split. Qed.

Lemma rendering_start (base size : nat) (b : list char) :
  rendering base size b [] (At 0 b).
Proof.
  simpl. repeat split; auto.
Qed.

Lemma firstn_plus {A} (l : list A) (n m : nat) :
  firstn (n + m) l = firstn n l ++ firstn m (skipn n l).
Proof.
  revert l. induction n as [ | n IH ]; intros [ | x l ]; simpl; auto.
  - now rewrite firstn_nil.
  - now rewrite IH.
Qed.

Lemma emit_rendering (base size : nat) (b0 t s : list char) (st : progress) :
  (base + size <= length b0)%nat ->
  rendering base size b0 t st ->
  rendering base size b0 (t ++ s) (emit base size s st).
Proof.
  intros Hfit H. destruct st as [pos b | ret b]; simpl in *.
  - destruct H as (Hpos & Hlt & (Hlen & Hpre & Hpost) & Htext).
    destruct (Nat.leb_spec size (pos + length s)) as [Hover | Hok].
    + simpl. rewrite length_app. repeat split; auto; lia.
    + simpl. rewrite length_app. split; [lia|]. split; [lia|].
      assert (Hin : (base + pos + length s <= length b)%nat) by lia.
      split; [repeat split|].
      * rewrite write_length; lia.
      * rewrite write_firstn; auto; lia.
      * rewrite write_skipn; auto; lia.
      * replace (pos + length s)%nat with (base + pos - base + length s)%nat by lia.
        rewrite write_window by lia.
        replace (base + pos - base)%nat with pos by lia. now rewrite Htext.
  - destruct H as (Hret & Hsz & Hout). rewrite length_app. repeat split; auto; try lia;
      apply Hout.
Qed.

Lemma emit_formatted_rendering (base size : nat) (b0 s : list char) :
  (base + size <= length b0)%nat ->
  rendering base size b0 s (emit_formatted base size s (At 0 b0)).
Proof.
  intros Hfit. unfold emit_formatted. rewrite Nat.sub_0_r, Nat.add_0_r.
  change (0 + length s)%nat with (length s).
  assert (Hout : agrees_outside base size b0 (snprintf b0 base size s)).
  { destruct size as [ | m ]; [apply agrees_outside_refl|]. unfold snprintf.
    assert (Hw : (length (firstn m s ++ [CH_NUL]) <= S m)%nat).
    { rewrite length_app, length_firstn. simpl. lia. }
    repeat split.
    - rewrite write_length; lia.
    - rewrite write_firstn; auto; lia.
    - rewrite write_skipn; auto; lia. }
  destruct (Nat.leb_spec size (length s)) as [Hover | Hok].
  - split; [reflexivity|]. split; [exact Hover | exact Hout].
  - split; [reflexivity|]. split; [lia|]. split; [exact Hout|].
    destruct size as [ | m ]; [lia|]. unfold snprintf.
    rewrite (@firstn_all2 _ m s) by lia.
    pose proof (write_window b0 (s ++ [CH_NUL]) base base (Nat.le_refl _)) as Hwin.
    rewrite Nat.sub_diag in Hwin. simpl in Hwin.
    assert (E : firstn (length s) (skipn base (write b0 base (s ++ [CH_NUL])))
                = firstn (length s)
                    (firstn (length (s ++ [CH_NUL]))
                       (skipn base (write b0 base (s ++ [CH_NUL]))))).
    { rewrite firstn_firstn. f_equal. rewrite length_app. simpl. lia. }
    rewrite E, Hwin by lia. rewrite firstn_app, firstn_all, Nat.sub_diag.
    simpl. apply app_nil_r.
Qed.

Lemma emit_value_rendering (base size : nat) (b0 t : list char)
      (v : jsonk_value) (st : progress) :
  (base + size <= length b0)%nat ->
  serialize_spec v ->
  rendering base size b0 t st ->
  rendering base size b0 (t ++ render v)
            (emit_value base size (jsonk_serialize v) st).
Proof.
  intros Hfit Hv H. destruct st as [pos b | ret b]; simpl in *.
  - destruct H as (Hpos & Hlt & (Hlen & Hpre & Hpost) & Htext).
    assert (Hwin : (base + pos + (size - pos) <= length b)%nat) by lia.
    specialize (Hv b (base + pos)%nat (size - pos)%nat Hwin).
    destruct (jsonk_serialize v b (base + pos) (size - pos)) as [[ret written] b'].
    destruct Hv as ((Hlen' & Hpre' & Hpost') & Hres).
    assert (Hsame : (base + pos + (size - pos) = base + size)%nat) by lia.
    rewrite Hsame in Hpost'.
    assert (Hout : agrees_outside base size b0 b').
    { repeat split.
      - congruence.
      - assert (F : forall l : list char,
                   firstn base l = firstn base (firstn (base + pos) l)).
        { intro l. rewrite firstn_firstn. f_equal. lia. }
        rewrite (F b'), Hpre', <- F. exact Hpre.
      - congruence. }
    destruct Hres as [(Hret & Hw & Hwlt & Hrender) | (Hret & Hw & Hsz)]; subst ret; simpl.
    + rewrite length_app. split; [lia|]. split; [lia|]. split; [exact Hout|].
      rewrite firstn_plus. f_equal.
      * rewrite <- Htext. rewrite !firstn_skipn_comm. now rewrite Hpre'.
      * rewrite skipn_skipn. now rewrite Nat.add_comm.
    + rewrite length_app. split; [reflexivity|]. split; [lia | exact Hout].
  - destruct H as (Hret & Hsz & Hout). rewrite length_app. repeat split; auto; try lia;
      apply Hout.
Qed.

Lemma serialize_members_rendering (base size : nat) (b0 : list char)
      (ms : list jsonk_member) :
  (base + size <= length b0)%nat ->
  Forall (fun m => serialize_spec (snd m)) ms ->
  forall first t st,
    rendering base size b0 t st ->
    rendering base size b0 (t ++ render_members render ms first)
              (serialize_members jsonk_serialize base size ms first st).
Proof.
  intros Hfit Hall. induction Hall as [ | [key v] ms Hv _ IH ]; intros first t st H.
  - simpl. now rewrite app_nil_r.
  - simpl in Hv.
    change (render_members render ((key, v) :: ms) first)
      with ((if first then [] else [CH_COMMA]) ++
            (CH_QUOTE :: key ++ [CH_QUOTE; CH_COLON]) ++
            render v ++ render_members render ms false).
    set (sep := if first then [] else [CH_COMMA]).
    set (kt := CH_QUOTE :: key ++ [CH_QUOTE; CH_COLON]).
    replace (t ++ sep ++ kt ++ render v ++ render_members render ms false)
      with ((((t ++ sep) ++ kt) ++ render v) ++ render_members render ms false)
      by (now rewrite <- !app_assoc).
    simpl serialize_members. apply IH.
    apply emit_value_rendering; auto.
    apply emit_rendering; auto.
    subst sep. destruct first.
    + now rewrite app_nil_r.
    + apply emit_rendering; auto.
Qed.

Lemma serialize_elements_rendering (base size : nat) (b0 : list char)
      (es : list jsonk_value) :
  (base + size <= length b0)%nat ->
  Forall serialize_spec es ->
  forall first t st,
    rendering base size b0 t st ->
    rendering base size b0 (t ++ render_elements render es first)
              (serialize_elements jsonk_serialize base size es first st).
Proof.
  intros Hfit Hall. induction Hall as [ | v es Hv _ IH ]; intros first t st H.
  - simpl. now rewrite app_nil_r.
  - change (render_elements render (v :: es) first)
      with ((if first then [] else [CH_COMMA]) ++
            render v ++ render_elements render es false).
    set (sep := if first then [] else [CH_COMMA]).
    replace (t ++ sep ++ render v ++ render_elements render es false)
      with (((t ++ sep) ++ render v) ++ render_elements render es false)
      by (now rewrite <- !app_assoc).
    simpl serialize_elements. apply IH.
    apply emit_value_rendering; auto.
    subst sep. destruct first.
    + now rewrite app_nil_r.
    + apply emit_rendering; auto.
Qed.

Lemma serialize_string_rendering (base size : nat) (b0 : list char)
      (data : list char) :
  (base + size <= length b0)%nat ->
  forall t st,
    rendering base size b0 t st ->
    rendering base size b0 (t ++ flat_map escape_char data)
              (fold_left (fun st c => emit base size (escape_char c) st) data st).
Proof.
  intros Hfit. induction data as [ | c data IH ]; intros t st H.
  - simpl. now rewrite app_nil_r.
  - simpl. rewrite app_assoc. apply IH. apply emit_rendering; auto.
Qed.

Lemma finish_rendering (base size : nat) (b0 t : list char) (st : progress) :
  rendering base size b0 t st ->
  t <> [] ->
  let '(ret, written, b) := finish st in
  agrees_outside base size b0 b /\
  ((ret = 0 /\ written = length t /\ (written < size)%nat /\
    firstn written (skipn base b) = t) \/
   (ret = - EOVERFLOW /\ written = 0%nat /\ (size <= length t)%nat)).
Proof.
  intros H Ht. destruct st as [pos b | ret b]; simpl in *.
  - destruct H as (Hpos & Hlt & Hout & Htext). split; [exact Hout|]. left.
    repeat split; auto. destruct Hlt as [H0 | Hlt]; [ | exact Hlt ].
    destruct t; [congruence | simpl in Hpos; lia].
  - destruct H as (Hret & Hsz & Hout). split; [exact Hout|]. right. auto.
Qed.

Lemma print_digits_length (fuel : nat) (n : Z) (acc : list char) :
  (length acc <= length (print_digits fuel n acc))%nat.
Proof.
  revert n acc. induction fuel as [ | fuel IH ]; intros n acc; simpl; [lia|].
  destruct (n / 10 =? 0); simpl; [lia|].
  specialize (IH (n / 10) ((CH_0 + n mod 10) :: acc)). simpl in IH. lia.
Qed.

Lemma print_digits_length_S (fuel : nat) (n : Z) (acc : list char) :
  (S (length acc) <= length (print_digits (S fuel) n acc))%nat.
Proof.
  simpl. destruct (n / 10 =? 0); simpl; [lia|].
  pose proof (print_digits_length fuel (n / 10) ((CH_0 + n mod 10) :: acc)) as L.
  simpl in L. exact L.
Qed.

Lemma print_unsigned_nonempty (n : Z) : print_unsigned n <> [].
Proof.
  unfold print_unsigned. intro H.
  pose proof (print_digits_length_S 19 n []) as L.
  change (S 19) with 20%nat in L. rewrite H in L. simpl in L. lia.
Qed.

Lemma number_text_nonempty (i f : Z) (n g : bool) : number_text i f n g <> [].
Proof.
  unfold number_text, print_lld.
  assert (H : forall z, (if z <? 0 then CH_MINUS :: print_unsigned (- z)
                         else print_unsigned z) <> []).
  { intro z. destruct (z <? 0); [discriminate | apply print_unsigned_nonempty]. }
  destruct g; [apply H|].
  intro E. apply app_eq_nil in E. destruct E as [E _]. exact (H _ E).
Qed.

(** [jsonk_serialize] succeeds exactly when the compact rendering is
    strictly shorter than the buffer, and then the buffer holds the
    rendering; otherwise it returns -EOVERFLOW.  Either way the memory
    outside the buffer is untouched. *)
Lemma jsonk_serialize_correct (v : jsonk_value) : serialize_spec v.
Proof.
  induction v as [ | b | i f n g | data | es IH | ms IH ] using jsonk_value_rect';
    intros buffer base size Hfit.
  - apply (finish_rendering base size buffer (render JNull)); [ | discriminate ].
    apply (emit_rendering base size buffer [] (bytes "null")); auto.
    apply rendering_start.
  - destruct b.
    + apply (finish_rendering base size buffer (render (JBoolean true))); [ | discriminate ].
      apply (emit_rendering base size buffer [] (bytes "true")); auto.
      apply rendering_start.
    + apply (finish_rendering base size buffer (render (JBoolean false))); [ | discriminate ].
      apply (emit_rendering base size buffer [] (bytes "false")); auto.
      apply rendering_start.
  - apply (finish_rendering base size buffer (render (JNumber i f n g))).
    + apply emit_formatted_rendering; auto.
    + apply number_text_nonempty.
  - apply (finish_rendering base size buffer (render (JString data))); [ | discriminate ].
    simpl render. rewrite app_comm_cons.
    apply emit_rendering; auto.
    apply (serialize_string_rendering base size buffer data Hfit [CH_QUOTE]).
    apply (emit_rendering base size buffer [] [CH_QUOTE]); auto. apply rendering_start.
  - apply (finish_rendering base size buffer (render (JArray es))); [ | discriminate ].
    simpl render. rewrite app_comm_cons.
    apply emit_rendering; auto.
    apply (serialize_elements_rendering base size buffer es Hfit IH true [CH_LBRACKET]).
    apply (emit_rendering base size buffer [] [CH_LBRACKET]); auto. apply rendering_start.
  - apply (finish_rendering base size buffer (render (JObject ms))); [ | discriminate ].
    simpl render. rewrite app_comm_cons.
    apply emit_rendering; auto.
    apply (serialize_members_rendering base size buffer ms Hfit IH true [CH_LBRACE]).
    apply (emit_rendering base size buffer [] [CH_LBRACE]); auto. apply rendering_start.
Qed.

(** C10.  A successful [jsonk_serialize] reports strictly fewer bytes
    than the buffer size, the bytes being the compact rendering of the
    value; it succeeds exactly when the rendering is strictly shorter
    than the buffer, so a rendering of exactly the buffer size is
    refused with -EOVERFLOW although it would fit. *)
Theorem serialize_never_fills_buffer
        (value : jsonk_value) (buffer : list char) (base buffer_size : nat) :
  (base + buffer_size <= length buffer)%nat ->
  let '(ret, written, b) := jsonk_serialize value buffer base buffer_size in
  (ret = 0 ->
     (written < buffer_size)%nat /\
     written = length (render value) /\
     firstn written (skipn base b) = render value) /\
  (ret = 0 <-> (length (render value) < buffer_size)%nat) /\
  (length (render value) = buffer_size -> ret = - EOVERFLOW /\ written = 0%nat).
Proof.
  intros Hfit. pose proof (jsonk_serialize_correct value buffer base buffer_size Hfit) as H.
  destruct (jsonk_serialize value buffer base buffer_size) as [[ret written] b].
  destruct H as (_ & [(Hret & Hw & Hlt & Htext) | (Hret & Hw & Hsz)]).
  - subst ret. split; [auto|]. split; [split; [intros _; lia | reflexivity]|].
    intros E. lia.
  - subst ret. unfold EOVERFLOW in *. split; [discriminate|].
    split; [split; [discriminate | lia]|]. auto.
Qed.

Lemma serialize_never_fills_buffer_six :
  let '(ret, written, b) :=
      jsonk_serialize (JArray [JBoolean true]) (fresh_buffer 6 CH_NUL) 0 6 in
  (ret = 0 ->
     (written < 6)%nat /\
     written = length (render (JArray [JBoolean true])) /\
     firstn written (skipn 0 b) = render (JArray [JBoolean true])) /\
  (ret = 0 <-> (length (render (JArray [JBoolean true])) < 6)%nat) /\
  (length (render (JArray [JBoolean true])) = 6%nat ->
   ret = - EOVERFLOW /\ written = 0%nat).
Proof.
  apply (serialize_never_fills_buffer
           (JArray [JBoolean true]) (fresh_buffer 6 CH_NUL) 0 6).
  apply Nat.leb_le. vm_compute. reflexivity.
Defined.

(** ** Deep copy of plain values *)

Lemma geb_false (a b : Z) : a < b -> (a >=? b) = false.
Proof. intros H. rewrite Z.geb_leb. apply Z.leb_gt. lia. Qed.

Lemma geb_true (a b : Z) : b <= a -> (a >=? b) = true.
Proof. intros H. rewrite Z.geb_leb. apply Z.leb_le. lia. Qed.

Lemma gtb_false (a b : Z) : a <= b -> (a >? b) = false.
Proof. intros H. rewrite Z.gtb_ltb. apply Z.ltb_ge. lia. Qed.

Lemma gtb_true (a b : Z) : b < a -> (a >? b) = true.
Proof. intros H. rewrite Z.gtb_ltb. apply Z.ltb_lt. lia. Qed.

Lemma list_eqb_eq (a b : list char) : list_eqb a b = true <-> a = b.
Proof.
  revert b. induction a as [ | x a IH ]; intros [ | y b ]; simpl; split;
    try discriminate; auto; intros H.
  - apply andb_true_iff in H as [Hx Hab]. apply Z.eqb_eq in Hx. apply IH in Hab.
    congruence.
  - injection H as -> ->. rewrite Z.eqb_refl. simpl. now apply IH.
Qed.

Lemma copy_members_plain (f : jsonk_value -> option jsonk_value)
      (ms : list jsonk_member) :
  Forall (fun m => Z.of_nat (length (fst m)) <= JSONK_MAX_KEY_LENGTH /\
                   f (snd m) = Some (snd m)) ms ->
  forall copy,
    Z.of_nat (length copy + length ms) <= JSONK_MAX_OBJECT_MEMBERS ->
    copy_members f ms copy = copy ++ ms.
Proof.
  induction 1 as [ | [key v] ms [Hk Hv] _ IH ]; intros copy Hlen; simpl.
  - now rewrite app_nil_r.
  - simpl in Hk, Hv. rewrite Hv. unfold jsonk_object_add_member_tracked.
    simpl in Hlen.
    rewrite geb_false, gtb_false by lia.
    simpl. rewrite firstn_all, IH.
    + now rewrite <- app_assoc.
    + rewrite length_app. simpl. lia.
Qed.

Lemma copy_elements_plain (f : jsonk_value -> option jsonk_value)
      (es : list jsonk_value) :
  Forall (fun e => f e = Some e) es ->
  forall copy,
    Z.of_nat (length copy + length es) <= JSONK_MAX_ARRAY_SIZE ->
    copy_elements f es copy = copy ++ es.
Proof.
  induction 1 as [ | v es Hv _ IH ]; intros copy Hlen; simpl.
  - now rewrite app_nil_r.
  - rewrite Hv. unfold jsonk_array_add_element_tracked. simpl in Hlen.
    rewrite geb_false by lia.
    simpl. rewrite IH.
    + now rewrite <- app_assoc.
    + rewrite length_app. simpl. lia.
Qed.

Lemma deep_copy_plain (v : jsonk_value) :
  forall d, plainb v d = true -> jsonk_value_deep_copy v d = Some v.
Proof.
  induction v as [ | b | i f n g | data | es IH | ms IH ] using jsonk_value_rect';
    intros d H; simpl in H; apply andb_true_iff in H as [Hd H];
    apply Z.leb_le in Hd; simpl;
    rewrite (gtb_false d) by lia; try reflexivity.
  - apply andb_true_iff in H as [Hlen Hfix]. apply Z.leb_le in Hlen.
    unfold jsonk_value_create_string_tracked, unescape_fixed in *.
    rewrite gtb_false by lia.
    simpl. destruct (unescape data) as [u | ]; [ | discriminate ].
    apply list_eqb_eq in Hfix. subst u. reflexivity.
  - apply andb_true_iff in H as [Hlen Hall]. apply Z.leb_le in Hlen.
    rewrite copy_elements_plain; auto.
    rewrite forallb_forall in Hall. rewrite Forall_forall in *.
    intros e He. apply IH; auto.
  - apply andb_true_iff in H as [Hlen Hall]. apply Z.leb_le in Hlen.
    rewrite copy_members_plain; auto.
    rewrite forallb_forall in Hall. rewrite Forall_forall in *.
    intros m Hm. specialize (Hall m Hm). apply andb_true_iff in Hall as [Hk Hp].
    apply Z.leb_le in Hk. split; [exact Hk|]. apply IH; auto.
Qed.

(** ** The merge engine, member by member *)

Lemma key_matches_eq (key : list char) (m : jsonk_member) :
  key_matches key (length key) m = true -> fst m = key.
Proof.
  unfold key_matches. intros H. apply andb_true_iff in H as [_ H].
  apply list_eqb_eq in H. now rewrite firstn_all in H.
Qed.

Lemma find_member_split (target : list jsonk_member) (key : list char)
      (m : jsonk_member) :
  jsonk_object_find_member target key (length key) = Some m ->
  exists l1 l2,
    target = l1 ++ m :: l2 /\ key_absent key l1 /\ fst m = key /\
    remove_first key (length key) target = l1 ++ l2 /\
    forall c, replace_first key (length key) c target = l1 ++ (key, c) :: l2.
Proof.
  unfold jsonk_object_find_member, key_absent.
  induction target as [ | x target IH ]; simpl; [discriminate|].
  destruct (key_matches key (length key) x) eqn:E.
  - intros [= ->]. exists [], target. pose proof (key_matches_eq _ _ E) as Hk.
    repeat split; auto. intros c. simpl. now rewrite Hk.
  - intros H. destruct (IH H) as (l1 & l2 & -> & Habs & Hk & Hrem & Hrep).
    exists (x :: l1), l2. repeat split; auto.
    + simpl. now rewrite Hrem.
    + intros c. simpl. now rewrite Hrep.
Qed.

Lemma merge_member_flag rec (target : list jsonk_member) (member : jsonk_member)
      (changed : bool) :
  merge_member rec target member changed =
  match merge_member rec target member false with
  | ERR ret => ERR ret
  | OK (target', changed') => OK (target', changed || changed')
  end.
Proof.
  destruct member as [key value]. unfold merge_member.
  destruct (is_empty value).
  - destruct (jsonk_object_find_member target key (length key)).
    + destruct (jsonk_object_remove_member target key (length key)); auto.
      now rewrite orb_true_r.
    + now rewrite orb_false_r.
  - destruct (jsonk_object_find_member target key (length key)) as [[k tv] | ].
    + destruct value, tv;
        try (destruct (jsonk_value_deep_copy _ 1); [now rewrite orb_true_r | reflexivity]).
      destruct (rec (JObject members) members0) as [[tm sub] | ]; auto.
      destruct sub; [now rewrite orb_true_r | now rewrite orb_false_r].
    + destruct (jsonk_value_deep_copy value 1); auto.
      destruct (jsonk_object_add_member target key (length key) j); auto.
      now rewrite orb_true_r.
Qed.

Lemma merge_loop_flag rec (patch target : list jsonk_member) (changed : bool) :
  merge_loop rec patch target changed =
  match merge_loop rec patch target false with
  | ERR ret => ERR ret
  | OK (target', changed') => OK (target', changed || changed')
  end.
Proof.
  revert target changed. induction patch as [ | m patch IH ]; intros target changed; simpl.
  - now rewrite orb_false_r.
  - rewrite (merge_member_flag rec target m changed).
    destruct (merge_member rec target m false) as [[t c] | ]; auto.
    rewrite (IH t (changed || c)), (IH t c).
    destruct (merge_loop rec patch t false) as [[t' c'] | ]; auto.
    now rewrite orb_assoc.
Qed.

Lemma merge_value_object (patch target : list jsonk_member) :
  merge_value (JObject patch) target = jsonk_merge_objects target patch.
Proof. reflexivity. Qed.



(** ** The scanner moves the cursor forward inside the buffer *)

Ltac break_match H :=
  match type of H with
  | context [match ?x with _ => _ end] => destruct x eqn:?
  end.

Lemma skipn_cons_inv {A} (n : nat) (b : list A) (c : A) (l : list A) :
  skipn n b = c :: l -> (n < length b)%nat /\ skipn (S n) b = l.
Proof.
  revert b. induction n as [ | n IH ]; intros [ | x b ] H; simpl in *; try discriminate.
  - injection H as -> ->. split; [lia | reflexivity].
  - destruct (IH b H) as [Hlt Hs]. split; [lia|]. destruct b; auto.
Qed.

Lemma rest_cons (p : jsonk_parser) (c : char) (l : list char) :
  rest p = c :: l -> (pos p < buffer_len p)%nat /\ rest (advance p) = l.
Proof. unfold rest, buffer_len, advance. simpl. apply skipn_cons_inv. Qed.

Lemma rest_length (p : jsonk_parser) :
  length (rest p) = (buffer_len p - pos p)%nat.
Proof. unfold rest, buffer_len. apply length_skipn. Qed.

Lemma moved_refl (p : jsonk_parser) : in_buffer p -> moved p p.
Proof. intros H. split; [now destruct p | unfold in_buffer in H; lia]. Qed.

Lemma moved_trans (p q r : jsonk_parser) : moved p q -> moved q r -> moved p r.
Proof.
  intros [E1 B1] [E2 B2]. split.
  - rewrite E2, E1. reflexivity.
  - rewrite E1 in B2. unfold buffer_len in *. simpl in *. lia.
Qed.

Lemma moved_set_pos (p : jsonk_parser) (n : nat) :
  (pos p <= n <= buffer_len p)%nat -> moved p (set_pos p n).
Proof. intros H. split; [reflexivity | exact H]. Qed.

Lemma moved_in_buffer (p p' : jsonk_parser) : moved p p' -> in_buffer p'.
Proof.
  intros [E B]. unfold in_buffer. rewrite E. unfold buffer_len in *. simpl. lia.
Qed.

Lemma moved_buffer_len (p p' : jsonk_parser) :
  moved p p' -> buffer_len p' = buffer_len p.
Proof. intros [E _]. rewrite E. reflexivity. Qed.

Lemma skip_whitespace_from_bounds (l : list char) (n : nat) :
  (n <= skip_whitespace_from l n <= n + length l)%nat.
Proof.
  revert n. induction l as [ | c l IH ]; intros n; simpl; [lia|].
  destruct (jsonk_is_whitespace c); [ | lia ]. specialize (IH (S n)). lia.
Qed.

Lemma skip_digits_from_bounds (l : list char) (n : nat) :
  (n <= skip_digits_from l n <= n + length l)%nat.
Proof.
  revert n. induction l as [ | c l IH ]; intros n; simpl; [lia|].
  destruct (is_digit c); [ | lia ]. specialize (IH (S n)). lia.
Qed.

Lemma skip_whitespace_moved (p : jsonk_parser) :
  in_buffer p -> moved p (jsonk_skip_whitespace p).
Proof.
  intros H. apply moved_set_pos.
  pose proof (skip_whitespace_from_bounds (rest p) (pos p)) as B.
  rewrite rest_length in B. unfold in_buffer in H. lia.
Qed.

Lemma skip_digits_moved (p : jsonk_parser) : in_buffer p -> moved p (skip_digits p).
Proof.
  intros H. apply moved_set_pos.
  pose proof (skip_digits_from_bounds (rest p) (pos p)) as B.
  rewrite rest_length in B. unfold in_buffer in H. lia.
Qed.

Lemma advance_moved (p : jsonk_parser) :
  (pos p < buffer_len p)%nat -> moved p (advance p).
Proof. intros H. apply moved_set_pos. lia. Qed.

Lemma peek_char_in (p : jsonk_parser) :
  jsonk_peek_char p <> CH_NUL -> (pos p < buffer_len p)%nat.
Proof.
  unfold jsonk_peek_char. destruct (rest p) eqn:E; [congruence|].
  intros _. now apply rest_cons in E.
Qed.

Lemma at_char_in (p : jsonk_parser) (c : char) :
  at_char p c = true -> (pos p < buffer_len p)%nat.
Proof.
  unfold at_char. destruct (rest p) eqn:E; [discriminate|].
  intros _. now apply rest_cons in E.
Qed.

Lemma scan_string_bounds_aux (k : nat) :
  forall l, (length l <= k)%nat ->
  forall n q, scan_string l n = OK q -> (n <= q < n + length l)%nat.
Proof.
  induction k as [ | k IH ]; intros l Hle n q H.
  { destruct l; [discriminate | simpl in Hle; lia]. }
  destruct l as [ | c l1 ]; simpl in H; [discriminate|]. simpl in Hle.
  destruct (c =? CH_QUOTE).
  { injection H as <-. simpl. lia. }
  destruct (c =? CH_BACKSLASH).
  - destruct l1 as [ | e l2 ]; [discriminate|]. simpl in Hle.
    destruct (is_simple_escape e).
    + apply IH in H; simpl in *; lia.
    + destruct (e =? CH_u); [ | discriminate ].
      destruct l2 as [ | h1 [ | h2 [ | h3 [ | h4 l3 ] ] ] ]; try discriminate.
      destruct (is_hex_digit h1 && is_hex_digit h2 && is_hex_digit h3 && is_hex_digit h4);
        [ | discriminate ].
      apply IH in H; simpl in *; lia.
  - destruct (c <? 32); [discriminate|].
    apply IH in H; simpl in *; lia.
Qed.

Lemma scan_string_bounds (l : list char) (n q : nat) :
  scan_string l n = OK q -> (n <= q < n + length l)%nat.
Proof. apply (scan_string_bounds_aux (length l)). lia. Qed.

Lemma single_ok (ty : jsonk_token_type) (p : jsonk_parser) token p' :
  (pos p < buffer_len p)%nat ->
  single ty p = OK (token, p') -> token_ok p token p'.
Proof.
  intros H [= <- <-]. unfold token_ok. simpl.
  split; [apply advance_moved; auto|]. repeat split; auto; lia.
Qed.

Lemma parse_string_ok (p : jsonk_parser) token p' :
  (pos p < buffer_len p)%nat ->
  jsonk_parse_string p = OK (token, p') ->
  token_ok p token p' /\ tk_type token = JSONK_TOKEN_STRING.
Proof.
  intros H. unfold jsonk_parse_string.
  destruct (scan_string _ _) as [q | ] eqn:E; [ | discriminate ].
  intros [= <- <-]. apply scan_string_bounds in E.
  rewrite rest_length in E. unfold buffer_len in *. simpl in *.
  split; [ | reflexivity ]. unfold token_ok, moved, buffer_len. simpl.
  repeat split; try lia. intros [? | ?]; discriminate.
Qed.

Lemma number_integer_moved (p p' : jsonk_parser) :
  in_buffer p -> number_integer p = OK p' -> moved p p' /\ (pos p < pos p')%nat.
Proof.
  intros Hin. unfold number_integer.
  destruct (jsonk_peek_char p =? CH_0) eqn:E0.
  - assert (Hlt : (pos p < buffer_len p)%nat).
    { apply peek_char_in. apply Z.eqb_eq in E0. rewrite E0. discriminate. }
    destruct (is_digit _); [discriminate|]. intros [= <-].
    split; [apply advance_moved; auto | simpl; lia].
  - destruct ((CH_1 <=? jsonk_peek_char p) && (jsonk_peek_char p <=? CH_9)) eqn:E1;
      [ | discriminate ].
    assert (Hlt : (pos p < buffer_len p)%nat).
    { apply peek_char_in. apply andb_true_iff in E1 as [E1 _].
      apply Z.leb_le in E1. unfold CH_1, CH_NUL in *. lia. }
    intros [= <-].
    pose proof (advance_moved p Hlt) as M1.
    pose proof (skip_digits_moved (advance p) (moved_in_buffer _ _ M1)) as M2.
    split; [eapply moved_trans; eauto|].
    destruct M2 as [_ B]. change (pos (advance p)) with (S (pos p)) in B. lia.
Qed.

Lemma number_fraction_moved (p p' : jsonk_parser) :
  in_buffer p -> number_fraction p = OK p' -> moved p p'.
Proof.
  intros Hin. unfold number_fraction.
  destruct (at_char p CH_DOT) eqn:E.
  - apply at_char_in in E. destruct (no_digit_here _); [discriminate|].
    intros [= <-]. pose proof (advance_moved p E) as M1.
    eapply moved_trans; [exact M1|]. apply skip_digits_moved.
    eapply moved_in_buffer; eauto.
  - intros [= <-]. now apply moved_refl.
Qed.

Lemma number_exponent_moved (p p' : jsonk_parser) :
  in_buffer p -> number_exponent p = OK p' -> moved p p'.
Proof.
  intros Hin. unfold number_exponent.
  destruct (at_char p CH_e || at_char p CH_E) eqn:E.
  - assert (Hlt : (pos p < buffer_len p)%nat).
    { apply orb_true_iff in E as [E | E]; eapply at_char_in; eauto. }
    pose proof (advance_moved p Hlt) as M1.
    set (p1 := advance p) in *.
    assert (M2 : moved p1 (if at_char p1 CH_PLUS || at_char p1 CH_MINUS
                           then advance p1 else p1)).
    { destruct (at_char p1 CH_PLUS || at_char p1 CH_MINUS) eqn:E2.
      - apply advance_moved. apply orb_true_iff in E2 as [E2 | E2]; eapply at_char_in; eauto.
      - apply moved_refl. eapply moved_in_buffer; eauto. }
    destruct (no_digit_here _); [discriminate|].
    intros [= <-].
    eapply moved_trans; [exact M1|]. eapply moved_trans; [exact M2|].
    apply skip_digits_moved. eapply moved_in_buffer; eauto.
  - intros [= <-]. now apply moved_refl.
Qed.

Lemma parse_number_ok (p : jsonk_parser) token p' :
  in_buffer p ->
  jsonk_parse_number p = OK (token, p') ->
  token_ok p token p' /\ tk_type token = JSONK_TOKEN_NUMBER.
Proof.
  intros Hin. unfold jsonk_parse_number.
  set (p0 := if jsonk_peek_char p =? CH_MINUS then advance p else p).
  assert (M0 : moved p p0).
  { subst p0. destruct (jsonk_peek_char p =? CH_MINUS) eqn:E.
    - apply advance_moved, peek_char_in. apply Z.eqb_eq in E. rewrite E. discriminate.
    - now apply moved_refl. }
  destruct (number_integer p0) as [p1 | ] eqn:E1; [ | discriminate ].
  destruct (number_fraction p1) as [p2 | ] eqn:E2; [ | discriminate ].
  destruct (number_exponent p2) as [p3 | ] eqn:E3; [ | discriminate ].
  intros [= <- <-].
  apply number_integer_moved in E1 as [M1 L1]; [ | eapply moved_in_buffer; eauto ].
  apply number_fraction_moved in E2 as M2; [ | eapply moved_in_buffer; eauto ].
  apply number_exponent_moved in E3 as M3; [ | eapply moved_in_buffer; eauto ].
  assert (M : moved p p3) by (repeat (eapply moved_trans; eauto)).
  split; [ | reflexivity ]. unfold token_ok. simpl.
  destruct M0 as [_ B0], M2 as [_ B2], M3 as [_ B3].
  repeat split; try apply M; try lia. intros [? | ?]; discriminate.
Qed.

Lemma parse_literal_ok (p : jsonk_parser) token p' :
  in_buffer p ->
  jsonk_parse_literal p = OK (token, p') ->
  token_ok p token p' /\
  (tk_type token = JSONK_TOKEN_TRUE \/ tk_type token = JSONK_TOKEN_FALSE \/
   tk_type token = JSONK_TOKEN_NULL).
Proof.
  intros Hin. unfold jsonk_parse_literal, literals, parse_literal_from, literal_here.
  repeat match goal with
         | |- context [if ?c then _ else _] =>
           let E := fresh "E" in
           destruct c eqn:E;
             [ apply andb_true_iff in E as [E _]; apply Nat.leb_le in E;
               intros [= <- <-]; simpl in *;
               split; [ | auto ];
               unfold token_ok, moved; simpl;
               repeat split; try lia; intros [? | ?]; discriminate
             | ]
         end.
  discriminate.
Qed.

Lemma next_token_ok (p : jsonk_parser) token p' :
  in_buffer p ->
  jsonk_next_token p = OK (token, p') -> token_ok p token p'.
Proof.
  intros Hin. unfold jsonk_next_token.
  pose proof (skip_whitespace_moved p Hin) as M.
  set (q := jsonk_skip_whitespace p) in *.
  destruct (rest q) as [ | c l ] eqn:E; [discriminate|].
  apply rest_cons in E as [Hlt _].
  assert (K : forall tok r, token_ok q tok r -> token_ok p tok r).
  { intros tok r (M' & L & S1 & S2 & S3).
    unfold token_ok. split; [eapply moved_trans; eauto|].
    destruct M as [_ B0], M' as [_ B1]. repeat split; auto; lia. }
  assert (Hq : in_buffer q) by (eapply moved_in_buffer; eauto).
  repeat match goal with
         | |- context [if ?c then _ else _] => destruct c
         end;
    intros H; apply K;
      first [ eapply single_ok; eassumption
            | eapply parse_string_ok; eassumption
            | eapply parse_number_ok; eassumption
            | eapply parse_literal_ok; eassumption
            | discriminate ].
Qed.

(** ** Successful runs of the container loops, step by step *)

Ltac split_match H :=
  repeat (match type of H with
          | context [match ?x with _ => _ end] => destruct x eqn:?
          end; try discriminate H).

Section LoopSteps.

Variable pv : jsonk_parser -> outcome (jsonk_value * jsonk_parser).

Lemma parse_object_loop_step n ms token p v p' :
  parse_object_loop pv (S n) ms token p = Got (v, p') ->
  tk_type token = JSONK_TOKEN_STRING /\
  exists token1 p1 mv p2 ms1 parser token2 p4,
    jsonk_next_token p = OK (token1, p1) /\
    tk_type token1 = JSONK_TOKEN_COLON /\
    pv p1 = Got (mv, p2) /\
    jsonk_object_add_member_tracked
      ms (token_bytes p token ++ [CH_NUL]) (tk_len token1) mv (Some p2)
      = OK (ms1, parser) /\
    jsonk_next_token (with_parser p2 parser) = OK (token2, p4) /\
    ((tk_type token2 = JSONK_TOKEN_OBJECT_END /\ v = JObject ms1 /\ p' = p4) \/
     (tk_type token2 = JSONK_TOKEN_COMMA /\
      exists token3 p5,
        jsonk_next_token p4 = OK (token3, p5) /\
        parse_object_loop pv n ms1 token3 p5 = Got (v, p'))).
Proof.
  intros H. cbn [parse_object_loop] in H.
  destruct (tk_type token) eqn:Ety; try discriminate H.
  destruct (jsonk_next_token p) as [[token1 p1] | ] eqn:E1; [ | discriminate ].
  destruct (tk_type token1) eqn:Ety1; try discriminate H.
  destruct (pv p1) as [[mv p2] | | ] eqn:E2; try discriminate H.
  destruct (jsonk_object_add_member_tracked _ _ _ _ _) as [[ms1 parser] | ] eqn:E3;
    [ | discriminate ].
  destruct (jsonk_next_token (with_parser p2 parser)) as [[token2 p4] | ] eqn:E4;
    [ | discriminate ].
  split; [reflexivity|].
  exists token1, p1, mv, p2, ms1, parser, token2, p4.
  repeat (split; [assumption || reflexivity|]).
  destruct (tk_type token2) eqn:Ety2; try discriminate H.
  - left. injection H as <- <-. auto.
  - right. split; [reflexivity|].
    destruct (jsonk_next_token p4) as [[token3 p5] | ] eqn:E5; [ | discriminate ].
    exists token3, p5. auto.
Qed.

Lemma parse_object_start p v p' :
  parse_object pv p = Got (v, p') ->
  exists token0 p0 token p1,
    jsonk_next_token p = OK (token0, p0) /\
    tk_type token0 = JSONK_TOKEN_OBJECT_START /\
    jsonk_next_token p0 = OK (token, p1) /\
    ((tk_type token = JSONK_TOKEN_OBJECT_END /\ v = JObject [] /\ p' = p1) \/
     (tk_type token <> JSONK_TOKEN_OBJECT_END /\
      parse_object_loop pv (S (buffer_len p1 - pos p1)) [] token p1 = Got (v, p'))).
Proof.
  unfold parse_object. intros H.
  destruct (jsonk_next_token p) as [[token0 p0] | ] eqn:E0; [ | discriminate ].
  destruct (tk_type token0) eqn:Ety0; try discriminate H.
  destruct (jsonk_next_token p0) as [[token p1] | ] eqn:E1; [ | discriminate ].
  exists token0, p0, token, p1. repeat (split; [assumption || reflexivity|]).
  destruct (tk_type token) eqn:Ety; try (right; split; [discriminate | exact H]).
  left. injection H as <- <-. auto.
Qed.

Lemma parse_array_loop_step n es p v p' :
  parse_array_loop pv (S n) es p = Got (v, p') ->
  let q := jsonk_skip_whitespace p in
  (at_char q CH_RBRACKET = true /\ v = JArray es /\ p' = advance q) \/
  (at_char q CH_RBRACKET = false /\
   exists ev p2 es1 parser token p4,
     pv q = Got (ev, p2) /\
     jsonk_array_add_element_tracked es ev (Some p2) = OK (es1, parser) /\
     jsonk_next_token (with_parser p2 parser) = OK (token, p4) /\
     ((tk_type token = JSONK_TOKEN_ARRAY_END /\ v = JArray es1 /\ p' = p4) \/
      (tk_type token = JSONK_TOKEN_COMMA /\
       parse_array_loop pv n es1 p4 = Got (v, p')))).
Proof.
  intros H. cbn [parse_array_loop] in H. cbv zeta.
  destruct (at_char (jsonk_skip_whitespace p) CH_RBRACKET) eqn:Eat.
  - left. injection H as <- <-. auto.
  - right. split; [reflexivity|].
    destruct (pv (jsonk_skip_whitespace p)) as [[ev p2] | | ] eqn:E2; try discriminate H.
    destruct (jsonk_array_add_element_tracked _ _ _) as [[es1 parser] | ] eqn:E3;
      [ | discriminate ].
    destruct (jsonk_next_token (with_parser p2 parser)) as [[token p4] | ] eqn:E4;
      [ | discriminate ].
    exists ev, p2, es1, parser, token, p4.
    repeat (split; [assumption || reflexivity|]).
    destruct (tk_type token) eqn:Ety; try discriminate H.
    + left. injection H as <- <-. auto.
    + right. auto.
Qed.

Lemma parse_array_start p v p' :
  parse_array pv p = Got (v, p') ->
  exists token0 p0,
    jsonk_next_token p = OK (token0, p0) /\
    tk_type token0 = JSONK_TOKEN_ARRAY_START /\
    parse_array_loop pv (S (buffer_len p0 - pos p0)) [] p0 = Got (v, p').
Proof.
  unfold parse_array. intros H.
  destruct (jsonk_next_token p) as [[token0 p0] | ] eqn:E0; [ | discriminate ].
  destruct (tk_type token0) eqn:Ety0; try discriminate H.
  exists token0, p0. auto.
Qed.

End LoopSteps.

Lemma add_member_parser ms key key_len v p ms1 parser :
  jsonk_object_add_member_tracked ms key key_len v (Some p) = OK (ms1, parser) ->
  ms1 = ms ++ [(firstn key_len key, v)] /\
  with_parser p parser = add_memory p (Z.of_nat key_len + 1).
Proof.
  unfold jsonk_object_add_member_tracked. intros H. split_match H.
  unfold jsonk_tracked_alloc in *. split_match Heqo.
  injection Heqo as <-. injection H as <- <-. auto.
Qed.

Lemma add_element_parser es v p es1 parser :
  jsonk_array_add_element_tracked es v (Some p) = OK (es1, parser) ->
  es1 = es ++ [v] /\
  with_parser p parser = add_memory p sizeof_jsonk_array_element.
Proof.
  unfold jsonk_array_add_element_tracked. intros H. split_match H.
  injection H as <- <-. auto.
Qed.

(** ** The value parser: cursor, depth counter and nesting *)

Lemma consumed_refl p : in_buffer p -> consumed p p.
Proof. unfold consumed, in_buffer. intros; repeat split; lia. Qed.

Lemma consumed_trans p q r : consumed p q -> consumed q r -> consumed p r.
Proof.
  unfold consumed, buffer_len. intros (B1 & D1 & P1) (B2 & D2 & P2).
  rewrite B1 in *. repeat split; try congruence; lia.
Qed.

Lemma moved_consumed p q : moved p q -> consumed p q.
Proof.
  intros [E B]. unfold consumed. rewrite E. simpl. repeat split; lia.
Qed.

Lemma consumed_in_buffer p q : consumed p q -> in_buffer q.
Proof.
  unfold consumed, in_buffer, buffer_len. intros (B & _ & P). rewrite B. lia.
Qed.

Lemma consumed_add_memory p x : in_buffer p -> consumed p (add_memory p x).
Proof. unfold consumed, in_buffer. simpl. intros; repeat split; lia. Qed.

Lemma token_consumed p token p' :
  in_buffer p -> jsonk_next_token p = OK (token, p') ->
  consumed p p' /\ (pos p < pos p')%nat.
Proof.
  intros Hin H. destruct (next_token_ok _ _ _ Hin H) as (M & L & _).
  split; [now apply moved_consumed | exact L].
Qed.

Lemma fold_max_bound {A} (f : A -> Z) (l : list A) (b : Z) :
  0 <= b -> Forall (fun x => f x <= b) l ->
  fold_right (fun x acc => Z.max (f x) acc) 0 l <= b.
Proof.
  intros Hb. induction 1; simpl; lia.
Qed.

Lemma tracked_alloc_cursor p size o :
  jsonk_tracked_alloc (Some p) size = Some o ->
  exists q, o = Some q /\ same_cursor p q.
Proof.
  unfold jsonk_tracked_alloc. destruct (_ >? _); [discriminate|].
  intros [= <-]. eexists; split; [reflexivity|]. repeat split.
Qed.

Lemma value_create_tracked_cursor ty p o :
  jsonk_value_create_tracked ty (Some p) = Some o ->
  exists q, o = Some q /\ same_cursor p q.
Proof.
  unfold jsonk_value_create_tracked. destruct (_ >? _); [discriminate|].
  intros [= <-]. eexists; split; [reflexivity|]. destruct ty; repeat split.
Qed.

Lemma string_tracked_parser str p value parser :
  jsonk_value_create_string_tracked str (Some p) = Some (value, parser) ->
  (exists u, value = JString u /\ unescape str = Some u) /\
  same_cursor p (with_parser p parser).
Proof.
  unfold jsonk_value_create_string_tracked. intros H.
  destruct (_ >? _); [discriminate|].
  destruct (has_parser _ _); [discriminate|].
  destruct (jsonk_value_create_tracked _ _) as [o1 | ] eqn:E1; [ | discriminate ].
  apply value_create_tracked_cursor in E1 as (q1 & -> & S1).
  destruct (jsonk_tracked_alloc _ _) as [o2 | ] eqn:E2; [ | discriminate ].
  apply tracked_alloc_cursor in E2 as (q2 & -> & S2).
  destruct (unescape str) as [u | ]; [ | discriminate ].
  injection H as <- <-. split; [eexists; split; reflexivity|].
  assert (S12 : same_cursor p q2).
  { destruct S1 as (? & ? & ?), S2 as (? & ? & ?). repeat split; congruence. }
  destruct S12 as (? & ? & ?).
  destruct (_ <? _); [destruct (_ >? _) | ]; repeat split; simpl; congruence.
Qed.

Lemma create_number_is_number str v :
  jsonk_value_create_number str = Some v -> is_number v = true.
Proof.
  unfold jsonk_value_create_number. intros H. split_match H; injection H as <-; reflexivity.
Qed.

Section LoopsConsume.

Variable pv : jsonk_parser -> outcome (jsonk_value * jsonk_parser).

Hypothesis pv_ok :
  forall p v p', in_buffer p -> pv p = Got (v, p') ->
    consumed p p' /\ (pos p < pos p')%nat /\ depth p + nesting v <= JSONK_MAX_DEPTH.

Lemma parse_object_loop_consumed n :
  forall ms token p v p',
    in_buffer p ->
    Forall (fun m => depth p + nesting (snd m) <= JSONK_MAX_DEPTH) ms ->
    parse_object_loop pv n ms token p = Got (v, p') ->
    consumed p p' /\ (pos p < pos p')%nat /\
    exists ms', v = JObject ms' /\
                Forall (fun m => depth p + nesting (snd m) <= JSONK_MAX_DEPTH) ms'.
Proof.
  induction n as [ | n IH ]; intros ms token p v p' Hin Hms H; [discriminate|].
  apply parse_object_loop_step in H
    as (_ & token1 & p1 & mv & p2 & ms1 & parser & token2 & p4 &
        E1 & _ & E2 & E3 & E4 & Hend).
  destruct (token_consumed _ _ _ Hin E1) as [C1 L1].
  destruct (pv_ok _ _ _ (consumed_in_buffer _ _ C1) E2) as (C2 & L2 & D2).
  apply add_member_parser in E3 as [-> E3]. rewrite E3 in E4.
  pose proof (consumed_add_memory p2 (Z.of_nat (tk_len token1) + 1)
                                  (consumed_in_buffer _ _ C2)) as C3.
  destruct (token_consumed _ _ _ (consumed_in_buffer _ _ C3) E4) as [C4 L4].
  assert (C : consumed p p4) by (repeat (eapply consumed_trans; eauto)).
  assert (L : (pos p < pos p4)%nat).
  { destruct C2 as (_ & _ & ?), C3 as (_ & _ & ?). simpl in *. lia. }
  assert (Hms1 : Forall (fun m => depth p + nesting (snd m) <= JSONK_MAX_DEPTH)
                        (ms ++ [(firstn (tk_len token1) (token_bytes p token ++ [CH_NUL]), mv)])).
  { apply Forall_app. split; [exact Hms|]. constructor; [ | constructor ].
    simpl. destruct C1 as (_ & D1 & _). lia. }
  destruct Hend as [(_ & -> & ->) | (_ & token3 & p5 & E5 & Hloop)].
  - repeat split; try apply C; auto. eexists; split; [reflexivity | exact Hms1].
  - destruct (token_consumed _ _ _ (consumed_in_buffer _ _ C) E5) as [C5 L5].
    assert (C' : consumed p p5) by (eapply consumed_trans; eauto).
    assert (D5 : depth p5 = depth p) by apply C'.
    apply IH in Hloop as (C6 & L6 & ms' & -> & Hms'); [ | eapply consumed_in_buffer; eauto | ].
    + split; [eapply consumed_trans; eauto|]. split; [lia|].
      exists ms'. split; [reflexivity|]. now rewrite D5 in Hms'.
    + now rewrite D5.
Qed.

Lemma parse_array_loop_consumed n :
  forall es p v p',
    in_buffer p ->
    Forall (fun e => depth p + nesting e <= JSONK_MAX_DEPTH) es ->
    parse_array_loop pv n es p = Got (v, p') ->
    consumed p p' /\ (pos p < pos p')%nat /\
    exists es', v = JArray es' /\
                Forall (fun e => depth p + nesting e <= JSONK_MAX_DEPTH) es'.
Proof.
  induction n as [ | n IH ]; intros es p v p' Hin Hes H; [discriminate|].
  apply parse_array_loop_step in H. cbv zeta in H.
  pose proof (moved_consumed _ _ (skip_whitespace_moved p Hin)) as C0.
  set (q := jsonk_skip_whitespace p) in *.
  destruct H as [(Hat & -> & ->) | (_ & ev & p2 & es1 & parser & token & p4 &
                                     E2 & E3 & E4 & Hend)].
  - apply at_char_in in Hat.
    pose proof (moved_consumed _ _ (advance_moved q Hat)) as C1.
    split; [eapply consumed_trans; eauto|].
    split; [destruct C0 as (_ & _ & ?); change (pos (advance q)) with (S (pos q)); lia|].
    exists es. auto.
  - destruct (pv_ok _ _ _ (consumed_in_buffer _ _ C0) E2) as (C2 & L2 & D2).
    apply add_element_parser in E3 as [-> E3]. rewrite E3 in E4.
    pose proof (consumed_add_memory p2 sizeof_jsonk_array_element
                                    (consumed_in_buffer _ _ C2)) as C3.
    destruct (token_consumed _ _ _ (consumed_in_buffer _ _ C3) E4) as [C4 L4].
    assert (C : consumed p p4) by (repeat (eapply consumed_trans; eauto)).
    assert (L : (pos p < pos p4)%nat).
    { destruct C0 as (_ & _ & ?), C2 as (_ & _ & ?), C3 as (_ & _ & ?). simpl in *. lia. }
    assert (Hes1 : Forall (fun e => depth p + nesting e <= JSONK_MAX_DEPTH) (es ++ [ev])).
    { apply Forall_app. split; [exact Hes|]. constructor; [ | constructor ].
      destruct C0 as (_ & D0 & _). lia. }
    destruct Hend as [(_ & -> & ->) | (_ & Hloop)].
    + repeat split; try apply C; auto. eexists; split; [reflexivity | exact Hes1].
    + assert (D4 : depth p4 = depth p) by apply C.
      apply IH in Hloop as (C6 & L6 & es' & -> & Hes'); [ | eapply consumed_in_buffer; eauto | ].
      * split; [eapply consumed_trans; eauto|]. split; [lia|].
        exists es'. split; [reflexivity|]. now rewrite D4 in Hes'.
      * now rewrite D4.
Qed.

Lemma parse_object_consumed p v p' :
  in_buffer p ->
  parse_object pv p = Got (v, p') ->
  consumed p p' /\ (pos p < pos p')%nat /\
  exists ms, v = JObject ms /\
             Forall (fun m => depth p + nesting (snd m) <= JSONK_MAX_DEPTH) ms.
Proof.
  intros Hin H.
  apply parse_object_start in H
    as (token0 & p0 & token & p1 & E0 & _ & E1 & Hend).
  destruct (token_consumed _ _ _ Hin E0) as [C0 L0].
  destruct (token_consumed _ _ _ (consumed_in_buffer _ _ C0) E1) as [C1 L1].
  assert (C : consumed p p1) by (eapply consumed_trans; eauto).
  destruct Hend as [(_ & -> & ->) | (_ & Hloop)].
  - split; [exact C|]. split; [lia|]. exists []. auto.
  - apply parse_object_loop_consumed in Hloop as (C2 & L2 & ms & -> & Hms);
      [ | eapply consumed_in_buffer; eauto | constructor ].
    split; [eapply consumed_trans; eauto|]. split; [lia|].
    exists ms. split; [reflexivity|].
    assert (D : depth p1 = depth p) by apply C. now rewrite D in Hms.
Qed.

Lemma parse_array_consumed p v p' :
  in_buffer p ->
  parse_array pv p = Got (v, p') ->
  consumed p p' /\ (pos p < pos p')%nat /\
  exists es, v = JArray es /\
             Forall (fun e => depth p + nesting e <= JSONK_MAX_DEPTH) es.
Proof.
  intros Hin H.
  apply parse_array_start in H as (token0 & p0 & E0 & _ & Hloop).
  destruct (token_consumed _ _ _ Hin E0) as [C0 L0].
  apply parse_array_loop_consumed in Hloop as (C2 & L2 & es & -> & Hes);
    [ | eapply consumed_in_buffer; eauto | constructor ].
  split; [eapply consumed_trans; eauto|]. split; [lia|].
  exists es. split; [reflexivity|].
  assert (D : depth p0 = depth p) by apply C0. now rewrite D in Hes.
Qed.

End LoopsConsume.

Lemma parse_value_step d p v p' :
  jsonk_parse_value (S d) p = Got (v, p') ->
  depth p < JSONK_MAX_DEPTH /\
  exists token p2,
    jsonk_next_token (set_depth p (depth p + 1)) = OK (token, p2) /\
    ((tk_type token = JSONK_TOKEN_OBJECT_START /\
      exists p4, parse_object (jsonk_parse_value d)
                              (set_pos p2 (pos p2 - tk_len token)) = Got (v, p4) /\
                 p' = set_depth p4 (depth p4 - 1)) \/
     (tk_type token = JSONK_TOKEN_ARRAY_START /\
      exists p4, parse_array (jsonk_parse_value d)
                             (set_pos p2 (pos p2 - tk_len token)) = Got (v, p4) /\
                 p' = set_depth p4 (depth p4 - 1)) \/
     (tk_type token = JSONK_TOKEN_STRING /\
      exists parser,
        jsonk_value_create_string_tracked (token_bytes p2 token) (Some p2)
          = Some (v, parser) /\
        p' = set_depth (with_parser p2 parser) (depth (with_parser p2 parser) - 1)) \/
     (tk_type token = JSONK_TOKEN_NUMBER /\
      jsonk_value_create_number (token_bytes p2 token) = Some v /\
      p' = set_depth p2 (depth p2 - 1)) \/
     ((tk_type token = JSONK_TOKEN_TRUE /\ v = JBoolean true \/
       tk_type token = JSONK_TOKEN_FALSE /\ v = JBoolean false \/
       tk_type token = JSONK_TOKEN_NULL /\ v = JNull) /\
      p' = set_depth p2 (depth p2 - 1))).
Proof.
  intros H. cbn [jsonk_parse_value] in H.
  destruct (depth p >=? JSONK_MAX_DEPTH) eqn:Ed; [discriminate|].
  rewrite Z.geb_leb in Ed. apply Z.leb_gt in Ed. split; [exact Ed|].
  destruct (jsonk_next_token _) as [[token p2] | ] eqn:E; [ | discriminate ].
  exists token, p2. split; [reflexivity|].
  destruct (tk_type token) eqn:Ety; try discriminate H.
  - left. split; [reflexivity|].
    destruct (parse_object _ _) as [[v4 p4] | | ]; try discriminate H.
    injection H as <- <-. eauto.
  - right; left. split; [reflexivity|].
    destruct (parse_array _ _) as [[v4 p4] | | ]; try discriminate H.
    injection H as <- <-. eauto.
  - right; right; left. split; [reflexivity|].
    destruct (jsonk_value_create_string_tracked _ _) as [[v4 parser] | ];
      try discriminate H.
    injection H as <- <-. eauto.
  - right; right; right; left. split; [reflexivity|].
    destruct (jsonk_value_create_number _) as [v4 | ]; try discriminate H.
    injection H as <- <-. auto.
  - right; right; right; right. injection H as <- <-. auto.
  - right; right; right; right. injection H as <- <-. auto.
  - right; right; right; right. injection H as <- <-. auto 6.
Qed.

Lemma nesting_object_bound ms b :
  b < JSONK_MAX_DEPTH ->
  Forall (fun m : jsonk_member => b + 1 + nesting (snd m) <= JSONK_MAX_DEPTH) ms ->
  b + nesting (JObject ms) <= JSONK_MAX_DEPTH.
Proof.
  intros Hb H.
  change (nesting (JObject ms))
    with (1 + fold_right (fun (m : jsonk_member) acc => Z.max (nesting (snd m)) acc) 0 ms).
  pose proof (fold_max_bound (fun m : jsonk_member => nesting (snd m)) ms
                             (JSONK_MAX_DEPTH - b - 1)) as F.
  assert (0 <= JSONK_MAX_DEPTH - b - 1) as H0 by lia.
  specialize (F H0). rewrite Forall_forall in *.
  assert (forall x, In x ms -> nesting (snd x) <= JSONK_MAX_DEPTH - b - 1) as H1.
  { intros x Hx. specialize (H x Hx). lia. }
  specialize (F H1). lia.
Qed.

Lemma nesting_array_bound es b :
  b < JSONK_MAX_DEPTH ->
  Forall (fun e => b + 1 + nesting e <= JSONK_MAX_DEPTH) es ->
  b + nesting (JArray es) <= JSONK_MAX_DEPTH.
Proof.
  intros Hb H.
  change (nesting (JArray es))
    with (1 + fold_right (fun e acc => Z.max (nesting e) acc) 0 es).
  pose proof (fold_max_bound nesting es (JSONK_MAX_DEPTH - b - 1)) as F.
  assert (0 <= JSONK_MAX_DEPTH - b - 1) as H0 by lia.
  specialize (F H0). rewrite Forall_forall in *.
  assert (forall x, In x es -> nesting x <= JSONK_MAX_DEPTH - b - 1) as H1.
  { intros x Hx. specialize (H x Hx). lia. }
  specialize (F H1). lia.
Qed.

(** A successful [jsonk_parse_value] leaves the depth counter as it
    found it, moves the cursor forward, and returns a value whose
    nesting, added to the depth on entry, is within the limit. *)
Lemma parse_value_consumed d :
  forall p v p',
    in_buffer p ->
    jsonk_parse_value d p = Got (v, p') ->
    consumed p p' /\ (pos p < pos p')%nat /\ depth p + nesting v <= JSONK_MAX_DEPTH.
Proof.
  induction d as [ | d IH ]; intros p v p' Hin H.
  { simpl in H. destruct (depth p >=? JSONK_MAX_DEPTH); discriminate. }
  apply parse_value_step in H as (Hd & token & p2 & E & Hcase).
  set (p1 := set_depth p (depth p + 1)) in *.
  assert (Hin1 : in_buffer p1) by exact Hin.
  destruct (next_token_ok _ _ _ Hin1 E) as (M & L & S1 & S2 & S3).
  pose proof (moved_consumed _ _ M) as C12.
  destruct C12 as (B & D & P).
  change (buffer p1) with (buffer p) in B.
  change (depth p1) with (depth p + 1) in D.
  change (pos p1) with (pos p) in P, L.
  change (buffer_len p1) with (buffer_len p) in P.
  assert (Hleaf : consumed p (set_depth p2 (depth p2 - 1)) /\
                  (pos p < pos (set_depth p2 (depth p2 - 1)))%nat).
  { unfold consumed. simpl. repeat split; auto; lia. }
  assert (Hcontainer :
            forall p4 : jsonk_parser,
              consumed (set_pos p2 (pos p2 - tk_len token)) p4 ->
              (pos (set_pos p2 (pos p2 - tk_len token)) < pos p4)%nat ->
              tk_len token = 1%nat ->
              consumed p (set_depth p4 (depth p4 - 1)) /\
              (pos p < pos (set_depth p4 (depth p4 - 1)))%nat).
  { intros p4 (B4 & D4 & P4) L4 Hlen.
    unfold consumed, buffer_len in *. simpl in *. rewrite B4, D4, B, D.
    rewrite B in P4. repeat split; auto; lia. }
  assert (Hin3 : tk_len token = 1%nat ->
                 in_buffer (set_pos p2 (pos p2 - tk_len token))).
  { intros Hlen. unfold in_buffer, buffer_len in *.
    simpl in *. rewrite B. lia. }
  destruct Hcase as [(Ety & p4 & Hobj & ->) | [(Ety & p4 & Harr & ->) |
                     [(Ety & parser & Hstr & ->) | [(Ety & Hnum & ->) | (Hlit & ->)]]]].
  - specialize (S3 (or_introl Ety)).
    apply (parse_object_consumed _ IH) in Hobj as (C & Lo & ms & -> & Hms); auto.
    destruct (Hcontainer p4 C Lo S3) as [C' L']. split; [exact C'|]. split; [exact L'|].
    apply nesting_object_bound; auto.
    change (depth (set_pos p2 (pos p2 - tk_len token))) with (depth p2) in Hms.
    rewrite D in Hms. exact Hms.
  - specialize (S3 (or_intror Ety)).
    apply (parse_array_consumed _ IH) in Harr as (C & La & es & -> & Hes); auto.
    destruct (Hcontainer p4 C La S3) as [C' L']. split; [exact C'|]. split; [exact L'|].
    apply nesting_array_bound; auto.
    change (depth (set_pos p2 (pos p2 - tk_len token))) with (depth p2) in Hes.
    rewrite D in Hes. exact Hes.
  - apply string_tracked_parser in Hstr as ((u & -> & _) & (B' & P' & D')).
    unfold consumed, buffer_len in *. simpl.
    rewrite B', P', D', B, D. repeat split; auto; lia.
  - apply create_number_is_number in Hnum. destruct v; try discriminate.
    destruct Hleaf as [C' L']. split; [exact C'|]. split; [exact L'|]. simpl. lia.
  - destruct Hleaf as [C' L']. split; [exact C'|]. split; [exact L'|].
    destruct Hlit as [(_ & ->) | [(_ & ->) | (_ & ->)]]; simpl; lia.
Qed.

(** ** The bounds of the parser are never exhausted *)

Section LoopsTotal.

Variable pv : jsonk_parser -> outcome (jsonk_value * jsonk_parser).
Variable D : Z.

Hypothesis pv_ok :
  forall p v p', in_buffer p -> pv p = Got (v, p') ->
    consumed p p' /\ (pos p < pos p')%nat /\ depth p + nesting v <= JSONK_MAX_DEPTH.

Hypothesis pv_total : forall p, in_buffer p -> depth p = D -> pv p <> NoFuel.

Lemma parse_object_loop_total n :
  forall ms token p,
    in_buffer p -> depth p = D -> (buffer_len p - pos p < n)%nat ->
    parse_object_loop pv n ms token p <> NoFuel.
Proof.
  induction n as [ | n IH ]; intros ms token p Hin HD Hn H; [lia|].
  cbn [parse_object_loop] in H.
  destruct (tk_type token); try discriminate H.
  destruct (jsonk_next_token p) as [[token1 p1] | ] eqn:E1; [ | discriminate ].
  destruct (token_consumed _ _ _ Hin E1) as [C1 L1].
  destruct (tk_type token1); try discriminate H.
  destruct (pv p1) as [[mv p2] | | ] eqn:E2; try discriminate H.
  2: { apply (pv_total p1);
       [ eapply consumed_in_buffer; eauto
       | destruct C1 as (_ & D1 & _); congruence
       | exact E2 ]. }
  destruct (pv_ok _ _ _ (consumed_in_buffer _ _ C1) E2) as (C2 & L2 & _).
  destruct (jsonk_object_add_member_tracked _ _ _ _ _) as [[ms1 parser] | ] eqn:E3;
    [ | discriminate ].
  apply add_member_parser in E3 as [-> E3]. rewrite E3 in H.
  pose proof (consumed_add_memory p2 (Z.of_nat (tk_len token1) + 1)
                                  (consumed_in_buffer _ _ C2)) as C3.
  destruct (jsonk_next_token (add_memory p2 _)) as [[token2 p4] | ] eqn:E4;
    [ | discriminate ].
  destruct (token_consumed _ _ _ (consumed_in_buffer _ _ C3) E4) as [C4 L4].
  assert (C : consumed p p4) by (repeat (eapply consumed_trans; eauto)).
  destruct (tk_type token2); try discriminate H.
  destruct (jsonk_next_token p4) as [[token3 p5] | ] eqn:E5; [ | discriminate ].
  destruct (token_consumed _ _ _ (consumed_in_buffer _ _ C) E5) as [C5 L5].
  assert (C' : consumed p p5) by (eapply consumed_trans; eauto).
  apply IH in H; auto.
  - eapply consumed_in_buffer; eauto.
  - destruct C' as (_ & D5 & _). congruence.
  - destruct C' as (B5 & _ & P5), C as (_ & _ & P4). unfold buffer_len in *.
    rewrite B5. lia.
Qed.

Lemma parse_array_loop_total n :
  forall es p,
    in_buffer p -> depth p = D -> (buffer_len p - pos p < n)%nat ->
    parse_array_loop pv n es p <> NoFuel.
Proof.
  induction n as [ | n IH ]; intros es p Hin HD Hn H; [lia|].
  cbn [parse_array_loop] in H.
  pose proof (moved_consumed _ _ (skip_whitespace_moved p Hin)) as C0.
  set (q := jsonk_skip_whitespace p) in *.
  destruct (at_char q CH_RBRACKET); [discriminate|].
  destruct (pv q) as [[ev p2] | | ] eqn:E2; try discriminate H.
  2: { apply (pv_total q);
       [ eapply consumed_in_buffer; eauto
       | destruct C0 as (_ & D0 & _); congruence
       | exact E2 ]. }
  destruct (pv_ok _ _ _ (consumed_in_buffer _ _ C0) E2) as (C2 & L2 & _).
  destruct (jsonk_array_add_element_tracked _ _ _) as [[es1 parser] | ] eqn:E3;
    [ | discriminate ].
  apply add_element_parser in E3 as [-> E3]. rewrite E3 in H.
  pose proof (consumed_add_memory p2 sizeof_jsonk_array_element
                                  (consumed_in_buffer _ _ C2)) as C3.
  destruct (jsonk_next_token (add_memory p2 _)) as [[token p4] | ] eqn:E4;
    [ | discriminate ].
  destruct (token_consumed _ _ _ (consumed_in_buffer _ _ C3) E4) as [C4 L4].
  assert (C : consumed p p4) by (repeat (eapply consumed_trans; eauto)).
  destruct (tk_type token); try discriminate H.
  apply IH in H; auto.
  - eapply consumed_in_buffer; eauto.
  - destruct C as (_ & D4 & _). congruence.
  - destruct C as (B4 & _ & P4), C0 as (_ & _ & P0).
    change (pos (add_memory p2 sizeof_jsonk_array_element)) with (pos p2) in L4.
    unfold buffer_len in *. rewrite B4. lia.
Qed.

Lemma parse_object_total p :
  in_buffer p -> depth p = D -> parse_object pv p <> NoFuel.
Proof.
  intros Hin HD H. unfold parse_object in H.
  destruct (jsonk_next_token p) as [[token0 p0] | ] eqn:E0; [ | discriminate ].
  destruct (token_consumed _ _ _ Hin E0) as [C0 L0].
  destruct (tk_type token0); try discriminate H.
  destruct (jsonk_next_token p0) as [[token p1] | ] eqn:E1; [ | discriminate ].
  destruct (token_consumed _ _ _ (consumed_in_buffer _ _ C0) E1) as [C1 L1].
  assert (C : consumed p p1) by (eapply consumed_trans; eauto).
  assert (T : parse_object_loop pv (S (buffer_len p1 - pos p1)) [] token p1 <> NoFuel).
  { apply parse_object_loop_total; [eapply consumed_in_buffer; eauto | | lia].
    destruct C as (_ & D1 & _). congruence. }
  destruct (tk_type token); try discriminate H; contradiction.
Qed.

Lemma parse_array_total p :
  in_buffer p -> depth p = D -> parse_array pv p <> NoFuel.
Proof.
  intros Hin HD H. unfold parse_array in H.
  destruct (jsonk_next_token p) as [[token0 p0] | ] eqn:E0; [ | discriminate ].
  destruct (token_consumed _ _ _ Hin E0) as [C0 L0].
  destruct (tk_type token0); try discriminate H.
  revert H. apply parse_array_loop_total; [eapply consumed_in_buffer; eauto | | lia].
  destruct C0 as (_ & D1 & _). congruence.
Qed.

End LoopsTotal.

Lemma leave_nofuel r : leave r = NoFuel -> r = NoFuel.
Proof. destruct r as [[v p] | | ]; simpl; auto; discriminate. Qed.

Lemma parse_value_total d :
  forall p, in_buffer p -> JSONK_MAX_DEPTH <= Z.of_nat d + depth p ->
            jsonk_parse_value d p <> NoFuel.
Proof.
  induction d as [ | d IH ]; intros p Hin Hd H.
  { simpl in H. rewrite geb_true in H by lia. discriminate. }
  cbn [jsonk_parse_value] in H.
  destruct (depth p >=? JSONK_MAX_DEPTH) eqn:Ed; [discriminate|].
  set (p1 := set_depth p (depth p + 1)) in *.
  assert (Hin1 : in_buffer p1) by exact Hin.
  destruct (jsonk_next_token p1) as [[token p2] | ] eqn:E; [ | discriminate ].
  destruct (next_token_ok _ _ _ Hin1 E) as (M & L & S1 & S2 & S3).
  destruct (moved_consumed _ _ M) as (B & D2 & P).
  change (depth p1) with (depth p + 1) in D2.
  change (pos p1) with (pos p) in P, L.
  assert (Hin3 : tk_len token = 1%nat ->
                 in_buffer (set_pos p2 (pos p2 - tk_len token))).
  { intros Hlen. unfold in_buffer, buffer_len in *. simpl in *. rewrite B. lia. }
  assert (T : forall q, in_buffer q -> depth q = depth p + 1 ->
                        jsonk_parse_value d q <> NoFuel).
  { intros q Hq Dq. apply IH; auto. lia. }
  destruct (tk_type token) eqn:Ety; try discriminate H.
  - apply leave_nofuel in H. revert H.
    apply (parse_object_total _ (depth p + 1) (parse_value_consumed d) T); auto.
  - apply leave_nofuel in H. revert H.
    apply (parse_array_total _ (depth p + 1) (parse_value_consumed d) T); auto.
  - destruct (jsonk_value_create_string_tracked _ _) as [[v parser] | ]; discriminate.
  - destruct (jsonk_value_create_number _); discriminate.
Qed.

(** [jsonk_parse] always returns: a value or [NULL]. *)
Lemma jsonk_parse_total (json_str : list char) : jsonk_parse json_str <> NoFuel.
Proof.
  unfold jsonk_parse. destruct (length json_str =? 0)%nat; [discriminate|].
  pose proof (parse_value_total (Z.to_nat JSONK_MAX_DEPTH)
                                (jsonk_parser_init json_str)) as T.
  destruct (jsonk_parse_value _ _) as [[v p] | | ]; try discriminate.
  exfalso. apply T; auto.
  - unfold in_buffer. simpl. lia.
  - simpl. unfold JSONK_MAX_DEPTH. lia.
Qed.

(** [jsonk_apply_patch] always returns. *)
Lemma jsonk_apply_patch_total target patch result result_max_len result_len :
  jsonk_apply_patch target patch result result_max_len result_len <> NoFuel.
Proof.
  unfold jsonk_apply_patch.
  pose proof (jsonk_parse_total target) as T1.
  pose proof (jsonk_parse_total patch) as T2.
  destruct (jsonk_parse target) as [tv | | ]; try discriminate; try contradiction.
  destruct (negb (is_object tv)); [discriminate|].
  destruct (jsonk_parse patch) as [pv | | ]; try contradiction.
  - destruct (negb (is_object pv)); [discriminate|].
    destruct (jsonk_value_deep_copy tv 0); [ | discriminate ].
    destruct (jsonk_merge_objects _ _) as [[merged changed] | ]; [ | discriminate ].
    destruct (jsonk_serialize _ _ _ _) as [[ret written] b].
    destruct (ret <? 0); discriminate.
  - destruct (_ <=? _)%nat; discriminate.
Qed.

(** C7.  Every successful call of the value parser returns with the
    depth counter it was entered with and yields a value whose nesting,
    added to that depth, is at most 32; a call entered at depth 32 or
    more fails; hence a value returned by [jsonk_parse] nests at most 32
    deep, and since [jsonk_parse] always returns, deeper input gets NULL.
    Thirty-two nested arrays parse, thirty-three do not. *)
Theorem depth_limit :
  (forall d p v p',
      in_buffer p -> jsonk_parse_value d p = Got (v, p') ->
      depth p' = depth p /\ depth p + nesting v <= JSONK_MAX_DEPTH) /\
  (forall d p, JSONK_MAX_DEPTH <= depth p -> jsonk_parse_value d p = Null) /\
  (forall json_str v, jsonk_parse json_str = Got v -> nesting v <= 32) /\
  (forall json_str, jsonk_parse json_str <> NoFuel) /\
  (exists v, jsonk_parse (nested_arrays 32) = Got v /\ nesting v = 32) /\
  jsonk_parse (nested_arrays 33) = Null.
Proof.
  split; [ | split; [ | split; [ | split; [ | split ] ] ] ].
  - intros d p v p' Hin H.
    destruct (parse_value_consumed d p v p' Hin H) as ((_ & D & _) & _ & N). auto.
  - intros d p Hd. destruct d; simpl; now rewrite geb_true.
  - intros j v H. unfold jsonk_parse in H.
    destruct (length j =? 0)%nat; [discriminate|].
    destruct (jsonk_parse_value _ _) as [[v' p'] | | ] eqn:E; try discriminate.
    injection H as <-.
    apply parse_value_consumed in E as (_ & _ & N); [exact N|].
    unfold in_buffer. simpl. lia.
  - apply jsonk_parse_total.
  - eexists. split; [vm_compute; reflexivity | vm_compute; reflexivity].
  - vm_compute. reflexivity.
Qed.

Lemma depth_limit_two_levels :
  nesting (JArray [JArray [JNumber 1 0 false true]]) <= 32.
Proof.
  apply (proj1 (proj2 (proj2 depth_limit)) (json "[[1]]")).
  vm_compute. reflexivity.
Defined.

(** ** The keys of parsed objects *)

Lemma one_byte_keys_object ms :
  one_byte_keys (JObject ms) =
  forallb (fun m : jsonk_member =>
             (length (fst m) =? 1)%nat && one_byte_keys (snd m)) ms.
Proof. reflexivity. Qed.

Lemma one_byte_keys_array es :
  one_byte_keys (JArray es) = forallb one_byte_keys es.
Proof. reflexivity. Qed.

Lemma colon_token_len p token p' :
  in_buffer p ->
  jsonk_next_token p = OK (token, p') ->
  tk_type token = JSONK_TOKEN_COLON -> tk_len token = 1%nat.
Proof.
  intros Hin. unfold jsonk_next_token.
  pose proof (skip_whitespace_moved p Hin) as M.
  set (q := jsonk_skip_whitespace p) in *.
  destruct (rest q) as [ | c l ] eqn:E; [discriminate|].
  apply rest_cons in E as [Hlt _].
  assert (Hq : in_buffer q) by (eapply moved_in_buffer; eauto).
  repeat match goal with
         | |- context [if ?c then _ else _] => destruct c
         end;
    intros H Hty;
    first [ injection H as <- _; reflexivity
          | apply parse_string_ok in H as [_ Ety]; [congruence | assumption]
          | apply parse_number_ok in H as [_ Ety]; [congruence | assumption]
          | apply parse_literal_ok in H as [_ [Ety | [Ety | Ety]]];
            [congruence | congruence | congruence | assumption]
          | discriminate ].
Qed.

Section LoopsKeys.

Variable pv : jsonk_parser -> outcome (jsonk_value * jsonk_parser).

Hypothesis pv_ok :
  forall p v p', in_buffer p -> pv p = Got (v, p') ->
    consumed p p' /\ (pos p < pos p')%nat /\ depth p + nesting v <= JSONK_MAX_DEPTH.

Hypothesis pv_keys :
  forall p v p', in_buffer p -> pv p = Got (v, p') -> one_byte_keys v = true.

Lemma parse_object_loop_keys n :
  forall ms token p v p',
    in_buffer p ->
    one_byte_keys (JObject ms) = true ->
    parse_object_loop pv n ms token p = Got (v, p') ->
    one_byte_keys v = true.
Proof.
  induction n as [ | n IH ]; intros ms token p v p' Hin Hms H; [discriminate|].
  apply parse_object_loop_step in H
    as (_ & token1 & p1 & mv & p2 & ms1 & parser & token2 & p4 &
        E1 & Ety1 & E2 & E3 & E4 & Hend).
  destruct (token_consumed _ _ _ Hin E1) as [C1 L1].
  pose proof (colon_token_len _ _ _ Hin E1 Ety1) as Hlen.
  destruct (pv_ok _ _ _ (consumed_in_buffer _ _ C1) E2) as (C2 & L2 & D2).
  pose proof (pv_keys _ _ _ (consumed_in_buffer _ _ C1) E2) as K2.
  apply add_member_parser in E3 as [-> E3]. rewrite E3 in E4.
  pose proof (consumed_add_memory p2 (Z.of_nat (tk_len token1) + 1)
                                  (consumed_in_buffer _ _ C2)) as C3.
  destruct (token_consumed _ _ _ (consumed_in_buffer _ _ C3) E4) as [C4 L4].
  assert (Hms1 : one_byte_keys
                   (JObject (ms ++ [(firstn (tk_len token1)
                                            (token_bytes p token ++ [CH_NUL]), mv)]))
                 = true).
  { rewrite one_byte_keys_object in Hms. rewrite one_byte_keys_object, forallb_app.
    apply andb_true_intro. split; [exact Hms|]. cbn [forallb fst snd].
    rewrite K2, Hlen, length_firstn, length_app. cbn [length].
    replace (Nat.min 1 (length (token_bytes p token) + 1)) with 1%nat by lia.
    reflexivity. }
  destruct Hend as [(_ & -> & ->) | (_ & token3 & p5 & E5 & Hloop)]; [exact Hms1|].
  destruct (token_consumed _ _ _ (consumed_in_buffer _ _ C4) E5) as [C5 L5].
  apply IH in Hloop; [exact Hloop | eapply consumed_in_buffer; eauto | exact Hms1].
Qed.

Lemma parse_array_loop_keys n :
  forall es p v p',
    in_buffer p ->
    one_byte_keys (JArray es) = true ->
    parse_array_loop pv n es p = Got (v, p') ->
    one_byte_keys v = true.
Proof.
  induction n as [ | n IH ]; intros es p v p' Hin Hes H; [discriminate|].
  apply parse_array_loop_step in H. cbv zeta in H.
  pose proof (moved_consumed _ _ (skip_whitespace_moved p Hin)) as C0.
  set (q := jsonk_skip_whitespace p) in *.
  destruct H as [(Hat & -> & ->) | (_ & ev & p2 & es1 & parser & token & p4 &
                                     E2 & E3 & E4 & Hend)]; [exact Hes|].
  destruct (pv_ok _ _ _ (consumed_in_buffer _ _ C0) E2) as (C2 & L2 & D2).
  pose proof (pv_keys _ _ _ (consumed_in_buffer _ _ C0) E2) as K2.
  apply add_element_parser in E3 as [-> E3]. rewrite E3 in E4.
  pose proof (consumed_add_memory p2 sizeof_jsonk_array_element
                                  (consumed_in_buffer _ _ C2)) as C3.
  destruct (token_consumed _ _ _ (consumed_in_buffer _ _ C3) E4) as [C4 L4].
  assert (Hes1 : one_byte_keys (JArray (es ++ [ev])) = true).
  { rewrite one_byte_keys_array in Hes. rewrite one_byte_keys_array, forallb_app.
    apply andb_true_intro. split; [exact Hes|]. cbn [forallb].
    now rewrite K2. }
  destruct Hend as [(_ & -> & ->) | (_ & Hloop)]; [exact Hes1|].
  apply IH in Hloop; [exact Hloop | eapply consumed_in_buffer; eauto | exact Hes1].
Qed.

Lemma parse_object_keys p v p' :
  in_buffer p -> parse_object pv p = Got (v, p') -> one_byte_keys v = true.
Proof.
  intros Hin H.
  apply parse_object_start in H
    as (token0 & p0 & token & p1 & E0 & _ & E1 & Hend).
  destruct (token_consumed _ _ _ Hin E0) as [C0 L0].
  destruct (token_consumed _ _ _ (consumed_in_buffer _ _ C0) E1) as [C1 L1].
  destruct Hend as [(_ & -> & ->) | (_ & Hloop)]; [reflexivity|].
  apply parse_object_loop_keys in Hloop;
    [exact Hloop | eapply consumed_in_buffer; eauto | reflexivity].
Qed.

Lemma parse_array_keys p v p' :
  in_buffer p -> parse_array pv p = Got (v, p') -> one_byte_keys v = true.
Proof.
  intros Hin H.
  apply parse_array_start in H as (token0 & p0 & E0 & _ & Hloop).
  destruct (token_consumed _ _ _ Hin E0) as [C0 L0].
  apply parse_array_loop_keys in Hloop;
    [exact Hloop | eapply consumed_in_buffer; eauto | reflexivity].
Qed.

End LoopsKeys.

(** Whatever the length of a key in the input, the member built for it
    carries a key of one byte: the length passed to
    [jsonk_object_add_member_tracked] is that of the colon token. *)
Lemma parse_value_keys d :
  forall p v p',
    in_buffer p -> jsonk_parse_value d p = Got (v, p') -> one_byte_keys v = true.
Proof.
  induction d as [ | d IH ]; intros p v p' Hin H.
  { simpl in H. destruct (depth p >=? JSONK_MAX_DEPTH); discriminate. }
  apply parse_value_step in H as (Hd & token & p2 & E & Hcase).
  set (p1 := set_depth p (depth p + 1)) in *.
  assert (Hin1 : in_buffer p1) by exact Hin.
  destruct (next_token_ok _ _ _ Hin1 E) as (M & L & S1 & S2 & S3).
  destruct (moved_consumed _ _ M) as (B & D & P).
  assert (Hin3 : tk_len token = 1%nat ->
                 in_buffer (set_pos p2 (pos p2 - tk_len token))).
  { intros Hlen. unfold in_buffer, buffer_len in *. simpl in *. rewrite B. lia. }
  destruct Hcase as [(Ety & p4 & Hobj & ->) | [(Ety & p4 & Harr & ->) |
                     [(Ety & parser & Hstr & ->) | [(Ety & Hnum & ->) | (Hlit & ->)]]]].
  - apply (parse_object_keys _ (parse_value_consumed d) IH) in Hobj; auto.
  - apply (parse_array_keys _ (parse_value_consumed d) IH) in Harr; auto.
  - apply string_tracked_parser in Hstr as ((u & -> & _) & _). reflexivity.
  - apply create_number_is_number in Hnum. destruct v; try discriminate. reflexivity.
  - destruct Hlit as [(_ & ->) | [(_ & ->) | (_ & ->)]]; reflexivity.
Qed.

(** C3 (the end-to-end scenario run on the code).  The document of the
    round-trip scenario (42 bytes) parses, but every member key is stored
    with the length of the colon token that was read after it, one byte;
    the serialization is 28 bytes long and differs from the input.  The
    same happens to every document: no tree returned by [jsonk_parse] has
    a key longer than one byte. *)
Theorem roundtrip_scenario_truncates_keys :
  let input := json "{'name':'JSONK','version':1,'active':true}" in
  length input = 42%nat /\
  jsonk_parse input =
    Got (JObject [ (bytes "n", JString (bytes "JSONK"));
                   (bytes "v", JNumber 1 0 false true);
                   (bytes "a", JBoolean true) ]) /\
  (forall v, jsonk_parse input = Got v ->
     serialized v 64 = Some (json "{'n':'JSONK','v':1,'a':true}") /\
     serialized v 64 <> Some input) /\
  (forall json_str v, jsonk_parse json_str = Got v -> one_byte_keys v = true).
Proof.
  cbv zeta. split; [reflexivity|]. split; [vm_compute; reflexivity|]. split.
  - intros v Hv. vm_compute in Hv. injection Hv as <-.
    split; [vm_compute; reflexivity|]. vm_compute. discriminate.
  - intros j v H. unfold jsonk_parse in H.
    destruct (length j =? 0)%nat; [discriminate|].
    destruct (jsonk_parse_value _ _) as [[v' p'] | | ] eqn:E; try discriminate.
    injection H as <-.
    apply parse_value_keys in E; [exact E|].
    unfold in_buffer. simpl. lia.
Qed.

(** ** Appending bytes to the input *)

Section Extension.

Variable r : list char.

Lemma rest_extend p : in_buffer p -> rest (extend r p) = rest p ++ r.
Proof.
  unfold in_buffer, buffer_len, rest. simpl. intros H.
  rewrite skipn_app. replace (pos p - length (buffer p))%nat with 0%nat by lia.
  reflexivity.
Qed.

Lemma rest_nonempty p : (pos p < buffer_len p)%nat -> exists c l, rest p = c :: l.
Proof.
  intros H. pose proof (rest_length p) as L.
  destruct (rest p) as [ | c l ]; [simpl in L; lia | eauto].
Qed.

Lemma skip_whitespace_from_app l n :
  (skip_whitespace_from l n < n + length l)%nat ->
  skip_whitespace_from (l ++ r) n = skip_whitespace_from l n.
Proof.
  revert n. induction l as [ | c l IH ]; intros n H; simpl in *; [lia|].
  destruct (jsonk_is_whitespace c); [ | reflexivity ]. apply IH. lia.
Qed.

Lemma skip_digits_from_app l n :
  (skip_digits_from l n < n + length l)%nat ->
  skip_digits_from (l ++ r) n = skip_digits_from l n.
Proof.
  revert n. induction l as [ | c l IH ]; intros n H; simpl in *; [lia|].
  destruct (is_digit c); [ | reflexivity ]. apply IH. lia.
Qed.

Lemma skip_whitespace_extend p :
  in_buffer p ->
  (pos (jsonk_skip_whitespace p) < buffer_len p)%nat ->
  jsonk_skip_whitespace (extend r p) = extend r (jsonk_skip_whitespace p).
Proof.
  intros Hin H. unfold jsonk_skip_whitespace in *. rewrite rest_extend by auto.
  change (skip_whitespace_from (rest p) (pos p) < buffer_len p)%nat in H.
  change (pos (extend r p)) with (pos p).
  rewrite skip_whitespace_from_app; [reflexivity|].
  rewrite rest_length. unfold in_buffer in Hin. lia.
Qed.

Lemma skip_digits_extend p :
  in_buffer p ->
  (pos (skip_digits p) < buffer_len p)%nat ->
  skip_digits (extend r p) = extend r (skip_digits p).
Proof.
  intros Hin H. unfold skip_digits in *. rewrite rest_extend by auto.
  change (skip_digits_from (rest p) (pos p) < buffer_len p)%nat in H.
  change (pos (extend r p)) with (pos p).
  rewrite skip_digits_from_app; [reflexivity|].
  rewrite rest_length. unfold in_buffer in Hin. lia.
Qed.

Lemma peek_char_extend p :
  (pos p < buffer_len p)%nat -> jsonk_peek_char (extend r p) = jsonk_peek_char p.
Proof.
  intros H. unfold jsonk_peek_char. rewrite rest_extend by (unfold in_buffer; lia).
  destruct (rest_nonempty p H) as (c & l & ->). reflexivity.
Qed.

Lemma at_char_extend p c :
  (pos p < buffer_len p)%nat -> at_char (extend r p) c = at_char p c.
Proof.
  intros H. unfold at_char. rewrite rest_extend by (unfold in_buffer; lia).
  destruct (rest_nonempty p H) as (x & l & ->). reflexivity.
Qed.

Lemma no_digit_here_extend p :
  (pos p < buffer_len p)%nat -> no_digit_here (extend r p) = no_digit_here p.
Proof.
  intros H. unfold no_digit_here. rewrite rest_extend by (unfold in_buffer; lia).
  destruct (rest_nonempty p H) as (x & l & ->). reflexivity.
Qed.

Lemma scan_string_app_aux k :
  forall l, (length l <= k)%nat ->
  forall n q, scan_string l n = OK q -> scan_string (l ++ r) n = OK q.
Proof.
  induction k as [ | k IH ]; intros l Hle n q H.
  { destruct l; [discriminate | simpl in Hle; lia]. }
  destruct l as [ | c l1 ]; simpl in H; [discriminate|]. simpl in Hle. simpl.
  destruct (c =? CH_QUOTE); [exact H|].
  destruct (c =? CH_BACKSLASH).
  - destruct l1 as [ | e l2 ]; [discriminate|]. simpl in Hle. simpl.
    destruct (is_simple_escape e).
    + apply IH; auto; lia.
    + destruct (e =? CH_u); [ | discriminate ].
      destruct l2 as [ | h1 [ | h2 [ | h3 [ | h4 l3 ] ] ] ]; try discriminate.
      simpl in Hle. simpl.
      destruct (is_hex_digit h1 && is_hex_digit h2 && is_hex_digit h3 && is_hex_digit h4);
        [ | discriminate ].
      apply IH; auto; lia.
  - destruct (c <? 32); [discriminate|]. apply IH; auto; lia.
Qed.

Lemma scan_string_app l n q :
  scan_string l n = OK q -> scan_string (l ++ r) n = OK q.
Proof. apply (scan_string_app_aux (length l)). lia. Qed.

Lemma parse_string_extend p token p' :
  (pos p < buffer_len p)%nat ->
  jsonk_parse_string p = OK (token, p') ->
  jsonk_parse_string (extend r p) = OK (token, extend r p').
Proof.
  intros H. unfold jsonk_parse_string.
  change (set_pos (extend r p) (pos (extend r p) + 1))
    with (extend r (set_pos p (pos p + 1))).
  rewrite rest_extend by (unfold in_buffer, buffer_len in *; simpl; lia).
  destruct (scan_string (rest _) _) as [q | ] eqn:E; [ | discriminate ].
  intros [= <- <-]. apply scan_string_app in E.
  change (pos (extend r (set_pos p (pos p + 1)))) with (pos (set_pos p (pos p + 1))).
  rewrite E. reflexivity.
Qed.

Lemma number_integer_extend p p' :
  in_buffer p -> number_integer p = OK p' ->
  (pos p' < buffer_len p)%nat ->
  number_integer (extend r p) = OK (extend r p').
Proof.
  intros Hin H Hlt.
  destruct (number_integer_moved _ _ Hin H) as [[_ B] L].
  unfold number_integer in *.
  rewrite peek_char_extend by lia.
  destruct (jsonk_peek_char p =? CH_0).
  - change (advance (extend r p)) with (extend r (advance p)).
    destruct (is_digit (jsonk_peek_char (advance p))) eqn:E; [discriminate|].
    injection H as <-. rewrite peek_char_extend by exact Hlt. now rewrite E.
  - destruct (_ && _); [ | discriminate ]. injection H as <-.
    change (advance (extend r p)) with (extend r (advance p)).
    rewrite skip_digits_extend; auto.
    unfold in_buffer, buffer_len in *. simpl. lia.
Qed.

Lemma number_fraction_extend p p' :
  in_buffer p -> number_fraction p = OK p' ->
  (pos p' < buffer_len p)%nat ->
  number_fraction (extend r p) = OK (extend r p').
Proof.
  intros Hin H Hlt.
  destruct (number_fraction_moved _ _ Hin H) as [_ B].
  unfold number_fraction in *.
  rewrite at_char_extend by lia.
  destruct (at_char p CH_DOT) eqn:E.
  - apply at_char_in in E.
    change (advance (extend r p)) with (extend r (advance p)).
    destruct (no_digit_here (advance p)) eqn:E2; [discriminate|].
    injection H as <-.
    pose proof (skip_digits_moved (advance p)) as [_ B2];
      [unfold in_buffer, buffer_len in *; simpl; lia|].
    change (buffer_len (advance p)) with (buffer_len p) in *.
    rewrite no_digit_here_extend
      by (change (buffer_len (advance p)) with (buffer_len p); lia).
    rewrite E2.
    rewrite skip_digits_extend; auto;
      try (unfold in_buffer, buffer_len in *; simpl; lia).
  - injection H as <-. reflexivity.
Qed.

Lemma if_extend (b : bool) p q :
  (if b then extend r p else extend r q) = extend r (if b then p else q).
Proof. destruct b; reflexivity. Qed.

Lemma number_exponent_extend p p' :
  in_buffer p -> number_exponent p = OK p' ->
  (pos p' < buffer_len p)%nat ->
  number_exponent (extend r p) = OK (extend r p').
Proof.
  intros Hin H Hlt.
  destruct (number_exponent_moved _ _ Hin H) as [_ B].
  unfold number_exponent in *.
  rewrite !at_char_extend by lia.
  destruct (at_char p CH_e || at_char p CH_E) eqn:E.
  - assert (Hp : (pos p < buffer_len p)%nat) by lia.
    change (advance (extend r p)) with (extend r (advance p)).
    remember (advance p) as p1 eqn:Ep1.
    assert (Hl1 : buffer_len p1 = buffer_len p) by (subst p1; reflexivity).
    assert (Hin1 : in_buffer p1).
    { subst p1. unfold in_buffer, buffer_len in *. simpl. lia. }
    remember (if at_char p1 CH_PLUS || at_char p1 CH_MINUS then advance p1 else p1)
      as p2 eqn:Ep2.
    assert (M2 : moved p1 p2).
    { subst p2. destruct (at_char p1 CH_PLUS || at_char p1 CH_MINUS) eqn:E3.
      - apply advance_moved. apply orb_true_iff in E3 as [E3 | E3]; eapply at_char_in; eauto.
      - now apply moved_refl. }
    destruct (no_digit_here p2) eqn:E2; [discriminate|].
    injection H as <-.
    pose proof (skip_digits_moved p2 (moved_in_buffer _ _ M2)) as [_ B3].
    pose proof (moved_buffer_len _ _ M2) as Hl2.
    assert (Hp1 : (pos p1 < buffer_len p1)%nat) by (destruct M2 as [_ ?]; lia).
    rewrite !at_char_extend by exact Hp1.
    change (advance (extend r p1)) with (extend r (advance p1)).
    rewrite if_extend, <- Ep2.
    rewrite no_digit_here_extend by lia. rewrite E2.
    rewrite skip_digits_extend; [reflexivity | eapply moved_in_buffer; eauto | lia].
  - injection H as <-. reflexivity.
Qed.


Lemma parse_number_extend p token p' :
  in_buffer p -> jsonk_parse_number p = OK (token, p') ->
  (pos p' < buffer_len p)%nat ->
  jsonk_parse_number (extend r p) = OK (token, extend r p').
Proof.
  intros Hin H Hlt.
  destruct (parse_number_ok _ _ _ Hin H) as [((_ & B) & L & _) _].
  unfold jsonk_parse_number in *.
  rewrite peek_char_extend by lia.
  change (advance (extend r p)) with (extend r (advance p)).
  rewrite if_extend.
  remember (if jsonk_peek_char p =? CH_MINUS then advance p else p) as p0 eqn:Ep0.
  assert (M0 : moved p p0).
  { subst p0. destruct (jsonk_peek_char p =? CH_MINUS) eqn:E.
    - apply advance_moved, peek_char_in. apply Z.eqb_eq in E. rewrite E. discriminate.
    - now apply moved_refl. }
  destruct (number_integer p0) as [p1 | ] eqn:E1; [ | discriminate ].
  destruct (number_fraction p1) as [p2 | ] eqn:E2; [ | discriminate ].
  destruct (number_exponent p2) as [p3 | ] eqn:E3; [ | discriminate ].
  injection H as <- <-.
  pose proof (moved_in_buffer _ _ M0) as Hin0.
  destruct (number_integer_moved _ _ Hin0 E1) as [M1 L1].
  pose proof (moved_in_buffer _ _ M1) as Hin1.
  pose proof (number_fraction_moved _ _ Hin1 E2) as M2.
  pose proof (moved_in_buffer _ _ M2) as Hin2.
  pose proof (number_exponent_moved _ _ Hin2 E3) as M3.
  pose proof (moved_buffer_len _ _ M0) as Hl0.
  pose proof (moved_buffer_len _ _ M1) as Hl1.
  pose proof (moved_buffer_len _ _ M2) as Hl2.
  destruct M1 as [_ B1], M2 as [_ B2], M3 as [_ B3].
  rewrite (number_integer_extend _ _ Hin0 E1) by lia.
  rewrite (number_fraction_extend _ _ Hin1 E2) by lia.
  rewrite (number_exponent_extend _ _ Hin2 E3) by lia.
  reflexivity.
Qed.

Lemma firstn_app_short {A} (l l' : list A) n :
  (n <= length l)%nat -> firstn n (l ++ l') = firstn n l.
Proof.
  intros H. rewrite firstn_app. replace (n - length l)%nat with 0%nat by lia.
  simpl. apply app_nil_r.
Qed.

Lemma literal_here_extend p lit :
  in_buffer p -> literal_here p lit = true -> literal_here (extend r p) lit = true.
Proof.
  unfold literal_here. intros Hin H. apply andb_true_iff in H as [H1 H2].
  apply Nat.leb_le in H1. rewrite rest_extend by auto.
  rewrite firstn_app_short by (rewrite rest_length; lia). rewrite H2.
  rewrite andb_true_r. apply Nat.leb_le. unfold buffer_len in *. simpl.
  rewrite length_app. lia.
Qed.

Lemma literal_here_first p x lit :
  literal_here p (x :: lit) = true -> exists l, rest p = x :: l.
Proof.
  unfold literal_here. intros H. apply andb_true_iff in H as [_ H].
  destruct (rest p) as [ | c l ]; simpl in H; [discriminate|].
  apply andb_true_iff in H as [H _]. apply Z.eqb_eq in H. subst. eauto.
Qed.

Lemma literal_here_other p c l x lit :
  in_buffer p -> rest p = c :: l -> c <> x ->
  literal_here (extend r p) (x :: lit) = false.
Proof.
  intros Hin E Hne. unfold literal_here. rewrite rest_extend, E by auto. simpl.
  apply Z.eqb_neq in Hne. rewrite Hne. apply andb_false_r.
Qed.

Lemma parse_literal_extend p token p' :
  in_buffer p -> jsonk_parse_literal p = OK (token, p') ->
  jsonk_parse_literal (extend r p) = OK (token, extend r p').
Proof.
  intros Hin. unfold jsonk_parse_literal, literals, parse_literal_from.
  change (bytes "true") with [CH_t; CH_r; CH_u; CH_e].
  change (bytes "false") with [CH_f; CH_a; 108; 115; CH_e].
  change (bytes "null") with [CH_n; CH_u; 108; 108].
  destruct (literal_here p [CH_t; CH_r; CH_u; CH_e]) eqn:E1.
  { intros [= <- <-]. now rewrite literal_here_extend. }
  destruct (literal_here p [CH_f; CH_a; 108; 115; CH_e]) eqn:E2.
  { intros [= <- <-]. destruct (literal_here_first _ _ _ E2) as [l El].
    rewrite (literal_here_other p CH_f l CH_t); auto; [ | discriminate ].
    now rewrite literal_here_extend. }
  destruct (literal_here p [CH_n; CH_u; 108; 108]) eqn:E3; [ | discriminate ].
  intros [= <- <-]. destruct (literal_here_first _ _ _ E3) as [l El].
  rewrite (literal_here_other p CH_n l CH_t); auto; [ | discriminate ].
  rewrite (literal_here_other p CH_n l CH_f); auto; [ | discriminate ].
  now rewrite literal_here_extend.
Qed.

(** A token that is not a number, or a number that ends before the end
    of the input, is read the same way when bytes are appended. *)
Lemma next_token_extend p token p' :
  in_buffer p -> jsonk_next_token p = OK (token, p') ->
  (tk_type token <> JSONK_TOKEN_NUMBER \/ (pos p' < buffer_len p)%nat) ->
  jsonk_next_token (extend r p) = OK (token, extend r p').
Proof.
  intros Hin H Hnum. unfold jsonk_next_token in *.
  pose proof (skip_whitespace_moved p Hin) as M.
  remember (jsonk_skip_whitespace p) as q eqn:Eq.
  destruct (rest q) as [ | c l ] eqn:E; [discriminate|].
  pose proof (rest_cons _ _ _ E) as [Hlt _].
  pose proof (moved_buffer_len _ _ M) as Hl.
  pose proof (moved_in_buffer _ _ M) as Hq.
  rewrite skip_whitespace_extend; auto; [ | rewrite <- Eq; lia ].
  rewrite <- Eq. rewrite rest_extend, E by auto. simpl.
  repeat match goal with
         | H : (if ?c then _ else _) = _ |- _ => destruct c
         end;
    first [ injection H as <- <-; reflexivity
          | now apply parse_string_extend
          | now apply parse_literal_extend
          | discriminate
          | idtac ].
  apply parse_number_extend; auto.
  destruct Hnum as [Hnum | Hnum]; [ | lia ].
  exfalso. apply Hnum. now destruct (parse_number_ok _ _ _ Hq H).
Qed.

Lemma token_bytes_extend p token :
  (tk_start token + tk_len token <= buffer_len p)%nat ->
  token_bytes (extend r p) token = token_bytes p token.
Proof.
  intros H. unfold token_bytes, buffer_len in *. simpl.
  rewrite skipn_app. replace (tk_start token - length (buffer p))%nat with 0%nat by lia.
  simpl. apply firstn_app_short. rewrite length_skipn. lia.
Qed.

Lemma string_tracked_extend str p :
  jsonk_value_create_string_tracked str (Some (extend r p)) =
  match jsonk_value_create_string_tracked str (Some p) with
  | Some (v, parser) => Some (v, option_map (extend r) parser)
  | None => None
  end.
Proof.
  unfold jsonk_value_create_string_tracked, jsonk_value_create_tracked,
    jsonk_tracked_alloc, has_parser. simpl.
  repeat match goal with
         | |- context [if ?c then _ else _] => destruct c; simpl
         | |- context [match unescape ?s with _ => _ end] => destruct (unescape s); simpl
         end; reflexivity.
Qed.

Lemma add_member_extend ms key key_len v p :
  jsonk_object_add_member_tracked ms key key_len v (Some (extend r p)) =
  match jsonk_object_add_member_tracked ms key key_len v (Some p) with
  | OK (ms1, parser) => OK (ms1, option_map (extend r) parser)
  | ERR e => ERR e
  end.
Proof.
  unfold jsonk_object_add_member_tracked, jsonk_tracked_alloc, has_parser. simpl.
  repeat match goal with
         | |- context [if ?c then _ else _] => destruct c; simpl
         end; reflexivity.
Qed.

Lemma add_element_extend es v p :
  jsonk_array_add_element_tracked es v (Some (extend r p)) =
  match jsonk_array_add_element_tracked es v (Some p) with
  | OK (es1, parser) => OK (es1, option_map (extend r) parser)
  | ERR e => ERR e
  end.
Proof.
  unfold jsonk_array_add_element_tracked, has_parser. simpl.
  repeat match goal with
         | |- context [if ?c then _ else _] => destruct c; simpl
         end; reflexivity.
Qed.

Lemma with_parser_extend p parser :
  with_parser (extend r p) (option_map (extend r) parser)
  = extend r (with_parser p parser).
Proof. destruct parser; reflexivity. Qed.

Section LoopsExtend.

Variable pv : jsonk_parser -> outcome (jsonk_value * jsonk_parser).

Hypothesis pv_ok :
  forall p v p', in_buffer p -> pv p = Got (v, p') ->
    consumed p p' /\ (pos p < pos p')%nat /\ depth p + nesting v <= JSONK_MAX_DEPTH.

Hypothesis pv_extend :
  forall p v p', in_buffer p -> pv p = Got (v, p') ->
    (is_number v = false \/ (pos p' < buffer_len p)%nat) ->
    pv (extend r p) = Got (v, extend r p').

Lemma consumed_buffer_len p q : consumed p q -> buffer_len q = buffer_len p.
Proof. intros (B & _). unfold buffer_len. now rewrite B. Qed.

Lemma parse_object_loop_extend n :
  forall ms token p v p',
    in_buffer p ->
    (tk_start token + tk_len token <= buffer_len p)%nat ->
    parse_object_loop pv n ms token p = Got (v, p') ->
    forall n', (n <= n')%nat ->
      parse_object_loop pv n' ms token (extend r p) = Got (v, extend r p').
Proof.
  induction n as [ | n IH ]; intros ms token p v p' Hin Htok H n' Hn; [discriminate|].
  destruct n' as [ | n' ]; [lia|].
  apply parse_object_loop_step in H
    as (Ety & token1 & p1 & mv & p2 & ms1 & parser & token2 & p4 &
        E1 & Ety1 & E2 & E3 & E4 & Hend).
  destruct (token_consumed _ _ _ Hin E1) as [C1 L1].
  pose proof (consumed_in_buffer _ _ C1) as Hin1.
  destruct (pv_ok _ _ _ Hin1 E2) as (C2 & L2 & _).
  pose proof (consumed_in_buffer _ _ C2) as Hin2.
  pose proof E3 as E3'. apply add_member_parser in E3' as [_ E3'].
  pose proof (consumed_add_memory p2 (Z.of_nat (tk_len token1) + 1) Hin2) as C3.
  rewrite <- E3' in C3.
  pose proof (consumed_in_buffer _ _ C3) as Hin3.
  destruct (token_consumed _ _ _ Hin3 E4) as [C4 L4].
  pose proof (consumed_in_buffer _ _ C4) as Hin4.
  pose proof (consumed_buffer_len _ _ C1) as Hl1.
  pose proof (consumed_buffer_len _ _ C2) as Hl2.
  pose proof (consumed_buffer_len _ _ C3) as Hl3.
  pose proof (consumed_buffer_len _ _ C4) as Hl4.
  assert (Hp2 : (pos p2 < buffer_len p1)%nat).
  { destruct C3 as (_ & _ & P3), C4 as (_ & _ & P4). lia. }
  cbn [parse_object_loop]. rewrite Ety.
  rewrite (next_token_extend _ _ _ Hin E1) by (left; rewrite Ety1; discriminate).
  rewrite Ety1.
  rewrite (pv_extend _ _ _ Hin1 E2) by (right; exact Hp2).
  rewrite token_bytes_extend by exact Htok.
  rewrite add_member_extend, E3, with_parser_extend.
  assert (Hty2 : tk_type token2 <> JSONK_TOKEN_NUMBER).
  { destruct Hend as [(T & _) | (T & _)]; rewrite T; discriminate. }
  rewrite (next_token_extend _ _ _ Hin3 E4) by (left; exact Hty2).
  destruct Hend as [(T & -> & ->) | (T & token3 & p5 & E5 & Hloop)]; rewrite T.
  - reflexivity.
  - destruct (next_token_ok _ _ _ Hin4 E5) as (M5 & L5 & _ & S5 & _).
    pose proof (moved_in_buffer _ _ M5) as Hin5.
    pose proof (moved_buffer_len _ _ M5) as Hl5.
    assert (Hty3 : tk_type token3 = JSONK_TOKEN_STRING).
    { destruct n; [discriminate|]. now apply parse_object_loop_step in Hloop. }
    rewrite (next_token_extend _ _ _ Hin4 E5) by (left; rewrite Hty3; discriminate).
    apply (IH _ _ _ _ _ Hin5); auto; [ | lia ].
    destruct M5 as [_ B5]. lia.
Qed.

Lemma parse_object_extend p v p' :
  in_buffer p ->
  parse_object pv p = Got (v, p') ->
  parse_object pv (extend r p) = Got (v, extend r p').
Proof.
  intros Hin H.
  apply parse_object_start in H
    as (token0 & p0 & token & p1 & E0 & Ety0 & E1 & Hend).
  destruct (next_token_ok _ _ _ Hin E0) as (M0 & _).
  pose proof (moved_in_buffer _ _ M0) as Hin0.
  destruct (next_token_ok _ _ _ Hin0 E1) as (M1 & _ & _ & S1 & _).
  pose proof (moved_in_buffer _ _ M1) as Hin1.
  pose proof (moved_buffer_len _ _ M1) as Hl1.
  unfold parse_object.
  rewrite (next_token_extend _ _ _ Hin E0) by (left; rewrite Ety0; discriminate).
  rewrite Ety0.
  destruct Hend as [(T & -> & ->) | (T & Hloop)].
  - rewrite (next_token_extend _ _ _ Hin0 E1) by (left; rewrite T; discriminate).
    now rewrite T.
  - assert (Hty : tk_type token = JSONK_TOKEN_STRING).
    { now apply parse_object_loop_step in Hloop. }
    rewrite (next_token_extend _ _ _ Hin0 E1) by (left; rewrite Hty; discriminate).
    rewrite Hty.
    apply (parse_object_loop_extend _ _ _ _ _ _ Hin1) with (n' := S (buffer_len (extend r p1) - pos (extend r p1))) in Hloop.
    + exact Hloop.
    + destruct M1 as [_ B1]. lia.
    + unfold buffer_len. simpl. rewrite length_app. lia.
Qed.

Lemma parse_array_loop_extend n :
  forall es p v p',
    in_buffer p ->
    parse_array_loop pv n es p = Got (v, p') ->
    forall n', (n <= n')%nat ->
      parse_array_loop pv n' es (extend r p) = Got (v, extend r p').
Proof.
  induction n as [ | n IH ]; intros es p v p' Hin H n' Hn; [discriminate|].
  destruct n' as [ | n' ]; [lia|].
  apply parse_array_loop_step in H. cbv zeta in H.
  pose proof (skip_whitespace_moved p Hin) as M0.
  pose proof (moved_in_buffer _ _ M0) as Hin0.
  pose proof (moved_buffer_len _ _ M0) as Hl0.
  remember (jsonk_skip_whitespace p) as q eqn:Eq.
  cbn [parse_array_loop].
  destruct H as [(Hat & -> & ->) | (Hat & ev & p2 & es1 & parser & token & p4 &
                                     E2 & E3 & E4 & Hend)].
  - pose proof (at_char_in _ _ Hat) as Hlt.
    rewrite skip_whitespace_extend, <- Eq by (auto; rewrite <- Eq; lia).
    rewrite at_char_extend, Hat by exact Hlt. reflexivity.
  - destruct (pv_ok _ _ _ Hin0 E2) as (C2 & L2 & _).
    pose proof (consumed_in_buffer _ _ C2) as Hin2.
    pose proof E3 as E3'. apply add_element_parser in E3' as [_ E3'].
    pose proof (consumed_add_memory p2 sizeof_jsonk_array_element Hin2) as C3.
    rewrite <- E3' in C3.
    pose proof (consumed_in_buffer _ _ C3) as Hin3.
    destruct (token_consumed _ _ _ Hin3 E4) as [C4 L4].
    pose proof (consumed_in_buffer _ _ C4) as Hin4.
    pose proof (consumed_buffer_len _ _ C2) as Hl2.
    pose proof (consumed_buffer_len _ _ C3) as Hl3.
    assert (Hq : (pos q < buffer_len q)%nat).
    { destruct C2 as (_ & _ & P2). lia. }
    assert (Hp2 : (pos p2 < buffer_len q)%nat).
    { destruct C3 as (_ & _ & P3), C4 as (_ & _ & P4). lia. }
    rewrite skip_whitespace_extend, <- Eq by (auto; rewrite <- Eq; lia).
    rewrite at_char_extend, Hat by exact Hq.
    rewrite (pv_extend _ _ _ Hin0 E2) by (right; exact Hp2).
    rewrite add_element_extend, E3, with_parser_extend.
    assert (Hty : tk_type token <> JSONK_TOKEN_NUMBER).
    { destruct Hend as [(T & _) | (T & _)]; rewrite T; discriminate. }
    rewrite (next_token_extend _ _ _ Hin3 E4) by (left; exact Hty).
    destruct Hend as [(T & -> & ->) | (T & Hloop)]; rewrite T.
    + reflexivity.
    + apply (IH _ _ _ _ Hin4 Hloop). lia.
Qed.

Lemma parse_array_extend p v p' :
  in_buffer p ->
  parse_array pv p = Got (v, p') ->
  parse_array pv (extend r p) = Got (v, extend r p').
Proof.
  intros Hin H.
  apply parse_array_start in H as (token0 & p0 & E0 & Ety0 & Hloop).
  destruct (next_token_ok _ _ _ Hin E0) as (M0 & _).
  pose proof (moved_in_buffer _ _ M0) as Hin0.
  unfold parse_array.
  rewrite (next_token_extend _ _ _ Hin E0) by (left; rewrite Ety0; discriminate).
  rewrite Ety0.
  apply (parse_array_loop_extend _ _ _ _ _ Hin0 Hloop).
  unfold buffer_len. simpl. rewrite length_app. lia.
Qed.

End LoopsExtend.

Lemma parse_value_extend d :
  forall p v p',
    in_buffer p ->
    jsonk_parse_value d p = Got (v, p') ->
    (is_number v = false \/ (pos p' < buffer_len p)%nat) ->
    jsonk_parse_value d (extend r p) = Got (v, extend r p').
Proof.
  induction d as [ | d IH ]; intros p v p' Hin H Hnum.
  { simpl in H. destruct (depth p >=? JSONK_MAX_DEPTH); discriminate. }
  apply parse_value_step in H as (Hd & token & p2 & E & Hcase).
  cbn [jsonk_parse_value].
  change (depth (extend r p)) with (depth p).
  rewrite geb_false by exact Hd.
  change (set_depth (extend r p) (depth p + 1))
    with (extend r (set_depth p (depth p + 1))).
  remember (set_depth p (depth p + 1)) as p1 eqn:Ep1.
  assert (Hin1 : in_buffer p1) by (subst p1; exact Hin).
  assert (Hl1 : buffer_len p1 = buffer_len p) by (subst p1; reflexivity).
  destruct (next_token_ok _ _ _ Hin1 E) as (M & L & S1 & S2 & S3).
  pose proof (moved_in_buffer _ _ M) as Hin2.
  pose proof (moved_buffer_len _ _ M) as Hl2.
  assert (Htok : tk_type token <> JSONK_TOKEN_NUMBER \/ (pos p2 < buffer_len p1)%nat).
  { destruct (tk_type token) eqn:Ety; try (left; discriminate).
    right. destruct Hcase as [(T & _) | [(T & _) | [(T & _) | [(_ & Hn & ->) | (T & _)]]]];
      try discriminate; try (destruct T as [(T & _) | [(T & _) | (T & _)]]; discriminate).
    apply create_number_is_number in Hn. destruct Hnum as [Hnum | Hnum]; [congruence|].
    simpl in Hnum. lia. }
  rewrite (next_token_extend _ _ _ Hin1 E Htok).
  assert (Hin3 : tk_len token = 1%nat ->
                 in_buffer (set_pos p2 (pos p2 - tk_len token))).
  { intros Hlen. destruct M as [_ B]. unfold in_buffer, buffer_len in *.
    simpl. lia. }
  assert (Hbytes : token_bytes (extend r p2) token = token_bytes p2 token).
  { apply token_bytes_extend. destruct M as [_ B]. lia. }
  destruct Hcase as [(Ety & p4 & Hobj & ->) | [(Ety & p4 & Harr & ->) |
                     [(Ety & parser & Hstr & ->) | [(Ety & Hn & ->) | (Hlit & ->)]]]].
  - rewrite Ety.
    change (set_pos (extend r p2) (pos (extend r p2) - tk_len token))
      with (extend r (set_pos p2 (pos p2 - tk_len token))).
    rewrite (parse_object_extend _ (parse_value_consumed d) IH _ _ _
                                 (Hin3 (S3 (or_introl Ety))) Hobj).
    reflexivity.
  - rewrite Ety.
    change (set_pos (extend r p2) (pos (extend r p2) - tk_len token))
      with (extend r (set_pos p2 (pos p2 - tk_len token))).
    rewrite (parse_array_extend _ (parse_value_consumed d) IH _ _ _
                                (Hin3 (S3 (or_intror Ety))) Harr).
    reflexivity.
  - rewrite Ety, Hbytes, string_tracked_extend, Hstr, with_parser_extend. reflexivity.
  - rewrite Ety, Hbytes, Hn. reflexivity.
  - destruct Hlit as [(Ety & ->) | [(Ety & ->) | (Ety & ->)]]; rewrite Ety; reflexivity.
Qed.

End Extension.




(** ** Applying a patch twice *)


Lemma merge_member_writes rec target key v changed target' changed' :
  is_empty v = false -> is_object v = false ->
  merge_member rec target (key, v) changed = OK (target', changed') ->
  changed' = true.
Proof.
  intros He Ho. unfold merge_member. rewrite He.
  destruct (jsonk_object_find_member target key (length key)) as [[k tv] | ].
  - destruct v; try discriminate;
      (destruct (jsonk_value_deep_copy _ 1); [ | discriminate ]);
      intros [= _ <-]; reflexivity.
  - destruct (jsonk_value_deep_copy v 1); [ | discriminate ].
    destruct (jsonk_object_add_member _ _ _ _); [ | discriminate ].
    intros [= _ <-]; reflexivity.
Qed.

Lemma merge_loop_keeps_flag rec patch target target' changed' :
  merge_loop rec patch target true = OK (target', changed') -> changed' = true.
Proof.
  rewrite merge_loop_flag.
  destruct (merge_loop rec patch target false) as [[t c] | ]; [ | discriminate ].
  intros [= _ <-]. reflexivity.
Qed.

Lemma merge_loop_writes rec patch :
  forall target changed target' changed' key v,
    In (key, v) patch -> is_empty v = false -> is_object v = false ->
    merge_loop rec patch target changed = OK (target', changed') ->
    changed' = true.
Proof.
  induction patch as [ | m patch IH ]; intros target changed target' changed' key v
                                              Hin He Ho H; [destruct Hin|].
  simpl in H.
  destruct (merge_member rec target m changed) as [[t c] | ] eqn:E; [ | discriminate ].
  destruct Hin as [-> | Hin].
  - apply merge_member_writes in E; auto. subst c.
    eapply merge_loop_keeps_flag; eauto.
  - eapply IH; eauto.
Qed.

Lemma replace_first_same target key c k :
  jsonk_object_find_member target key (length key) = Some (k, c) ->
  replace_first key (length key) c target = target.
Proof.
  intros H. destruct (find_member_split _ _ _ H) as (l1 & l2 & -> & _ & Hk & _ & Hrep).
  simpl in Hk. subst k. apply Hrep.
Qed.

(** When the flag stays false the target is the one that was passed. *)
Lemma merge_unchanged (patch : jsonk_value) :
  forall target target',
    merge_value patch target = OK (target', false) -> target' = target.
Proof.
  induction patch as [ | b | i f n g | data | es _ | pm IH ] using jsonk_value_rect';
    intros target target' H; try (simpl in H; congruence).
  rewrite merge_value_object in H. unfold jsonk_merge_objects in H.
  revert target target' H.
  induction IH as [ | [key v] pm Hv _ IHpm ]; intros target target' H.
  - simpl in H. congruence.
  - cbn [merge_loop] in H.
    destruct (merge_member merge_value target (key, v) false) as [[t c] | ] eqn:E;
      [ | discriminate ].
    destruct c.
    { apply merge_loop_keeps_flag in H. discriminate. }
    apply IHpm in H. subst target'.
    simpl in Hv. unfold merge_member in E.
    destruct (is_empty v).
    + destruct (jsonk_object_find_member target key (length key)).
      * destruct (jsonk_object_remove_member _ _ _); [ | discriminate ].
        discriminate.
      * congruence.
    + destruct (jsonk_object_find_member target key (length key)) as [[k tv] | ] eqn:Ef.
      * destruct v, tv;
          try (destruct (jsonk_value_deep_copy _ 1); discriminate).
        destruct (merge_value (JObject members) members0) as [[tm sub] | ] eqn:Er;
          [ | discriminate ].
        destruct sub; [discriminate|]. injection E as <-.
        apply Hv in Er. subst tm. eapply replace_first_same; eauto.
      * destruct (jsonk_value_deep_copy v 1); [ | discriminate ].
        destruct (jsonk_object_add_member _ _ _ _); discriminate.
Qed.

(** *** Looking keys up after an update *)

Lemma list_eqb_refl (a : list char) : list_eqb a a = true.
Proof. now apply list_eqb_eq. Qed.

Lemma list_eqb_neq (a b : list char) : a <> b -> list_eqb a b = false.
Proof.
  intros H. destruct (list_eqb a b) eqn:E; auto. apply list_eqb_eq in E. contradiction.
Qed.

Lemma key_matches_spec (key : list char) (m : jsonk_member) :
  key_matches key (length key) m = list_eqb (fst m) key.
Proof.
  unfold key_matches. rewrite firstn_all.
  destruct (list_eqb (fst m) key) eqn:E; [ | apply andb_false_r ].
  apply list_eqb_eq in E. rewrite E, Nat.eqb_refl. reflexivity.
Qed.

Lemma find_member_cons (m : jsonk_member) (l : list jsonk_member) (key : list char) :
  jsonk_object_find_member (m :: l) key (length key) =
  if list_eqb (fst m) key then Some m else jsonk_object_find_member l key (length key).
Proof. unfold jsonk_object_find_member. simpl. now rewrite key_matches_spec. Qed.

Lemma find_member_key l key k c :
  jsonk_object_find_member l key (length key) = Some (k, c) -> k = key.
Proof.
  intros H. destruct (find_member_split _ _ _ H) as (_ & _ & _ & _ & Hk & _). exact Hk.
Qed.

Lemma find_member_app l key k c :
  jsonk_object_find_member (l ++ [(k, c)]) key (length key) =
  match jsonk_object_find_member l key (length key) with
  | Some m => Some m
  | None => if list_eqb k key then Some (k, c) else None
  end.
Proof.
  induction l as [ | m l IH ].
  - simpl app. rewrite find_member_cons. reflexivity.
  - simpl app. rewrite !find_member_cons. destruct (list_eqb (fst m) key); auto.
Qed.

Lemma find_replace_first_other l key k c :
  k <> key ->
  jsonk_object_find_member (replace_first k (length k) c l) key (length key)
  = jsonk_object_find_member l key (length key).
Proof.
  intros Hne. induction l as [ | m l IH ]; [reflexivity|].
  simpl replace_first. rewrite key_matches_spec.
  destruct (list_eqb (fst m) k) eqn:E.
  - apply list_eqb_eq in E. rewrite !find_member_cons. simpl fst. rewrite E.
    now rewrite list_eqb_neq.
  - rewrite !find_member_cons, IH. reflexivity.
Qed.

Lemma find_replace_first_same l key k old c :
  jsonk_object_find_member l key (length key) = Some (k, old) ->
  jsonk_object_find_member (replace_first key (length key) c l) key (length key)
  = Some (key, c).
Proof.
  induction l as [ | m l IH ]; [discriminate|].
  rewrite find_member_cons. simpl replace_first. rewrite key_matches_spec.
  destruct (list_eqb (fst m) key) eqn:E.
  - intros _. rewrite find_member_cons. simpl fst. rewrite E.
    apply list_eqb_eq in E. now rewrite E.
  - intros H. rewrite find_member_cons, E. auto.
Qed.

Lemma find_remove_first_other l key k :
  k <> key ->
  jsonk_object_find_member (remove_first k (length k) l) key (length key)
  = jsonk_object_find_member l key (length key).
Proof.
  intros Hne. induction l as [ | m l IH ]; [reflexivity|].
  simpl remove_first. rewrite key_matches_spec.
  destruct (list_eqb (fst m) k) eqn:E.
  - apply list_eqb_eq in E. rewrite find_member_cons, E.
    now rewrite list_eqb_neq.
  - rewrite !find_member_cons, IH. reflexivity.
Qed.

Lemma key_in_false key l k v :
  key_in key l = false -> In (k, v) l -> k <> key.
Proof.
  induction l as [ | m l IH ]; intros H Hin; [destruct Hin|].
  simpl in H. apply orb_false_iff in H as [H1 H2].
  destruct Hin as [-> | Hin]; auto.
  simpl in H1. intros ->. now rewrite list_eqb_refl in H1.
Qed.

Lemma find_member_absent key l :
  key_in key l = false -> jsonk_object_find_member l key (length key) = None.
Proof.
  induction l as [ | m l IH ]; intros H; [reflexivity|].
  simpl in H. apply orb_false_iff in H as [H1 H2].
  rewrite find_member_cons, H1. auto.
Qed.

(** A step on another key leaves the lookup of [key] as it was. *)
Lemma merge_member_other rec target k v changed target' changed' key :
  k <> key ->
  merge_member rec target (k, v) changed = OK (target', changed') ->
  jsonk_object_find_member target' key (length key)
  = jsonk_object_find_member target key (length key).
Proof.
  intros Hne. unfold merge_member.
  destruct (is_empty v).
  - destruct (jsonk_object_find_member target k (length k)) eqn:Ef.
    + unfold jsonk_object_remove_member. rewrite Ef. intros [= <- _].
      now apply find_remove_first_other.
    + intros [= <- _]. reflexivity.
  - destruct (jsonk_object_find_member target k (length k)) as [[k0 tv] | ] eqn:Ef.
    + destruct v, tv;
        try (destruct (jsonk_value_deep_copy _ 1); [ | discriminate ];
             intros [= <- _]; now apply find_replace_first_other).
      destruct (rec _ _) as [[tm sub] | ]; [ | discriminate ].
      intros [= <- _]. now apply find_replace_first_other.
    + destruct (jsonk_value_deep_copy v 1) as [c | ]; [ | discriminate ].
      unfold jsonk_object_add_member, jsonk_object_add_member_tracked.
      destruct (_ >=? _); [discriminate|]. destruct (_ >? _); [discriminate|].
      simpl. intros [= <- _]. rewrite firstn_all, find_member_app.
      destruct (jsonk_object_find_member target key (length key)); auto.
      now rewrite list_eqb_neq.
Qed.

Lemma merge_loop_other rec patch :
  forall target changed target' changed' key,
    key_in key patch = false ->
    merge_loop rec patch target changed = OK (target', changed') ->
    jsonk_object_find_member target' key (length key)
    = jsonk_object_find_member target key (length key).
Proof.
  induction patch as [ | [k v] patch IH ]; intros target changed target' changed' key Hk H.
  - simpl in H. congruence.
  - simpl in Hk. apply orb_false_iff in Hk as [Hk1 Hk2]. simpl in Hk1.
    cbn [merge_loop] in H.
    destruct (merge_member rec target (k, v) changed) as [[t c] | ] eqn:E;
      [ | discriminate ].
    rewrite (IH _ _ _ _ _ Hk2 H).
    eapply merge_member_other; eauto.
    intros ->. now rewrite list_eqb_refl in Hk1.
Qed.

(** *** Stable patches *)

Lemma find_distinct l key v :
  distinct_keys l = true -> In (key, v) l ->
  jsonk_object_find_member l key (length key) = Some (key, v).
Proof.
  induction l as [ | m l IH ]; intros Hd Hin; [destruct Hin|].
  simpl in Hd. apply andb_true_iff in Hd as [Hk Hd]. apply negb_true_iff in Hk.
  rewrite find_member_cons. destruct Hin as [-> | Hin].
  - simpl. now rewrite list_eqb_refl.
  - rewrite list_eqb_neq; auto.
    intros E. apply (key_in_false _ _ _ _ Hk Hin). auto.
Qed.

Lemma settled_members_intro sv pm tm :
  (forall key v, In (key, v) pm ->
     exists c, jsonk_object_find_member tm key (length key) = Some (key, c) /\ sv v c) ->
  settled_members sv pm tm.
Proof.
  induction pm as [ | [key v] pm IH ]; intros H; simpl; auto.
  split; [apply H; now left|]. apply IH. intros k w Hin. apply H. now right.
Qed.

Lemma settled_members_find sv pm tm tm' :
  (forall key, key_in key pm = true ->
     jsonk_object_find_member tm' key (length key)
     = jsonk_object_find_member tm key (length key)) ->
  settled_members sv pm tm -> settled_members sv pm tm'.
Proof.
  induction pm as [ | [key v] pm IH ]; intros H; simpl; auto.
  intros [(c & Hf & Hs) Hrest]. split.
  - exists c. split; auto. rewrite H; auto. simpl. now rewrite list_eqb_refl.
  - apply IH; auto. intros k Hk. apply H. simpl. rewrite Hk. apply orb_true_r.
Qed.

Lemma stable_value_parts v :
  stable_value v = true ->
  is_empty v = false /\ jsonk_value_deep_copy v 1 = Some v /\
  (forall pm, v = JObject pm -> stable_patch pm = true).
Proof.
  intros H.
  assert (H1 : negb (is_empty v) && plainb v 1 = true /\
               (forall pm, v = JObject pm -> stable_patch pm = true)).
  { destruct v; cbn [stable_value] in H; apply andb_true_iff in H as [H H'];
      (split; [exact H|]); intros pm [=]; subst. exact H'. }
  destruct H1 as [H1 H2]. apply andb_true_iff in H1 as [He Hp].
  apply negb_true_iff in He. split; [exact He|].
  split; [now apply deep_copy_plain | exact H2].
Qed.

(** A stable value is settled with respect to itself. *)
Lemma stable_self_settled (v : jsonk_value) :
  stable_value v = true -> settled_value v v.
Proof.
  induction v as [ | b | i f n g | data | es _ | pm IH ] using jsonk_value_rect';
    intros H; try reflexivity.
  apply stable_value_parts in H as (_ & _ & H). specialize (H pm eq_refl).
  unfold stable_patch in H. apply andb_true_iff in H as [Hd Hall].
  simpl. exists pm. split; [reflexivity|].
  apply settled_members_intro. intros key v Hin.
  exists v. split; [now apply find_distinct|].
  rewrite Forall_forall in IH. rewrite forallb_forall in Hall.
  apply (IH (key, v) Hin). apply (Hall (key, v) Hin).
Qed.

Lemma merge_loop_settles pm :
  Forall (fun m => settles (snd m)) pm ->
  stable_patch pm = true ->
  forall X Y c c',
    merge_loop merge_value pm X c = OK (Y, c') ->
    settled_members settled_value pm Y.
Proof.
  induction 1 as [ | [key v] pm Hv _ IH ]; intros Hs X Y c c' H; [exact I|].
  unfold stable_patch in Hs. simpl in Hs.
  apply andb_true_iff in Hs as [Hd Hall].
  apply andb_true_iff in Hd as [Hk Hd]. apply negb_true_iff in Hk.
  apply andb_true_iff in Hall as [Hsv Hall].
  assert (Hrest : stable_patch pm = true)
    by (unfold stable_patch; now rewrite Hd, Hall).
  cbn [merge_loop] in H.
  destruct (merge_member merge_value X (key, v) c) as [[X1 c1] | ] eqn:E;
    [ | discriminate ].
  simpl. split; [ | eapply IH; eauto ].
  rewrite (merge_loop_other _ _ _ _ _ _ _ Hk H).
  destruct (stable_value_parts _ Hsv) as (He & Hdc & Hobj).
  pose proof (stable_self_settled _ Hsv) as Hself.
  unfold merge_member in E. rewrite He, Hdc in E.
  destruct (jsonk_object_find_member X key (length key)) as [[k0 tv] | ] eqn:Ef.
  - pose proof (find_member_key _ _ _ _ Ef) as ->.
    assert (Hrep : forall w, settled_value v w ->
                     exists c0, jsonk_object_find_member
                                  (replace_first key (length key) w X) key (length key)
                                = Some (key, c0) /\ settled_value v c0).
    { intros w Hw. exists w. split; [eapply find_replace_first_same; eauto | exact Hw]. }
    destruct v; try (injection E as <- _; now apply Hrep).
    destruct tv; try (injection E as <- _; now apply Hrep).
    destruct (merge_value (JObject members) members0) as [[tm sub] | ] eqn:Er;
      [ | discriminate ].
    injection E as <- _. apply Hrep. simpl. exists tm. split; [reflexivity|].
    rewrite merge_value_object in Er. unfold jsonk_merge_objects in Er.
    simpl in Hv. eapply Hv; eauto.
  - unfold jsonk_object_add_member, jsonk_object_add_member_tracked in E.
    destruct (_ >=? _); [discriminate|]. destruct (_ >? _); [discriminate|].
    simpl in E. injection E as <- _. rewrite firstn_all.
    exists v. split; [ | exact Hself ].
    now rewrite find_member_app, Ef, list_eqb_refl.
Qed.

Lemma merge_settles (v : jsonk_value) : settles v.
Proof.
  induction v as [ | b | i f n g | data | es _ | pm IH ] using jsonk_value_rect';
    intros Hs pm' E; try discriminate.
  injection E as <-. apply merge_loop_settles; auto.
  now apply (stable_value_parts _ Hs).
Qed.

Lemma merge_loop_stays pm :
  Forall (fun m => stays (snd m)) pm ->
  stable_patch pm = true ->
  forall X c,
    settled_members settled_value pm X ->
    merge_loop merge_value pm X c = OK (X, c || negb (is_nil pm)).
Proof.
  induction 1 as [ | [key v] pm Hv _ IH ]; intros Hs X c Hset.
  { simpl. now rewrite orb_false_r. }
  unfold stable_patch in Hs. simpl in Hs.
  apply andb_true_iff in Hs as [Hd Hall].
  apply andb_true_iff in Hd as [Hk Hd].
  apply andb_true_iff in Hall as [Hsv Hall].
  assert (Hrest : stable_patch pm = true)
    by (unfold stable_patch; now rewrite Hd, Hall).
  destruct Hset as [(cv & Hf & Hcv) Hset].
  destruct (stable_value_parts _ Hsv) as (He & Hdc & Hobj).
  assert (E : merge_member merge_value X (key, v) c = OK (X, true)).
  { unfold merge_member. rewrite He, Hf, Hdc.
    destruct v; simpl in Hcv; subst;
      try (now rewrite (replace_first_same _ _ _ _ Hf)).
    destruct Hcv as (tm & -> & Htm).
    rewrite merge_value_object. unfold jsonk_merge_objects.
    simpl in Hv. rewrite (Hv Hsv members eq_refl tm false Htm).
    rewrite (replace_first_same _ _ _ _ Hf).
    simpl in He. destruct members; [discriminate | reflexivity]. }
  cbn [merge_loop]. rewrite E, (IH Hrest X true Hset).
  simpl. now rewrite orb_true_r.
Qed.

Lemma merge_stays (v : jsonk_value) : stays v.
Proof.
  induction v as [ | b | i f n g | data | es _ | pm IH ] using jsonk_value_rect';
    intros Hs pm' E; try discriminate.
  injection E as <-. apply merge_loop_stays; auto.
  now apply (stable_value_parts _ Hs).
Qed.

(** Merging a stable patch a second time reproduces the tree. *)
Lemma merge_twice (target patch merged : list jsonk_member) (changed : bool) :
  stable_patch patch = true ->
  jsonk_merge_objects target patch = OK (merged, changed) ->
  jsonk_merge_objects merged patch = OK (merged, negb (is_nil patch)).
Proof.
  intros Hs H. unfold jsonk_merge_objects in *.
  apply (merge_loop_stays patch) with (c := false); auto.
  - apply Forall_forall. intros m _. apply merge_stays.
  - eapply merge_loop_settles; eauto.
    apply Forall_forall. intros m _. apply merge_settles.
Qed.

(** What the error paths of [jsonk_apply_patch] do keep: the three
    outcomes reached before serialization leave the caller's buffer and
    length as they were, and no error outcome stores a length. *)
Lemma error_paths_frame target patch result size len c out n :
  (size <= length result)%nat ->
  jsonk_apply_patch target patch result size len = Got (c, out, n) ->
  (c = JSONK_PATCH_ERROR_PARSE \/ c = JSONK_PATCH_ERROR_TYPE \/
   c = JSONK_PATCH_ERROR_MEMORY -> out = result /\ n = len) /\
  (c = JSONK_PATCH_ERROR_OVERFLOW -> n = len /\ length out = length result).
Proof.
  intros Hsize H. unfold jsonk_apply_patch in H.
  destruct (jsonk_parse target) as [tv| |]; try discriminate.
  2:{ injection H as <- <- <-. split; [auto | discriminate]. }
  destruct (negb (is_object tv)).
  { injection H as <- <- <-. split; [auto | discriminate]. }
  destruct (jsonk_parse patch) as [pv| |]; try discriminate.
  2:{ destruct (length target <=? size)%nat; injection H as <- <- <-.
      - split; [intros [E|[E|E]]; discriminate | discriminate].
      - split; [auto | auto]. }
  destruct (negb (is_object pv)).
  { injection H as <- <- <-. split; [auto | discriminate]. }
  destruct (jsonk_value_deep_copy tv 0) as [copy|].
  2:{ injection H as <- <- <-. split; [auto | discriminate]. }
  destruct (jsonk_merge_objects (members_of copy) (members_of pv)) as [[merged changed]|e].
  2:{ injection H as <- <- <-. split; [auto | discriminate]. }
  pose proof (jsonk_serialize_correct (JObject merged) result 0%nat size Hsize) as S.
  destruct (jsonk_serialize (JObject merged) result 0 size) as [[ret written] b].
  destruct S as ((Hlen & _) & [(-> & _) | (-> & _)]).
  - simpl in H. injection H as <- <- <-.
    split; [intros [E|[E|E]] | intros E]; destruct changed; discriminate.
  - simpl in H. injection H as <- <- <-.
    split; [intros [E|[E|E]]; discriminate | auto].
Qed.

Lemma deep_copy_object v d merged :
  jsonk_value_deep_copy v d = Some (JObject merged) -> is_object v = true.
Proof.
  destruct v; simpl; destruct (d >? JSONK_MAX_DEPTH); try discriminate; auto.
  unfold jsonk_value_create_string_tracked.
  repeat match goal with
         | |- context [if ?c then _ else _] => destruct c; simpl; try discriminate
         | |- context [match unescape ?s with _ => _ end] =>
           destruct (unescape s); simpl; try discriminate
         end.
Qed.

(** A successful application stores the rendering of the merged tree. *)
Lemma apply_patch_output target patch result size len c out n tv pm copy merged changed :
  (size <= length result)%nat ->
  jsonk_parse target = Got tv ->
  jsonk_parse patch = Got (JObject pm) ->
  jsonk_value_deep_copy tv 0 = Some copy ->
  jsonk_merge_objects (members_of copy) pm = OK (merged, changed) ->
  jsonk_apply_patch target patch result size len = Got (c, out, n) ->
  c = JSONK_PATCH_SUCCESS \/ c = JSONK_PATCH_NO_CHANGE ->
  c = (if changed then JSONK_PATCH_SUCCESS else JSONK_PATCH_NO_CHANGE) /\
  n = length (render (JObject merged)) /\ (n < size)%nat /\
  firstn n out = render (JObject merged).
Proof.
  intros Hsize Ht Hp Hc Hm H Hok. unfold jsonk_apply_patch in H.
  rewrite Ht, Hp in H.
  destruct (negb (is_object tv)).
  { injection H as <- _ _. destruct Hok; discriminate. }
  cbn [negb is_object members_of] in H. rewrite Hc, Hm in H.
  pose proof (jsonk_serialize_correct (JObject merged) result 0%nat size Hsize) as S.
  destruct (jsonk_serialize (JObject merged) result 0 size) as [[ret written] b].
  destruct S as (_ & [(-> & Hw & Hlt & Htext) | (-> & _ & _)]).
  - simpl in H. injection H as <- <- <-. rewrite skipn_O in Htext. auto.
  - simpl in H. injection H as <- _ _. destruct Hok; discriminate.
Qed.



(** * Lookup, insertion and removal of members *)

Lemma key_matches_prefix (key : list char) (key_len : nat) (m : jsonk_member) :
  (key_len <= length key)%nat ->
  key_matches key key_len m
  = key_matches (firstn key_len key) (length (firstn key_len key)) m.
Proof.
  intros H. unfold key_matches.
  rewrite length_firstn, Nat.min_l by exact H.
  rewrite firstn_firstn, Nat.min_id. reflexivity.
Qed.

Lemma find_member_prefix obj (key : list char) (key_len : nat) :
  (key_len <= length key)%nat ->
  jsonk_object_find_member obj key key_len
  = jsonk_object_find_member obj (firstn key_len key) (length (firstn key_len key)).
Proof.
  intros H. unfold jsonk_object_find_member.
  induction obj as [ | m obj IH ]; [reflexivity|].
  simpl. rewrite <- key_matches_prefix by exact H.
  destruct (key_matches key key_len m); auto.
Qed.

Lemma replace_first_prefix obj (key : list char) (key_len : nat) c :
  (key_len <= length key)%nat ->
  replace_first key key_len c obj
  = replace_first (firstn key_len key) (length (firstn key_len key)) c obj.
Proof.
  intros H. induction obj as [ | m obj IH ]; [reflexivity|].
  simpl. rewrite <- key_matches_prefix by exact H.
  destruct (key_matches key key_len m); [reflexivity | now rewrite IH].
Qed.

Lemma add_member_untracked obj key key_len value :
  jsonk_object_add_member obj key key_len value =
  if Z.of_nat (length obj) >=? JSONK_MAX_OBJECT_MEMBERS then ERR (- ENOSPC)
  else if Z.of_nat key_len >? JSONK_MAX_KEY_LENGTH then ERR (- EINVAL)
  else OK (obj ++ [(firstn key_len key, value)]).
Proof.
  unfold jsonk_object_add_member, jsonk_object_add_member_tracked.
  destruct (_ >=? _); [reflexivity|]. destruct (_ >? _); reflexivity.
Qed.

(** X1.  [jsonk_object_add_member] succeeds exactly when the object has
    fewer than 1000 members and the key is at most 256 bytes long; the
    member goes to the tail and duplicates are not looked for: a lookup of
    the key afterwards returns the new member only if no older member has
    the key, otherwise it still returns the older one.  Lookups of other
    keys are unchanged. *)
Theorem add_member_then_find
        (obj : list jsonk_member) (key : list char) (key_len : nat)
        (value : jsonk_value) :
  (key_len <= length key)%nat ->
  let k := firstn key_len key in
  ((exists obj', jsonk_object_add_member obj key key_len value = OK obj') <->
   Z.of_nat (length obj) < JSONK_MAX_OBJECT_MEMBERS /\
   Z.of_nat key_len <= JSONK_MAX_KEY_LENGTH) /\
  (forall obj',
      jsonk_object_add_member obj key key_len value = OK obj' ->
      obj' = obj ++ [(k, value)] /\
      jsonk_object_find_member obj' key key_len =
        match jsonk_object_find_member obj key key_len with
        | Some older => Some older
        | None => Some (k, value)
        end /\
      forall other,
        other <> k ->
        jsonk_object_find_member obj' other (length other)
        = jsonk_object_find_member obj other (length other)).
Proof.
  intros Hlen k. rewrite add_member_untracked. split.
  - destruct (_ >=? _) eqn:E1.
    + split; [intros [o H]; discriminate|].
      intros [H _]. rewrite Z.geb_leb in E1. apply Z.leb_le in E1. lia.
    + rewrite Z.geb_leb in E1. apply Z.leb_gt in E1.
      destruct (_ >? _) eqn:E2.
      * split; [intros [o H]; discriminate|].
        intros [_ H]. rewrite Z.gtb_ltb in E2. apply Z.ltb_lt in E2. lia.
      * rewrite Z.gtb_ltb in E2. apply Z.ltb_ge in E2.
        split; [auto | eauto].
  - intros obj' H.
    destruct (_ >=? _); [discriminate|]. destruct (_ >? _); [discriminate|].
    injection H as <-. fold k. split; [reflexivity|]. split.
    + rewrite !(find_member_prefix _ key key_len Hlen). fold k.
      rewrite find_member_app.
      destruct (jsonk_object_find_member obj k (length k)); [reflexivity|].
      replace (list_eqb k k) with true; [reflexivity|].
      symmetry. now apply list_eqb_eq.
    + intros other Hne. rewrite find_member_app.
      destruct (jsonk_object_find_member obj other (length other)); [reflexivity|].
      destruct (list_eqb k other) eqn:E; [ | reflexivity ].
      apply list_eqb_eq in E. congruence.
Qed.

Lemma add_member_then_find_shadowed :
  jsonk_object_find_member
    [(bytes "id", JNull); (bytes "id", JBoolean true)] (bytes "id=7") 2
  = Some (bytes "id", JNull).
Proof.
  destruct (add_member_then_find [(bytes "id", JNull)] (bytes "id=7") 2
                                 (JBoolean true)) as [_ H].
  - simpl. lia.
  - destruct (H [(bytes "id", JNull); (bytes "id", JBoolean true)] eq_refl)
      as (_ & F & _).
    exact F.
Defined.

Lemma remove_first_length key obj m :
  jsonk_object_find_member obj key (length key) = Some m ->
  length obj = S (length (remove_first key (length key) obj)).
Proof.
  intros H. apply find_member_split in H as (l1 & l2 & -> & _ & _ & -> & _).
  rewrite !length_app. simpl. lia.
Qed.

Lemma find_distinct_absent l key l1 l2 m :
  distinct_keys l = true -> l = l1 ++ m :: l2 -> fst m = key ->
  jsonk_object_find_member (l1 ++ l2) key (length key) = None.
Proof.
  intros Hd -> Hm. revert Hd.
  induction l1 as [ | x l1 IH ]; cbn [app]; intros Hd; simpl in Hd.
  - apply andb_true_iff in Hd as [Hk _]. apply negb_true_iff in Hk.
    apply find_member_absent. now rewrite <- Hm.
  - apply andb_true_iff in Hd as [Hk Hd]. apply negb_true_iff in Hk.
    rewrite find_member_cons.
    destruct (list_eqb (fst x) key) eqn:E; [ | auto ].
    apply list_eqb_eq in E. exfalso.
    assert (K : key_in (fst x) (l1 ++ m :: l2) = true).
    { clear - E Hm. induction l1 as [ | y l1 IH ]; simpl.
      - replace (list_eqb (fst m) (fst x)) with true; [reflexivity|].
        symmetry. apply list_eqb_eq. congruence.
      - rewrite IH. apply orb_true_r. }
    congruence.
Qed.

(** X2.  [jsonk_object_remove_member] returns -ENOENT exactly when the
    lookup of the key finds nothing; otherwise it unlinks the member the
    lookup finds, the first with the key, and no other: the object has
    one member less, lookups of other keys are unchanged, and the key
    itself is gone when the keys of the object were distinct (a later
    duplicate would now be found). *)
Theorem remove_member_spec (obj : list jsonk_member) (key : list char) :
  (jsonk_object_remove_member obj key (length key) = ERR (- ENOENT) <->
   jsonk_object_find_member obj key (length key) = None) /\
  (forall m,
      jsonk_object_find_member obj key (length key) = Some m ->
      exists l1 l2,
        obj = l1 ++ m :: l2 /\ key_absent key l1 /\
        jsonk_object_remove_member obj key (length key) = OK (l1 ++ l2)) /\
  (forall obj',
      jsonk_object_remove_member obj key (length key) = OK obj' ->
      length obj = S (length obj') /\
      (forall other,
          other <> key ->
          jsonk_object_find_member obj' other (length other)
          = jsonk_object_find_member obj other (length other)) /\
      (distinct_keys obj = true ->
       jsonk_object_find_member obj' key (length key) = None)).
Proof.
  unfold jsonk_object_remove_member. split; [ | split ].
  - destruct (jsonk_object_find_member obj key (length key));
      split; intros H; try reflexivity; discriminate.
  - intros m H. rewrite H.
    apply find_member_split in H as (l1 & l2 & E & Ha & _ & R & _).
    exists l1, l2. rewrite R. auto.
  - intros obj' H.
    destruct (jsonk_object_find_member obj key (length key)) as [m | ] eqn:F;
      [ | discriminate ].
    injection H as <-. split; [eapply remove_first_length; eauto|]. split.
    + intros other Hne. apply find_remove_first_other. congruence.
    + intros Hd.
      apply find_member_split in F as (l1 & l2 & E & _ & Hm & R & _).
      rewrite R. eapply find_distinct_absent; eauto.
Qed.

(** * Values by path *)

Lemma memchr_dot_free (a r : list char) :
  dot_free a = true -> memchr (a ++ CH_DOT :: r) CH_DOT = Some (length a).
Proof.
  induction a as [ | c a IH ]; simpl; intros H; [reflexivity|].
  apply andb_true_iff in H as [Hc Ha]. apply negb_true_iff in Hc.
  rewrite Hc, (IH Ha). reflexivity.
Qed.

Lemma memchr_none (a : list char) :
  dot_free a = true -> memchr a CH_DOT = None.
Proof.
  induction a as [ | c a IH ]; simpl; intros H; [reflexivity|].
  apply andb_true_iff in H as [Hc Ha]. apply negb_true_iff in Hc.
  rewrite Hc, (IH Ha). reflexivity.
Qed.

Lemma memchr_some (path : list char) (dot : nat) :
  memchr path CH_DOT = Some dot ->
  exists a r, path = a ++ CH_DOT :: r /\ length a = dot /\ dot_free a = true /\
              firstn dot path = a /\ skipn (S dot) path = r.
Proof.
  revert dot. induction path as [ | c path IH ]; simpl; intros dot H; [discriminate|].
  destruct (c =? CH_DOT) eqn:E.
  - injection H as <-. apply Z.eqb_eq in E. subst c.
    exists [], path. auto.
  - destruct (memchr path CH_DOT) as [d | ]; [ | discriminate ].
    injection H as <-. destruct (IH d eq_refl) as (a & r & -> & <- & Ha & F & S').
    exists (c :: a), r. simpl. rewrite E, Ha. simpl in *.
    rewrite F, S'. auto.
Qed.

Lemma memchr_none_inv (path : list char) :
  memchr path CH_DOT = None -> dot_free path = true.
Proof.
  induction path as [ | c path IH ]; simpl; intros H; [reflexivity|].
  destruct (c =? CH_DOT); [discriminate|].
  destruct (memchr path CH_DOT); [discriminate|]. simpl. auto.
Qed.

Lemma path_component_inner (a r : list char) :
  dot_free a = true ->
  jsonk_parse_path_component (a ++ CH_DOT :: r) = (length a, Some r).
Proof.
  intros H. unfold jsonk_parse_path_component. rewrite (memchr_dot_free a r H).
  replace (skipn (S (length a)) (a ++ CH_DOT :: r)) with r; [reflexivity|].
  rewrite skipn_app, skipn_all2 by lia.
  replace (S (length a) - length a)%nat with 1%nat by lia. reflexivity.
Qed.

Lemma path_component_last (a : list char) :
  dot_free a = true -> jsonk_parse_path_component a = (length a, None).
Proof.
  intros H. unfold jsonk_parse_path_component. now rewrite (memchr_none a H).
Qed.

(** A path is a last component, or a component, a dot and the rest. *)
Lemma path_cases (path : list char) :
  (dot_free path = true) \/
  (exists a r, path = a ++ CH_DOT :: r /\ dot_free a = true).
Proof.
  destruct (memchr path CH_DOT) as [dot | ] eqn:E.
  - right. apply memchr_some in E as (a & r & -> & _ & Ha & _). eauto.
  - left. now apply memchr_none_inv.
Qed.

Lemma firstn_prefix {A} (a r : list A) : firstn (length a) (a ++ r) = a.
Proof. rewrite firstn_app, firstn_all, Nat.sub_diag. simpl. apply app_nil_r. Qed.

Lemma find_member_component ms (a r : list char) :
  jsonk_object_find_member ms (a ++ r) (length a)
  = jsonk_object_find_member ms a (length a).
Proof.
  rewrite find_member_prefix by (rewrite length_app; lia).
  now rewrite firstn_prefix.
Qed.

Lemma replace_first_component ms (a r : list char) c :
  replace_first (a ++ r) (length a) c ms = replace_first a (length a) c ms.
Proof.
  rewrite replace_first_prefix by (rewrite length_app; lia).
  now rewrite firstn_prefix.
Qed.

Lemma length_zero_eqb {A} (l : list A) :
  (length l =? 0)%nat = is_nil l.
Proof. destruct l; reflexivity. Qed.

(** The bound of the lookup loop does not matter once it exceeds the
    length of the path. *)
Lemma get_value_loop_bound (n : nat) :
  forall m curr path,
    (length path < n)%nat -> (length path < m)%nat ->
    get_value_loop n curr path = get_value_loop m curr path.
Proof.
  induction n as [ | n IH ]; intros m curr path Hn Hm; [lia|].
  destruct m as [ | m ]; [lia|].
  cbn [get_value_loop]. rewrite length_zero_eqb.
  destruct path as [ | c path' ] eqn:Ep; [reflexivity|]. cbn [is_nil].
  rewrite <- Ep in *.
  destruct (path_cases path) as [Hd | (a & r & E & Hd)].
  - rewrite (path_component_last _ Hd). reflexivity.
  - rewrite E, (path_component_inner _ _ Hd).
    destruct curr; try reflexivity.
    destruct (jsonk_object_find_member _ _ _); [ | reflexivity ].
    apply IH; rewrite E, length_app in *; simpl in *; lia.
Qed.

Lemma get_value_loop_total (n : nat) :
  forall curr path, (length path < n)%nat -> get_value_loop n curr path <> NoFuel.
Proof.
  induction n as [ | n IH ]; intros curr path Hn; [lia|].
  cbn [get_value_loop]. rewrite length_zero_eqb.
  destruct path as [ | c path' ] eqn:Ep; [discriminate|]. cbn [is_nil].
  rewrite <- Ep in *.
  destruct (path_cases path) as [Hd | (a & r & E & Hd)].
  - rewrite (path_component_last _ Hd).
    destruct curr; try discriminate.
    destruct (jsonk_object_find_member _ _ _); discriminate.
  - rewrite E, (path_component_inner _ _ Hd).
    destruct curr; try discriminate.
    destruct (jsonk_object_find_member _ _ _); [ | discriminate ].
    apply IH. rewrite E, length_app in *; simpl in *; lia.
Qed.

(** X3.  [jsonk_get_value_by_path] walks the path one component at a
    time: a path of one component is a member lookup; a component
    followed by a dot and a further path is the lookup of the component
    followed by the lookup of the further path in what was found, which
    must be an Object; a dot at the very end is ignored.  The empty path
    and a root that is not an Object give NULL, and the call always
    returns. *)
Theorem get_value_by_path_descends
        (members : list jsonk_member) (a r : list char) :
  dot_free a = true ->
  (a <> [] ->
   jsonk_get_value_by_path (JObject members) a
   = of_option (option_map snd (jsonk_object_find_member members a (length a)))) /\
  jsonk_get_value_by_path (JObject members) (a ++ [CH_DOT])
  = of_option (option_map snd (jsonk_object_find_member members a (length a))) /\
  (r <> [] ->
   jsonk_get_value_by_path (JObject members) (a ++ CH_DOT :: r)
   = match jsonk_object_find_member members a (length a) with
     | Some member => jsonk_get_value_by_path (snd member) r
     | None => Null
     end) /\
  (forall root, jsonk_get_value_by_path root [] = Null) /\
  (forall root path,
      is_object root = false -> jsonk_get_value_by_path root path = Null) /\
  (forall root path, jsonk_get_value_by_path root path <> NoFuel).
Proof.
  intros Hd. split; [ | split; [ | split; [ | split; [ | split ] ] ] ].
  - intros Ha. unfold jsonk_get_value_by_path. rewrite length_zero_eqb.
    destruct a as [ | c a' ] eqn:Ea; [congruence|]. rewrite <- Ea in *.
    cbn [is_nil is_object negb get_value_loop]. rewrite length_zero_eqb, Ea.
    cbn [is_nil]. rewrite <- Ea. rewrite (path_component_last _ Hd).
    destruct (jsonk_object_find_member _ _ _); reflexivity.
  - unfold jsonk_get_value_by_path. rewrite !length_zero_eqb.
    destruct (a ++ [CH_DOT]) as [ | c p ] eqn:Ep; [now destruct a|].
    rewrite <- Ep. cbn [is_nil is_object negb get_value_loop].
    rewrite length_zero_eqb, Ep. cbn [is_nil]. rewrite <- Ep.
    rewrite (path_component_inner _ _ Hd), find_member_component.
    destruct (jsonk_object_find_member _ _ _); [ | reflexivity ].
    rewrite Ep. reflexivity.
  - intros Hr. unfold jsonk_get_value_by_path at 1. rewrite !length_zero_eqb.
    destruct (a ++ CH_DOT :: r) as [ | c p ] eqn:Ep; [now destruct a|].
    rewrite <- Ep. cbn [is_nil is_object negb get_value_loop].
    rewrite length_zero_eqb, Ep. cbn [is_nil]. rewrite <- Ep.
    rewrite (path_component_inner _ _ Hd), find_member_component.
    destruct (jsonk_object_find_member _ _ _) as [member | ]; [ | reflexivity ].
    assert (Enil : is_nil r = false) by (destruct r; [now elim Hr | reflexivity]).
    unfold jsonk_get_value_by_path. rewrite length_zero_eqb, Enil.
    destruct (is_object (snd member)) eqn:Eo; cbn [negb].
    + apply get_value_loop_bound; rewrite ?length_app; simpl; lia.
    + rewrite length_app. cbn [length]. rewrite Nat.add_succ_r.
      cbn [get_value_loop]. rewrite length_zero_eqb, Enil.
      destruct (jsonk_parse_path_component r).
      destruct (snd member); try reflexivity. discriminate.
  - reflexivity.
  - intros root path Ho. unfold jsonk_get_value_by_path. rewrite Ho.
    destruct (length path =? 0)%nat; reflexivity.
  - intros root path. unfold jsonk_get_value_by_path.
    destruct (length path =? 0)%nat; [discriminate|].
    destruct (negb (is_object root)); [discriminate|].
    apply get_value_loop_total. lia.
Qed.

Lemma get_value_by_path_descends_user_name :
  jsonk_get_value_by_path
    (JObject [(bytes "user", JObject [(bytes "name", JString (bytes "M"))])])
    (bytes "user" ++ CH_DOT :: bytes "name")
  = match jsonk_object_find_member
            [(bytes "user", JObject [(bytes "name", JString (bytes "M"))])]
            (bytes "user") (length (bytes "user")) with
    | Some member => jsonk_get_value_by_path (snd member) (bytes "name")
    | None => Null
    end.
Proof.
  apply (proj1 (proj2 (proj2 (get_value_by_path_descends
           [(bytes "user", JObject [(bytes "name", JString (bytes "M"))])]
           (bytes "user") (bytes "name") eq_refl)))).
  discriminate.
Defined.

Lemma replace_last_app obj k old v :
  replace_last v (obj ++ [(k, old)]) = obj ++ [(k, v)].
Proof.
  unfold replace_last. destruct (obj ++ [(k, old)]) eqn:E.
  - now destruct obj.
  - rewrite <- E. rewrite removelast_last, last_last. reflexivity.
Qed.

Lemma add_member_tracked_none obj key key_len value :
  jsonk_object_add_member_tracked obj key key_len value None =
  if Z.of_nat (length obj) >=? JSONK_MAX_OBJECT_MEMBERS then ERR (- ENOSPC)
  else if Z.of_nat key_len >? JSONK_MAX_KEY_LENGTH then ERR (- EINVAL)
  else OK (obj ++ [(firstn key_len key, value)], None).
Proof.
  unfold jsonk_object_add_member_tracked.
  destruct (_ >=? _); [reflexivity|]. destruct (_ >? _); reflexivity.
Qed.

(** One iteration of the loop of [jsonk_set_value_by_path] on a last
    component. *)
Lemma set_value_loop_last n curr (a : list char) value :
  dot_free a = true -> a <> [] ->
  set_value_loop (S n) curr a value =
  match jsonk_value_deep_copy value 1 with
  | None => Some (- ENOMEM, curr)
  | Some value_copy =>
    match jsonk_object_find_member curr a (length a) with
    | Some _ => Some (0, replace_first a (length a) value_copy curr)
    | None =>
      match jsonk_object_add_member curr a (length a) value_copy with
      | ERR ret => Some (ret, curr)
      | OK curr' => Some (0, curr')
      end
    end
  end.
Proof.
  intros Hd Ha. cbn [set_value_loop]. rewrite length_zero_eqb.
  replace (is_nil a) with false by (destruct a; [now elim Ha | reflexivity]).
  rewrite (path_component_last _ Hd). reflexivity.
Qed.

(** One iteration on a component that is followed by a dot. *)
Lemma set_value_loop_inner n curr (a r : list char) value :
  dot_free a = true ->
  set_value_loop (S n) curr (a ++ CH_DOT :: r) value =
  match jsonk_object_find_member curr a (length a) with
  | None =>
    match jsonk_object_add_member curr a (length a) (JObject []) with
    | ERR ret => Some (ret, curr)
    | OK _ =>
      match set_value_loop n [] r value with
      | Some (ret, intermediate) =>
        Some (ret, curr ++ [(a, JObject intermediate)])
      | None => None
      end
    end
  | Some member =>
    match set_value_loop n (intermediate_members (snd member)) r value with
    | Some (ret, intermediate) =>
      Some (ret, replace_first a (length a) (JObject intermediate) curr)
    | None => None
    end
  end.
Proof.
  intros Hd. cbn [set_value_loop]. rewrite length_zero_eqb.
  replace (is_nil (a ++ CH_DOT :: r)) with false by (now destruct a).
  rewrite (path_component_inner _ _ Hd), find_member_component.
  destruct (jsonk_object_find_member curr a (length a)) as [member | ].
  - destruct (set_value_loop n _ r value) as [[ret inner] | ]; [ | reflexivity ].
    now rewrite replace_first_component.
  - rewrite add_member_untracked, add_member_tracked_none.
    destruct (_ >=? _); [reflexivity|]. destruct (_ >? _); [reflexivity|].
    rewrite firstn_prefix.
    destruct (set_value_loop n [] r value) as [[ret inner] | ]; [ | reflexivity ].
    now rewrite replace_last_app.
Qed.

Lemma set_value_loop_nil n curr value :
  set_value_loop (S n) curr [] value = Some (0, curr).
Proof. reflexivity. Qed.

(** The bound of the store loop is never exhausted. *)
Lemma set_value_loop_total (n : nat) :
  forall curr path value,
    (length path < n)%nat -> set_value_loop n curr path value <> None.
Proof.
  induction n as [ | n IH ]; intros curr path value Hn; [lia|].
  destruct path as [ | c path' ] eqn:Ep; [discriminate|]. rewrite <- Ep in *.
  assert (Hne : path <> []) by (rewrite Ep; discriminate).
  destruct (path_cases path) as [Hd | (a & r & E & Hd)].
  - rewrite (set_value_loop_last _ _ _ _ Hd Hne).
    destruct (jsonk_value_deep_copy value 1); [ | discriminate ].
    destruct (jsonk_object_find_member _ _ _); [discriminate|].
    destruct (jsonk_object_add_member _ _ _ _); discriminate.
  - rewrite E, (set_value_loop_inner _ _ _ _ _ Hd).
    assert (Hr : (length r < n)%nat) by (rewrite E, length_app in Hn; simpl in Hn; lia).
    destruct (jsonk_object_find_member _ _ _) as [member | ].
    + pose proof (IH (intermediate_members (snd member)) r value Hr) as T.
      destruct (set_value_loop n _ r value) as [[ret inner] | ]; [discriminate | congruence].
    + destruct (jsonk_object_add_member _ _ _ _); [ | discriminate ].
      pose proof (IH [] r value Hr) as T.
      destruct (set_value_loop n [] r value) as [[ret inner] | ]; [discriminate | congruence].
Qed.

Lemma find_member_refl_app curr (a : list char) c :
  jsonk_object_find_member curr a (length a) = None ->
  jsonk_object_find_member (curr ++ [(a, c)]) a (length a) = Some (a, c).
Proof.
  intros H. rewrite find_member_app, H.
  replace (list_eqb a a) with true; [reflexivity|].
  symmetry. now apply list_eqb_eq.
Qed.

Lemma last_after_dot (a r : list char) :
  r <> [] -> last (a ++ CH_DOT :: r) CH_NUL = last r CH_NUL.
Proof.
  intros Hr. induction a as [ | c a IH ]; simpl.
  - destruct r; [now elim Hr | reflexivity].
  - destruct (a ++ CH_DOT :: r) eqn:E; [now destruct a | exact IH].
Qed.

Lemma last_dot (a : list char) : last (a ++ [CH_DOT]) CH_NUL = CH_DOT.
Proof. apply last_last. Qed.

Lemma set_then_get_loop value (n : nat) :
  forall curr path members',
    (length path < n)%nat -> path <> [] -> last path CH_NUL <> CH_DOT ->
    set_value_loop n curr path value = Some (0, members') ->
    exists value_copy,
      jsonk_value_deep_copy value 1 = Some value_copy /\
      get_value_loop n (JObject members') path = Got value_copy.
Proof.
  induction n as [ | n IH ]; intros curr path members' Hn Hne Hlast H; [lia|].
  assert (Enil : is_nil path = false) by (destruct path; [now elim Hne | reflexivity]).
  destruct (path_cases path) as [Hd | (a & r & E & Hd)].
  - rewrite (set_value_loop_last _ _ _ _ Hd Hne) in H.
    destruct (jsonk_value_deep_copy value 1) as [value_copy | ]; [ | discriminate ].
    exists value_copy. split; [reflexivity|].
    cbn [get_value_loop]. rewrite length_zero_eqb, Enil, (path_component_last _ Hd).
    destruct (jsonk_object_find_member curr path (length path)) as [[k old] | ] eqn:F.
    + injection H as <-. rewrite (find_replace_first_same _ _ _ _ _ F). reflexivity.
    + rewrite add_member_untracked in H.
      destruct (_ >=? _); [discriminate|]. destruct (_ >? _); [discriminate|].
      injection H as <-. rewrite firstn_all.
      rewrite (find_member_refl_app _ _ _ F). reflexivity.
  - subst path.
    assert (Hr : r <> []).
    { intros ->. apply Hlast. apply last_dot. }
    rewrite (last_after_dot _ _ Hr) in Hlast.
    assert (Hlen : (length r < n)%nat) by (rewrite length_app in Hn; simpl in Hn; lia).
    rewrite (set_value_loop_inner _ _ _ _ _ Hd) in H.
    cbn [get_value_loop]. rewrite length_zero_eqb, Enil.
    rewrite (path_component_inner _ _ Hd), find_member_component.
    destruct (jsonk_object_find_member curr a (length a)) as [[k old] | ] eqn:F.
    + destruct (set_value_loop n _ r value) as [[ret inner] | ] eqn:S'; [ | discriminate ].
      injection H as -> <-.
      destruct (IH _ _ _ Hlen Hr Hlast S') as (value_copy & Hc & G).
      exists value_copy. split; [exact Hc|].
      rewrite (find_replace_first_same _ _ _ _ _ F). exact G.
    + rewrite add_member_untracked in H.
      destruct (_ >=? _); [discriminate|]. destruct (_ >? _); [discriminate|].
      destruct (set_value_loop n [] r value) as [[ret inner] | ] eqn:S'; [ | discriminate ].
      injection H as -> <-.
      destruct (IH _ _ _ Hlen Hr Hlast S') as (value_copy & Hc & G).
      exists value_copy. split; [exact Hc|].
      rewrite (find_member_refl_app _ _ _ F). exact G.
Qed.

(** X4.  When [jsonk_set_value_by_path] returns 0 for a path that does
    not end in a dot, [jsonk_get_value_by_path] on the same path then
    returns the value stored, which is the deep copy of the argument. *)
Theorem set_then_get_value_by_path
        (root root' : jsonk_value) (path : list char) (value : jsonk_value) :
  jsonk_set_value_by_path root path value = Some (0, root') ->
  last path CH_NUL <> CH_DOT ->
  exists value_copy,
    jsonk_value_deep_copy value 1 = Some value_copy /\
    jsonk_get_value_by_path root' path = Got value_copy.
Proof.
  unfold jsonk_set_value_by_path, jsonk_get_value_by_path.
  rewrite length_zero_eqb. intros H Hlast.
  destruct path as [ | c path' ] eqn:Ep; [discriminate|]. rewrite <- Ep in *.
  replace (is_nil path) with false in * by (now rewrite Ep).
  destruct root as [ | | | | | members ]; try discriminate.
  destruct (set_value_loop _ members path value) as [[ret members'] | ] eqn:S';
    [ | discriminate ].
  injection H as -> <-. cbn [is_object negb].
  apply (set_then_get_loop value _ members); auto. rewrite Ep. discriminate.
Qed.

Lemma set_then_get_value_by_path_nested :
  exists value_copy,
    jsonk_value_deep_copy (JBoolean true) 1 = Some value_copy /\
    jsonk_get_value_by_path
      (JObject [(bytes "a", JObject [(bytes "b", JBoolean true)])])
      (bytes "a.b") = Got value_copy.
Proof.
  apply (set_then_get_value_by_path
           (JObject [(bytes "a", JNull)])
           (JObject [(bytes "a", JObject [(bytes "b", JBoolean true)])])
           (bytes "a.b") (JBoolean true)).
  - vm_compute. reflexivity.
  - vm_compute. discriminate.
Defined.

Lemma set_value_by_path_object members (path : list char) value :
  path <> [] ->
  jsonk_set_value_by_path (JObject members) path value =
  match set_value_loop (S (length path)) members path value with
  | Some (ret, members') => Some (ret, JObject members')
  | None => None
  end.
Proof.
  intros H. unfold jsonk_set_value_by_path. rewrite length_zero_eqb.
  destruct path; [now elim H | reflexivity].
Qed.

(** X5.  A path that ends in a dot stores nothing: the component before
    the dot is treated as an intermediate one, so it is made an Object
    (created empty when absent, replaced by an empty Object when it holds
    anything else), the loop ends there, and the call returns 0 without
    having copied or stored the value. *)
Theorem set_value_by_path_trailing_dot
        (members : list jsonk_member) (a : list char) (value : jsonk_value) :
  dot_free a = true ->
  jsonk_set_value_by_path (JObject members) (a ++ [CH_DOT]) value =
  match jsonk_object_find_member members a (length a) with
  | Some member =>
    Some (0, JObject (replace_first a (length a)
                        (JObject (intermediate_members (snd member))) members))
  | None =>
    match jsonk_object_add_member members a (length a) (JObject []) with
    | ERR ret => Some (ret, JObject members)
    | OK members' => Some (0, JObject members')
    end
  end.
Proof.
  intros Hd. rewrite set_value_by_path_object by (now destruct a).
  rewrite (set_value_loop_inner _ _ _ _ _ Hd).
  rewrite length_app. cbn [length]. rewrite Nat.add_1_r, !set_value_loop_nil.
  destruct (jsonk_object_find_member members a (length a)); [reflexivity|].
  rewrite add_member_untracked.
  destruct (_ >=? _); [reflexivity|]. destruct (_ >? _); [reflexivity|].
  now rewrite firstn_all.
Qed.

Lemma set_value_by_path_trailing_dot_overwrites :
  jsonk_set_value_by_path (JObject [(bytes "a", JNumber 1 0 false true)])
                          (bytes "a" ++ [CH_DOT]) (JBoolean true)
  = Some (0, JObject [(bytes "a", JObject [])]).
Proof.
  exact (set_value_by_path_trailing_dot
           [(bytes "a", JNumber 1 0 false true)] (bytes "a") (JBoolean true) eq_refl).
Defined.

Lemma replace_first_length key key_len c obj :
  length (replace_first key key_len c obj) = length obj.
Proof.
  induction obj as [ | m obj IH ]; [reflexivity|].
  simpl. destruct (key_matches key key_len m); simpl; auto.
Qed.

(** X6.  [jsonk_set_value_by_path] on an Object always returns, and
    whatever it returns, at the top level it touches only the member
    named by the first component of the path: no member is removed, at
    most one is appended, and the lookup of every other key gives what it
    gave before. *)
Theorem set_value_by_path_frame
        (members : list jsonk_member) (path : list char) (value : jsonk_value) :
  exists (ret : Z) (members' : list jsonk_member),
    jsonk_set_value_by_path (JObject members) path value
      = Some (ret, JObject members') /\
    (length members <= length members' <= S (length members))%nat /\
    forall other,
      other <> firstn (fst (jsonk_parse_path_component path)) path ->
      jsonk_object_find_member members' other (length other)
      = jsonk_object_find_member members other (length other).
Proof.
  destruct path as [ | c path' ] eqn:Ep.
  { exists (- EINVAL), members. split; [reflexivity|]. split; [lia | auto]. }
  rewrite <- Ep.
  assert (Hne : path <> []) by (rewrite Ep; discriminate).
  rewrite (set_value_by_path_object _ _ _ Hne).
  assert (Happ : forall k c' other,
             other <> k ->
             jsonk_object_find_member (members ++ [(k, c')]) other (length other)
             = jsonk_object_find_member members other (length other)).
  { intros k c' other Hk. rewrite find_member_app.
    destruct (jsonk_object_find_member members other (length other)); [reflexivity|].
    destruct (list_eqb k other) eqn:E; [ | reflexivity ].
    apply list_eqb_eq in E. congruence. }
  destruct (path_cases path) as [Hd | (a & r & E & Hd)].
  - rewrite (set_value_loop_last _ _ _ _ Hd Hne), (path_component_last _ Hd).
    cbn [fst]. rewrite firstn_all.
    destruct (jsonk_value_deep_copy value 1) as [value_copy | ].
    2:{ exists (- ENOMEM), members. split; [reflexivity|]. split; [lia | auto]. }
    destruct (jsonk_object_find_member members path (length path)).
    + eexists _, _. split; [reflexivity|]. rewrite replace_first_length.
      split; [lia|]. intros other Ho. apply find_replace_first_other. congruence.
    + rewrite add_member_untracked.
      destruct (_ >=? _);
        [eexists _, _; split; [reflexivity|]; split; [lia | auto]|].
      destruct (_ >? _);
        [eexists _, _; split; [reflexivity|]; split; [lia | auto]|].
      eexists _, _. split; [reflexivity|]. rewrite length_app, firstn_all. cbn [length].
      split; [lia|]. intros other Ho. apply Happ. congruence.
  - rewrite E, (set_value_loop_inner _ _ _ _ _ Hd), (path_component_inner _ _ Hd).
    cbn [fst]. rewrite firstn_prefix.
    assert (Hr : (length r < length (a ++ CH_DOT :: r))%nat)
      by (rewrite length_app; simpl; lia).
    destruct (jsonk_object_find_member members a (length a)) as [member | ].
    + pose proof (set_value_loop_total _ (intermediate_members (snd member)) r value Hr) as T.
      destruct (set_value_loop _ _ r value) as [[ret inner] | ]; [ | congruence ].
      eexists _, _. split; [reflexivity|]. rewrite replace_first_length.
      split; [lia|]. intros other Ho. apply find_replace_first_other. congruence.
    + rewrite add_member_untracked.
      destruct (_ >=? _);
        [eexists _, _; split; [reflexivity|]; split; [lia | auto]|].
      destruct (_ >? _);
        [eexists _, _; split; [reflexivity|]; split; [lia | auto]|].
      pose proof (set_value_loop_total _ [] r value Hr) as T.
      destruct (set_value_loop _ [] r value) as [[ret inner] | ]; [ | congruence ].
      eexists _, _. split; [reflexivity|]. rewrite length_app. cbn [length].
      split; [lia|]. intros other Ho. apply Happ. congruence.
Qed.

(** X7.  A failure of [jsonk_set_value_by_path] is not undone.  When the
    value cannot be copied, the call returns -ENOMEM after the
    intermediate of the path has been made an Object: a missing one has
    been appended as an empty Object, and an existing member that was not
    an Object has lost its value. *)
Theorem set_value_by_path_failure_stays
        (members : list jsonk_member) (a b : list char) (value : jsonk_value) :
  dot_free a = true -> dot_free b = true -> b <> [] ->
  jsonk_value_deep_copy value 1 = None ->
  Z.of_nat (length members) < JSONK_MAX_OBJECT_MEMBERS ->
  Z.of_nat (length a) <= JSONK_MAX_KEY_LENGTH ->
  jsonk_set_value_by_path (JObject members) (a ++ CH_DOT :: b) value =
  Some (- ENOMEM,
        JObject
          match jsonk_object_find_member members a (length a) with
          | Some member =>
            replace_first a (length a)
                          (JObject (intermediate_members (snd member))) members
          | None => members ++ [(a, JObject [])]
          end).
Proof.
  intros Ha Hb Hne Hc Hsize Hkey.
  rewrite set_value_by_path_object by (now destruct a).
  rewrite (set_value_loop_inner _ _ _ _ _ Ha).
  rewrite length_app. cbn [length]. rewrite Nat.add_succ_r.
  destruct (jsonk_object_find_member members a (length a)).
  - rewrite set_value_loop_last by assumption. rewrite Hc. reflexivity.
  - rewrite add_member_untracked, geb_false, gtb_false by lia.
    rewrite set_value_loop_last by assumption. rewrite Hc. reflexivity.
Qed.

Lemma set_value_by_path_failure_stays_scalar_lost :
  jsonk_set_value_by_path (JObject [(bytes "a", JNumber 7 0 false true)])
                          (bytes "a" ++ CH_DOT :: bytes "b")
                          (JString [CH_BACKSLASH; ch "x"])
  = Some (- ENOMEM, JObject [(bytes "a", JObject [])]).
Proof.
  apply (set_value_by_path_failure_stays
           [(bytes "a", JNumber 7 0 false true)] (bytes "a") (bytes "b")
           (JString [CH_BACKSLASH; ch "x"])).
  - reflexivity.
  - reflexivity.
  - discriminate.
  - vm_compute. reflexivity.
  - vm_compute. reflexivity.
  - vm_compute. discriminate.
Defined.

(** * Strings: scanning, unescaping, escaping *)

Lemma unescape_regular (c : char) (s : list char) :
  (c =? CH_BACKSLASH) = false ->
  unescape (c :: s) = option_map (cons c) (unescape s).
Proof.
  intros H. destruct s as [ | e s2 ]; [reflexivity|].
  cbn [unescape]. rewrite H. reflexivity.
Qed.

Lemma unescape_simple (e : char) :
  is_simple_escape e = true ->
  exists x, forall s,
      unescape (CH_BACKSLASH :: e :: s) = option_map (cons x) (unescape s).
Proof.
  unfold is_simple_escape. intros H.
  cbn [unescape]. change (CH_BACKSLASH =? CH_BACKSLASH) with true. cbv iota.
  repeat match goal with
         | |- context [if e =? ?k then _ else _] =>
           destruct (e =? k); [eexists; intros s; reflexivity|]
         end.
  discriminate.
Qed.

Lemma unescape_unicode (h1 h2 h3 h4 : char) (s : list char) :
  unescape (CH_BACKSLASH :: CH_u :: h1 :: h2 :: h3 :: h4 :: s)
  = option_map (fun r => CH_BACKSLASH :: CH_u :: h1 :: h2 :: h3 :: h4 :: r)
               (unescape s).
Proof. reflexivity. Qed.

Lemma scan_string_unescape_aux (k : nat) :
  forall l, (length l <= k)%nat ->
  forall n q, scan_string l n = OK q ->
  exists u, unescape (firstn (q - n) l) = Some u /\ (length u <= q - n)%nat.
Proof.
  induction k as [ | k IH ]; intros l Hle n q H.
  { destruct l; [discriminate | simpl in Hle; lia]. }
  pose proof (scan_string_bounds _ _ _ H) as B.
  destruct l as [ | c l1 ]; [discriminate|]. cbn [scan_string] in H. simpl in Hle.
  destruct (c =? CH_QUOTE).
  { injection H as <-. rewrite Nat.sub_diag. exists []. split; [reflexivity | simpl; lia]. }
  destruct (c =? CH_BACKSLASH) eqn:Eb.
  - apply Z.eqb_eq in Eb. subst c.
    destruct l1 as [ | e l2 ]; [discriminate|]. simpl in Hle.
    destruct (is_simple_escape e) eqn:Es.
    + pose proof (scan_string_bounds _ _ _ H) as B2.
      destruct (IH l2 ltac:(lia) _ _ H) as (u & Hu & Hl).
      destruct (unescape_simple e Es) as [x Hx].
      replace (q - n)%nat with (S (S (q - (n + 2)))) by lia.
      cbn [firstn]. rewrite Hx, Hu. exists (x :: u). split; [reflexivity|].
      simpl. lia.
    + destruct (e =? CH_u) eqn:Eu; [ | discriminate ].
      apply Z.eqb_eq in Eu. subst e.
      destruct l2 as [ | h1 [ | h2 [ | h3 [ | h4 l3 ] ] ] ]; try discriminate.
      destruct (is_hex_digit h1 && is_hex_digit h2 && is_hex_digit h3 && is_hex_digit h4);
        [ | discriminate ].
      pose proof (scan_string_bounds _ _ _ H) as B2. simpl in Hle.
      destruct (IH l3 ltac:(lia) _ _ H) as (u & Hu & Hl).
      replace (q - n)%nat with (S (S (S (S (S (S (q - (n + 6)))))))) by lia.
      cbn [firstn]. rewrite unescape_unicode, Hu. eexists. split; [reflexivity|].
      simpl. lia.
  - destruct (c <? 32); [discriminate|].
    pose proof (scan_string_bounds _ _ _ H) as B2.
    destruct (IH l1 ltac:(lia) _ _ H) as (u & Hu & Hl).
    replace (q - n)%nat with (S (q - (n + 1))) by lia.
    cbn [firstn]. rewrite (unescape_regular _ _ Eb), Hu.
    exists (c :: u). split; [reflexivity|]. simpl. lia.
Qed.

Lemma token_bytes_set_pos p n token :
  token_bytes (set_pos p n) token = token_bytes p token.
Proof. reflexivity. Qed.



Lemma unescape_escaped_pair (s : list char) :
  unescape (CH_BACKSLASH :: CH_QUOTE :: s) = option_map (cons CH_QUOTE) (unescape s) /\
  unescape (CH_BACKSLASH :: CH_BACKSLASH :: s)
    = option_map (cons CH_BACKSLASH) (unescape s) /\
  unescape (CH_BACKSLASH :: CH_b :: s) = option_map (cons CH_BS) (unescape s) /\
  unescape (CH_BACKSLASH :: CH_f :: s) = option_map (cons CH_FF) (unescape s) /\
  unescape (CH_BACKSLASH :: CH_n :: s) = option_map (cons CH_LF) (unescape s) /\
  unescape (CH_BACKSLASH :: CH_r :: s) = option_map (cons CH_CR) (unescape s) /\
  unescape (CH_BACKSLASH :: CH_t :: s) = option_map (cons CH_TAB) (unescape s).
Proof. repeat split. Qed.

Lemma unescape_escaped (data : list char) :
  unescape (flat_map escape_char data) = Some data.
Proof.
  induction data as [ | c data IH ]; [reflexivity|].
  change (flat_map escape_char (c :: data))
    with (escape_char c ++ flat_map escape_char data).
  unfold escape_char at 1.
  destruct (unescape_escaped_pair (flat_map escape_char data))
    as (Pq & Pb & P8 & P12 & P10 & P13 & P9).
  destruct ((c =? CH_QUOTE) || (c =? CH_BACKSLASH)) eqn:E1.
  { cbn [app]. apply orb_true_iff in E1 as [E | E]; apply Z.eqb_eq in E; subst c.
    - now rewrite Pq, IH.
    - now rewrite Pb, IH. }
  apply orb_false_iff in E1 as [_ Eb].
  destruct (c =? CH_BS) eqn:E; [apply Z.eqb_eq in E; subst c; cbn [app]; now rewrite P8, IH|].
  clear E.
  destruct (c =? CH_FF) eqn:E; [apply Z.eqb_eq in E; subst c; cbn [app]; now rewrite P12, IH|].
  clear E.
  destruct (c =? CH_LF) eqn:E; [apply Z.eqb_eq in E; subst c; cbn [app]; now rewrite P10, IH|].
  clear E.
  destruct (c =? CH_CR) eqn:E; [apply Z.eqb_eq in E; subst c; cbn [app]; now rewrite P13, IH|].
  clear E.
  destruct (c =? CH_TAB) eqn:E; [apply Z.eqb_eq in E; subst c; cbn [app]; now rewrite P9, IH|].
  cbn [app]. rewrite (unescape_regular _ _ Eb), IH. reflexivity.
Qed.

(** X9.  Unescaping undoes the serializer's escaping, for every byte
    string: the text the serializer writes between the quotes of a String
    is unescaped to the bytes of the String. *)
Theorem unescape_escape (data : list char) :
  unescape (flat_map escape_char data) = Some data.
Proof. exact (unescape_escaped data). Qed.

(** * Deep copy *)

Lemma copy_members_inv (f : jsonk_value -> option jsonk_value)
      (P : jsonk_member -> Prop) (ms : list jsonk_member) :
  (forall k v c, In (k, v) ms -> f v = Some c -> P (k, c)) ->
  forall copy,
    Forall P copy ->
    Forall P (copy_members f ms copy) /\
    (length (copy_members f ms copy) <= length copy + length ms)%nat.
Proof.
  induction ms as [ | [k v] ms IH ]; intros HP copy Hc; [simpl; split; [auto | lia]|].
  cbn [copy_members].
  assert (HP' : forall k v c, In (k, v) ms -> f v = Some c -> P (k, c))
    by (intros; eapply HP; [right|]; eauto).
  destruct (f v) as [c | ] eqn:E.
  - rewrite add_member_tracked_none.
    destruct (_ >=? _); [ | destruct (_ >? _) ].
    + destruct (IH HP' copy Hc) as [F L]. split; [exact F | simpl; lia].
    + destruct (IH HP' copy Hc) as [F L]. split; [exact F | simpl; lia].
    + rewrite firstn_all.
      destruct (IH HP' (copy ++ [(k, c)])) as [F L].
      { apply Forall_app. split; [exact Hc|]. constructor; [ | constructor ].
        apply (HP k v c); [now left | exact E]. }
      split; [exact F|]. rewrite length_app in L. simpl in *. lia.
  - destruct (IH HP' copy Hc) as [F L]. split; [exact F | simpl; lia].
Qed.

Lemma copy_elements_inv (f : jsonk_value -> option jsonk_value)
      (P : jsonk_value -> Prop) (es : list jsonk_value) :
  (forall v c, In v es -> f v = Some c -> P c) ->
  forall copy,
    Forall P copy ->
    Forall P (copy_elements f es copy) /\
    (length (copy_elements f es copy) <= length copy + length es)%nat.
Proof.
  induction es as [ | v es IH ]; intros HP copy Hc; [simpl; split; [auto | lia]|].
  cbn [copy_elements].
  assert (HP' : forall v c, In v es -> f v = Some c -> P c)
    by (intros; eapply HP; [right|]; eauto).
  destruct (f v) as [c | ] eqn:E.
  - unfold jsonk_array_add_element_tracked. cbn [has_parser].
    destruct (_ >=? _).
    + destruct (IH HP' copy Hc) as [F L]. split; [exact F | simpl; lia].
    + destruct (IH HP' (copy ++ [c])) as [F L].
      { apply Forall_app. split; [exact Hc|]. constructor; [ | constructor ].
        apply (HP v c); [now left | exact E]. }
      split; [exact F|]. rewrite length_app in L. simpl in *. lia.
  - destruct (IH HP' copy Hc) as [F L]. split; [exact F | simpl; lia].
Qed.

Lemma deep_copy_nesting (source : jsonk_value) :
  forall d copy,
    jsonk_value_deep_copy source d = Some copy ->
    d <= JSONK_MAX_DEPTH /\ type_of copy = type_of source /\
    d + nesting copy <= JSONK_MAX_DEPTH + 1.
Proof.
  induction source as [ | b | i f n g | data | es IH | ms IH ] using jsonk_value_rect';
    intros d copy H; cbn [jsonk_value_deep_copy] in H;
    destruct (d >? JSONK_MAX_DEPTH) eqn:Ed; try discriminate;
    rewrite Z.gtb_ltb in Ed; apply Z.ltb_ge in Ed.
  - injection H as <-. repeat split; simpl; unfold JSONK_MAX_DEPTH in *; lia.
  - injection H as <-. repeat split; simpl; unfold JSONK_MAX_DEPTH in *; lia.
  - injection H as <-. repeat split; simpl; unfold JSONK_MAX_DEPTH in *; lia.
  - destruct (jsonk_value_create_string_tracked data None) as [[v o] | ] eqn:E;
      [ | discriminate ].
    injection H as <-. unfold jsonk_value_create_string_tracked in E.
    split_match E; injection E as <- _; repeat split; simpl; unfold JSONK_MAX_DEPTH in *; lia.
  - injection H as <-. split; [exact Ed|]. split; [reflexivity|].
    destruct (copy_elements_inv (fun v => jsonk_value_deep_copy v (d + 1))
                (fun c => d + 1 + nesting c <= JSONK_MAX_DEPTH + 1) es) with (copy := @nil jsonk_value)
      as [F _]; [ | constructor | ].
    + intros v c Hin Hc. rewrite Forall_forall in IH. now apply (IH v Hin (d + 1) c).
    + set (l := copy_elements _ es []) in *.
      change (nesting (JArray l))
        with (1 + fold_right (fun e acc => Z.max (nesting e) acc) 0 l).
      assert (B : fold_right (fun e acc => Z.max (nesting e) acc) 0 l
                  <= JSONK_MAX_DEPTH - d).
      { apply fold_max_bound; [lia|].
        rewrite Forall_forall in *. intros x Hx. specialize (F x Hx). lia. }
      lia.
  - injection H as <-. split; [exact Ed|]. split; [reflexivity|].
    destruct (copy_members_inv (fun v => jsonk_value_deep_copy v (d + 1))
                (fun m => d + 1 + nesting (snd m) <= JSONK_MAX_DEPTH + 1) ms) with (copy := @nil jsonk_member)
      as [F _]; [ | constructor | ].
    + intros k v c Hin Hc. rewrite Forall_forall in IH. now apply (IH (k, v) Hin (d + 1) c).
    + set (l := copy_members _ ms []) in *.
      change (nesting (JObject l))
        with (1 + fold_right (fun (m : jsonk_member) acc => Z.max (nesting (snd m)) acc) 0 l).
      assert (B : fold_right (fun (m : jsonk_member) acc => Z.max (nesting (snd m)) acc) 0 l
                  <= JSONK_MAX_DEPTH - d).
      { apply (fold_max_bound (fun m : jsonk_member => nesting (snd m))); [lia|].
        rewrite Forall_forall in *. intros x Hx. specialize (F x Hx). lia. }
      lia.
Qed.

(** X10.  [jsonk_value_deep_copy] fails only beyond the depth limit or on
    a String (too long, or with a backslash that the unescaping it
    applies again rejects); an Object or an Array at a permitted depth is
    always copied, and the children whose copy fails are left out without
    notice.  A copy has the type of its source, every member or element
    of it is the copy of one of the source, and a copy made at depth [d]
    nests at most [33 - d] levels. *)
Theorem deep_copy_shape :
  (forall source d copy,
      jsonk_value_deep_copy source d = Some copy ->
      d <= JSONK_MAX_DEPTH /\ type_of copy = type_of source /\
      d + nesting copy <= JSONK_MAX_DEPTH + 1) /\
  (forall source d,
      jsonk_value_deep_copy source d = None ->
      JSONK_MAX_DEPTH < d \/ type_of source = JSONK_VALUE_STRING) /\
  (forall (members members' : list jsonk_member) d,
      jsonk_value_deep_copy (JObject members) d = Some (JObject members') ->
      (length members' <= length members)%nat /\
      Forall (fun m' => exists v, In (fst m', v) members /\
                                  jsonk_value_deep_copy v (d + 1) = Some (snd m'))
             members') /\
  (forall elements elements' d,
      jsonk_value_deep_copy (JArray elements) d = Some (JArray elements') ->
      (length elements' <= length elements)%nat /\
      Forall (fun c => exists v, In v elements /\
                                 jsonk_value_deep_copy v (d + 1) = Some c)
             elements').
Proof.
  split; [exact deep_copy_nesting | split; [ | split ] ].
  - intros source d H. destruct (d >? JSONK_MAX_DEPTH) eqn:Ed.
    + left. rewrite Z.gtb_ltb in Ed. now apply Z.ltb_lt in Ed.
    + right. destruct source; cbn [jsonk_value_deep_copy] in H; rewrite Ed in H;
        try discriminate. reflexivity.
  - intros members members' d H. cbn [jsonk_value_deep_copy] in H.
    destruct (d >? JSONK_MAX_DEPTH); [discriminate|]. injection H as <-.
    destruct (copy_members_inv (fun v => jsonk_value_deep_copy v (d + 1))
                (fun m' => exists v, In (fst m', v) members /\
                                     jsonk_value_deep_copy v (d + 1) = Some (snd m'))
                members) with (copy := @nil jsonk_member) as [F L];
      [ | constructor | split; [exact L | exact F] ].
    intros k v c Hin Hc. exists v. auto.
  - intros elements elements' d H. cbn [jsonk_value_deep_copy] in H.
    destruct (d >? JSONK_MAX_DEPTH); [discriminate|]. injection H as <-.
    destruct (copy_elements_inv (fun v => jsonk_value_deep_copy v (d + 1))
                (fun c => exists v, In v elements /\
                                    jsonk_value_deep_copy v (d + 1) = Some c)
                elements) with (copy := @nil jsonk_value) as [F L];
      [ | constructor | split; [exact L | exact F] ].
    intros v c Hin Hc. exists v. auto.
Qed.

(** X11.  The deep copy of a String runs the unescaping pass again on
    bytes that are already unescaped: its result is the unescaped form of
    the source, so the copy of the String that holds the escaped text of
    [data] is the String [data], and a source with a backslash that does
    not start an escape cannot be copied at all. *)
Theorem deep_copy_unescapes_again (data : list char) (d : Z) :
  d <= JSONK_MAX_DEPTH ->
  (Z.of_nat (length data) <= JSONK_MAX_STRING_LENGTH ->
   jsonk_value_deep_copy (JString data) d = option_map JString (unescape data)) /\
  (Z.of_nat (length (flat_map escape_char data)) <= JSONK_MAX_STRING_LENGTH ->
   jsonk_value_deep_copy (JString (flat_map escape_char data)) d
   = Some (JString data)).
Proof.
  intros Hd.
  assert (G : forall s, Z.of_nat (length s) <= JSONK_MAX_STRING_LENGTH ->
                        jsonk_value_deep_copy (JString s) d
                        = option_map JString (unescape s)).
  { intros s Hs. cbn [jsonk_value_deep_copy]. rewrite gtb_false by lia.
    unfold jsonk_value_create_string_tracked. rewrite gtb_false by lia.
    cbn [has_parser jsonk_value_create_tracked jsonk_tracked_alloc].
    destruct (unescape s); [ | reflexivity ]. destruct (_ <? _); reflexivity. }
  split; [apply G|]. intros H. rewrite (G _ H), unescape_escaped. reflexivity.
Qed.

Lemma deep_copy_unescapes_again_path :
  jsonk_value_deep_copy (JString (bytes "C:\\tmp")) 1 = Some (JString (bytes "C:\tmp")).
Proof.
  apply (proj2 (deep_copy_unescapes_again (bytes "C:\tmp") 1 ltac:(unfold JSONK_MAX_DEPTH; lia))).
  vm_compute. discriminate.
Defined.

(** * The merge engine: what is kept, stored and removed *)

(** X12.  A merge touches, at the top level of the target, only the keys
    that the patch names: the lookup of any other key gives after the
    merge what it gave before. *)
Theorem merge_keeps_other_members
        (target patch merged : list jsonk_member) (changed : bool) (key : list char) :
  key_in key patch = false ->
  jsonk_merge_objects target patch = OK (merged, changed) ->
  jsonk_object_find_member merged key (length key)
  = jsonk_object_find_member target key (length key).
Proof.
  intros Hk H. unfold jsonk_merge_objects in H.
  exact (merge_loop_other _ _ _ _ _ _ _ Hk H).
Qed.

Lemma merge_keeps_other_members_age :
  jsonk_object_find_member
    [(bytes "n", JString (bytes "M")); (bytes "a", JNumber 31 0 false true)]
    (bytes "n") (length (bytes "n"))
  = jsonk_object_find_member
      [(bytes "n", JString (bytes "M")); (bytes "a", JNumber 30 0 false true)]
      (bytes "n") (length (bytes "n")).
Proof.
  apply (merge_keeps_other_members
           [(bytes "n", JString (bytes "M")); (bytes "a", JNumber 30 0 false true)]
           [(bytes "a", JNumber 31 0 false true)]
           [(bytes "n", JString (bytes "M")); (bytes "a", JNumber 31 0 false true)]
           true (bytes "n")).
  - reflexivity.
  - vm_compute. reflexivity.
Defined.

Lemma settled_members_in sv pm tm key v :
  settled_members sv pm tm -> In (key, v) pm ->
  exists c, jsonk_object_find_member tm key (length key) = Some (key, c) /\ sv v c.
Proof.
  induction pm as [ | [k w] pm IH ]; intros H Hin; [destruct Hin|].
  destruct H as [Hhead Hrest]. destruct Hin as [E | Hin].
  - injection E as -> ->. exact Hhead.
  - now apply IH.
Qed.

(** X13.  After the merge of a stable patch (distinct keys, values that
    are not empty and that the deep copy reproduces, at every level),
    every member of the patch is found in the result: with the value of
    the patch when that is not an Object, with an Object that in turn
    holds every member of the patch's Object otherwise. *)
Theorem merge_stores_patch_members
        (target patch merged : list jsonk_member) (changed : bool) :
  stable_patch patch = true ->
  jsonk_merge_objects target patch = OK (merged, changed) ->
  forall key v,
    In (key, v) patch ->
    exists c,
      jsonk_object_find_member merged key (length key) = Some (key, c) /\
      settled_value v c.
Proof.
  intros Hs H key v Hin. unfold jsonk_merge_objects in H.
  apply (settled_members_in settled_value patch); [ | exact Hin ].
  eapply merge_loop_settles; eauto.
  apply Forall_forall. intros m _. apply merge_settles.
Qed.

Lemma merge_stores_patch_members_nested :
  exists c,
    jsonk_object_find_member
      [(bytes "u", JObject [(bytes "n", JString (bytes "M"));
                            (bytes "c", JString (bytes "CPH"))])]
      (bytes "u") (length (bytes "u")) = Some (bytes "u", c) /\
    settled_value (JObject [(bytes "c", JString (bytes "CPH"))]) c.
Proof.
  apply (merge_stores_patch_members
           [(bytes "u", JObject [(bytes "n", JString (bytes "M"))])]
           [(bytes "u", JObject [(bytes "c", JString (bytes "CPH"))])]
           [(bytes "u", JObject [(bytes "n", JString (bytes "M"));
                                 (bytes "c", JString (bytes "CPH"))])]
           true).
  - vm_compute. reflexivity.
  - vm_compute. reflexivity.
  - now left.
Defined.

Lemma key_in_replace_first k key key_len c l :
  key_in k (replace_first key key_len c l) = key_in k l.
Proof.
  induction l as [ | m l IH ]; [reflexivity|].
  simpl. destruct (key_matches key key_len m); simpl; [reflexivity | now rewrite IH].
Qed.

Lemma distinct_replace_first key key_len c l :
  distinct_keys (replace_first key key_len c l) = distinct_keys l.
Proof.
  induction l as [ | m l IH ]; [reflexivity|].
  simpl. destruct (key_matches key key_len m); simpl; [reflexivity|].
  now rewrite key_in_replace_first, IH.
Qed.

Lemma key_in_remove_first k key key_len l :
  key_in k (remove_first key key_len l) = true -> key_in k l = true.
Proof.
  induction l as [ | m l IH ]; [discriminate|].
  simpl. destruct (key_matches key key_len m); simpl.
  - intros ->. apply orb_true_r.
  - destruct (list_eqb (fst m) k); [reflexivity | exact IH].
Qed.

Lemma distinct_remove_first key key_len l :
  distinct_keys l = true -> distinct_keys (remove_first key key_len l) = true.
Proof.
  induction l as [ | m l IH ]; [reflexivity|].
  simpl. intros H. apply andb_true_iff in H as [Hk Hd].
  destruct (key_matches key key_len m); [exact Hd|].
  simpl. rewrite (IH Hd), andb_true_r.
  apply negb_true_iff in Hk. apply negb_true_iff.
  destruct (key_in (fst m) (remove_first key key_len l)) eqn:E; [ | reflexivity ].
  apply key_in_remove_first in E. congruence.
Qed.

Lemma find_none_key_in l key :
  jsonk_object_find_member l key (length key) = None -> key_in key l = false.
Proof.
  induction l as [ | m l IH ]; [reflexivity|].
  rewrite find_member_cons. simpl.
  destruct (list_eqb (fst m) key); [discriminate | exact IH].
Qed.

Lemma key_in_app k l m :
  key_in k (l ++ [m]) = key_in k l || list_eqb (fst m) k.
Proof.
  induction l as [ | x l IH ]; simpl; [apply orb_false_r|].
  rewrite IH. apply orb_assoc.
Qed.

Lemma list_eqb_sym (a b : list char) : list_eqb a b = list_eqb b a.
Proof.
  destruct (list_eqb a b) eqn:E1, (list_eqb b a) eqn:E2; try reflexivity.
  - apply list_eqb_eq in E1. subst. rewrite list_eqb_refl in E2. discriminate.
  - apply list_eqb_eq in E2. subst. rewrite list_eqb_refl in E1. discriminate.
Qed.

Lemma distinct_app l k c :
  distinct_keys l = true -> key_in k l = false ->
  distinct_keys (l ++ [(k, c)]) = true.
Proof.
  induction l as [ | m l IH ]; [reflexivity|].
  simpl. intros H Hk. apply andb_true_iff in H as [Hm Hd].
  apply orb_false_iff in Hk as [Hmk Hk].
  rewrite (IH Hd Hk), andb_true_r, key_in_app. simpl.
  apply negb_true_iff in Hm. rewrite Hm. simpl.
  rewrite list_eqb_sym, Hmk. reflexivity.
Qed.

Lemma merge_member_distinct rec target m changed target' changed' :
  distinct_keys target = true ->
  merge_member rec target m changed = OK (target', changed') ->
  distinct_keys target' = true.
Proof.
  intros Hd. destruct m as [k v]. unfold merge_member.
  destruct (is_empty v).
  - destruct (jsonk_object_find_member target k (length k)) eqn:Ef.
    + unfold jsonk_object_remove_member. rewrite Ef. intros [= <- _].
      now apply distinct_remove_first.
    + intros [= <- _]. exact Hd.
  - destruct (jsonk_object_find_member target k (length k)) as [[k0 tv] | ] eqn:Ef.
    + destruct v, tv;
        try (destruct (jsonk_value_deep_copy _ 1); [ | discriminate ];
             intros [= <- _]; now rewrite distinct_replace_first).
      destruct (rec _ _) as [[tm sub] | ]; [ | discriminate ].
      intros [= <- _]. now rewrite distinct_replace_first.
    + destruct (jsonk_value_deep_copy v 1) as [c | ]; [ | discriminate ].
      rewrite add_member_untracked.
      destruct (_ >=? _); [discriminate|]. destruct (_ >? _); [discriminate|].
      intros [= <- _]. rewrite firstn_all.
      apply distinct_app; [exact Hd | now apply find_none_key_in].
Qed.

Lemma merge_loop_removes rec patch :
  forall target changed merged changed' key v,
    distinct_keys target = true -> distinct_keys patch = true ->
    In (key, v) patch -> is_empty v = true ->
    merge_loop rec patch target changed = OK (merged, changed') ->
    jsonk_object_find_member merged key (length key) = None.
Proof.
  induction patch as [ | [k w] patch IH ];
    intros target changed merged changed' key v Ht Hp Hin He H; [destruct Hin|].
  simpl in Hp. apply andb_true_iff in Hp as [Hk Hp]. apply negb_true_iff in Hk.
  cbn [merge_loop] in H.
  destruct (merge_member rec target (k, w) changed) as [[t1 c1] | ] eqn:E;
    [ | discriminate ].
  pose proof (merge_member_distinct _ _ _ _ _ _ Ht E) as Ht1.
  destruct Hin as [Eq | Hin].
  - injection Eq as -> ->. rewrite (merge_loop_other _ _ _ _ _ _ _ Hk H).
    unfold merge_member in E. rewrite He in E.
    destruct (jsonk_object_find_member target key (length key)) as [m | ] eqn:Ef.
    + unfold jsonk_object_remove_member in E. rewrite Ef in E.
      injection E as <- _.
      apply find_member_split in Ef as (l1 & l2 & Et & _ & Hm & R & _).
      rewrite R. apply (find_distinct_absent target key l1 l2 m); assumption.
    + injection E as <- _. exact Ef.
  - exact (IH t1 c1 merged changed' key v Ht1 Hp Hin He H).
Qed.

(** X14.  When the keys of the target and the keys of the patch are
    distinct, a patch member with an empty value (null, an empty string,
    Object or Array) leaves the target without that key. *)
Theorem merge_removes_empty_members
        (target patch merged : list jsonk_member) (changed : bool)
        (key : list char) (v : jsonk_value) :
  distinct_keys target = true -> distinct_keys patch = true ->
  In (key, v) patch -> is_empty v = true ->
  jsonk_merge_objects target patch = OK (merged, changed) ->
  jsonk_object_find_member merged key (length key) = None.
Proof.
  intros Ht Hp Hin He H. unfold jsonk_merge_objects in H.
  exact (merge_loop_removes merge_value patch target false merged changed key v
                            Ht Hp Hin He H).
Qed.

Lemma merge_removes_empty_members_city :
  jsonk_object_find_member [(bytes "a", JNumber 31 0 false true)]
                           (bytes "c") (length (bytes "c")) = None.
Proof.
  apply (merge_removes_empty_members
           [(bytes "a", JNumber 30 0 false true); (bytes "c", JString (bytes "CPH"))]
           [(bytes "a", JNumber 31 0 false true); (bytes "c", JNull)]
           [(bytes "a", JNumber 31 0 false true)] true (bytes "c") JNull).
  - reflexivity.
  - reflexivity.
  - right. now left.
  - reflexivity.
  - vm_compute. reflexivity.
Defined.

(** * The serializer and the patch entry point: where they write *)

(** X15.  [jsonk_serialize] never writes outside the buffer it is given:
    whatever it returns, the memory before the buffer and from its end on
    is unchanged; and it has two outcomes only, 0 and -EOVERFLOW, the
    latter with a written length of 0. *)
Theorem serialize_stays_in_buffer
        (value : jsonk_value) (buffer : list char) (base buffer_size : nat) :
  (base + buffer_size <= length buffer)%nat ->
  let '(ret, written, b) := jsonk_serialize value buffer base buffer_size in
  length b = length buffer /\
  firstn base b = firstn base buffer /\
  skipn (base + buffer_size) b = skipn (base + buffer_size) buffer /\
  (ret = 0 \/ ret = - EOVERFLOW /\ written = 0%nat).
Proof.
  intros Hfit. pose proof (jsonk_serialize_correct value buffer base buffer_size Hfit) as H.
  destruct (jsonk_serialize value buffer base buffer_size) as [[ret written] b].
  destruct H as ((L & F & S') & [(Hret & _) | (Hret & Hw & _)]); auto 6.
Qed.

Lemma serialize_stays_in_buffer_tail :
  let '(ret, written, b) :=
      jsonk_serialize (JArray [JNull; JBoolean false])
                      (fresh_buffer 20 (ch "#")) 4 8 in
  length b = length (fresh_buffer 20 (ch "#")) /\
  firstn 4 b = firstn 4 (fresh_buffer 20 (ch "#")) /\
  skipn (4 + 8) b = skipn (4 + 8) (fresh_buffer 20 (ch "#")) /\
  (ret = 0 \/ ret = - EOVERFLOW /\ written = 0%nat).
Proof.
  apply (serialize_stays_in_buffer (JArray [JNull; JBoolean false])
                                   (fresh_buffer 20 (ch "#")) 4 8).
  apply Nat.leb_le. vm_compute. reflexivity.
Defined.

(** X16.  What a successful [jsonk_apply_patch] has done (the patch
    having parsed): both documents parsed to Objects, the target was
    deep-copied, the patch merged into the copy, and the result buffer
    holds, up to the reported length, the compact rendering of the merged
    Object, which is shorter than the buffer; the return code is SUCCESS
    exactly when the merge reported a change, and the memory from the end
    of the buffer on is unchanged. *)
Theorem apply_patch_success
        (target patch result : list char) (result_max_len result_len : nat)
        (c : jsonk_patch_result) (out : list char) (n : nat) :
  (result_max_len <= length result)%nat ->
  jsonk_apply_patch target patch result result_max_len result_len = Got (c, out, n) ->
  c = JSONK_PATCH_SUCCESS \/ c = JSONK_PATCH_NO_CHANGE ->
  jsonk_parse patch <> Null ->
  exists target_members patch_members copy merged changed,
    jsonk_parse target = Got (JObject target_members) /\
    jsonk_parse patch = Got (JObject patch_members) /\
    jsonk_value_deep_copy (JObject target_members) 0 = Some (JObject copy) /\
    jsonk_merge_objects copy patch_members = OK (merged, changed) /\
    c = (if changed then JSONK_PATCH_SUCCESS else JSONK_PATCH_NO_CHANGE) /\
    n = length (render (JObject merged)) /\ (n < result_max_len)%nat /\
    firstn n out = render (JObject merged) /\
    skipn result_max_len out = skipn result_max_len result /\
    length out = length result.
Proof.
  intros Hsize H Hok Hpatch. unfold jsonk_apply_patch in H.
  destruct (jsonk_parse target) as [tv | | ]; try discriminate.
  2:{ injection H as <- _ _. destruct Hok; discriminate. }
  destruct tv as [ | | | | | tm ];
    try (injection H as <- _ _; destruct Hok; discriminate).
  cbn [is_object negb] in H.
  destruct (jsonk_parse patch) as [pv | | ]; try discriminate; [ | congruence ].
  destruct pv as [ | | | | | pm ];
    try (injection H as <- _ _; destruct Hok; discriminate).
  cbn [is_object negb members_of] in H.
  destruct (jsonk_value_deep_copy (JObject tm) 0) as [copy | ] eqn:Ec.
  2:{ injection H as <- _ _. destruct Hok; discriminate. }
  pose proof (deep_copy_nesting _ _ _ Ec) as (_ & Hty & _).
  destruct copy as [ | | | | | cm ]; try discriminate. cbn [members_of] in H.
  destruct (jsonk_merge_objects cm pm) as [[merged changed] | ] eqn:Em.
  2:{ injection H as <- _ _. destruct Hok; discriminate. }
  pose proof (jsonk_serialize_correct (JObject merged) result 0%nat result_max_len Hsize) as S.
  destruct (jsonk_serialize (JObject merged) result 0 result_max_len) as [[ret written] b].
  destruct S as ((L & _ & Sk) & [(-> & Hw & Hlt & Htext) | (-> & _ & _)]).
  - simpl in H. injection H as <- <- <-. rewrite skipn_O in Htext.
    exists tm, pm, cm, merged, changed. simpl in Sk. auto 12.
  - simpl in H. injection H as <- _ _. destruct Hok; discriminate.
Qed.

Lemma apply_patch_success_age :
  exists target_members patch_members copy merged changed,
    jsonk_parse (json "{'a':1}") = Got (JObject target_members) /\
    jsonk_parse (json "{'b':2}") = Got (JObject patch_members) /\
    jsonk_value_deep_copy (JObject target_members) 0 = Some (JObject copy) /\
    jsonk_merge_objects copy patch_members = OK (merged, changed) /\
    JSONK_PATCH_SUCCESS
      = (if changed then JSONK_PATCH_SUCCESS else JSONK_PATCH_NO_CHANGE) /\
    13%nat = length (render (JObject merged)) /\ (13 < 16)%nat /\
    firstn 13 (json "{'a':1,'b':2}" ++ fresh_buffer 3 CH_NUL)
      = render (JObject merged) /\
    skipn 16 (json "{'a':1,'b':2}" ++ fresh_buffer 3 CH_NUL)
      = skipn 16 (fresh_buffer 16 CH_NUL) /\
    length (json "{'a':1,'b':2}" ++ fresh_buffer 3 CH_NUL)
      = length (fresh_buffer 16 CH_NUL).
Proof.
  apply (apply_patch_success (json "{'a':1}") (json "{'b':2}")
                             (fresh_buffer 16 CH_NUL) 16 0).
  - apply Nat.leb_le. vm_compute. reflexivity.
  - vm_compute. reflexivity.
  - now left.
  - vm_compute. discriminate.
Defined.

(** * The parser: input without a value, token bounds *)

Lemma skip_whitespace_from_blank (l : list char) (n : nat) :
  forallb jsonk_is_whitespace l = true ->
  skip_whitespace_from l n = (n + length l)%nat.
Proof.
  revert n. induction l as [ | c l IH ]; intros n H; simpl in *; [lia|].
  apply andb_true_iff in H as [Hc Hl]. rewrite Hc, (IH _ Hl). lia.
Qed.

(** X17.  An input without any byte, or with nothing but spaces, tabs,
    line feeds and carriage returns, has no value: [jsonk_parse] returns
    NULL. *)
Theorem parse_blank_input (json_str : list char) :
  forallb jsonk_is_whitespace json_str = true ->
  jsonk_parse json_str = Null.
Proof.
  intros H. unfold jsonk_parse.
  destruct (length json_str =? 0)%nat; [reflexivity|].
  assert (Hfuel : exists d, Z.to_nat JSONK_MAX_DEPTH = S d)
    by (exists 31%nat; reflexivity).
  destruct Hfuel as [d ->]. cbn [jsonk_parse_value].
  change (depth (jsonk_parser_init json_str) >=? JSONK_MAX_DEPTH) with false. cbv iota.
  unfold jsonk_next_token, jsonk_skip_whitespace.
  change (rest (set_depth (jsonk_parser_init json_str)
                          (depth (jsonk_parser_init json_str) + 1)))
    with json_str.
  rewrite (skip_whitespace_from_blank _ _ H).
  unfold rest. cbn [pos buffer set_pos set_depth jsonk_parser_init].
  rewrite Nat.add_0_l, skipn_all. reflexivity.
Qed.

Lemma parse_blank_input_spaces : jsonk_parse (bytes "   ") = Null.
Proof. apply parse_blank_input. reflexivity. Defined.

(** X18.  A token that [jsonk_next_token] returns lies inside the input:
    the cursor has moved forward by at least one byte and not beyond the
    end of the buffer, the token starts at or after the old cursor and
    ends at or before the new one, its bytes are [tk_len] bytes of the
    buffer, and nothing but the cursor has changed in the parser. *)
Theorem next_token_in_buffer (p p' : jsonk_parser) (token : jsonk_token) :
  in_buffer p ->
  jsonk_next_token p = OK (token, p') ->
  p' = set_pos p (pos p') /\
  (pos p < pos p' <= buffer_len p)%nat /\
  (pos p <= tk_start token)%nat /\
  (tk_start token + tk_len token <= pos p')%nat /\
  length (token_bytes p' token) = tk_len token.
Proof.
  intros Hin H. destruct (next_token_ok _ _ _ Hin H) as ((E & B) & L & S1 & S2 & _).
  split; [exact E|]. split; [lia|]. split; [exact S1|]. split; [exact S2|].
  unfold token_bytes. rewrite E. cbn [buffer set_pos].
  rewrite length_firstn, length_skipn. unfold buffer_len in *. lia.
Qed.

Lemma next_token_in_buffer_literal :
  set_pos (jsonk_parser_init (bytes " true")) 5
    = set_pos (jsonk_parser_init (bytes " true"))
              (pos (set_pos (jsonk_parser_init (bytes " true")) 5)) /\
  (pos (jsonk_parser_init (bytes " true"))
   < pos (set_pos (jsonk_parser_init (bytes " true")) 5)
   <= buffer_len (jsonk_parser_init (bytes " true")))%nat /\
  (pos (jsonk_parser_init (bytes " true")) <= tk_start (mk_token JSONK_TOKEN_TRUE 1 4))%nat /\
  (tk_start (mk_token JSONK_TOKEN_TRUE 1 4) + tk_len (mk_token JSONK_TOKEN_TRUE 1 4)
   <= pos (set_pos (jsonk_parser_init (bytes " true")) 5))%nat /\
  length (token_bytes (set_pos (jsonk_parser_init (bytes " true")) 5)
                      (mk_token JSONK_TOKEN_TRUE 1 4))
  = tk_len (mk_token JSONK_TOKEN_TRUE 1 4).
Proof.
  apply (next_token_in_buffer (jsonk_parser_init (bytes " true"))).
  - unfold in_buffer. simpl. lia.
  - vm_compute. reflexivity.
Defined.

(** * The limits that a parsed tree respects *)

Lemma unescape_length_aux (k : nat) :
  forall s u, (length s <= k)%nat -> unescape s = Some u ->
              (length u <= length s)%nat.
Proof.
  induction k as [ | k IH ]; intros s u Hk H.
  { destruct s; [injection H as <-; simpl; lia | simpl in Hk; lia]. }
  destruct s as [ | c [ | e s2 ] ].
  - injection H as <-. simpl. lia.
  - injection H as <-. simpl. lia.
  - destruct (c =? CH_BACKSLASH) eqn:Eb.
    + apply Z.eqb_eq in Eb. subst c.
      destruct (is_simple_escape e) eqn:Es.
      * destruct (unescape_simple e Es) as [x Hx]. rewrite Hx in H.
        destruct (unescape s2) as [u2 | ] eqn:E2; [ | discriminate ].
        injection H as <-. apply IH in E2; simpl in *; lia.
      * destruct (e =? CH_u) eqn:Eu.
        -- apply Z.eqb_eq in Eu. subst e.
           destruct s2 as [ | h1 [ | h2 [ | h3 [ | h4 s3 ] ] ] ]; try discriminate.
           rewrite unescape_unicode in H.
           destruct (unescape s3) as [u3 | ] eqn:E3; [ | discriminate ].
           injection H as <-. apply IH in E3; simpl in *; lia.
        -- exfalso. unfold is_simple_escape in Es. cbn [unescape] in H.
           change (CH_BACKSLASH =? CH_BACKSLASH) with true in H. cbv iota in H.
           repeat match type of Es with
                  | (_ || _ = false) => apply orb_false_iff in Es as [Es ?]
                  end.
           repeat match type of H with
                  | context [if e =? ?k then _ else _] =>
                    replace (e =? k) with false in H by (symmetry; assumption)
                  end.
           discriminate.
    + rewrite (unescape_regular _ _ Eb) in H.
      destruct (unescape (e :: s2)) as [u1 | ] eqn:E1; [ | discriminate ].
      injection H as <-. apply IH in E1; simpl in *; lia.
Qed.

Lemma unescape_length s u :
  unescape s = Some u -> (length u <= length s)%nat.
Proof. apply (unescape_length_aux (length s)). lia. Qed.

Ltac limits_lia :=
  unfold JSONK_MAX_TOTAL_MEMORY, JSONK_MAX_ARRAY_SIZE, JSONK_MAX_OBJECT_MEMBERS,
         JSONK_MAX_STRING_LENGTH, JSONK_MAX_KEY_LENGTH, JSONK_MAX_DEPTH,
         sizeof_jsonk_value, sizeof_jsonk_member, sizeof_jsonk_array_element in *;
  lia.

Lemma string_tracked_accounted str p value parser :
  jsonk_value_create_string_tracked str (Some p) = Some (value, parser) ->
  within_limits value = true /\ accounted p (with_parser p parser) value.
Proof.
  unfold jsonk_value_create_string_tracked, accounted. intros H.
  destruct (_ >? _) eqn:E0; [discriminate|].
  rewrite Z.gtb_ltb in E0. apply Z.ltb_ge in E0.
  cbn [has_parser] in H.
  destruct (string_count p >=? JSONK_MAX_ARRAY_SIZE) eqn:Ec; [discriminate|].
  rewrite Z.geb_leb in Ec. apply Z.leb_gt in Ec.
  unfold jsonk_value_create_tracked in H.
  destruct (_ >? _) eqn:E1; [discriminate|].
  rewrite Z.gtb_ltb in E1. apply Z.ltb_ge in E1.
  unfold jsonk_tracked_alloc in H at 1.
  cbn [count_container add_memory total_memory_used] in H.
  destruct (_ >? _) eqn:E2; [discriminate|].
  rewrite Z.gtb_ltb in E2. apply Z.ltb_ge in E2.
  destruct (unescape str) as [u | ] eqn:Eu; [ | discriminate ].
  pose proof (unescape_length _ _ Eu) as Hl.
  injection H as <- <-. split; [simpl; apply Z.leb_le; lia|].
  destruct (_ <? _).
  - unfold jsonk_tracked_alloc. cbn [add_memory total_memory_used].
    destruct (_ >? _) eqn:E3.
    + cbn. repeat split; limits_lia.
    + rewrite Z.gtb_ltb in E3. apply Z.ltb_ge in E3. cbn. repeat split; limits_lia.
  - cbn. repeat split; limits_lia.
Qed.

Lemma add_member_limits ms key key_len v p ms1 parser :
  jsonk_object_add_member_tracked ms key key_len v (Some p) = OK (ms1, parser) ->
  Z.of_nat (length ms1) <= JSONK_MAX_OBJECT_MEMBERS /\
  total_memory_used (with_parser p parser) <= JSONK_MAX_TOTAL_MEMORY /\
  total_memory_used p <= total_memory_used (with_parser p parser) /\
  string_count (with_parser p parser) = string_count p.
Proof.
  unfold jsonk_object_add_member_tracked. intros H.
  destruct (_ >=? _) eqn:E0; [discriminate|].
  rewrite Z.geb_leb in E0. apply Z.leb_gt in E0.
  destruct (_ >? _); [discriminate|]. cbn [has_parser] in H.
  destruct (_ >? _) eqn:E1; [discriminate|].
  rewrite Z.gtb_ltb in E1. apply Z.ltb_ge in E1.
  unfold jsonk_tracked_alloc in H.
  destruct (_ >? _) eqn:E2; [discriminate|].
  rewrite Z.gtb_ltb in E2. apply Z.ltb_ge in E2.
  injection H as <- <-. rewrite length_app. cbn.
  repeat split; limits_lia.
Qed.

Lemma add_element_limits es v p es1 parser :
  jsonk_array_add_element_tracked es v (Some p) = OK (es1, parser) ->
  Z.of_nat (length es1) <= JSONK_MAX_ARRAY_SIZE /\
  total_memory_used (with_parser p parser) <= JSONK_MAX_TOTAL_MEMORY /\
  total_memory_used p <= total_memory_used (with_parser p parser) /\
  string_count (with_parser p parser) = string_count p.
Proof.
  unfold jsonk_array_add_element_tracked. intros H.
  destruct (_ >=? _) eqn:E0; [discriminate|].
  rewrite Z.geb_leb in E0. apply Z.leb_gt in E0.
  cbn [has_parser] in H.
  destruct (_ >? _) eqn:E1; [discriminate|].
  rewrite Z.gtb_ltb in E1. apply Z.ltb_ge in E1.
  injection H as <- <-. rewrite length_app. cbn.
  repeat split; limits_lia.
Qed.

Lemma within_limits_object ms :
  within_limits (JObject ms) =
  (Z.of_nat (length ms) <=? JSONK_MAX_OBJECT_MEMBERS) &&
  forallb (fun m : jsonk_member => within_limits (snd m)) ms.
Proof. reflexivity. Qed.

Lemma within_limits_array es :
  within_limits (JArray es) =
  (Z.of_nat (length es) <=? JSONK_MAX_ARRAY_SIZE) && forallb within_limits es.
Proof. reflexivity. Qed.

Lemma string_values_object_app (ms : list jsonk_member) k v :
  string_values (JObject (ms ++ [(k, v)]))
  = string_values (JObject ms) + string_values v.
Proof.
  change (string_values (JObject ?l))
    with (fold_right (fun (m : jsonk_member) acc => string_values (snd m) + acc) 0 l).
  induction ms as [ | m ms IH ]; simpl; [lia|].
  change (fold_right (fun (m : jsonk_member) acc => string_values (snd m) + acc) 0
                     (ms ++ [(k, v)]))
    with (string_values (JObject (ms ++ [(k, v)]))) in *.
  change (fold_right (fun (m : jsonk_member) acc => string_values (snd m) + acc) 0 ms)
    with (string_values (JObject ms)) in *.
  lia.
Qed.

Lemma string_values_array_app (es : list jsonk_value) v :
  string_values (JArray (es ++ [v])) = string_values (JArray es) + string_values v.
Proof.
  change (string_values (JArray ?l))
    with (fold_right (fun e acc => string_values e + acc) 0 l).
  induction es as [ | e es IH ]; simpl; [lia|].
  change (fold_right (fun e acc => string_values e + acc) 0 (es ++ [v]))
    with (string_values (JArray (es ++ [v]))) in *.
  change (fold_right (fun e acc => string_values e + acc) 0 es)
    with (string_values (JArray es)) in *.
  lia.
Qed.

Section LoopsLimits.

Variable pv : jsonk_parser -> outcome (jsonk_value * jsonk_parser).

Hypothesis pv_ok :
  forall p v p', in_buffer p -> pv p = Got (v, p') ->
    consumed p p' /\ (pos p < pos p')%nat /\ depth p + nesting v <= JSONK_MAX_DEPTH.

Hypothesis pv_limits :
  forall p v p', in_buffer p -> pv p = Got (v, p') ->
    within_limits v = true /\ accounted p p' v.

Lemma next_token_counters p token p' :
  in_buffer p -> jsonk_next_token p = OK (token, p') ->
  string_count p' = string_count p /\ total_memory_used p' = total_memory_used p.
Proof.
  intros Hin H. destruct (next_token_ok _ _ _ Hin H) as ((E & _) & _).
  rewrite E. split; reflexivity.
Qed.

Lemma parse_object_loop_limits n :
  forall ms token p v p',
    in_buffer p ->
    within_limits (JObject ms) = true ->
    parse_object_loop pv n ms token p = Got (v, p') ->
    within_limits v = true /\
    string_count p' - string_values v = string_count p - string_values (JObject ms) /\
    total_memory_used p <= total_memory_used p' /\
    (total_memory_used p <= JSONK_MAX_TOTAL_MEMORY ->
     total_memory_used p' <= JSONK_MAX_TOTAL_MEMORY) /\
    (string_count p <= JSONK_MAX_ARRAY_SIZE ->
     string_count p' <= JSONK_MAX_ARRAY_SIZE).
Proof.
  induction n as [ | n IH ]; intros ms token p v p' Hin Hms H; [discriminate|].
  apply parse_object_loop_step in H
    as (_ & token1 & p1 & mv & p2 & ms1 & parser & token2 & p4 &
        E1 & Ety1 & E2 & E3 & E4 & Hend).
  destruct (token_consumed _ _ _ Hin E1) as [C1 L1].
  destruct (next_token_counters _ _ _ Hin E1) as [S1 T1].
  destruct (pv_ok _ _ _ (consumed_in_buffer _ _ C1) E2) as (C2 & L2 & D2).
  destruct (pv_limits _ _ _ (consumed_in_buffer _ _ C1) E2) as (W2 & S2 & T2 & M2 & N2).
  destruct (add_member_limits _ _ _ _ _ _ _ E3) as (Hlen & M3 & T3 & S3).
  apply add_member_parser in E3 as [-> E3].
  pose proof (consumed_add_memory p2 (Z.of_nat (tk_len token1) + 1)
                                  (consumed_in_buffer _ _ C2)) as C3.
  rewrite E3 in *.
  destruct (token_consumed _ _ _ (consumed_in_buffer _ _ C3) E4) as [C4 L4].
  destruct (next_token_counters _ _ _ (consumed_in_buffer _ _ C3) E4) as [S4 T4].
  set (key := firstn (tk_len token1) (token_bytes p token ++ [CH_NUL])) in *.
  assert (Hms1 : within_limits (JObject (ms ++ [(key, mv)])) = true).
  { rewrite within_limits_object in *. apply andb_true_iff in Hms as [_ Hall].
    apply andb_true_iff. split; [apply Z.leb_le; exact Hlen|].
    rewrite forallb_app. apply andb_true_iff. split; [exact Hall|].
    cbn [forallb snd]. now rewrite W2. }
  pose proof (string_values_object_app ms key mv) as Hsv.
  destruct Hend as [(_ & -> & ->) | (_ & token3 & p5 & E5 & Hloop)].
  - split; [exact Hms1|]. repeat split; lia.
  - assert (C : consumed p p4) by (repeat (eapply consumed_trans; eauto)).
    destruct (token_consumed _ _ _ (consumed_in_buffer _ _ C) E5) as [C5 L5].
    destruct (next_token_counters _ _ _ (consumed_in_buffer _ _ C) E5) as [S5 T5].
    apply IH in Hloop as (W & S6 & T6 & M6 & N6);
      [ | eapply consumed_in_buffer; eauto | exact Hms1 ].
    split; [exact W|]. repeat split; lia.
Qed.

Lemma parse_array_loop_limits n :
  forall es p v p',
    in_buffer p ->
    within_limits (JArray es) = true ->
    parse_array_loop pv n es p = Got (v, p') ->
    within_limits v = true /\
    string_count p' - string_values v = string_count p - string_values (JArray es) /\
    total_memory_used p <= total_memory_used p' /\
    (total_memory_used p <= JSONK_MAX_TOTAL_MEMORY ->
     total_memory_used p' <= JSONK_MAX_TOTAL_MEMORY) /\
    (string_count p <= JSONK_MAX_ARRAY_SIZE ->
     string_count p' <= JSONK_MAX_ARRAY_SIZE).
Proof.
  induction n as [ | n IH ]; intros es p v p' Hin Hes H; [discriminate|].
  apply parse_array_loop_step in H. cbv zeta in H.
  pose proof (skip_whitespace_moved p Hin) as M0.
  pose proof (moved_consumed _ _ M0) as C0.
  assert (K0 : string_count (jsonk_skip_whitespace p) = string_count p /\
               total_memory_used (jsonk_skip_whitespace p) = total_memory_used p)
    by (split; reflexivity).
  destruct K0 as [S0 T0].
  set (q := jsonk_skip_whitespace p) in *.
  destruct H as [(Hat & -> & ->) | (_ & ev & p2 & es1 & parser & token & p4 &
                                     E2 & E3 & E4 & Hend)].
  - split; [exact Hes|]. change (string_count (advance q)) with (string_count q).
    change (total_memory_used (advance q)) with (total_memory_used q).
    repeat split; lia.
  - destruct (pv_ok _ _ _ (consumed_in_buffer _ _ C0) E2) as (C2 & L2 & D2).
    destruct (pv_limits _ _ _ (consumed_in_buffer _ _ C0) E2) as (W2 & S2 & T2 & M2 & N2).
    destruct (add_element_limits _ _ _ _ _ E3) as (Hlen & M3 & T3 & S3).
    apply add_element_parser in E3 as [-> E3].
    pose proof (consumed_add_memory p2 sizeof_jsonk_array_element
                                    (consumed_in_buffer _ _ C2)) as C3.
    rewrite E3 in *.
    destruct (token_consumed _ _ _ (consumed_in_buffer _ _ C3) E4) as [C4 L4].
    destruct (next_token_counters _ _ _ (consumed_in_buffer _ _ C3) E4) as [S4 T4].
    assert (Hes1 : within_limits (JArray (es ++ [ev])) = true).
    { rewrite within_limits_array in *. apply andb_true_iff in Hes as [_ Hall].
      apply andb_true_iff. split; [apply Z.leb_le; exact Hlen|].
      rewrite forallb_app. apply andb_true_iff. split; [exact Hall|].
      cbn [forallb]. now rewrite W2. }
    pose proof (string_values_array_app es ev) as Hsv.
    destruct Hend as [(_ & -> & ->) | (_ & Hloop)].
    + split; [exact Hes1|]. repeat split; lia.
    + assert (C : consumed p p4) by (repeat (eapply consumed_trans; eauto)).
      apply IH in Hloop as (W & S6 & T6 & M6 & N6);
        [ | eapply consumed_in_buffer; eauto | exact Hes1 ].
      split; [exact W|]. repeat split; lia.
Qed.

Lemma parse_object_limits p v p' :
  in_buffer p -> parse_object pv p = Got (v, p') ->
  within_limits v = true /\ accounted p p' v.
Proof.
  intros Hin H. unfold accounted.
  apply parse_object_start in H
    as (token0 & p0 & token & p1 & E0 & _ & E1 & Hend).
  destruct (token_consumed _ _ _ Hin E0) as [C0 L0].
  destruct (next_token_counters _ _ _ Hin E0) as [S0 T0].
  destruct (token_consumed _ _ _ (consumed_in_buffer _ _ C0) E1) as [C1 L1].
  destruct (next_token_counters _ _ _ (consumed_in_buffer _ _ C0) E1) as [S1 T1].
  destruct Hend as [(_ & -> & ->) | (_ & Hloop)].
  - split; [reflexivity|]. cbn [string_values fold_right]. repeat split; lia.
  - apply parse_object_loop_limits in Hloop as (W & S6 & T6 & M6 & N6);
      [ | eapply consumed_in_buffer; eauto | reflexivity ].
    split; [exact W|]. cbn [string_values fold_right] in S6. repeat split; lia.
Qed.

Lemma parse_array_limits p v p' :
  in_buffer p -> parse_array pv p = Got (v, p') ->
  within_limits v = true /\ accounted p p' v.
Proof.
  intros Hin H. unfold accounted.
  apply parse_array_start in H as (token0 & p0 & E0 & _ & Hloop).
  destruct (token_consumed _ _ _ Hin E0) as [C0 L0].
  destruct (next_token_counters _ _ _ Hin E0) as [S0 T0].
  apply parse_array_loop_limits in Hloop as (W & S6 & T6 & M6 & N6);
    [ | eapply consumed_in_buffer; eauto | reflexivity ].
  split; [exact W|]. cbn [string_values fold_right] in S6. repeat split; lia.
Qed.

End LoopsLimits.

Lemma parse_value_limits d :
  forall p v p',
    in_buffer p -> jsonk_parse_value d p = Got (v, p') ->
    within_limits v = true /\ accounted p p' v.
Proof.
  induction d as [ | d IH ]; intros p v p' Hin H.
  { simpl in H. destruct (depth p >=? JSONK_MAX_DEPTH); discriminate. }
  apply parse_value_step in H as (Hd & token & p2 & E & Hcase).
  set (p1 := set_depth p (depth p + 1)) in *.
  assert (Hin1 : in_buffer p1) by exact Hin.
  destruct (next_token_ok _ _ _ Hin1 E) as (M & L & S1 & S2 & S3).
  destruct (next_token_counters _ _ _ Hin1 E) as [Sc Tc].
  change (string_count p1) with (string_count p) in Sc.
  change (total_memory_used p1) with (total_memory_used p) in Tc.
  destruct (moved_consumed _ _ M) as (B & D & P).
  assert (Hin3 : tk_len token = 1%nat ->
                 in_buffer (set_pos p2 (pos p2 - tk_len token))).
  { intros Hlen. unfold in_buffer, buffer_len in *. simpl in *. rewrite B. lia. }
  assert (Hleaf : forall w, string_values w = 0 ->
                            accounted p (set_depth p2 (depth p2 - 1)) w).
  { intros w Hw. unfold accounted. cbn [string_count total_memory_used set_depth].
    rewrite Sc, Tc, Hw. repeat split; lia. }
  assert (Hcont : forall p4 w,
             accounted (set_pos p2 (pos p2 - tk_len token)) p4 w ->
             accounted p (set_depth p4 (depth p4 - 1)) w).
  { intros p4 w (A1 & A2 & A3 & A4). unfold accounted.
    cbn [string_count total_memory_used set_depth set_pos] in *.
    rewrite Sc, Tc in *. auto. }
  destruct Hcase as [(Ety & p4 & Hobj & ->) | [(Ety & p4 & Harr & ->) |
                     [(Ety & parser & Hstr & ->) | [(Ety & Hnum & ->) | (Hlit & ->)]]]].
  - apply (parse_object_limits _ (parse_value_consumed d) IH) in Hobj as [W A]; auto.
  - apply (parse_array_limits _ (parse_value_consumed d) IH) in Harr as [W A]; auto.
  - apply string_tracked_accounted in Hstr as [W (A1 & A2 & A3 & A4)].
    split; [exact W|]. unfold accounted.
    cbn [string_count total_memory_used set_depth]. rewrite Sc, Tc in *. auto.
  - apply create_number_is_number in Hnum. destruct v; try discriminate.
    split; [reflexivity|]. now apply Hleaf.
  - destruct Hlit as [(_ & ->) | [(_ & ->) | (_ & ->)]];
      (split; [reflexivity|]; now apply Hleaf).
Qed.

(** X19.  Every tree that [jsonk_parse] returns is within the limits of
    jsonk.h: no String longer than 1 MiB, no Array of more than 10000
    elements, no Object of more than 1000 members, at any level, and no
    more than 10000 String values in all (the count of strings is checked
    against the Array limit). *)
Theorem parsed_tree_within_limits (json_str : list char) (v : jsonk_value) :
  jsonk_parse json_str = Got v ->
  within_limits v = true /\ string_values v <= JSONK_MAX_ARRAY_SIZE.
Proof.
  unfold jsonk_parse. intros H.
  destruct (length json_str =? 0)%nat; [discriminate|].
  destruct (jsonk_parse_value _ _) as [[v' p'] | | ] eqn:E; try discriminate.
  injection H as <-.
  apply parse_value_limits in E as (W & S' & _ & _ & N).
  - split; [exact W|]. cbn [string_count jsonk_parser_init] in *.
    unfold JSONK_MAX_ARRAY_SIZE in *. lia.
  - unfold in_buffer. simpl. lia.
Qed.

Lemma parsed_tree_within_limits_scenario :
  within_limits (JObject [(bytes "n", JString (bytes "JSONK"));
                          (bytes "t", JArray [JString (bytes "a"); JNull])]) = true /\
  string_values (JObject [(bytes "n", JString (bytes "JSONK"));
                          (bytes "t", JArray [JString (bytes "a"); JNull])])
  <= JSONK_MAX_ARRAY_SIZE.
Proof.
  apply (parsed_tree_within_limits (json "{'name':'JSONK','tags':['a',null]}")).
  vm_compute. reflexivity.
Defined.

(** * Decimal numbers: printing and reading back *)

Lemma digits_value_app ds1 ds2 r :
  digits_value (ds1 ++ ds2) r = digits_value ds2 (digits_value ds1 r).
Proof. unfold digits_value. apply fold_left_app. Qed.

Lemma is_digit_range c : is_digit c = true -> 48 <= c <= 57.
Proof.
  unfold is_digit, CH_0, CH_9. intros H. apply andb_true_iff in H as [H1 H2].
  apply Z.leb_le in H1, H2. lia.
Qed.

Lemma is_digit_of_range c : 48 <= c <= 57 -> is_digit c = true.
Proof.
  unfold is_digit, CH_0, CH_9. intros H. apply andb_true_iff.
  split; apply Z.leb_le; lia.
Qed.

Lemma digits_value_ge ds :
  forall r, forallb is_digit ds = true -> 0 <= r -> r <= digits_value ds r.
Proof.
  induction ds as [ | c ds IH ]; intros r H Hr; [simpl; lia|].
  simpl in H. apply andb_true_iff in H as [Hc Hds]. apply is_digit_range in Hc.
  unfold digits_value in *. cbn [fold_left]. unfold CH_0 in *.
  specialize (IH (r * 10 + (c - 48)) Hds). lia.
Qed.

(** What [print_digits] writes in front of [acc]: the decimal digits of
    [n], the most significant first and not a zero unless [n] is 0. *)
Lemma print_digits_S (fuel : nat) (n : Z) (acc : list char) :
  print_digits (S fuel) n acc =
  if n / 10 =? 0 then (CH_0 + n mod 10) :: acc
  else print_digits fuel (n / 10) ((CH_0 + n mod 10) :: acc).
Proof. reflexivity. Qed.

Lemma print_digits_spec (fuel : nat) :
  forall n acc,
    0 <= n < 10 ^ Z.of_nat (S fuel) ->
    exists ds,
      print_digits (S fuel) n acc = ds ++ acc /\
      forallb is_digit ds = true /\
      (forall r, digits_value ds r = r * 10 ^ Z.of_nat (length ds) + n) /\
      (exists d ds', ds = d :: ds' /\ (d = CH_0 -> n = 0 /\ ds' = [])).
Proof.
  assert (Single : forall n, 0 <= n -> n / 10 = 0 ->
            forallb is_digit [CH_0 + n mod 10] = true /\
            (forall r, digits_value [CH_0 + n mod 10] r
                       = r * 10 ^ Z.of_nat (length [CH_0 + n mod 10]) + n) /\
            (exists d ds', [CH_0 + n mod 10] = d :: ds' /\
                           (d = CH_0 -> n = 0 /\ ds' = []))).
  { intros n Hn E.
    assert (Hm : 0 <= n mod 10 < 10) by (apply Z.mod_pos_bound; lia).
    assert (Hsmall : n = n mod 10).
    { rewrite (Z.div_mod n 10) at 1 by lia. rewrite E. lia. }
    split.
    { cbn [forallb]. rewrite is_digit_of_range; [reflexivity | unfold CH_0; lia]. }
    split.
    { intros r. unfold digits_value. cbn [fold_left length].
      change (10 ^ Z.of_nat 1) with 10. unfold CH_0. lia. }
    exists (CH_0 + n mod 10), []. split; [reflexivity|].
    unfold CH_0. intros H. split; [lia | reflexivity]. }
  induction fuel as [ | fuel IH ]; intros n acc Hn.
  - change (10 ^ Z.of_nat 1) with 10 in Hn.
    assert (E : n / 10 = 0) by (apply Z.div_small; lia).
    exists [CH_0 + n mod 10]. rewrite print_digits_S, E.
    split; [reflexivity|]. apply Single; lia.
  - assert (Hm : 0 <= n mod 10 < 10) by (apply Z.mod_pos_bound; lia).
    assert (Hd : is_digit (CH_0 + n mod 10) = true)
      by (apply is_digit_of_range; unfold CH_0; lia).
    destruct (n / 10 =? 0) eqn:E.
    + exists [CH_0 + n mod 10]. rewrite print_digits_S, E.
      apply Z.eqb_eq in E. split; [reflexivity|]. apply Single; lia.
    + pose proof (print_digits_S (S fuel) n acc) as Heq. rewrite E in Heq.
      apply Z.eqb_neq in E.
      assert (Hq : 0 <= n / 10 < 10 ^ Z.of_nat (S fuel)).
      { split; [apply Z.div_pos; lia|].
        apply Z.div_lt_upper_bound; [lia|].
        replace (10 * 10 ^ Z.of_nat (S fuel)) with (10 ^ Z.of_nat (S (S fuel))); [lia|].
        rewrite (Nat2Z.inj_succ (S fuel)), Z.pow_succ_r by lia. reflexivity. }
      destruct (IH (n / 10) ((CH_0 + n mod 10) :: acc) Hq)
        as (ds & Hp & Hall & Hval & d & ds' & Hds & Hz).
      exists (ds ++ [CH_0 + n mod 10]). split.
      { rewrite Heq, Hp, <- app_assoc. reflexivity. }
      split.
      { rewrite forallb_app, Hall. cbn [forallb andb]. now rewrite Hd. }
      split.
      { intros r. rewrite digits_value_app, Hval, length_app.
        unfold digits_value. cbn [fold_left length].
        rewrite Nat2Z.inj_add, Z.pow_add_r by lia.
        change (10 ^ Z.of_nat 1) with 10.
        pose proof (Z.div_mod n 10 ltac:(lia)) as Hdm. unfold CH_0. lia. }
      exists d, (ds' ++ [CH_0 + n mod 10]). split; [now rewrite Hds|].
      intros Hd0. destruct (Hz Hd0) as [Hq0 _]. congruence.
Qed.

Lemma print_unsigned_spec (n : Z) :
  0 <= n < 2 ^ 64 ->
  forallb is_digit (print_unsigned n) = true /\
  (forall r, digits_value (print_unsigned n) r
             = r * 10 ^ Z.of_nat (length (print_unsigned n)) + n) /\
  (exists d ds', print_unsigned n = d :: ds' /\ (d = CH_0 -> n = 0 /\ ds' = [])).
Proof.
  intros Hn. unfold print_unsigned.
  destruct (print_digits_spec 19 n []) as (ds & Hp & Hall & Hval & Hhd).
  { change (10 ^ Z.of_nat 20) with 100000000000000000000.
    change (2 ^ 64) with 18446744073709551616 in Hn. lia. }
  change (S 19) with 20%nat in Hp. rewrite app_nil_r in Hp. rewrite Hp. auto.
Qed.

(** [simple_strtoull] on digits that spell a number below 2^64. *)
Lemma simple_strtoull_digits ds :
  forall r tail,
    forallb is_digit ds = true -> 0 <= r -> digits_value ds r < 2 ^ 64 ->
    no_digit_next tail ->
    simple_strtoull (ds ++ tail) r = (digits_value ds r, tail).
Proof.
  induction ds as [ | c ds IH ]; intros r tail H Hr Hv Ht.
  - cbn [app]. unfold digits_value. cbn [fold_left].
    destruct tail as [ | t tail ]; [reflexivity|].
    cbn [simple_strtoull]. cbn in Ht. now rewrite Ht.
  - simpl in H. apply andb_true_iff in H as [Hc Hds].
    cbn [app simple_strtoull]. rewrite Hc.
    pose proof (is_digit_range _ Hc) as Rc.
    assert (Hr' : 0 <= r * 10 + (c - CH_0)) by (unfold CH_0; lia).
    change (digits_value (c :: ds) r) with (digits_value ds (r * 10 + (c - CH_0))) in *.
    pose proof (digits_value_ge ds _ Hds Hr') as G.
    unfold wrap_u64. rewrite Z.mod_small by lia.
    apply IH; auto.
Qed.

Lemma digits_no_mark ds :
  forallb is_digit ds = true ->
  existsb (fun c => (c =? CH_DOT) || (c =? CH_e) || (c =? CH_E)) ds = false.
Proof.
  induction ds as [ | c ds IH ]; intros H; [reflexivity|].
  simpl in H. apply andb_true_iff in H as [Hc Hds]. apply is_digit_range in Hc.
  cbn [existsb]. rewrite (IH Hds), orb_false_r.
  unfold CH_DOT, CH_e, CH_E.
  repeat (apply orb_false_iff; split); apply Z.eqb_neq; lia.
Qed.

Lemma create_number_integer (str : list char) :
  existsb (fun c => (c =? CH_DOT) || (c =? CH_e) || (c =? CH_E)) str = false ->
  jsonk_value_create_number str =
  let (integer, endptr) := simple_strtoll str in
  if is_nil endptr then Some (JNumber integer 0 (integer <? 0) true) else None.
Proof.
  intros H. unfold jsonk_value_create_number.
  pose proof (scan_number_flags_spec str false) as F.
  destruct (scan_number_flags str false) as [d e].
  cbn [orb] in F. rewrite H in F. rewrite F. reflexivity.
Qed.

Lemma create_number_printed (x : Z) :
  S64_MIN <= x <= S64_MAX ->
  jsonk_value_create_number (print_lld x) = Some (JNumber x 0 (x <? 0) true).
Proof.
  unfold S64_MIN, S64_MAX. intros Hx. unfold print_lld.
  destruct (x <? 0) eqn:Ex.
  - apply Z.ltb_lt in Ex.
    destruct (print_unsigned_spec (- x)) as (Hall & Hval & _).
    { change (2 ^ 64) with 18446744073709551616. lia. }
    rewrite create_number_integer.
    2:{ cbn [existsb]. rewrite (digits_no_mark _ Hall). reflexivity. }
    cbn [simple_strtoll]. change (CH_MINUS =? CH_MINUS) with true. cbv iota.
    pose proof (simple_strtoull_digits (print_unsigned (- x)) 0 [] Hall) as S'.
    rewrite app_nil_r in S'. rewrite S'; [ | lia | rewrite Hval | exact I ].
    2:{ change (2 ^ 64) with 18446744073709551616. lia. }
    rewrite Hval. cbn [is_nil]. unfold wrap64.
    replace ((- (0 * 10 ^ Z.of_nat (length (print_unsigned (- x))) + - x) + 2 ^ 63)
               mod 2 ^ 64 - 2 ^ 63) with x.
    + replace (x <? 0) with true by (symmetry; apply Z.ltb_lt; lia). reflexivity.
    + change (2 ^ 63) with 9223372036854775808.
      change (2 ^ 64) with 18446744073709551616.
      rewrite Z.mod_small; lia.
  - apply Z.ltb_ge in Ex.
    destruct (print_unsigned_spec x) as (Hall & Hval & d & ds' & Hds & _).
    { change (2 ^ 64) with 18446744073709551616. lia. }
    rewrite create_number_integer by (now apply digits_no_mark).
    pose proof (simple_strtoull_digits (print_unsigned x) 0 [] Hall) as S'.
    rewrite app_nil_r in S'.
    assert (Hd : is_digit d = true).
    { rewrite Hds in Hall. simpl in Hall. now apply andb_true_iff in Hall as [? _]. }
    unfold simple_strtoll. rewrite Hds.
    replace (d =? CH_MINUS) with false
      by (symmetry; apply Z.eqb_neq; apply is_digit_range in Hd; unfold CH_MINUS; lia).
    rewrite <- Hds. rewrite S'; [ | lia | rewrite Hval | exact I ].
    2:{ change (2 ^ 64) with 18446744073709551616. lia. }
    rewrite Hval. cbn [is_nil]. unfold wrap64.
    replace ((0 * 10 ^ Z.of_nat (length (print_unsigned x)) + x + 2 ^ 63)
               mod 2 ^ 64 - 2 ^ 63) with x.
    + replace (x <? 0) with false by (symmetry; apply Z.ltb_ge; lia). reflexivity.
    + change (2 ^ 63) with 9223372036854775808.
      change (2 ^ 64) with 18446744073709551616.
      rewrite Z.mod_small; lia.
Qed.

(** X20.  Printing and reading back agree on every 64-bit integer: the
    text that the [%lld] of the serializer prints for [x] is read by
    [jsonk_value_create_number] as the integer Number [x], with the
    is-negative flag set exactly when [x] is negative. *)
Theorem print_then_create_number (x : Z) :
  S64_MIN <= x <= S64_MAX ->
  jsonk_value_create_number (print_lld x) = Some (JNumber x 0 (x <? 0) true).
Proof. exact (create_number_printed x). Qed.

Lemma print_then_create_number_minimum :
  jsonk_value_create_number (print_lld S64_MIN)
  = Some (JNumber S64_MIN 0 (S64_MIN <? 0) true).
Proof.
  apply print_then_create_number. unfold S64_MIN, S64_MAX. lia.
Defined.

(** * Reading back what the serializer writes *)

(** ** The scanner on known text *)

Lemma rest_at (p q : jsonk_parser) (a b : list char) :
  rest p = a ++ b -> buffer q = buffer p -> pos q = (pos p + length a)%nat ->
  rest q = b.
Proof.
  unfold rest. intros H B P. rewrite B, P, Nat.add_comm, <- skipn_skipn, H.
  rewrite skipn_app, skipn_all, Nat.sub_diag. reflexivity.
Qed.

Lemma rest_advance (p : jsonk_parser) (c : char) (l : list char) :
  rest p = c :: l -> rest (advance p) = l.
Proof. intros H. now apply rest_cons in H. Qed.

Lemma set_pos_same (p : jsonk_parser) : set_pos p (pos p) = p.
Proof. now destruct p. Qed.

Lemma set_pos_twice (p : jsonk_parser) (a b c : nat) :
  b = c -> set_pos (set_pos p a) b = set_pos p c.
Proof. now intros ->. Qed.

Lemma skip_whitespace_at (p : jsonk_parser) (c : char) (l : list char) :
  rest p = c :: l -> jsonk_is_whitespace c = false -> jsonk_skip_whitespace p = p.
Proof.
  intros H Hc. unfold jsonk_skip_whitespace. rewrite H. cbn [skip_whitespace_from].
  rewrite Hc. apply set_pos_same.
Qed.

(** The dispatch of [jsonk_next_token] on a first byte that is not white
    space. *)
Lemma next_token_at (p : jsonk_parser) (c : char) (l : list char) :
  rest p = c :: l -> jsonk_is_whitespace c = false ->
  jsonk_next_token p =
  if c =? CH_LBRACE then single JSONK_TOKEN_OBJECT_START p
  else if c =? CH_RBRACE then single JSONK_TOKEN_OBJECT_END p
  else if c =? CH_LBRACKET then single JSONK_TOKEN_ARRAY_START p
  else if c =? CH_RBRACKET then single JSONK_TOKEN_ARRAY_END p
  else if c =? CH_COLON then single JSONK_TOKEN_COLON p
  else if c =? CH_COMMA then single JSONK_TOKEN_COMMA p
  else if c =? CH_QUOTE then jsonk_parse_string p
  else if (c =? CH_MINUS) || is_digit c then jsonk_parse_number p
  else if (c =? CH_t) || (c =? CH_f) || (c =? CH_n) then jsonk_parse_literal p
  else ERR (- EINVAL).
Proof.
  intros H Hc. unfold jsonk_next_token.
  rewrite (skip_whitespace_at _ _ _ H Hc), H. reflexivity.
Qed.

Lemma next_token_punctuation (p : jsonk_parser) (l : list char) :
  (rest p = CH_LBRACE :: l ->
   jsonk_next_token p = OK (mk_token JSONK_TOKEN_OBJECT_START (pos p) 1, advance p)) /\
  (rest p = CH_RBRACE :: l ->
   jsonk_next_token p = OK (mk_token JSONK_TOKEN_OBJECT_END (pos p) 1, advance p)) /\
  (rest p = CH_LBRACKET :: l ->
   jsonk_next_token p = OK (mk_token JSONK_TOKEN_ARRAY_START (pos p) 1, advance p)) /\
  (rest p = CH_RBRACKET :: l ->
   jsonk_next_token p = OK (mk_token JSONK_TOKEN_ARRAY_END (pos p) 1, advance p)) /\
  (rest p = CH_COLON :: l ->
   jsonk_next_token p = OK (mk_token JSONK_TOKEN_COLON (pos p) 1, advance p)) /\
  (rest p = CH_COMMA :: l ->
   jsonk_next_token p = OK (mk_token JSONK_TOKEN_COMMA (pos p) 1, advance p)).
Proof.
  repeat split; intros H; rewrite (next_token_at _ _ _ H eq_refl); reflexivity.
Qed.

Lemma next_token_quote (p : jsonk_parser) (l : list char) :
  rest p = CH_QUOTE :: l -> jsonk_next_token p = jsonk_parse_string p.
Proof. intros H. rewrite (next_token_at _ _ _ H eq_refl). reflexivity. Qed.

Lemma next_token_digit (p : jsonk_parser) (c : char) (l : list char) :
  rest p = c :: l -> is_digit c = true -> jsonk_next_token p = jsonk_parse_number p.
Proof.
  intros H Hc. pose proof (is_digit_range _ Hc) as R.
  assert (Hw : jsonk_is_whitespace c = false).
  { unfold jsonk_is_whitespace, CH_SPACE, CH_TAB, CH_LF, CH_CR.
    repeat (apply orb_false_iff; split); apply Z.eqb_neq; lia. }
  rewrite (next_token_at _ _ _ H Hw), Hc, orb_true_r.
  unfold CH_LBRACE, CH_RBRACE, CH_LBRACKET, CH_RBRACKET, CH_COLON, CH_COMMA, CH_QUOTE.
  repeat match goal with
         | |- context [c =? ?k] =>
           replace (c =? k) with false by (symmetry; apply Z.eqb_neq; lia)
         end.
  reflexivity.
Qed.

Lemma next_token_literal (p : jsonk_parser) (c : char) (l : list char) :
  rest p = c :: l -> c = CH_t \/ c = CH_f \/ c = CH_n ->
  jsonk_next_token p = jsonk_parse_literal p.
Proof.
  intros H [-> | [-> | ->]]; rewrite (next_token_at _ _ _ H eq_refl); reflexivity.
Qed.

(** *** Strings *)

Lemma text_char_regular (c : char) :
  text_char c = true ->
  (c =? CH_BS) = false -> (c =? CH_FF) = false -> (c =? CH_LF) = false ->
  (c =? CH_CR) = false -> (c =? CH_TAB) = false ->
  (c <? 32) = false.
Proof.
  unfold text_char. intros H H1 H2 H3 H4 H5. rewrite H1, H2, H3, H4, H5 in H.
  rewrite !orb_false_r in H. apply Z.leb_le in H. apply Z.ltb_ge. lia.
Qed.

Lemma escape_char_cases (c : char) :
  text_char c = true ->
  (exists e, is_simple_escape e = true /\ escape_char c = [CH_BACKSLASH; e]) \/
  (escape_char c = [c] /\ (c =? CH_QUOTE) = false /\ (c =? CH_BACKSLASH) = false /\
   (c <? 32) = false).
Proof.
  intros Hc. unfold escape_char.
  destruct (c =? CH_QUOTE) eqn:Eq.
  { left. apply Z.eqb_eq in Eq. subst c. exists CH_QUOTE. split; reflexivity. }
  destruct (c =? CH_BACKSLASH) eqn:Eb.
  { left. apply Z.eqb_eq in Eb. subst c. exists CH_BACKSLASH. split; reflexivity. }
  cbn [orb].
  destruct (c =? CH_BS) eqn:E1; [left; exists CH_b; split; reflexivity|].
  destruct (c =? CH_FF) eqn:E2; [left; exists CH_f; split; reflexivity|].
  destruct (c =? CH_LF) eqn:E3; [left; exists CH_n; split; reflexivity|].
  destruct (c =? CH_CR) eqn:E4; [left; exists CH_r; split; reflexivity|].
  destruct (c =? CH_TAB) eqn:E5; [left; exists CH_t; split; reflexivity|].
  right. repeat split. exact (text_char_regular c Hc E1 E2 E3 E4 E5).
Qed.

Lemma scan_string_escaped (data tail : list char) :
  forallb text_char data = true ->
  forall n,
    scan_string (flat_map escape_char data ++ CH_QUOTE :: tail) n
    = OK (n + length (flat_map escape_char data))%nat.
Proof.
  induction data as [ | c data IH ]; intros H n.
  - cbn [flat_map app length scan_string]. change (CH_QUOTE =? CH_QUOTE) with true.
    cbv iota. now rewrite Nat.add_0_r.
  - simpl in H. apply andb_true_iff in H as [Hc Hd].
    change (flat_map escape_char (c :: data))
      with (escape_char c ++ flat_map escape_char data).
    rewrite <- app_assoc, length_app.
    destruct (escape_char_cases c Hc) as [(e & He & ->) | (-> & Eq & Eb & E32)].
    + cbn [app scan_string length].
      change (CH_BACKSLASH =? CH_QUOTE) with false.
      change (CH_BACKSLASH =? CH_BACKSLASH) with true. cbv iota.
      rewrite He, (IH Hd). f_equal. lia.
    + cbn [app scan_string length]. rewrite Eq, Eb, E32, (IH Hd). f_equal. lia.
Qed.

Lemma scan_string_key (k : char) (tail : list char) (n : nat) :
  key_char k = true ->
  scan_string ([k] ++ CH_QUOTE :: tail) n = OK (n + length [k])%nat.
Proof.
  unfold key_char. intros H. apply andb_true_iff in H as [H Hb].
  apply andb_true_iff in H as [H32 Hq].
  apply negb_true_iff in Hb, Hq. apply Z.leb_le in H32.
  cbn [app scan_string length]. rewrite Hq, Hb.
  replace (k <? 32) with false by (symmetry; apply Z.ltb_ge; lia).
  change (CH_QUOTE =? CH_QUOTE) with true. cbv iota. reflexivity.
Qed.

(** A quoted text whose body the scanning loop walks to its end. *)
Lemma next_token_string (p : jsonk_parser) (body tail : list char) :
  rest p = CH_QUOTE :: body ++ CH_QUOTE :: tail ->
  (forall n, scan_string (body ++ CH_QUOTE :: tail) n = OK (n + length body)%nat) ->
  let token := mk_token JSONK_TOKEN_STRING (pos p + 1) (length body) in
  let p' := set_pos p (pos p + length body + 2) in
  jsonk_next_token p = OK (token, p') /\
  token_bytes p' token = body /\
  rest p' = tail.
Proof.
  intros H Hscan token p'. split; [ | split ].
  - rewrite (next_token_quote _ _ H). unfold jsonk_parse_string.
    assert (R : rest (set_pos p (pos p + 1)) = body ++ CH_QUOTE :: tail).
    { apply (rest_at p _ [CH_QUOTE]); [exact H | reflexivity | reflexivity]. }
    rewrite R, Hscan. cbn [pos set_pos]. unfold token, p'.
    replace (pos p + 1 + length body - (pos p + 1))%nat with (length body) by lia.
    replace (pos p + 1 + length body + 1)%nat with (pos p + length body + 2)%nat by lia.
    reflexivity.
  - unfold token_bytes, token, p'. cbn [tk_len tk_start buffer set_pos].
    change (skipn (pos p + 1) (buffer p)) with (rest (set_pos p (pos p + 1))).
    rewrite (rest_at p _ [CH_QUOTE] (body ++ CH_QUOTE :: tail));
      [ | exact H | reflexivity | reflexivity ].
    apply firstn_prefix.
  - apply (rest_at p _ (CH_QUOTE :: body ++ [CH_QUOTE])).
    + rewrite H. cbn [app]. now rewrite <- app_assoc.
    + reflexivity.
    + unfold p'. cbn [pos set_pos length]. rewrite length_app. cbn [length]. lia.
Qed.

(** *** Numbers *)

Lemma closes_next (q : jsonk_parser) (tail : list char) :
  rest q = tail -> closes tail ->
  no_digit_next tail /\ no_digit_here q = true /\
  at_char q CH_DOT = false /\ at_char q CH_e = false /\ at_char q CH_E = false /\
  is_digit (jsonk_peek_char q) = false.
Proof.
  intros H Hc. unfold no_digit_here, at_char, jsonk_peek_char. rewrite H.
  destruct tail as [ | c tail ]; [repeat split|].
  destruct Hc as [-> | [-> | ->]]; repeat split.
Qed.

Lemma skip_digits_from_digits (ds tail : list char) (n : nat) :
  forallb is_digit ds = true -> no_digit_next tail ->
  skip_digits_from (ds ++ tail) n = (n + length ds)%nat.
Proof.
  revert n. induction ds as [ | c ds IH ]; intros n H Ht.
  - cbn [app length]. rewrite Nat.add_0_r.
    destruct tail as [ | t tail ]; [reflexivity|].
    cbn [skip_digits_from]. cbn in Ht. now rewrite Ht.
  - simpl in H. apply andb_true_iff in H as [Hc Hds].
    cbn [app skip_digits_from length]. rewrite Hc, (IH _ Hds Ht). lia.
Qed.

Lemma skip_digits_text (q : jsonk_parser) (ds tail : list char) :
  rest q = ds ++ tail -> forallb is_digit ds = true -> no_digit_next tail ->
  skip_digits q = set_pos q (pos q + length ds).
Proof.
  intros H Hd Ht. unfold skip_digits. now rewrite H, skip_digits_from_digits.
Qed.

Lemma peek_char_at (q : jsonk_parser) (c : char) (l : list char) :
  rest q = c :: l -> jsonk_peek_char q = c.
Proof. intros H. unfold jsonk_peek_char. now rewrite H. Qed.

Lemma at_char_at (q : jsonk_parser) (c x : char) (l : list char) :
  rest q = c :: l -> at_char q x = (c =? x).
Proof. intros H. unfold at_char. now rewrite H. Qed.

(** The text of a non-negative number as the serializer prints it: the
    digits of the integer, not starting with a zero unless they are the
    single digit 0, and either nothing or a point and at least one digit. *)
Lemma parse_number_text (p : jsonk_parser) (d : char) (ds fs tail : list char) :
  forallb is_digit (d :: ds) = true -> (d = CH_0 -> ds = []) ->
  (fs = [] \/ exists f fd, fs = CH_DOT :: f :: fd /\ forallb is_digit (f :: fd) = true) ->
  rest p = (d :: ds) ++ fs ++ tail -> closes tail ->
  jsonk_parse_number p
  = OK (mk_token JSONK_TOKEN_NUMBER (pos p) (length (d :: ds) + length fs),
        set_pos p (pos p + (length (d :: ds) + length fs))).
Proof.
  intros Hall Hzero Hfs H Hc.
  pose proof Hall as Hall'. cbn [forallb] in Hall'.
  apply andb_true_iff in Hall' as [Hd Hds].
  pose proof (is_digit_range _ Hd) as Rd.
  unfold jsonk_parse_number.
  rewrite (peek_char_at _ _ _ H).
  replace (d =? CH_MINUS) with false
    by (symmetry; apply Z.eqb_neq; unfold CH_MINUS; lia).
  (* the integer part *)
  set (q1 := set_pos p (pos p + length (d :: ds))).
  assert (R1 : rest q1 = fs ++ tail)
    by (apply (rest_at p q1 (d :: ds)); [exact H | reflexivity | reflexivity]).
  assert (Fnext : no_digit_next (fs ++ tail)).
  { destruct Hfs as [-> | (f & fd & -> & _)]; [ | reflexivity ].
    exact (proj1 (closes_next q1 tail R1 Hc)). }
  assert (I1 : number_integer p = OK q1).
  { unfold number_integer. rewrite (peek_char_at _ _ _ H).
    destruct (d =? CH_0) eqn:E0.
    - apply Z.eqb_eq in E0. rewrite (Hzero E0) in *.
      assert (Ra : rest (advance p) = fs ++ tail) by (now apply rest_advance in H).
      replace (is_digit (jsonk_peek_char (advance p))) with false.
      + unfold q1, advance. rewrite (Hzero E0). cbn [length].
        now rewrite Nat.add_1_r.
      + unfold jsonk_peek_char. rewrite Ra.
        destruct (fs ++ tail) as [ | t l ]; [reflexivity | symmetry; exact Fnext].
    - apply Z.eqb_neq in E0.
      replace ((CH_1 <=? d) && (d <=? CH_9)) with true.
      + assert (Ra : rest (advance p) = ds ++ fs ++ tail) by (now apply rest_advance in H).
        rewrite (skip_digits_text _ _ _ Ra Hds Fnext).
        unfold q1, advance. f_equal. apply set_pos_twice. simpl. lia.
      + symmetry. apply andb_true_iff. unfold CH_1, CH_9, CH_0 in *.
        split; apply Z.leb_le; lia. }
  rewrite I1.
  (* the fraction *)
  set (q2 := set_pos p (pos p + (length (d :: ds) + length fs))).
  assert (R2 : rest q2 = tail).
  { apply (rest_at p q2 ((d :: ds) ++ fs)).
    - now rewrite <- app_assoc.
    - reflexivity.
    - unfold q2. cbn [pos set_pos]. now rewrite length_app. }
  assert (F2 : number_fraction q1 = OK q2).
  { unfold number_fraction.
    destruct Hfs as [-> | (f & fd & -> & Hfd)].
    - cbn [app] in R1. destruct (closes_next q1 tail R1 Hc) as (_ & _ & -> & _).
      unfold q1, q2. cbn [length]. now rewrite Nat.add_0_r.
    - cbn [app] in R1. rewrite (at_char_at _ _ _ _ R1).
      change (CH_DOT =? CH_DOT) with true. cbv iota.
      assert (Ra : rest (advance q1) = (f :: fd) ++ tail) by (now apply rest_advance in R1).
      unfold no_digit_here. rewrite Ra. cbn [app].
      pose proof Hfd as Hfd'. cbn [forallb] in Hfd'.
      apply andb_true_iff in Hfd' as [Hf _]. rewrite Hf. cbn [negb].
      rewrite (skip_digits_text _ _ _ Ra Hfd (proj1 (closes_next q2 tail R2 Hc))).
      unfold q1, q2, advance. f_equal. rewrite (set_pos_twice _ _ _ _ eq_refl).
      apply set_pos_twice. simpl. lia. }
  rewrite F2.
  (* no exponent *)
  unfold number_exponent.
  destruct (closes_next q2 tail R2 Hc) as (_ & _ & _ & -> & -> & _). cbn [orb].
  unfold q2. cbn [pos set_pos].
  replace (pos p + (length (d :: ds) + length fs) - pos p)%nat
    with (length (d :: ds) + length fs)%nat by lia.
  reflexivity.
Qed.

Lemma digits_value_lower ds :
  forall r, forallb is_digit ds = true -> 0 <= r ->
            r * 10 ^ Z.of_nat (length ds) <= digits_value ds r.
Proof.
  induction ds as [ | c ds IH ]; intros r H Hr.
  - unfold digits_value. cbn. lia.
  - simpl in H. apply andb_true_iff in H as [Hc Hds]. apply is_digit_range in Hc.
    change (digits_value (c :: ds) r) with (digits_value ds (r * 10 + (c - CH_0))).
    specialize (IH (r * 10 + (c - CH_0)) Hds). unfold CH_0 in *.
    cbn [length]. rewrite Nat2Z.inj_succ, Z.pow_succ_r by lia.
    assert (0 <= 10 ^ Z.of_nat (length ds)) by (apply Z.pow_nonneg; lia).
    nia.
Qed.

Lemma print_unsigned_length (n : Z) (k : nat) :
  0 <= n < 10 ^ Z.of_nat k -> n < 2 ^ 64 -> (0 < k)%nat ->
  (length (print_unsigned n) <= k)%nat.
Proof.
  intros Hn H64 Hk.
  destruct (print_unsigned_spec n ltac:(lia)) as (Hall & Hval & d & ds' & Hds & Hz).
  rewrite Hds in *. cbn [length].
  destruct (d =? CH_0) eqn:E0.
  - apply Z.eqb_eq in E0. destruct (Hz E0) as [_ ->]. simpl. lia.
  - apply Z.eqb_neq in E0.
    pose proof Hall as Hall'. cbn [forallb] in Hall'.
    apply andb_true_iff in Hall' as [Hd Hds'].
    pose proof (is_digit_range _ Hd) as Rd.
    specialize (Hval 0). rewrite Z.mul_0_l, Z.add_0_l in Hval.
    change (digits_value (d :: ds') 0) with (digits_value ds' (0 * 10 + (d - CH_0))) in Hval.
    pose proof (digits_value_lower ds' (0 * 10 + (d - CH_0)) Hds'
                                   ltac:(unfold CH_0; lia)) as L.
    destruct (Nat.le_gt_cases (S (length ds')) k) as [Hle | Hgt]; [exact Hle|].
    exfalso.
    assert (P : 10 ^ Z.of_nat k <= 10 ^ Z.of_nat (length ds'))
      by (apply Z.pow_le_mono_r; lia).
    assert (0 < 10 ^ Z.of_nat (length ds')) by (apply Z.pow_pos_nonneg; lia).
    unfold CH_0 in *. nia.
Qed.

Lemma parse_int_part_digits ds :
  forall r tail,
    forallb is_digit ds = true -> 0 <= r -> digits_value ds r <= S64_MAX ->
    no_digit_next tail ->
    parse_int_part (ds ++ tail) r = (digits_value ds r, tail).
Proof.
  induction ds as [ | c ds IH ]; intros r tail H Hr Hv Ht.
  - cbn [app]. unfold digits_value. cbn [fold_left].
    destruct tail as [ | t tail ]; [reflexivity|].
    cbn [parse_int_part]. cbn in Ht. now rewrite Ht.
  - simpl in H. apply andb_true_iff in H as [Hc Hds].
    cbn [app parse_int_part]. rewrite Hc.
    pose proof (is_digit_range _ Hc) as Rc.
    change (digits_value (c :: ds) r) with (digits_value ds (r * 10 + (c - CH_0))) in *.
    assert (Hr' : 0 <= r * 10 + (c - CH_0)) by (unfold CH_0; lia).
    pose proof (digits_value_ge ds _ Hds Hr') as G.
    unfold S64_MAX in *. unfold CH_0 in *.
    change (9223372036854775807 / 10) with 922337203685477580.
    rewrite gtb_false by lia.
    unfold wrap64. change (2 ^ 63) with 9223372036854775808.
    change (2 ^ 64) with 18446744073709551616.
    replace ((r * 10 + (c - 48) + 9223372036854775808) mod 18446744073709551616
             - 9223372036854775808) with (r * 10 + (c - 48))
      by (rewrite Z.mod_small; lia).
    apply IH; auto.
Qed.

Lemma parse_frac_part_digits fd :
  forall r k,
    forallb is_digit fd = true -> 0 <= r -> 0 <= k ->
    k + Z.of_nat (length fd) <= 9 -> digits_value fd r < 1000000000 ->
    parse_frac_part fd r k = digits_value fd r.
Proof.
  induction fd as [ | c fd IH ]; intros r k H Hr Hk Hlen Hv; [reflexivity|].
  simpl in H. apply andb_true_iff in H as [Hc Hds].
  cbn [parse_frac_part]. rewrite Hc. cbn [length] in Hlen.
  replace (k <? 9) with true by (symmetry; apply Z.ltb_lt; lia). cbn [andb].
  pose proof (is_digit_range _ Hc) as Rc.
  change (digits_value (c :: fd) r) with (digits_value fd (r * 10 + (c - CH_0))) in *.
  assert (Hr' : 0 <= r * 10 + (c - CH_0)) by (unfold CH_0; lia).
  pose proof (digits_value_ge fd _ Hds Hr') as G.
  unfold UINT_MAX, CH_0 in *. change (4294967295 / 10) with 429496729.
  rewrite gtb_false by lia.
  unfold wrap32. change (2 ^ 32) with 4294967296.
  rewrite Z.mod_small by lia.
  apply IH; auto; lia.
Qed.

(** The Number that [jsonk_value_create_number] builds from the text
    that the serializer prints for a canonical Number. *)
Lemma create_number_text (integer fraction : Z) (is_integer : bool) :
  canonical (JNumber integer fraction false is_integer) = true ->
  jsonk_value_create_number (number_text integer fraction false is_integer)
  = Some (JNumber integer fraction false is_integer).
Proof.
  cbn [canonical negb andb]. intros H.
  apply andb_true_iff in H as [H Hf]. apply andb_true_iff in H as [H0 Hmax].
  apply Z.leb_le in H0, Hmax. unfold number_text, print_lld.
  replace (integer <? 0) with false by (symmetry; apply Z.ltb_ge; lia).
  destruct is_integer.
  - apply Z.eqb_eq in Hf. subst fraction.
    pose proof (create_number_printed integer) as P.
    unfold print_lld in P.
    replace (integer <? 0) with false in P by (symmetry; apply Z.ltb_ge; lia).
    apply P. unfold S64_MIN, S64_MAX in *. lia.
  - apply andb_true_iff in Hf as [Hf0 Hf9]. apply Z.leb_le in Hf0. apply Z.ltb_lt in Hf9.
    unfold S64_MAX in *.
    destruct (print_unsigned_spec integer) as (Ai & Vi & d & ds & Hds & _).
    { change (2 ^ 64) with 18446744073709551616. lia. }
    destruct (print_unsigned_spec fraction) as (Af & Vf & _).
    { change (2 ^ 64) with 18446744073709551616. lia. }
    pose proof (print_unsigned_length fraction 9) as Lf.
    change (10 ^ Z.of_nat 9) with 1000000000 in Lf.
    change (2 ^ 64) with 18446744073709551616 in Lf.
    specialize (Lf ltac:(lia) ltac:(lia) ltac:(lia)).
    assert (Hd : is_digit d = true).
    { rewrite Hds in Ai. simpl in Ai. now apply andb_true_iff in Ai as [? _]. }
    set (txt := print_unsigned integer ++ [CH_DOT] ++ print_unsigned fraction).
    assert (Hneg : match txt with c :: _ => c =? CH_MINUS | [] => false end = false).
    { unfold txt. rewrite Hds. cbn [app]. apply Z.eqb_neq.
      apply is_digit_range in Hd. unfold CH_MINUS. lia. }
    unfold jsonk_value_create_number.
    pose proof (scan_number_flags_spec txt false) as F.
    destruct (scan_number_flags txt false) as [hd he]. cbn [orb] in F.
    unfold txt in F at 1. rewrite existsb_app in F. cbn [app existsb] in F.
    change (CH_DOT =? CH_DOT) with true in F. cbn [orb] in F.
    rewrite orb_true_r in F. rewrite F, Hneg. unfold txt. cbn [app].
    rewrite (parse_int_part_digits (print_unsigned integer) 0
                                   (CH_DOT :: print_unsigned fraction) Ai);
      [ | lia | rewrite Vi; unfold S64_MAX; lia | reflexivity ].
    rewrite Vi. change (CH_DOT =? CH_DOT) with true. cbv iota.
    rewrite (parse_frac_part_digits (print_unsigned fraction) 0 0 Af);
      [ | lia | lia | lia | rewrite Vf; lia ].
    rewrite Vf. do 2 f_equal; lia.
Qed.

(** *** Literals *)

Lemma literal_here_true (p : jsonk_parser) (lit tail : list char) :
  rest p = lit ++ tail -> (0 < length lit)%nat -> literal_here p lit = true.
Proof.
  intros H Hl. unfold literal_here.
  rewrite H, firstn_prefix, list_eqb_refl, andb_true_r.
  apply Nat.leb_le. pose proof (rest_length p) as L.
  rewrite H, length_app in L. lia.
Qed.

Lemma literal_here_false (p : jsonk_parser) (c x : char) (l lit : list char) :
  rest p = c :: l -> (c =? x) = false -> literal_here p (x :: lit) = false.
Proof.
  intros H Hc. unfold literal_here. rewrite H. cbn [length firstn list_eqb].
  rewrite Hc. apply andb_false_r.
Qed.

Lemma next_token_keyword (p : jsonk_parser) (tail : list char) :
  (rest p = bytes "true" ++ tail ->
   jsonk_next_token p
   = OK (mk_token JSONK_TOKEN_TRUE (pos p) 4, set_pos p (pos p + 4))) /\
  (rest p = bytes "false" ++ tail ->
   jsonk_next_token p
   = OK (mk_token JSONK_TOKEN_FALSE (pos p) 5, set_pos p (pos p + 5))) /\
  (rest p = bytes "null" ++ tail ->
   jsonk_next_token p
   = OK (mk_token JSONK_TOKEN_NULL (pos p) 4, set_pos p (pos p + 4))).
Proof.
  split; [ | split ]; intros H.
  - rewrite (next_token_literal p CH_t (bytes "rue" ++ tail) H (or_introl eq_refl)).
    unfold jsonk_parse_literal, literals. cbn [parse_literal_from].
    rewrite (literal_here_true p _ tail H) by (simpl; lia). reflexivity.
  - rewrite (next_token_literal p CH_f (bytes "alse" ++ tail) H
                                (or_intror (or_introl eq_refl))).
    unfold jsonk_parse_literal, literals. cbn [parse_literal_from].
    rewrite (literal_here_false p CH_f CH_t (bytes "alse" ++ tail) (bytes "rue") H eq_refl
             : literal_here p (bytes "true") = false).
    rewrite (literal_here_true p _ tail H) by (simpl; lia). reflexivity.
  - rewrite (next_token_literal p CH_n (bytes "ull" ++ tail) H
                                (or_intror (or_intror eq_refl))).
    unfold jsonk_parse_literal, literals. cbn [parse_literal_from].
    rewrite (literal_here_false p CH_n CH_t (bytes "ull" ++ tail) (bytes "rue") H eq_refl
             : literal_here p (bytes "true") = false).
    rewrite (literal_here_false p CH_n CH_f (bytes "ull" ++ tail) (bytes "alse") H eq_refl
             : literal_here p (bytes "false") = false).
    rewrite (literal_here_true p _ tail H) by (simpl; lia). reflexivity.
Qed.

(** ** Values on known text *)

Lemma rest_same (p q : jsonk_parser) :
  buffer q = buffer p -> pos q = pos p -> rest q = rest p.
Proof. unfold rest. now intros -> ->. Qed.

Lemma tracked_bytes_nonneg (v : jsonk_value) : 0 <= tracked_bytes v.
Proof.
  induction v as [ | b | i f n g | data | es IH | ms IH ] using jsonk_value_rect';
    try (simpl; lia).
  - unfold tracked_bytes, sizeof_jsonk_value. lia.
  - change (0 <= fold_right (fun e acc => tracked_bytes e + sizeof_jsonk_array_element + acc)
                            0 es).
    induction IH as [ | e es He _ IHes ]; [simpl; lia|].
    cbn [fold_right]. unfold sizeof_jsonk_array_element in *. lia.
  - change (0 <= fold_right (fun (m : jsonk_member) acc =>
                               tracked_bytes (snd m) + (sizeof_jsonk_member + 2) + acc)
                            0 ms).
    induction IH as [ | m ms Hm _ IHms ]; [simpl; lia|].
    cbn [fold_right]. unfold sizeof_jsonk_member in *. lia.
Qed.

Lemma string_values_nonneg (v : jsonk_value) : 0 <= string_values v.
Proof.
  induction v as [ | b | i f n g | data | es IH | ms IH ] using jsonk_value_rect';
    try (simpl; lia).
  - change (0 <= fold_right (fun e acc => string_values e + acc) 0 es).
    induction IH as [ | e es He _ IHes ]; [simpl; lia|]. cbn [fold_right]. lia.
  - change (0 <= fold_right (fun (m : jsonk_member) acc => string_values (snd m) + acc)
                            0 ms).
    induction IH as [ | m ms Hm _ IHms ]; [simpl; lia|]. cbn [fold_right]. lia.
Qed.

(** The String that [jsonk_value_create_string_tracked] builds from the
    escaped text of [data], and what it books on the parser. *)
Lemma create_string_escaped (data : list char) (p : jsonk_parser) :
  Z.of_nat (length (flat_map escape_char data)) <= JSONK_MAX_STRING_LENGTH ->
  total_memory_used p + tracked_bytes (JString data) <= JSONK_MAX_TOTAL_MEMORY ->
  string_count p + 1 <= JSONK_MAX_ARRAY_SIZE ->
  exists q,
    jsonk_value_create_string_tracked (flat_map escape_char data) (Some p)
    = Some (JString data, Some q) /\
    buffer q = buffer p /\ pos q = pos p /\ depth q = depth p /\
    total_memory_used p <= total_memory_used q
    <= total_memory_used p + tracked_bytes (JString data) /\
    string_count q = string_count p + 1.
Proof.
  intros Hlen Hmem Hcount. cbn [tracked_bytes] in Hmem.
  pose proof (unescape_escaped data) as Hu.
  pose proof (unescape_length _ _ Hu) as Hl.
  unfold jsonk_value_create_string_tracked.
  rewrite gtb_false by exact Hlen. cbn [has_parser].
  replace (string_count p >=? JSONK_MAX_ARRAY_SIZE) with false
    by (symmetry; rewrite Z.geb_leb; apply Z.leb_gt; lia).
  unfold jsonk_value_create_tracked.
  rewrite gtb_false by (unfold sizeof_jsonk_value in *; lia).
  cbn [count_container]. unfold jsonk_tracked_alloc at 1.
  cbn [add_memory total_memory_used].
  rewrite gtb_false by (unfold sizeof_jsonk_value in *; lia).
  rewrite Hu.
  destruct (Z.of_nat (length data) <? _).
  - unfold jsonk_tracked_alloc. cbn [add_memory total_memory_used].
    destruct (_ >? _) eqn:E3.
    + eexists. split; [reflexivity|]. unfold incr_string_count, add_memory.
      cbn [buffer pos depth total_memory_used string_count tracked_bytes].
      repeat split; limits_lia.
    + rewrite Z.gtb_ltb in E3. apply Z.ltb_ge in E3.
      eexists. split; [reflexivity|]. unfold incr_string_count, add_memory.
      cbn [buffer pos depth total_memory_used string_count tracked_bytes].
      repeat split; limits_lia.
  - eexists. split; [reflexivity|]. unfold incr_string_count, add_memory.
    cbn [buffer pos depth total_memory_used string_count tracked_bytes].
    repeat split; limits_lia.
Qed.

Lemma render_head (v : jsonk_value) :
  canonical v = true ->
  exists c l, render v = c :: l /\ jsonk_is_whitespace c = false /\
              (c =? CH_RBRACKET) = false.
Proof.
  destruct v as [ | [ | ] | i f n g | data | es | ms ]; intros H;
    try (eexists; eexists; split; [reflexivity | split; reflexivity]).
  cbn [canonical] in H.
  destruct n; [discriminate H|]. cbn [negb andb] in H.
  apply andb_true_iff in H as [H _]. apply andb_true_iff in H as [H0 Hmax].
  apply Z.leb_le in H0, Hmax. unfold S64_MAX in Hmax.
  destruct (print_unsigned_spec i) as (Ai & _ & d & ds & Hds & _).
  { change (2 ^ 64) with 18446744073709551616. lia. }
  rewrite Hds in Ai. simpl in Ai. apply andb_true_iff in Ai as [Hd _].
  apply is_digit_range in Hd.
  exists d. cbn [render]. unfold number_text, print_lld.
  replace (i <? 0) with false by (symmetry; apply Z.ltb_ge; lia).
  rewrite Hds.
  destruct g; (eexists; split; [cbn [app]; reflexivity|]);
    unfold jsonk_is_whitespace, CH_SPACE, CH_TAB, CH_LF, CH_CR, CH_RBRACKET;
    (split; [repeat (apply orb_false_iff; split) | ]; apply Z.eqb_neq; lia).
Qed.

Lemma token_bytes_text (p q : jsonk_parser) (ty : jsonk_token_type)
      (text tail : list char) :
  rest p = text ++ tail -> buffer q = buffer p ->
  token_bytes q (mk_token ty (pos p) (length text)) = text.
Proof.
  intros H Hb. unfold token_bytes. cbn [tk_len tk_start]. rewrite Hb.
  change (skipn (pos p) (buffer p)) with (rest p). rewrite H. apply firstn_prefix.
Qed.

Lemma number_text_shape (integer fraction : Z) (is_negative is_integer : bool) :
  canonical (JNumber integer fraction is_negative is_integer) = true ->
  is_negative = false /\
  exists d ds fs,
    number_text integer fraction is_negative is_integer = (d :: ds) ++ fs /\
    forallb is_digit (d :: ds) = true /\ (d = CH_0 -> ds = []) /\
    (fs = [] \/
     exists f fd, fs = CH_DOT :: f :: fd /\ forallb is_digit (f :: fd) = true).
Proof.
  cbn [canonical]. intros H.
  destruct is_negative; [discriminate H|]. split; [reflexivity|].
  cbn [negb andb] in H.
  apply andb_true_iff in H as [H Hf]. apply andb_true_iff in H as [H0 Hmax].
  apply Z.leb_le in H0, Hmax. unfold S64_MAX in Hmax.
  destruct (print_unsigned_spec integer) as (Ai & _ & d & ds & Hds & Hz).
  { change (2 ^ 64) with 18446744073709551616. lia. }
  unfold number_text, print_lld.
  replace (integer <? 0) with false by (symmetry; apply Z.ltb_ge; lia).
  rewrite Hds in *.
  assert (Hzero : d = CH_0 -> ds = []) by (intros E; exact (proj2 (Hz E))).
  destruct is_integer.
  - exists d, ds, []. rewrite app_nil_r. auto.
  - apply andb_true_iff in Hf as [Hf0 Hf9]. apply Z.leb_le in Hf0. apply Z.ltb_lt in Hf9.
    destruct (print_unsigned_spec fraction) as (Af & _ & f & fd & Hfd & _).
    { change (2 ^ 64) with 18446744073709551616. lia. }
    rewrite Hfd in *.
    exists d, ds, (CH_DOT :: f :: fd). repeat split; auto.
    right. exists f, fd. auto.
Qed.

Ltac advanced_done :=
  unfold advanced, advance, set_pos, set_depth, add_memory;
  cbn [buffer pos depth total_memory_used string_count tracked_bytes string_values];
  repeat split; try lia.

(** Scalars: one token and one constructor call. *)
Lemma parse_value_scalar (v : jsonk_value) (d : nat) :
  canonical v = true ->
  match v with JArray _ | JObject _ => False | _ => True end ->
  parses (jsonk_parse_value (S d)) v.
Proof.
  intros Hc Hs p tail Hrest Hclose Hdepth Hmem Hcount.
  cbn [jsonk_parse_value].
  assert (Hn : nesting v = 1) by (destruct v; try reflexivity; contradiction).
  rewrite Hn in Hdepth.
  replace (depth p >=? JSONK_MAX_DEPTH) with false
    by (symmetry; rewrite Z.geb_leb; apply Z.leb_gt; lia).
  set (p1 := set_depth p (depth p + 1)).
  assert (R1 : rest p1 = render v ++ tail) by exact Hrest.
  destruct v as [ | [ | ] | i f n g | data | es | ms ]; try contradiction.
  - destruct (next_token_keyword p1 tail) as (_ & _ & Hk). rewrite (Hk R1).
    eexists. split; [reflexivity|]. simpl length. unfold p1. advanced_done.
  - destruct (next_token_keyword p1 tail) as (Hk & _ & _). rewrite (Hk R1).
    eexists. split; [reflexivity|]. simpl length. unfold p1. advanced_done.
  - destruct (next_token_keyword p1 tail) as (_ & Hk & _). rewrite (Hk R1).
    eexists. split; [reflexivity|]. simpl length. unfold p1. advanced_done.
  - destruct (number_text_shape _ _ _ _ Hc) as (-> & c & ds & fs & Ht & Hds & Hz & Hfs).
    cbn [render] in *. rewrite Ht, <- app_assoc in R1.
    rewrite (next_token_digit p1 c (ds ++ fs ++ tail) R1)
      by (simpl in Hds; now apply andb_true_iff in Hds as [? _]).
    rewrite (parse_number_text p1 c ds fs tail Hds Hz Hfs R1 Hclose).
    cbn [tk_type]. rewrite <- length_app, <- Ht.
    rewrite app_assoc, <- Ht in R1.
    rewrite (token_bytes_text
               p1 (set_pos p1 (pos p1 + length (number_text i f false g)))
               JSONK_TOKEN_NUMBER _ tail R1 eq_refl).
    rewrite (create_number_text _ _ _ Hc).
    eexists. split; [reflexivity|]. unfold p1. advanced_done.
  - cbn [canonical] in Hc. apply andb_true_iff in Hc as [Htext Hlen].
    apply Z.leb_le in Hlen.
    cbn [render] in R1. rewrite <- !app_assoc in R1. cbn [app] in R1.
    destruct (next_token_string p1 (flat_map escape_char data) tail R1
                                (scan_string_escaped data tail Htext))
      as (Htok & Hbytes & R2).
    rewrite Htok. cbn [tk_type]. rewrite Hbytes.
    change (string_values (JString data)) with 1 in Hcount.
    destruct (create_string_escaped
                data (set_pos p1 (pos p1 + length (flat_map escape_char data) + 2))
                Hlen Hmem Hcount)
      as (q & -> & Hb & Hp & Hd & Hm & Hs').
    eexists. split; [reflexivity|].
    unfold advanced, with_parser. cbn [buffer pos depth total_memory_used string_count set_depth].
    rewrite Hb, Hp, Hd, Hs'. cbn [render]. rewrite !length_app. cbn [length].
    revert Hm. unfold p1, set_pos, set_depth.
    cbn [buffer pos depth total_memory_used string_count]. intros Hm.
    change (string_values (JString data)) with 1.
    repeat split; try lia.
Qed.

(** ** Containers on known text *)

Lemma fold_max_nonneg {A} (f : A -> Z) (l : list A) :
  0 <= fold_right (fun x acc => Z.max (f x) acc) 0 l.
Proof. induction l; simpl; lia. Qed.

Lemma nesting_pos (v : jsonk_value) : 1 <= nesting v.
Proof.
  destruct v as [ | b | i f n g | data | es | ms ]; try (simpl; lia).
  - change (nesting (JArray es))
      with (1 + fold_right (fun e acc => Z.max (nesting e) acc) 0 es).
    pose proof (fold_max_nonneg nesting es). lia.
  - change (nesting (JObject ms))
      with (1 + fold_right (fun (m : jsonk_member) acc => Z.max (nesting (snd m)) acc) 0 ms).
    pose proof (fold_max_nonneg (fun m : jsonk_member => nesting (snd m)) ms). lia.
Qed.

Lemma array_measures_cons (e : jsonk_value) (es : list jsonk_value) :
  nesting (JArray (e :: es)) = 1 + Z.max (nesting e) (nesting (JArray es) - 1) /\
  tracked_bytes (JArray (e :: es))
  = tracked_bytes e + sizeof_jsonk_array_element + tracked_bytes (JArray es) /\
  string_values (JArray (e :: es)) = string_values e + string_values (JArray es).
Proof.
  split; [ | split; reflexivity ].
  change (nesting (JArray (e :: es)))
    with (1 + Z.max (nesting e) (fold_right (fun e acc => Z.max (nesting e) acc) 0 es)).
  change (nesting (JArray es))
    with (1 + fold_right (fun e acc => Z.max (nesting e) acc) 0 es).
  lia.
Qed.

Lemma object_measures_cons (key : list char) (v : jsonk_value) (ms : list jsonk_member) :
  nesting (JObject ((key, v) :: ms)) = 1 + Z.max (nesting v) (nesting (JObject ms) - 1) /\
  tracked_bytes (JObject ((key, v) :: ms))
  = tracked_bytes v + (sizeof_jsonk_member + 2) + tracked_bytes (JObject ms) /\
  string_values (JObject ((key, v) :: ms)) = string_values v + string_values (JObject ms).
Proof.
  split; [ | split; reflexivity ].
  change (nesting (JObject ((key, v) :: ms)))
    with (1 + Z.max (nesting v)
                    (fold_right (fun (m : jsonk_member) acc => Z.max (nesting (snd m)) acc)
                                0 ms)).
  change (nesting (JObject ms))
    with (1 + fold_right (fun (m : jsonk_member) acc => Z.max (nesting (snd m)) acc) 0 ms).
  lia.
Qed.

Lemma add_element_tracked_fits (acc : list jsonk_value) (e : jsonk_value)
      (p : jsonk_parser) :
  Z.of_nat (length acc) < JSONK_MAX_ARRAY_SIZE ->
  total_memory_used p + sizeof_jsonk_array_element <= JSONK_MAX_TOTAL_MEMORY ->
  jsonk_array_add_element_tracked acc e (Some p)
  = OK (acc ++ [e], Some (add_memory p sizeof_jsonk_array_element)).
Proof.
  intros Hl Hm. unfold jsonk_array_add_element_tracked.
  replace (Z.of_nat (length acc) >=? JSONK_MAX_ARRAY_SIZE) with false
    by (symmetry; rewrite Z.geb_leb; apply Z.leb_gt; lia).
  cbn [has_parser]. rewrite gtb_false by exact Hm. reflexivity.
Qed.

Lemma add_member_tracked_fits (acc : list jsonk_member) (key : list char)
      (v : jsonk_value) (p : jsonk_parser) :
  Z.of_nat (length acc) < JSONK_MAX_OBJECT_MEMBERS ->
  total_memory_used p + sizeof_jsonk_member + 2 <= JSONK_MAX_TOTAL_MEMORY ->
  jsonk_object_add_member_tracked acc key 1 v (Some p)
  = OK (acc ++ [(firstn 1 key, v)], Some (add_memory p 2)).
Proof.
  intros Hl Hm. unfold jsonk_object_add_member_tracked.
  replace (Z.of_nat (length acc) >=? JSONK_MAX_OBJECT_MEMBERS) with false
    by (symmetry; rewrite Z.geb_leb; apply Z.leb_gt; lia).
  change (Z.of_nat 1) with 1.
  rewrite gtb_false by (unfold JSONK_MAX_KEY_LENGTH; lia).
  cbn [has_parser]. rewrite gtb_false by lia.
  unfold jsonk_tracked_alloc.
  rewrite gtb_false by (unfold sizeof_jsonk_member in *; lia).
  reflexivity.
Qed.

Lemma render_elements_length (es : list jsonk_value) :
  (length es <= length (render_elements render es false))%nat.
Proof.
  induction es as [ | e es IH ]; [simpl; lia|].
  cbn [render_elements length]. rewrite !length_app. cbn [length]. lia.
Qed.

Lemma render_members_length (ms : list jsonk_member) :
  (length ms <= length (render_members render ms false))%nat.
Proof.
  induction ms as [ | [k v] ms IH ]; [simpl; lia|].
  cbn [render_members length]. rewrite !length_app. cbn [length]. lia.
Qed.

Lemma closes_elements (es : list jsonk_value) (tail : list char) :
  closes (render_elements render es false ++ CH_RBRACKET :: tail).
Proof. destruct es; cbn [render_elements app closes]; auto. Qed.

Lemma closes_members (ms : list jsonk_member) (tail : list char) :
  closes (render_members render ms false ++ CH_RBRACE :: tail).
Proof. destruct ms as [ | [k v] ms ]; cbn [render_members app closes]; auto. Qed.

Ltac members_lia := unfold jsonk_member in *; limits_lia.

Section LoopsRead.

Variable pv : jsonk_parser -> outcome (jsonk_value * jsonk_parser).

(** One element of the loop of [jsonk_parse_array]: up to the token
    after the element. *)
Lemma parse_array_loop_element (e : jsonk_value) (es : list jsonk_value)
      (n : nat) (acc : list jsonk_value) (p : jsonk_parser) (tail : list char) :
  parses pv e -> canonical e = true ->
  rest p = render e ++ render_elements render es false ++ CH_RBRACKET :: tail ->
  Z.of_nat (length acc) < JSONK_MAX_ARRAY_SIZE ->
  depth p + nesting e <= JSONK_MAX_DEPTH ->
  total_memory_used p + tracked_bytes e + sizeof_jsonk_array_element
  <= JSONK_MAX_TOTAL_MEMORY ->
  string_count p + string_values e <= JSONK_MAX_ARRAY_SIZE ->
  exists p2,
    parse_array_loop pv (S n) acc p
    = (match jsonk_next_token p2 with
       | ERR _ => Null
       | OK (token, p) =>
         match tk_type token with
         | JSONK_TOKEN_ARRAY_END => Got (JArray (acc ++ [e]), p)
         | JSONK_TOKEN_COMMA => parse_array_loop pv n (acc ++ [e]) p
         | _ => Null
         end
       end) /\
    rest p2 = render_elements render es false ++ CH_RBRACKET :: tail /\
    buffer p2 = buffer p /\ pos p2 = (pos p + length (render e))%nat /\
    depth p2 = depth p /\
    total_memory_used p + sizeof_jsonk_array_element <= total_memory_used p2
    <= total_memory_used p + tracked_bytes e + sizeof_jsonk_array_element /\
    string_count p2 = string_count p + string_values e.
Proof.
  intros He Hce R Hlen Hd Hm Hs.
  pose proof (tracked_bytes_nonneg e) as Pe.
  cbn [parse_array_loop].
  destruct (render_head e Hce) as (c & l & Hr & Hw & Hb).
  assert (R' : rest p = c :: l ++ render_elements render es false ++ CH_RBRACKET :: tail)
    by (rewrite R, Hr; reflexivity).
  rewrite (skip_whitespace_at _ _ _ R' Hw), (at_char_at _ _ _ _ R'), Hb.
  destruct (He p _ R (closes_elements es tail)) as (p1 & -> & B1 & P1 & D1 & M1 & S1);
    [lia | unfold sizeof_jsonk_array_element in Hm; lia | lia | ].
  rewrite add_element_tracked_fits by lia.
  cbn [with_parser].
  exists (add_memory p1 sizeof_jsonk_array_element).
  split; [reflexivity|]. split.
  { apply (rest_at p _ (render e)); [exact R | exact B1 | exact P1]. }
  unfold add_memory. cbn [buffer pos depth total_memory_used string_count].
  repeat split; try assumption; lia.
Qed.

(** The element loop, entered before the element [e] with the elements
    [acc] already stored and [es] still to come. *)
Lemma parse_array_loop_reads (es : list jsonk_value) :
  Forall (parses pv) es -> forallb canonical es = true ->
  forall e, parses pv e -> canonical e = true ->
  forall n acc p tail,
    rest p = render e ++ render_elements render es false ++ CH_RBRACKET :: tail ->
    (length es < n)%nat ->
    Z.of_nat (length acc + length (e :: es)) <= JSONK_MAX_ARRAY_SIZE ->
    depth p + nesting (JArray (e :: es)) <= JSONK_MAX_DEPTH + 1 ->
    total_memory_used p + tracked_bytes (JArray (e :: es)) <= JSONK_MAX_TOTAL_MEMORY ->
    string_count p + string_values (JArray (e :: es)) <= JSONK_MAX_ARRAY_SIZE ->
    exists p',
      parse_array_loop pv n acc p = Got (JArray (acc ++ e :: es), p') /\
      buffer p' = buffer p /\
      pos p' = (pos p + length (render e ++ render_elements render es false
                                       ++ [CH_RBRACKET]))%nat /\
      depth p' = depth p /\
      total_memory_used p <= total_memory_used p'
      <= total_memory_used p + tracked_bytes (JArray (e :: es)) /\
      string_count p' = string_count p + string_values (JArray (e :: es)).
Proof.
  intros HF. induction HF as [ | e2 es He2 HF IH ];
    intros Hcan e He Hce n acc p tail R Hn Hlen Hd Hm Hs;
    (destruct n as [ | n ]; [cbn [length] in Hn; lia|]).
  - destruct (array_measures_cons e []) as (Nd & Nm & Ns).
    pose proof (tracked_bytes_nonneg (JArray [])) as Pm.
    pose proof (string_values_nonneg (JArray [])) as Ps.
    destruct (parse_array_loop_element e [] n acc p tail He Hce R)
      as (p2 & -> & R2 & B2 & P2 & D2 & M2 & S2);
      try (cbn [length] in Hlen; lia).
    cbn [render_elements app] in R2.
    destruct (next_token_punctuation p2 tail) as (_ & _ & _ & Hk & _).
    rewrite (Hk R2). cbn [tk_type].
    eexists. split; [reflexivity|].
    unfold advance, set_pos.
    cbn [buffer pos depth total_memory_used string_count render_elements].
    rewrite !length_app. cbn [length].
    change (tracked_bytes (JArray [])) with 0 in *.
    change (string_values (JArray [])) with 0 in *.
    repeat split; try assumption; limits_lia.
  - destruct (array_measures_cons e (e2 :: es)) as (Nd & Nm & Ns).
    pose proof (tracked_bytes_nonneg (JArray (e2 :: es))) as Pm.
    pose proof (string_values_nonneg (JArray (e2 :: es))) as Ps.
    destruct (parse_array_loop_element e (e2 :: es) n acc p tail He Hce R)
      as (p2 & -> & R2 & B2 & P2 & D2 & M2 & S2);
      try (cbn [length] in Hlen; lia).
    cbn [render_elements app] in R2. rewrite <- app_assoc in R2.
    destruct (next_token_punctuation
                p2 (render e2 ++ render_elements render es false ++ CH_RBRACKET :: tail))
      as (_ & _ & _ & _ & _ & Hk).
    rewrite (Hk R2). cbn [tk_type].
    cbn [forallb] in Hcan. apply andb_true_iff in Hcan as [Hce2 Hcan].
    assert (R3 : rest (advance p2)
                 = render e2 ++ render_elements render es false ++ CH_RBRACKET :: tail)
      by (now apply rest_advance in R2).
    assert (D3 : depth (advance p2) = depth p) by exact D2.
    assert (M3 : total_memory_used (advance p2) = total_memory_used p2) by reflexivity.
    assert (S3 : string_count (advance p2) = string_count p2) by reflexivity.
    assert (B3 : buffer (advance p2) = buffer p) by exact B2.
    assert (P3 : pos (advance p2) = S (pos p + length (render e)))
      by (now rewrite <- P2).
    destruct (IH Hcan e2 He2 Hce2 n (acc ++ [e]) (advance p2) tail R3)
      as (p' & -> & B' & P' & D' & M' & S').
    + cbn [length] in Hn. lia.
    + rewrite length_app. cbn [length] in *. lia.
    + lia.
    + lia.
    + lia.
    + rewrite <- app_assoc. cbn [app].
      eexists. split; [reflexivity|].
      cbn [render_elements]. rewrite !length_app in *. cbn [length app] in *.
      rewrite ?length_app. cbn [length].
      repeat split; try congruence; limits_lia.
Qed.

(** One member of the loop of [jsonk_parse_object]: from the key token
    to the token after the value.  The member is stored under the first
    byte of the key, the length being that of the colon token. *)
Lemma parse_object_loop_member (k : char) (v : jsonk_value) (ms : list jsonk_member)
      (n : nat) (acc : list jsonk_member) (token : jsonk_token)
      (p : jsonk_parser) (tail : list char) :
  parses pv v ->
  tk_type token = JSONK_TOKEN_STRING ->
  token_bytes p token = [k] ->
  rest p = CH_COLON :: render v ++ render_members render ms false ++ CH_RBRACE :: tail ->
  Z.of_nat (length acc) < JSONK_MAX_OBJECT_MEMBERS ->
  depth p + nesting v <= JSONK_MAX_DEPTH ->
  total_memory_used p + tracked_bytes v + (sizeof_jsonk_member + 2)
  <= JSONK_MAX_TOTAL_MEMORY ->
  string_count p + string_values v <= JSONK_MAX_ARRAY_SIZE ->
  exists p2,
    parse_object_loop pv (S n) acc token p
    = (match jsonk_next_token p2 with
       | ERR _ => Null
       | OK (token, p) =>
         match tk_type token with
         | JSONK_TOKEN_OBJECT_END => Got (JObject (acc ++ [([k], v)]), p)
         | JSONK_TOKEN_COMMA =>
           match jsonk_next_token p with
           | ERR _ => Null
           | OK (token, p) => parse_object_loop pv n (acc ++ [([k], v)]) token p
           end
         | _ => Null
         end
       end) /\
    rest p2 = render_members render ms false ++ CH_RBRACE :: tail /\
    buffer p2 = buffer p /\ pos p2 = S (pos p + length (render v)) /\
    depth p2 = depth p /\
    total_memory_used p <= total_memory_used p2
    <= total_memory_used p + tracked_bytes v + 2 /\
    string_count p2 = string_count p + string_values v.
Proof.
  intros Hv Hty Hbytes R Hlen Hd Hm Hs.
  pose proof (tracked_bytes_nonneg v) as Pv.
  cbn [parse_object_loop]. rewrite Hty, Hbytes.
  destruct (next_token_punctuation
              p (render v ++ render_members render ms false ++ CH_RBRACE :: tail))
    as (_ & _ & _ & _ & Hk & _).
  rewrite (Hk R). cbn [tk_type tk_len].
  assert (R1 : rest (advance p)
               = render v ++ render_members render ms false ++ CH_RBRACE :: tail)
    by (now apply rest_advance in R).
  assert (D0 : depth (advance p) = depth p) by reflexivity.
  assert (M0 : total_memory_used (advance p) = total_memory_used p) by reflexivity.
  assert (S0 : string_count (advance p) = string_count p) by reflexivity.
  assert (B0 : buffer (advance p) = buffer p) by reflexivity.
  assert (P0 : pos (advance p) = S (pos p)) by reflexivity.
  destruct (Hv (advance p) _ R1 (closes_members ms tail))
    as (p1 & -> & B1 & P1 & D1 & M1 & S1);
    [lia | unfold sizeof_jsonk_member in Hm; lia | lia | ].
  rewrite add_member_tracked_fits by lia.
  cbn [with_parser firstn app].
  exists (add_memory p1 2).
  split; [reflexivity|]. split.
  { apply (rest_at (advance p) _ (render v)); [exact R1 | exact B1 | exact P1]. }
  unfold add_memory. cbn [buffer pos depth total_memory_used string_count].
  repeat split; try congruence; lia.
Qed.

(** The member loop, entered with the token of the key [k], before the
    colon, with the members [acc] already stored and [ms] still to
    come. *)
Lemma parse_object_loop_reads (ms : list jsonk_member) :
  Forall (fun m : jsonk_member => parses pv (snd m)) ms ->
  forallb (fun m : jsonk_member => canonical_key (fst m) && canonical (snd m)) ms = true ->
  forall k v, parses pv v ->
  forall n acc token p tail,
    tk_type token = JSONK_TOKEN_STRING ->
    token_bytes p token = [k] ->
    rest p = CH_COLON :: render v ++ render_members render ms false
                      ++ CH_RBRACE :: tail ->
    (length ms < n)%nat ->
    Z.of_nat (length acc + length (([k], v) :: ms)) <= JSONK_MAX_OBJECT_MEMBERS ->
    depth p + nesting (JObject (([k], v) :: ms)) <= JSONK_MAX_DEPTH + 1 ->
    total_memory_used p + tracked_bytes (JObject (([k], v) :: ms))
    <= JSONK_MAX_TOTAL_MEMORY ->
    string_count p + string_values (JObject (([k], v) :: ms)) <= JSONK_MAX_ARRAY_SIZE ->
    exists p',
      parse_object_loop pv n acc token p = Got (JObject (acc ++ ([k], v) :: ms), p') /\
      buffer p' = buffer p /\
      pos p' = (pos p + length (CH_COLON :: render v ++ render_members render ms false
                                         ++ [CH_RBRACE]))%nat /\
      depth p' = depth p /\
      total_memory_used p <= total_memory_used p'
      <= total_memory_used p + tracked_bytes (JObject (([k], v) :: ms)) /\
      string_count p' = string_count p + string_values (JObject (([k], v) :: ms)).
Proof.
  intros HF. induction HF as [ | [key2 v2] ms Hv2 HF IH ];
    intros Hcan k v Hv n acc token p tail Hty Hbytes R Hn Hlen Hd Hm Hs;
    (destruct n as [ | n ]; [cbn [length] in Hn; lia|]).
  - destruct (object_measures_cons [k] v []) as (Nd & Nm & Ns).
    pose proof (tracked_bytes_nonneg (JObject [])) as Pm.
    pose proof (string_values_nonneg (JObject [])) as Ps.
    destruct (parse_object_loop_member k v [] n acc token p tail Hv Hty Hbytes R)
      as (p2 & -> & R2 & B2 & P2 & D2 & M2 & S2);
      try (cbn [length] in Hlen; members_lia).
    cbn [render_members app] in R2.
    destruct (next_token_punctuation p2 tail) as (_ & Hk & _).
    rewrite (Hk R2). cbn [tk_type].
    eexists. split; [reflexivity|].
    unfold advance, set_pos.
    cbn [buffer pos depth total_memory_used string_count render_members].
    rewrite ?length_app. cbn [length]. rewrite ?length_app. cbn [length].
    change (tracked_bytes (JObject [])) with 0 in *.
    change (string_values (JObject [])) with 0 in *.
    repeat split; try assumption; members_lia.
  - destruct (object_measures_cons [k] v ((key2, v2) :: ms)) as (Nd & Nm & Ns).
    destruct (object_measures_cons key2 v2 ms) as (Nd2 & Nm2 & Ns2).
    cbn [snd] in Hv2.
    pose proof (tracked_bytes_nonneg (JObject ((key2, v2) :: ms))) as Pm.
    pose proof (string_values_nonneg (JObject ((key2, v2) :: ms))) as Ps.
    cbn [forallb fst snd] in Hcan. apply andb_true_iff in Hcan as [Hc2 Hcan].
    apply andb_true_iff in Hc2 as [Hkey2 _].
    destruct key2 as [ | k2 [ | ? ? ] ]; try discriminate Hkey2.
    cbn [canonical_key] in Hkey2.
    destruct (parse_object_loop_member k v (([k2], v2) :: ms) n acc token p tail
                                       Hv Hty Hbytes R)
      as (p2 & -> & R2 & B2 & P2 & D2 & M2 & S2);
      try (cbn [length] in Hlen; members_lia).
    set (tail2 := CH_COLON :: render v2 ++ render_members render ms false
                           ++ CH_RBRACE :: tail).
    assert (R2' : rest p2 = CH_COMMA :: CH_QUOTE :: [k2] ++ CH_QUOTE :: tail2).
    { rewrite R2. unfold tail2. cbn [render_members app].
      rewrite <- ?app_assoc. reflexivity. }
    destruct (next_token_punctuation p2 (CH_QUOTE :: [k2] ++ CH_QUOTE :: tail2))
      as (_ & _ & _ & _ & _ & Hk).
    rewrite (Hk R2'). cbn [tk_type].
    assert (R3 : rest (advance p2) = CH_QUOTE :: [k2] ++ CH_QUOTE :: tail2)
      by (now apply rest_advance in R2').
    destruct (next_token_string (advance p2) [k2] tail2 R3
                                (fun n => scan_string_key k2 tail2 n Hkey2))
      as (Htok & Hbytes2 & R4).
    rewrite Htok.
    set (token2 := mk_token JSONK_TOKEN_STRING (pos (advance p2) + 1) (length [k2])) in *.
    set (p4 := set_pos (advance p2) (pos (advance p2) + length [k2] + 2)) in *.
    assert (D4 : depth p4 = depth p2) by reflexivity.
    assert (M4 : total_memory_used p4 = total_memory_used p2) by reflexivity.
    assert (S4 : string_count p4 = string_count p2) by reflexivity.
    assert (B4 : buffer p4 = buffer p2) by reflexivity.
    assert (P4 : pos p4 = (S (pos p2) + length [k2] + 2)%nat) by reflexivity.
    destruct (IH Hcan k2 v2 Hv2 n (acc ++ [([k], v)]) token2 p4 tail eq_refl Hbytes2 R4)
      as (p' & -> & B' & P' & D' & M' & S').
    + cbn [length] in Hn. lia.
    + rewrite length_app. cbn [length] in *. lia.
    + members_lia.
    + members_lia.
    + members_lia.
    + rewrite <- app_assoc. cbn [app].
      eexists. split; [reflexivity|].
      cbn [render_members]. rewrite ?length_app in *. cbn [length app] in *.
      rewrite ?length_app in *. cbn [length app] in *.
      rewrite ?length_app in *. cbn [length] in *.
      repeat split; try congruence; members_lia.
Qed.

(** [jsonk_parse_array] on the text of an Array. *)
Lemma parse_array_reads (es : list jsonk_value) :
  Forall (parses pv) es -> forallb canonical es = true ->
  Z.of_nat (length es) <= JSONK_MAX_ARRAY_SIZE ->
  forall p tail,
    rest p = render (JArray es) ++ tail ->
    depth p + nesting (JArray es) <= JSONK_MAX_DEPTH + 1 ->
    total_memory_used p + tracked_bytes (JArray es) <= JSONK_MAX_TOTAL_MEMORY ->
    string_count p + string_values (JArray es) <= JSONK_MAX_ARRAY_SIZE ->
    exists p',
      parse_array pv p = Got (JArray es, p') /\
      buffer p' = buffer p /\
      pos p' = (pos p + length (render (JArray es)))%nat /\
      depth p' = depth p /\
      total_memory_used p <= total_memory_used p'
      <= total_memory_used p + tracked_bytes (JArray es) /\
      string_count p' = string_count p + string_values (JArray es).
Proof.
  intros HF Hcan Hlen p tail R Hd Hm Hs.
  cbn [render] in R. rewrite <- !app_assoc in R. cbn [app] in R.
  unfold parse_array.
  destruct (next_token_punctuation
              p (render_elements render es true ++ CH_RBRACKET :: tail))
    as (_ & _ & Hk & _).
  rewrite (Hk R). cbn [tk_type].
  assert (R1 : rest (advance p) = render_elements render es true ++ CH_RBRACKET :: tail)
    by (now apply rest_advance in R).
  assert (D1 : depth (advance p) = depth p) by reflexivity.
  assert (M1 : total_memory_used (advance p) = total_memory_used p) by reflexivity.
  assert (S1 : string_count (advance p) = string_count p) by reflexivity.
  assert (B1 : buffer (advance p) = buffer p) by reflexivity.
  assert (P1 : pos (advance p) = S (pos p)) by reflexivity.
  destruct es as [ | e es ].
  - cbn [render_elements app] in R1. cbn [parse_array_loop].
    rewrite (skip_whitespace_at _ _ _ R1 eq_refl), (at_char_at _ _ _ _ R1).
    change (CH_RBRACKET =? CH_RBRACKET) with true. cbv iota.
    eexists. split; [reflexivity|].
    unfold advance, set_pos. cbn. repeat split; lia.
  - cbn [render_elements app] in R1. rewrite <- app_assoc in R1.
    cbn [forallb] in Hcan. apply andb_true_iff in Hcan as [Hce Hcan].
    inversion HF as [ | ? ? He HF' ]; subst.
    destruct (parse_array_loop_reads es HF' Hcan e He Hce
                                     (S (buffer_len (advance p) - pos (advance p))) []
                                     (advance p) tail R1)
      as (p' & -> & B' & P' & D' & M' & S').
    + rewrite <- rest_length, R1, !length_app.
      pose proof (render_elements_length es). lia.
    + cbn [length app] in *. lia.
    + lia.
    + lia.
    + lia.
    + cbn [app]. eexists. split; [reflexivity|].
      cbn [render render_elements]. rewrite ?length_app in *. cbn [length app] in *.
      rewrite ?length_app in *. cbn [length] in *.
      repeat split; try congruence; lia.
Qed.

(** [jsonk_parse_object] on the text of an Object. *)
Lemma parse_object_reads (ms : list jsonk_member) :
  Forall (fun m : jsonk_member => parses pv (snd m)) ms ->
  forallb (fun m : jsonk_member => canonical_key (fst m) && canonical (snd m)) ms = true ->
  Z.of_nat (length ms) <= JSONK_MAX_OBJECT_MEMBERS ->
  forall p tail,
    rest p = render (JObject ms) ++ tail ->
    depth p + nesting (JObject ms) <= JSONK_MAX_DEPTH + 1 ->
    total_memory_used p + tracked_bytes (JObject ms) <= JSONK_MAX_TOTAL_MEMORY ->
    string_count p + string_values (JObject ms) <= JSONK_MAX_ARRAY_SIZE ->
    exists p',
      parse_object pv p = Got (JObject ms, p') /\
      buffer p' = buffer p /\
      pos p' = (pos p + length (render (JObject ms)))%nat /\
      depth p' = depth p /\
      total_memory_used p <= total_memory_used p'
      <= total_memory_used p + tracked_bytes (JObject ms) /\
      string_count p' = string_count p + string_values (JObject ms).
Proof.
  intros HF Hcan Hlen p tail R Hd Hm Hs.
  cbn [render] in R. rewrite <- !app_assoc in R. cbn [app] in R.
  unfold parse_object.
  destruct (next_token_punctuation
              p (render_members render ms true ++ CH_RBRACE :: tail))
    as (Hk & _).
  rewrite (Hk R). cbn [tk_type].
  assert (R1 : rest (advance p) = render_members render ms true ++ CH_RBRACE :: tail)
    by (now apply rest_advance in R).
  assert (D1 : depth (advance p) = depth p) by reflexivity.
  assert (M1 : total_memory_used (advance p) = total_memory_used p) by reflexivity.
  assert (S1 : string_count (advance p) = string_count p) by reflexivity.
  assert (B1 : buffer (advance p) = buffer p) by reflexivity.
  assert (P1 : pos (advance p) = S (pos p)) by reflexivity.
  destruct ms as [ | [key v] ms ].
  - cbn [render_members app] in R1.
    destruct (next_token_punctuation (advance p) tail) as (_ & Hk2 & _).
    rewrite (Hk2 R1). cbn [tk_type].
    eexists. split; [reflexivity|].
    unfold advance, set_pos. cbn. repeat split; lia.
  - cbn [forallb fst snd] in Hcan. apply andb_true_iff in Hcan as [Hc Hcan].
    apply andb_true_iff in Hc as [Hkey _].
    destruct key as [ | k [ | ? ? ] ]; try discriminate Hkey.
    cbn [canonical_key] in Hkey.
    inversion HF as [ | ? ? Hv HF' ]; subst. cbn [snd] in Hv.
    set (tail2 := CH_COLON :: render v ++ render_members render ms false
                           ++ CH_RBRACE :: tail).
    assert (R1' : rest (advance p) = CH_QUOTE :: [k] ++ CH_QUOTE :: tail2).
    { rewrite R1. unfold tail2. cbn [render_members app].
      rewrite <- ?app_assoc. reflexivity. }
    destruct (next_token_string (advance p) [k] tail2 R1'
                                (fun n => scan_string_key k tail2 n Hkey))
      as (Htok & Hbytes & R2).
    rewrite Htok. cbn [tk_type].
    set (token := mk_token JSONK_TOKEN_STRING (pos (advance p) + 1) (length [k])) in *.
    set (p2 := set_pos (advance p) (pos (advance p) + length [k] + 2)) in *.
    assert (D2 : depth p2 = depth p) by reflexivity.
    assert (M2 : total_memory_used p2 = total_memory_used p) by reflexivity.
    assert (S2 : string_count p2 = string_count p) by reflexivity.
    assert (B2 : buffer p2 = buffer p) by reflexivity.
    assert (P2 : pos p2 = (S (pos p) + length [k] + 2)%nat) by reflexivity.
    destruct (parse_object_loop_reads ms HF' Hcan k v Hv
                                      (S (buffer_len p2 - pos p2)) [] token p2 tail
                                      eq_refl Hbytes R2)
      as (p' & -> & B' & P' & D' & M' & S').
    + rewrite <- rest_length, R2. unfold tail2. cbn [length]. rewrite !length_app.
      pose proof (render_members_length ms). lia.
    + cbn [length app] in *. members_lia.
    + members_lia.
    + members_lia.
    + members_lia.
    + cbn [app]. eexists. split; [reflexivity|].
      cbn [render render_members]. rewrite ?length_app in *. cbn [length app] in *.
      rewrite ?length_app in *. cbn [length] in *.
      repeat split; try congruence; members_lia.
Qed.


End LoopsRead.

Lemma nesting_elements_below (es : list jsonk_value) (b : Z) :
  nesting (JArray es) <= b + 1 -> Forall (fun e => nesting e <= b) es.
Proof.
  induction es as [ | e es IH ]; intros H; constructor;
    destruct (array_measures_cons e es) as (Nd & _); [lia | apply IH; lia].
Qed.

Lemma nesting_members_below (ms : list jsonk_member) (b : Z) :
  nesting (JObject ms) <= b + 1 ->
  Forall (fun m : jsonk_member => nesting (snd m) <= b) ms.
Proof.
  induction ms as [ | [k v] ms IH ]; intros H; constructor;
    destruct (object_measures_cons k v ms) as (Nd & _);
    [cbn [snd]; members_lia | apply IH; members_lia].
Qed.

(** The value parser on the rendering of a canonical value, with a
    recursion bound of at least the nesting of the value. *)
Lemma parse_value_reads (v : jsonk_value) :
  canonical v = true ->
  forall d, nesting v <= Z.of_nat d -> parses (jsonk_parse_value d) v.
Proof.
  induction v as [ | b | i f n g | data | es IH | ms IH ] using jsonk_value_rect';
    intros Hc d Hd.
  1-4: destruct d as [ | d ]; [cbn in Hd; lia | now apply parse_value_scalar].
  - pose proof (nesting_pos (JArray es)) as Hpos.
    destruct d as [ | d ]; [lia|].
    cbn [canonical] in Hc. apply andb_true_iff in Hc as [Hlen Hcan].
    apply Z.leb_le in Hlen.
    assert (HF : Forall (parses (jsonk_parse_value d)) es).
    { pose proof (nesting_elements_below es (Z.of_nat d) ltac:(lia)) as Hn.
      rewrite forallb_forall in Hcan. rewrite Forall_forall in *.
      intros e He. apply IH; auto. }
    intros p tail R Hclose Hdepth Hmem Hcount.
    cbn [jsonk_parse_value].
    replace (depth p >=? JSONK_MAX_DEPTH) with false
      by (symmetry; rewrite Z.geb_leb; apply Z.leb_gt; lia).
    set (p1 := set_depth p (depth p + 1)).
    assert (R1 : rest p1 = CH_LBRACKET :: render_elements render es true
                                       ++ CH_RBRACKET :: tail).
    { change (rest p1) with (rest p). rewrite R. cbn [render app].
      now rewrite <- app_assoc. }
    destruct (next_token_punctuation p1 (render_elements render es true
                                                         ++ CH_RBRACKET :: tail))
      as (_ & _ & Hk & _).
    rewrite (Hk R1). cbn [tk_type tk_len].
    set (p0 := set_pos (advance p1) (pos (advance p1) - 1)).
    assert (B0 : buffer p0 = buffer p) by reflexivity.
    assert (P0 : pos p0 = pos p) by (unfold p0, advance, p1; simpl; lia).
    assert (D0 : depth p0 = depth p + 1) by reflexivity.
    assert (M0 : total_memory_used p0 = total_memory_used p) by reflexivity.
    assert (S0 : string_count p0 = string_count p) by reflexivity.
    assert (R0 : rest p0 = render (JArray es) ++ tail)
      by (rewrite (rest_same p p0 B0 P0); exact R).
    destruct (parse_array_reads (jsonk_parse_value d) es HF Hcan Hlen p0 tail R0)
      as (p' & -> & B' & P' & D' & M' & S'); [lia | lia | lia | ].
    cbn [leave]. eexists. split; [reflexivity|].
    unfold advanced, set_depth.
    cbn [buffer pos depth total_memory_used string_count].
    repeat split; try congruence; lia.
  - pose proof (nesting_pos (JObject ms)) as Hpos.
    destruct d as [ | d ]; [lia|].
    cbn [canonical] in Hc. apply andb_true_iff in Hc as [Hlen Hcan].
    apply Z.leb_le in Hlen.
    assert (HF : Forall (fun m : jsonk_member => parses (jsonk_parse_value d) (snd m)) ms).
    { pose proof (nesting_members_below ms (Z.of_nat d) ltac:(lia)) as Hn.
      rewrite forallb_forall in Hcan. rewrite Forall_forall in *.
      intros m Hm. apply IH; auto.
      specialize (Hcan m Hm). now apply andb_true_iff in Hcan as [_ ?]. }
    intros p tail R Hclose Hdepth Hmem Hcount.
    cbn [jsonk_parse_value].
    replace (depth p >=? JSONK_MAX_DEPTH) with false
      by (symmetry; rewrite Z.geb_leb; apply Z.leb_gt; lia).
    set (p1 := set_depth p (depth p + 1)).
    assert (R1 : rest p1 = CH_LBRACE :: render_members render ms true
                                     ++ CH_RBRACE :: tail).
    { change (rest p1) with (rest p). rewrite R. cbn [render app].
      now rewrite <- app_assoc. }
    destruct (next_token_punctuation p1 (render_members render ms true
                                                        ++ CH_RBRACE :: tail))
      as (Hk & _).
    rewrite (Hk R1). cbn [tk_type tk_len].
    set (p0 := set_pos (advance p1) (pos (advance p1) - 1)).
    assert (B0 : buffer p0 = buffer p) by reflexivity.
    assert (P0 : pos p0 = pos p) by (unfold p0, advance, p1; simpl; lia).
    assert (D0 : depth p0 = depth p + 1) by reflexivity.
    assert (M0 : total_memory_used p0 = total_memory_used p) by reflexivity.
    assert (S0 : string_count p0 = string_count p) by reflexivity.
    assert (R0 : rest p0 = render (JObject ms) ++ tail)
      by (rewrite (rest_same p p0 B0 P0); exact R).
    destruct (parse_object_reads (jsonk_parse_value d) ms HF Hcan Hlen p0 tail R0)
      as (p' & -> & B' & P' & D' & M' & S'); [lia | lia | lia | ].
    cbn [leave]. eexists. split; [reflexivity|].
    unfold advanced, set_depth.
    cbn [buffer pos depth total_memory_used string_count].
    repeat split; try congruence; lia.
Qed.

(** ** Whole documents *)

Lemma jsonk_parse_render (v : jsonk_value) :
  canonical v = true ->
  nesting v <= JSONK_MAX_DEPTH ->
  tracked_bytes v <= JSONK_MAX_TOTAL_MEMORY ->
  string_values v <= JSONK_MAX_ARRAY_SIZE ->
  jsonk_parse (render v) = Got v.
Proof.
  intros Hc Hd Hm Hs. unfold jsonk_parse.
  destruct (render_head v Hc) as (c & l & Hr & _).
  replace (length (render v) =? 0)%nat with false
    by (rewrite Hr; reflexivity).
  assert (Hfuel : nesting v <= Z.of_nat (Z.to_nat JSONK_MAX_DEPTH))
    by (rewrite Z2Nat.id; [exact Hd | unfold JSONK_MAX_DEPTH; lia]).
  destruct (parse_value_reads v Hc (Z.to_nat JSONK_MAX_DEPTH) Hfuel
                              (jsonk_parser_init (render v)) [])
    as (p' & -> & _).
  - unfold rest, jsonk_parser_init. cbn [pos buffer skipn]. now rewrite app_nil_r.
  - exact I.
  - exact Hd.
  - exact Hm.
  - exact Hs.
  - reflexivity.
Qed.

Lemma serialized_render (v : jsonk_value) (size : nat) (text : list char) :
  serialized v size = Some text -> text = render v.
Proof.
  unfold serialized. intros H.
  pose proof (jsonk_serialize_correct v (fresh_buffer size CH_NUL) 0%nat size) as C.
  cbv zeta in C.
  destruct (jsonk_serialize v (fresh_buffer size CH_NUL) 0 size) as [[ret written] b].
  destruct C as [_ [(-> & _ & _ & Hw) | (-> & _)]].
  - unfold fresh_buffer. rewrite repeat_length. lia.
  - cbn [skipn] in Hw. change (0 <? 0) with false in H. cbv iota in H. congruence.
  - discriminate H.
Qed.

(** X21.  Parsing the compact text of a canonical value gives the value
    back: for a tree with non-negative Numbers carrying the flags of
    [jsonk_value_create_number], Strings without control bytes other
    than the five escaped ones, one-byte keys and sizes within the
    limits, whose nesting, tracked bytes and String count are within the
    parser's budgets, [jsonk_parse] of the rendering returns the tree. *)
Theorem render_then_parse (v : jsonk_value) :
  canonical v = true ->
  nesting v <= JSONK_MAX_DEPTH ->
  tracked_bytes v <= JSONK_MAX_TOTAL_MEMORY ->
  string_values v <= JSONK_MAX_ARRAY_SIZE ->
  jsonk_parse (render v) = Got v.
Proof. exact (jsonk_parse_render v). Qed.

Lemma render_then_parse_document :
  let v := JObject [ (bytes "a", JArray [JNumber 1 0 false true;
                                         JString [CH_a; CH_LF; CH_QUOTE];
                                         JNull]);
                     (bytes "b", JNumber 3 14 false false);
                     (bytes "c", JObject [(bytes "d", JBoolean true)]) ] in
  jsonk_parse (render v) = Got v.
Proof.
  intros v. apply render_then_parse.
  - vm_compute; reflexivity.
  - apply Z.leb_le; vm_compute; reflexivity.
  - apply Z.leb_le; vm_compute; reflexivity.
  - apply Z.leb_le; vm_compute; reflexivity.
Defined.

(** X22.  What [jsonk_serialize] writes for such a value into a buffer
    that is large enough is parsed back to the value by [jsonk_parse]. *)
Theorem serialize_then_parse (v : jsonk_value) (size : nat) (text : list char) :
  canonical v = true ->
  nesting v <= JSONK_MAX_DEPTH ->
  tracked_bytes v <= JSONK_MAX_TOTAL_MEMORY ->
  string_values v <= JSONK_MAX_ARRAY_SIZE ->
  serialized v size = Some text ->
  jsonk_parse text = Got v.
Proof.
  intros Hc Hd Hm Hs H. rewrite (serialized_render v size text H).
  now apply jsonk_parse_render.
Qed.

Lemma serialize_then_parse_document :
  jsonk_parse (json "{'n':[10,'a\n',false],'m':{'k':2.5}}")
  = Got (JObject [ (bytes "n", JArray [JNumber 10 0 false true;
                                       JString [CH_a; CH_LF];
                                       JBoolean false]);
                   (bytes "m", JObject [(bytes "k", JNumber 2 5 false false)]) ]).
Proof.
  apply (serialize_then_parse _ 64).
  - vm_compute; reflexivity.
  - apply Z.leb_le; vm_compute; reflexivity.
  - apply Z.leb_le; vm_compute; reflexivity.
  - apply Z.leb_le; vm_compute; reflexivity.
  - vm_compute; reflexivity.
Defined.

(** ** Strings that the parser refuses *)

Lemma scan_string_raw_control (data tail : list char) :
  forallb text_char data = false ->
  forall n, scan_string (flat_map escape_char data ++ CH_QUOTE :: tail) n
            = ERR (- EINVAL).
Proof.
  induction data as [ | c data IH ]; intros H n; [discriminate H|].
  cbn [forallb] in H.
  change (flat_map escape_char (c :: data))
    with (escape_char c ++ flat_map escape_char data).
  rewrite <- app_assoc.
  destruct (text_char c) eqn:Hc.
  - cbn [andb] in H.
    destruct (escape_char_cases c Hc) as [(e & He & ->) | (-> & Eq & Eb & E32)].
    + cbn [app scan_string].
      change (CH_BACKSLASH =? CH_QUOTE) with false.
      change (CH_BACKSLASH =? CH_BACKSLASH) with true. cbv iota.
      rewrite He. apply (IH H).
    + cbn [app scan_string]. rewrite Eq, Eb, E32. apply (IH H).
  - unfold text_char in Hc.
    repeat (apply orb_false_iff in Hc; destruct Hc as [Hc ?]).
    apply Z.leb_gt in Hc.
    assert (Eq : (c =? CH_QUOTE) = false) by (apply Z.eqb_neq; unfold CH_QUOTE; lia).
    assert (Eb : (c =? CH_BACKSLASH) = false)
      by (apply Z.eqb_neq; unfold CH_BACKSLASH; lia).
    unfold escape_char. rewrite Eq, Eb. cbn [orb].
    repeat match goal with
           | E : (c =? ?k) = false |- context [c =? ?k] => rewrite E
           end.
    cbn [app scan_string]. rewrite Eq, Eb.
    replace (c <? 32) with true by (symmetry; apply Z.ltb_lt; lia).
    reflexivity.
Qed.

(** X23.  A String that holds a control byte other than backspace, form
    feed, line feed, carriage return and tab is not read back: the
    serializer writes such a byte as it is, and [jsonk_parse] refuses
    the text that was written. *)
Theorem control_byte_not_read_back (data : list char) (size : nat) (text : list char) :
  forallb text_char data = false ->
  serialized (JString data) size = Some text ->
  jsonk_parse text = Null.
Proof.
  intros Hbad H. rewrite (serialized_render _ _ _ H).
  unfold jsonk_parse. cbn [render app length Nat.eqb].
  assert (Hfuel : exists d, Z.to_nat JSONK_MAX_DEPTH = S d)
    by (exists 31%nat; reflexivity).
  destruct Hfuel as [d ->]. cbn [jsonk_parse_value].
  change (depth (jsonk_parser_init _) >=? JSONK_MAX_DEPTH) with false. cbv iota.
  set (p := set_depth _ _).
  assert (R : rest p = CH_QUOTE :: flat_map escape_char data ++ [CH_QUOTE])
    by reflexivity.
  rewrite (next_token_quote p _ R). unfold jsonk_parse_string.
  assert (R1 : rest (set_pos p (pos p + 1)) = flat_map escape_char data ++ [CH_QUOTE])
    by (apply (rest_at p _ [CH_QUOTE]); [exact R | reflexivity | reflexivity]).
  rewrite R1, (scan_string_raw_control data [] Hbad). reflexivity.
Qed.

Lemma control_byte_not_read_back_escape :
  jsonk_parse [CH_QUOTE; CH_a; 27; CH_QUOTE] = Null.
Proof.
  apply (control_byte_not_read_back [CH_a; 27] 8).
  - reflexivity.
  - vm_compute; reflexivity.
Defined.

(** * Number tokens always construct *)

Lemma skip_digits_from_split (l : list char) :
  forall n, exists ds tail,
      l = ds ++ tail /\ forallb is_digit ds = true /\
      skip_digits_from l n = (n + length ds)%nat.
Proof.
  induction l as [ | c l IH ]; intros n.
  - exists [], []. repeat split. simpl. lia.
  - cbn [skip_digits_from]. destruct (is_digit c) eqn:Hc.
    + destruct (IH (S n)) as (ds & tail & -> & Hds & ->).
      exists (c :: ds), tail. repeat split.
      * cbn [forallb]. now rewrite Hc.
      * cbn [length]. lia.
    + exists [], (c :: l). repeat split. simpl. lia.
Qed.

Lemma peek_char_rest (p : jsonk_parser) (c : char) :
  jsonk_peek_char p = c -> c <> CH_NUL -> exists r, rest p = c :: r.
Proof.
  unfold jsonk_peek_char. destruct (rest p) as [ | x r ]; intros H Hc.
  - congruence.
  - subst. now exists r.
Qed.

Lemma at_char_rest (p : jsonk_parser) (c : char) :
  at_char p c = true -> exists r, rest p = c :: r.
Proof.
  unfold at_char. destruct (rest p) as [ | x r ]; [discriminate|].
  intros H. apply Z.eqb_eq in H. subst. now exists r.
Qed.

Lemma number_integer_shape (p p1 : jsonk_parser) :
  number_integer p = OK p1 ->
  exists ds r,
    rest p = ds ++ r /\ ds <> [] /\ forallb is_digit ds = true /\
    buffer p1 = buffer p /\ pos p1 = (pos p + length ds)%nat.
Proof.
  unfold number_integer.
  destruct (jsonk_peek_char p =? CH_0) eqn:E0.
  - apply Z.eqb_eq in E0.
    destruct (peek_char_rest p CH_0 E0 ltac:(discriminate)) as (r & R).
    destruct (is_digit _); [discriminate|]. intros [= <-].
    exists [CH_0], r. repeat split; [exact R | discriminate | ].
    unfold advance. cbn [pos set_pos length]. lia.
  - destruct ((CH_1 <=? jsonk_peek_char p) && (jsonk_peek_char p <=? CH_9)) eqn:E1;
      [ | discriminate ].
    apply andb_true_iff in E1 as [L1 L9]. apply Z.leb_le in L1, L9.
    destruct (peek_char_rest p (jsonk_peek_char p) eq_refl) as (r & R).
    { unfold CH_1, CH_NUL in *. lia. }
    intros [= <-].
    assert (Ra : rest (advance p) = r) by (now apply rest_advance in R).
    unfold skip_digits. rewrite Ra.
    destruct (skip_digits_from_split r (pos (advance p))) as (ds & tail & -> & Hds & ->).
    exists (jsonk_peek_char p :: ds), tail.
    repeat split; [exact R | discriminate | | ].
    + cbn [forallb]. rewrite Hds, andb_true_r.
      apply is_digit_of_range. unfold CH_1, CH_9 in *. lia.
    + unfold advance. cbn [pos set_pos length]. lia.
Qed.

Lemma number_fraction_shape (p p2 : jsonk_parser) :
  number_fraction p = OK p2 ->
  buffer p2 = buffer p /\
  (p2 = p \/ (exists r, rest p = CH_DOT :: r) /\ (pos p < pos p2)%nat).
Proof.
  unfold number_fraction. destruct (at_char p CH_DOT) eqn:E.
  - destruct (no_digit_here _); [discriminate|]. intros [= <-].
    split; [reflexivity|]. right. split; [now apply at_char_rest|].
    unfold skip_digits.
    pose proof (skip_digits_from_bounds (rest (advance p)) (pos (advance p))) as B.
    unfold advance in *. cbn [pos set_pos] in *. lia.
  - intros [= <-]. auto.
Qed.

Lemma number_exponent_shape (p p3 : jsonk_parser) :
  number_exponent p = OK p3 ->
  buffer p3 = buffer p /\
  (p3 = p \/
   (exists c r, rest p = c :: r /\ (c = CH_e \/ c = CH_E)) /\ (pos p < pos p3)%nat).
Proof.
  unfold number_exponent. destruct (at_char p CH_e || at_char p CH_E) eqn:E.
  - set (q := if at_char (advance p) CH_PLUS || at_char (advance p) CH_MINUS
              then advance (advance p) else advance p).
    assert (Bq : buffer q = buffer p /\ (S (pos p) <= pos q)%nat).
    { unfold q.
      destruct (at_char (advance p) CH_PLUS || at_char (advance p) CH_MINUS);
        unfold advance; cbn [buffer pos set_pos]; split; (reflexivity || lia). }
    destruct (no_digit_here q); [discriminate|]. intros [= <-].
    split; [exact (proj1 Bq)|]. right. split.
    + apply orb_true_iff in E as [E | E]; apply at_char_rest in E as (r & R); eauto.
    + unfold skip_digits.
      pose proof (skip_digits_from_bounds (rest q) (pos q)) as B.
      cbn [pos set_pos]. lia.
  - intros [= <-]. auto.
Qed.

Lemma strtoull_all_digits (ds : list char) :
  forall r, forallb is_digit ds = true -> snd (simple_strtoull ds r) = [].
Proof.
  induction ds as [ | c ds IH ]; intros r H; [reflexivity|].
  simpl in H. apply andb_true_iff in H as [Hc Hds].
  cbn [simple_strtoull]. rewrite Hc. now apply IH.
Qed.

(** The bytes of a number token: an optional minus sign, at least one
    digit and, if anything follows, a point or an exponent mark first. *)
Lemma parse_number_shape (p : jsonk_parser) token p' :
  jsonk_parse_number p = OK (token, p') ->
  exists sign ds tl,
    (sign = [] \/ sign = [CH_MINUS]) /\ ds <> [] /\ forallb is_digit ds = true /\
    token_bytes p' token = sign ++ ds ++ tl /\
    (tl = [] \/ exists c tl', tl = c :: tl' /\ (c = CH_DOT \/ c = CH_e \/ c = CH_E)).
Proof.
  unfold jsonk_parse_number.
  set (p0 := if jsonk_peek_char p =? CH_MINUS then advance p else p).
  assert (H0 : exists sign,
             (sign = [] \/ sign = [CH_MINUS]) /\ buffer p0 = buffer p /\
             pos p0 = (pos p + length sign)%nat /\ rest p = sign ++ rest p0).
  { subst p0. destruct (jsonk_peek_char p =? CH_MINUS) eqn:E.
    - apply Z.eqb_eq in E.
      destruct (peek_char_rest p CH_MINUS E ltac:(discriminate)) as (r & R).
      exists [CH_MINUS]. repeat split; auto.
      + unfold advance. cbn [pos set_pos length]. lia.
      + rewrite R. apply rest_advance in R. now rewrite R.
    - exists []. repeat split; auto. }
  destruct H0 as (sign & Hsign & B0 & P0 & R0).
  destruct (number_integer p0) as [p1 | ] eqn:E1; [ | discriminate ].
  destruct (number_fraction p1) as [p2 | ] eqn:E2; [ | discriminate ].
  destruct (number_exponent p2) as [p3 | ] eqn:E3; [ | discriminate ].
  intros [= <- <-].
  apply number_integer_shape in E1 as (ds & r1 & R1 & Hne & Hds & B1 & P1).
  apply number_fraction_shape in E2 as (B2 & F2).
  apply number_exponent_shape in E3 as (B3 & F3).
  assert (Rp1 : rest p1 = r1)
    by (apply (rest_at p0 p1 ds); assumption).
  exists sign, ds, (firstn (pos p3 - pos p1) r1).
  split; [exact Hsign|]. split; [exact Hne|]. split; [exact Hds|].
  assert (Hge : (pos p1 <= pos p3)%nat).
  { destruct F2 as [-> | [_ L2]]; destruct F3 as [-> | [_ L3]]; lia. }
  split.
  - unfold token_bytes. cbn [tk_len tk_start].
    rewrite B3, B2, B1, B0. change (skipn (pos p) (buffer p)) with (rest p).
    rewrite R0, R1, app_assoc.
    replace (pos p3 - pos p)%nat with (length (sign ++ ds) + (pos p3 - pos p1))%nat
      by (rewrite length_app; lia).
    now rewrite firstn_app_2, <- app_assoc.
  - destruct F2 as [-> | [(r & R2) L2]].
    + destruct F3 as [-> | [(c & r & R3 & Hc) L3]].
      * left. now rewrite Nat.sub_diag.
      * right. rewrite Rp1 in R3. subst r1.
        destruct (pos p3 - pos p1)%nat as [ | k ] eqn:Ek; [lia|].
        exists c, (firstn k r). split; [reflexivity | tauto].
    + right. rewrite Rp1 in R2. subst r1.
      destruct (pos p3 - pos p1)%nat as [ | k ] eqn:Ek.
      { destruct F3 as [-> | [_ L3]]; lia. }
      exists CH_DOT, (firstn k r). split; [reflexivity | tauto].
Qed.

(** X24.  A number token never makes the value parser fail: for every
    token that [jsonk_parse_number] accepts, [jsonk_value_create_number]
    returns a Number, so its conversion check
    ([endptr != num_str + len]) never fires on scanned input. *)
Theorem number_token_constructs (p : jsonk_parser) token p' :
  jsonk_parse_number p = OK (token, p') ->
  exists integer fraction is_negative is_integer,
    jsonk_value_create_number (token_bytes p' token)
    = Some (JNumber integer fraction is_negative is_integer).
Proof.
  intros H.
  destruct (parse_number_shape p token p' H)
    as (sign & ds & tl & Hsign & Hne & Hds & -> & Htl).
  destruct (existsb (fun c => (c =? CH_DOT) || (c =? CH_e) || (c =? CH_E))
                    (sign ++ ds ++ tl)) eqn:Hmark.
  - unfold jsonk_value_create_number.
    pose proof (scan_number_flags_spec (sign ++ ds ++ tl) false) as F.
    destruct (scan_number_flags _ false) as [hd he]. cbn [orb] in F.
    rewrite Hmark in F. rewrite F.
    destruct (parse_int_part _ 0) as [int_part l]. eauto.
  - rewrite !existsb_app in Hmark.
    apply orb_false_iff in Hmark as [_ Hmark].
    apply orb_false_iff in Hmark as [_ Hmark].
    destruct Htl as [-> | (c & tl' & -> & Hc)].
    2:{ cbn [existsb] in Hmark. apply orb_false_iff in Hmark as [Hmark _].
        destruct Hc as [-> | [-> | ->]]; discriminate Hmark. }
    rewrite app_nil_r.
    rewrite create_number_integer.
    2:{ rewrite existsb_app. apply orb_false_iff.
        split; [destruct Hsign as [-> | ->]; reflexivity | exact (digits_no_mark _ Hds)]. }
    destruct ds as [ | d ds ]; [congruence|].
    pose proof (strtoull_all_digits (d :: ds) 0 Hds) as S0.
    destruct Hsign as [-> | ->]; cbn [app simple_strtoll].
    + replace (d =? CH_MINUS) with false.
      * destruct (simple_strtoull (d :: ds) 0) as [u endptr]. cbn [snd] in S0.
        subst endptr. cbn [is_nil]. eauto.
      * symmetry. apply Z.eqb_neq. simpl in Hds.
        apply andb_true_iff in Hds as [Hd _]. apply is_digit_range in Hd.
        unfold CH_MINUS. lia.
    + change (CH_MINUS =? CH_MINUS) with true. cbv iota.
      destruct (simple_strtoull (d :: ds) 0) as [u endptr]. cbn [snd] in S0.
      subst endptr. cbn [is_nil]. eauto.
Qed.

Lemma number_token_constructs_exponent :
  exists integer fraction is_negative is_integer,
    jsonk_value_create_number (bytes "-12.5e3")
    = Some (JNumber integer fraction is_negative is_integer).
Proof.
  apply (number_token_constructs (jsonk_parser_init (bytes "-12.5e3,"))
                                 (mk_token JSONK_TOKEN_NUMBER 0 7)
                                 (set_pos (jsonk_parser_init (bytes "-12.5e3,")) 7)).
  vm_compute; reflexivity.
Defined.
